(** * vv-ai-prompt-format: a shallow embedding of the prompt text format

    The development follows the TypeScript sources:
    - [src/index.ts]: [PromtOptionsParse], [PromtLoad], [PromtStore],
      [ToPromtOptionsOpenAi], [ToPromtOptionsOllama],
      [ToPromtOptionsLlamaCpp], [GrammarCheck] and the private helpers
      [parse], [finishSection], [parseOptionsToObject], [parseOptionValue],
      [serialize], [serializeOptionValue];
    - [src/promtOptions/value.ts]: [PromtValue], [defVal], [defValJson];
    - [src/promtOptions/index.ts]: [SPromtOptions], [SPromtOptionsJson].

    The first part models the pieces of the JavaScript runtime the sources
    call (strings, numbers, objects, JSON) and the schema check of TypeBox;
    the second part is the code of the repository; the theorems come last. *)

From Stdlib Require Import List ZArith NArith Bool Lia String Ascii.
From Stdlib Require Import Floats.SpecFloat.
Import ListNotations.

Local Open Scope Z_scope.

(* ===================================================================== *)
(** * Part I. The JavaScript runtime                                      *)
(* ===================================================================== *)

(** ** Strings

    A JavaScript string is a finite sequence of UTF-16 code units.  A code
    unit is kept as a number, a string as the list of its code units. *)

Definition char := N.
Definition str := list char.

(** [lit] turns a literal of this file into a JavaScript string. *)
Definition lit (s : string) : str :=
  List.map N_of_ascii (list_ascii_of_string s).

Definition dquote : char := 34%N.
Definition squote : char := 39%N.
Definition newline : char := 10%N.

Fixpoint str_eqb (a b : str) : bool :=
  match a, b with
  | [], [] => true
  | x :: a', y :: b' => N.eqb x y && str_eqb a' b'
  | _, _ => false
  end.

(** White space and line terminators, as [String.prototype.trim] strips
    them: TAB, LF, VT, FF, CR, SP, NBSP, the Unicode space separators, LS,
    PS and the byte order mark. *)
Definition is_ws (c : char) : bool :=
  ((9 <=? c) && (c <=? 13) || (c =? 32) || (c =? 160) || (c =? 5760)
   || ((8192 <=? c) && (c <=? 8202)) || (c =? 8232) || (c =? 8233)
   || (c =? 8239) || (c =? 8287) || (c =? 12288) || (c =? 65279))%N.

Fixpoint trimStart (s : str) : str :=
  match s with
  | [] => []
  | c :: r => if is_ws c then trimStart r else s
  end.

Definition trimEnd (s : str) : str := rev (trimStart (rev s)).

Definition trim (s : str) : str := trimEnd (trimStart s).

(** [split sep s] is [s.split(sep)] for a separator of one code unit: the
    result is never empty, and the empty string gives one empty piece. *)
Fixpoint split (sep : char) (s : str) : list str :=
  match s with
  | [] => [[]]
  | c :: r =>
      if N.eqb c sep then [] :: split sep r
      else match split sep r with
           | l :: ls => (c :: l) :: ls
           | [] => [[c]]
           end
  end.

(** [join sep l] is [l.join(sep)]. *)
Fixpoint join (sep : str) (l : list str) : str :=
  match l with
  | [] => []
  | [x] => x
  | x :: r => x ++ sep ++ join sep r
  end.

Fixpoint startsWith (p s : str) : bool :=
  match p, s with
  | [], _ => true
  | x :: p', y :: s' => N.eqb x y && startsWith p' s'
  | _ :: _, [] => false
  end.

Definition endsWith (p s : str) : bool := startsWith (rev p) (rev s).

(** [indexOf c s] is [s.indexOf(c)] for one code unit: the position of its
    first occurrence, or [-1]. *)
Fixpoint indexOf (c : char) (s : str) : Z :=
  match s with
  | [] => -1
  | x :: r =>
      if N.eqb x c then 0
      else let i := indexOf c r in if i <? 0 then -1 else i + 1
  end.

(** [substring a b s] is [s.substring(a, b)] for [0 <= a <= b]; positions
    beyond the end are clamped to the length. *)
Definition substring (a b : Z) (s : str) : str :=
  firstn (Z.to_nat (b - a)) (skipn (Z.to_nat a) s).

(** [substring_from a s] is [s.substring(a)]. *)
Definition substring_from (a : Z) (s : str) : str := skipn (Z.to_nat a) s.

(** [slice_1_m1 s] is [s.slice(1, -1)]: the string without its first and
    its last code unit (empty when the string has fewer than two). *)
Definition slice_1_m1 (s : str) : str := removelast (tl s).

(** [replace_first c d s] is [s.replace(c, d)] for two strings of one code
    unit: only the first occurrence is replaced. *)
Fixpoint replace_first (c d : char) (s : str) : str :=
  match s with
  | [] => []
  | x :: r => if N.eqb x c then d :: r else x :: replace_first c d r
  end.

(** [toLowerCase]: the source compares the result only with words made of
    ASCII letters and digits without k and i, and the only code units that
    are lowered to such a letter are the ASCII capitals; the Latin-1
    capitals are lowered as well, other code units are kept. *)
Definition lower_char (c : char) : char :=
  (if (65 <=? c) && (c <=? 90) then c + 32
   else if (192 <=? c) && (c <=? 222) && negb (c =? 215) then c + 32
   else c)%N.

Definition toLowerCase (s : str) : str := List.map lower_char s.

Definition is_digit (c : char) : bool := ((48 <=? c) && (c <=? 57))%N.

Definition digit_val (c : char) : Z := Z.of_N c - 48.

(** ** Numbers

    A JavaScript number is an IEEE 754 binary64 value: [spec_float] of the
    standard library at precision 53 and maximal exponent 1024, with the
    mantissa of a finite value in canonical form. *)

Definition number := spec_float.

Definition prec : Z := 53.
Definition emax : Z := 1024.

Definition NaN : number := S754_nan.

Definition isNaN (x : number) : bool :=
  match x with S754_nan => true | _ => false end.

(** [Number.isFinite]. *)
Definition isFinite (x : number) : bool :=
  match x with S754_zero _ | S754_finite _ _ _ => true | _ => false end.

(** [Number.isInteger]: a finite value without fractional part. *)
Definition isInteger (x : number) : bool :=
  match x with
  | S754_zero _ => true
  | S754_finite _ m e =>
      if 0 <=? e then true else Z.eqb (Z.pos m mod 2 ^ (- e)) 0
  | _ => false
  end.

(** [x <= y] on numbers; false as soon as one side is [NaN]. *)
Definition num_le (x y : number) : bool := SFleb x y.

Definition num_eqb (x y : number) : bool :=
  match x, y with
  | S754_zero a, S754_zero b => Bool.eqb a b
  | S754_infinity a, S754_infinity b => Bool.eqb a b
  | S754_nan, S754_nan => true
  | S754_finite a m e, S754_finite b m' e' =>
      Bool.eqb a b && Pos.eqb m m' && Z.eqb e e'
  | _, _ => false
  end.

(** [number_of_decimal neg m e] is the number nearest to [m * 10^e]
    (ties to even), negated when [neg]; [m] is not negative. *)
Definition number_of_decimal (neg : bool) (m e : Z) : number :=
  match m with
  | Z0 => S754_zero neg
  | Zpos p =>
      if 0 <=? e then binary_round prec emax neg (Z.to_pos (Z.pos p * 10 ^ e)) 0
      else
        let '(q, e', l) := SFdiv_core_binary prec emax (Z.pos p) 0 (10 ^ (- e)) 0 in
        binary_round_aux prec emax neg q e' l
  | Zneg _ => S754_nan
  end.

(** [num_of_Z z] is the number nearest to the integer [z]. *)
Definition num_of_Z (z : Z) : number :=
  number_of_decimal (z <? 0) (Z.abs z) 0.

(** The longest prefix of decimal digits, and what follows it. *)
Fixpoint span_digits (s : str) : str * str :=
  match s with
  | c :: r =>
      if is_digit c then let '(d, t) := span_digits r in (c :: d, t)
      else ([], s)
  | [] => ([], [])
  end.

Definition digits_value (d : str) : Z :=
  fold_left (fun a c => 10 * a + digit_val c) d 0.

(** The exponent part [e], [e+] or [e-] followed by at least one digit;
    without it the exponent is 0. *)
Definition exponent_part (s : str) : Z :=
  match s with
  | c :: r =>
      if (N.eqb c 101 || N.eqb c 69)%bool then
        match r with
        | sg :: r' =>
            if N.eqb sg 43 then
              match fst (span_digits r') with [] => 0 | d => digits_value d end
            else if N.eqb sg 45 then
              match fst (span_digits r') with [] => 0 | d => - digits_value d end
            else
              match fst (span_digits r) with [] => 0 | d => digits_value d end
        | [] => 0
        end
      else 0
  | [] => 0
  end.

(** The unsigned part of [parseFloat]: [Infinity], or digits with an
    optional fraction and exponent; [NaN] when no prefix is a numeral. *)
Definition parse_unsigned (neg : bool) (s : str) : number :=
  if startsWith (lit "Infinity") s then S754_infinity neg
  else
    let '(int_d, r1) := span_digits s in
    let '(frac_d, r2) :=
      match r1 with
      | c :: r => if N.eqb c 46 then span_digits r else ([], r1)
      | [] => ([], r1)
      end in
    match int_d ++ frac_d with
    | [] => NaN
    | d => number_of_decimal neg (digits_value d)
             (exponent_part r2 - Z.of_nat (List.length frac_d))
    end.

(** [parseFloat s]: leading white space is skipped, then the longest prefix
    that is a decimal literal gives the value. *)
Definition parseFloat (s : str) : number :=
  match trimStart s with
  | c :: r =>
      if N.eqb c 43 then parse_unsigned false r
      else if N.eqb c 45 then parse_unsigned true r
      else parse_unsigned false (c :: r)
  | [] => NaN
  end.

(** The decimal digits of a natural number. *)
Fixpoint dec_digits (fuel : nat) (n : Z) (acc : str) : str :=
  match fuel with
  | O => acc
  | S f =>
      let acc' := Z.to_N (48 + n mod 10) :: acc in
      if n <? 10 then acc' else dec_digits f (n / 10) acc'
  end.

Definition Z_to_string (n : Z) : str :=
  dec_digits (S (Z.to_nat (Z.log2 n))) n [].

(** [decimal_magnitude a b] is the [n] with [10^(n-1) <= a/b < 10^n], for
    positive [a] and [b]. *)
Fixpoint first_scale (fuel : nat) (a b j : Z) : Z :=
  match fuel with
  | O => j
  | S f => if b <=? a * 10 ^ j then j else first_scale f a b (j + 1)
  end.

Definition decimal_magnitude (a b : Z) : Z :=
  if b <=? a then Z.of_nat (List.length (Z_to_string (a / b)))
  else 1 - first_scale 400 a b 1.

(** The shortest decimal [s * 10^(n-k)], [s] of [k] digits, that reads back
    as the value [a/b = m * 2^e]; among two of the same length the one
    nearest to the value, and the even one when they are as near.  The
    candidate [10^k], which has one digit more, is the numeral [1] of the
    next magnitude and is read back in this form.  The search ends at the
    latest with the exact decimal expansion of the value, which the fuel
    given by [positive_to_string] reaches. *)
Fixpoint shortest_digits (fuel : nat) (m : positive) (e : Z) (a b n k : Z)
  : Z * Z :=
  let p := n - k in
  let a' := if p <? 0 then a * 10 ^ (- p) else a in
  let b' := if p <? 0 then b else b * 10 ^ p in
  let lo := a' / b' in
  let hi := lo + 1 in
  let ok c :=
    num_eqb (if c =? 10 ^ k then number_of_decimal false 1 n
             else number_of_decimal false c p)
            (S754_finite false m e) in
  let d_lo := a' - lo * b' in
  let d_hi := hi * b' - a' in
  let pick :=
    if ok lo && ok hi then
      if d_lo <? d_hi then Some lo
      else if d_hi <? d_lo then Some hi
      else if Z.even lo then Some lo else Some hi
    else if ok lo then Some lo
    else if ok hi then Some hi
    else None in
  match pick, fuel with
  | Some c, _ => if c =? 10 ^ k then (1, n + 1) else (c, n)
  | None, S f => shortest_digits f m e a b n (k + 1)
  | None, O => (lo, n)
  end.

Definition zeros (n : Z) : str := repeat 48%N (Z.to_nat n).

(** [Number::toString] of a positive finite value [m * 2^e]: the digits
    [s] and the magnitude [n] of the shortest decimal that reads back as
    the value, in one of four layouts.  The exact decimal expansion of the
    value has [n0 - min e 0] digits at most, which bounds the search. *)
Definition positive_to_string (m : positive) (e : Z) : str :=
  let a := if 0 <=? e then Z.pos m * 2 ^ e else Z.pos m in
  let b := if 0 <=? e then 1 else 2 ^ (- e) in
  let n0 := decimal_magnitude a b in
  let '(s, n) := shortest_digits (Z.to_nat (n0 - Z.min e 0)) m e a b n0 1 in
  let ds := Z_to_string s in
  let k := Z.of_nat (List.length ds) in
  if (k <=? n) && (n <=? 21) then ds ++ zeros (n - k)
  else if (0 <? n) && (n <=? 21) then
    firstn (Z.to_nat n) ds ++ lit "." ++ skipn (Z.to_nat n) ds
  else if (-6 <? n) && (n <=? 0) then lit "0." ++ zeros (- n) ++ ds
  else
    let x := n - 1 in
    let sg := if x <? 0 then lit "-" else lit "+" in
    match ds with
    | [d] => [d] ++ lit "e" ++ sg ++ Z_to_string (Z.abs x)
    | d :: r => [d] ++ lit "." ++ r ++ lit "e" ++ sg ++ Z_to_string (Z.abs x)
    | [] => []
    end.

(** [Number::toString] in radix 10. *)
Definition number_to_string (x : number) : str :=
  match x with
  | S754_nan => lit "NaN"
  | S754_zero _ => lit "0"
  | S754_infinity s => if s then lit "-Infinity" else lit "Infinity"
  | S754_finite s m e =>
      if s then lit "-" ++ positive_to_string m e else positive_to_string m e
  end.

(** ** Values and objects

    The values the sources handle: [undefined], [null], booleans, numbers,
    strings, arrays and plain objects.  An object is the list of its own
    properties in the order [Object.keys] and [Object.entries] enumerate
    them: the properties whose names are array indices first, by
    ascending index, then the other properties in the order of their
    creation. *)

#[local] Set Warnings "-register-all".

Inductive jsval :=
| JUndef
| JNull
| JBool (b : bool)
| JNum (n : number)
| JStr (s : str)
| JArr (l : list jsval)
| JObj (o : list (str * jsval)).

(** [props A] is [Record<string, A>]. *)
Definition props (A : Type) := list (str * A).

Definition obj := props jsval.

(** [prop_lookup o k] is the own property [k] of [o], if any. *)
Fixpoint prop_lookup {A : Type} (o : props A) (k : str) : option A :=
  match o with
  | [] => None
  | (k', v) :: r => if str_eqb k' k then Some v else prop_lookup r k
  end.

(** [array_index k] is the index that the property name [k] denotes, if
    any: [k] is the decimal numeral, without sign and without leading
    zero, of an integer between 0 and 2^32 - 2. *)
Definition array_index (k : str) : option Z :=
  match k with
  | [] => None
  | c :: r =>
      if forallb is_digit k
         && (negb (N.eqb c 48) || match r with [] => true | _ => false end)
         && (digits_value k <=? 4294967294)
      then Some (digits_value k)
      else None
  end.

(** [prop_replace o k v] gives the existing property [k] the value [v];
    it keeps its place. *)
Fixpoint prop_replace {A : Type} (o : props A) (k : str) (v : A) : props A :=
  match o with
  | [] => []
  | (k', v') :: r =>
      if str_eqb k' k then (k', v) :: r else (k', v') :: prop_replace r k v
  end.

(** [key_le k k'] tells that a property named [k] may come before one
    named [k'] in the enumeration of an object: array indices come in
    ascending order and before the other names, which keep the order of
    their creation. *)
Definition key_le (k k' : str) : bool :=
  match array_index k, array_index k' with
  | Some n, Some n' => n <=? n'
  | Some _, None => true
  | None, Some _ => false
  | None, None => true
  end.

(** [prop_insert o k v] creates the property [k]: after the properties
    that come before it in the enumeration, that is after the smaller
    array indices when [k] is an array index, and last otherwise. *)
Fixpoint prop_insert {A : Type} (o : props A) (k : str) (v : A) : props A :=
  match o with
  | [] => [(k, v)]
  | (k', v') :: r =>
      if key_le k' k then (k', v') :: prop_insert r k v
      else (k, v) :: (k', v') :: r
  end.

(** [prop_set o k v] is the object once its own property [k] is defined
    with the value [v] ([CreateDataProperty], as [JSON.parse] and an
    assignment to a name that is not [__proto__] do): an existing
    property keeps its place, a new one is created. *)
Definition prop_set {A : Type} (o : props A) (k : str) (v : A) : props A :=
  match prop_lookup o k with
  | Some _ => prop_replace o k v
  | None => prop_insert o k v
  end.

(** [js_set o k v] is the object [o], created by an object literal, after
    the assignment [o[k] = v] of a value of this program (a string, a
    number, a boolean or an array).  The name [__proto__] reaches the
    setter inherited from [Object.prototype] and defines no property: a
    value that is no object is ignored, and an array becomes the
    prototype of [o], which no code of this program observes (it reads
    own properties by [Object.keys] and [Object.entries], and the names
    of the option fields, which an array does not have). *)
Definition js_set {A : Type} (o : props A) (k : str) (v : A) : props A :=
  if str_eqb k (lit "__proto__") then o else prop_set o k v.

(** [js_get o k] is the expression [o[k]]: [undefined] when [o] has no
    such property. *)
Definition js_get (o : obj) (k : str) : jsval :=
  match prop_lookup o k with Some v => v | None => JUndef end.

Definition is_undefined (v : jsval) : bool :=
  match v with JUndef => true | _ => false end.

(** ** JSON *)

(** The white space of the JSON grammar: TAB, LF, CR and SP. *)
Definition json_ws (c : char) : bool :=
  ((c =? 9) || (c =? 10) || (c =? 13) || (c =? 32))%N.

Fixpoint json_skip (s : str) : str :=
  match s with
  | c :: r => if json_ws c then json_skip r else s
  | [] => []
  end.

Definition hex_val (c : char) : option N :=
  (if (48 <=? c) && (c <=? 57) then Some (c - 48)
   else if (97 <=? c) && (c <=? 102) then Some (c - 87)
   else if (65 <=? c) && (c <=? 70) then Some (c - 55)
   else None)%N.

(** The characters of a JSON string after its opening quote, up to the
    closing one. *)
Fixpoint json_string_body (s : str) : option (str * str) :=
  match s with
  | [] => None
  | c :: r =>
      if N.eqb c 34 then Some ([], r)
      else if N.eqb c 92 then
        match r with
        | e :: r' =>
            let esc (x : char) :=
              match json_string_body r' with
              | Some (t, rest) => Some (x :: t, rest)
              | None => None
              end in
            if N.eqb e 34 then esc 34%N
            else if N.eqb e 92 then esc 92%N
            else if N.eqb e 47 then esc 47%N
            else if N.eqb e 98 then esc 8%N
            else if N.eqb e 102 then esc 12%N
            else if N.eqb e 110 then esc 10%N
            else if N.eqb e 114 then esc 13%N
            else if N.eqb e 116 then esc 9%N
            else if N.eqb e 117 then
              match r' with
              | h1 :: h2 :: h3 :: h4 :: r'' =>
                  match hex_val h1, hex_val h2, hex_val h3, hex_val h4,
                        json_string_body r'' with
                  | Some a, Some b, Some c', Some d, Some (t, rest) =>
                      Some ((a * 4096 + b * 256 + c' * 16 + d)%N :: t, rest)
                  | _, _, _, _, _ => None
                  end
              | _ => None
              end
            else None
        | [] => None
        end
      else if (c <? 32)%N then None
      else
        match json_string_body r with
        | Some (t, rest) => Some (c :: t, rest)
        | None => None
        end
  end.

(** A JSON number: an optional minus, [0] or a numeral without leading
    zero, an optional fraction and an optional exponent, each with at
    least one digit. *)
Definition json_number (s : str) : option (number * str) :=
  let '(neg, s1) :=
    match s with
    | c :: r => if N.eqb c 45 then (true, r) else (false, s)
    | [] => (false, s)
    end in
  let '(int_d, r1) :=
    match s1 with
    | c :: r => if N.eqb c 48 then ([c], r) else span_digits s1
    | [] => ([], s1)
    end in
  match int_d with
  | [] => None
  | _ =>
      let frac :=
        match r1 with
        | c :: r =>
            if N.eqb c 46 then
              match span_digits r with
              | ([], _) => None
              | (d, t) => Some (d, t)
              end
            else Some ([], r1)
        | [] => Some ([], r1)
        end in
      match frac with
      | None => None
      | Some (frac_d, r2) =>
          let mant := digits_value (int_d ++ frac_d) in
          let scale := Z.of_nat (List.length frac_d) in
          let finish (x : Z) (rest : str) :=
            Some (number_of_decimal neg mant (x - scale), rest) in
          match r2 with
          | c :: r =>
              if (N.eqb c 101 || N.eqb c 69)%bool then
                let '(sg, r3) :=
                  match r with
                  | g :: r' =>
                      if N.eqb g 43 then (1, r')
                      else if N.eqb g 45 then (-1, r') else (1, r)
                  | [] => (1, r)
                  end in
                match span_digits r3 with
                | ([], _) => None
                | (d, t) => finish (sg * digits_value d) t
                end
              else finish 0 r2
          | [] => finish 0 r2
          end
      end
  end.

(** The JSON grammar by recursive descent; the fuel bounds the number of
    values read and is taken larger than the length of the text. *)
Fixpoint json_value (fuel : nat) (s : str) : option (jsval * str) :=
  match fuel with
  | O => None
  | S f =>
      match json_skip s with
      | [] => None
      | c :: r =>
          if N.eqb c 123 then
            match json_skip r with
            | c' :: r' =>
                if N.eqb c' 125 then Some (JObj [], r')
                else
                  match json_members f (json_skip r) [] with
                  | Some (o, rest) => Some (JObj o, rest)
                  | None => None
                  end
            | [] => None
            end
          else if N.eqb c 91 then
            match json_skip r with
            | c' :: r' =>
                if N.eqb c' 93 then Some (JArr [], r')
                else
                  match json_elements f r with
                  | Some (l, rest) => Some (JArr l, rest)
                  | None => None
                  end
            | [] => None
            end
          else if N.eqb c 34 then
            match json_string_body r with
            | Some (t, rest) => Some (JStr t, rest)
            | None => None
            end
          else if startsWith (lit "true") (c :: r) then
            Some (JBool true, skipn 4 (c :: r))
          else if startsWith (lit "false") (c :: r) then
            Some (JBool false, skipn 5 (c :: r))
          else if startsWith (lit "null") (c :: r) then
            Some (JNull, skipn 4 (c :: r))
          else
            match json_number (c :: r) with
            | Some (n, rest) => Some (JNum n, rest)
            | None => None
            end
      end
  end

with json_elements (fuel : nat) (s : str) : option (list jsval * str) :=
  match fuel with
  | O => None
  | S f =>
      match json_value f s with
      | Some (v, rest) =>
          match json_skip rest with
          | c :: r =>
              if N.eqb c 44 then
                match json_elements f r with
                | Some (l, rest') => Some (v :: l, rest')
                | None => None
                end
              else if N.eqb c 93 then Some ([v], r)
              else None
          | [] => None
          end
      | None => None
      end
  end

with json_members (fuel : nat) (s : str) (acc : obj) : option (obj * str) :=
  match fuel with
  | O => None
  | S f =>
      match s with
      | c :: r =>
          if N.eqb c 34 then
            match json_string_body r with
            | Some (k, rest) =>
                match json_skip rest with
                | c1 :: r1 =>
                    if N.eqb c1 58 then
                      match json_value f r1 with
                      | Some (v, rest') =>
                          let acc' := prop_set acc k v in
                          match json_skip rest' with
                          | c2 :: r2 =>
                              if N.eqb c2 44 then json_members f (json_skip r2) acc'
                              else if N.eqb c2 125 then Some (acc', r2)
                              else None
                          | [] => None
                          end
                      | None => None
                      end
                    else None
                | [] => None
                end
            | None => None
            end
          else None
      | [] => None
      end
  end.

(** [JSON_parse s] is [JSON.parse(s)]; [None] stands for the exception. *)
Definition JSON_parse (s : str) : option jsval :=
  match json_value (S (List.length s)) s with
  | Some (v, rest) =>
      match json_skip rest with
      | [] => Some v
      | _ :: _ => None
      end
  | None => None
  end.

Definition hex_digit (n : N) : char :=
  (if n <? 10 then 48 + n else 87 + n)%N.

Definition unicode_escape (c : char) : str :=
  lit "\u" ++ [hex_digit (c / 4096 mod 16); hex_digit (c / 256 mod 16);
               hex_digit (c / 16 mod 16); hex_digit (c mod 16)]%N.

Definition is_high_surrogate (c : char) : bool := ((55296 <=? c) && (c <=? 56319))%N.
Definition is_low_surrogate (c : char) : bool := ((56320 <=? c) && (c <=? 57343))%N.

(** The body of [QuoteJSONString]: the short escapes, [\u] escapes for the
    other control characters and for unpaired surrogates. *)
Fixpoint json_quote_body (s : str) : str :=
  match s with
  | [] => []
  | c :: r =>
      if N.eqb c 8 then lit "\b" ++ json_quote_body r
      else if N.eqb c 9 then lit "\t" ++ json_quote_body r
      else if N.eqb c 10 then lit "\n" ++ json_quote_body r
      else if N.eqb c 12 then lit "\f" ++ json_quote_body r
      else if N.eqb c 13 then lit "\r" ++ json_quote_body r
      else if N.eqb c 34 then [92; 34]%N ++ json_quote_body r
      else if N.eqb c 92 then [92; 92]%N ++ json_quote_body r
      else if (c <? 32)%N then unicode_escape c ++ json_quote_body r
      else if is_high_surrogate c then
        match r with
        | d :: r' =>
            if is_low_surrogate d then c :: d :: json_quote_body r'
            else unicode_escape c ++ json_quote_body r
        | [] => unicode_escape c
        end
      else if is_low_surrogate c then unicode_escape c ++ json_quote_body r
      else c :: json_quote_body r
  end.

Definition json_quote (s : str) : str :=
  [dquote] ++ json_quote_body s ++ [dquote].

(** The text of an array or of an object between its brackets [o] and
    [c], from the texts [partial] of its elements: on one line when [gap]
    is empty, and otherwise one element per line, indented by one more
    [gap] than the brackets. *)
Definition json_wrap (gap indent o c : str) (partial : list str) : str :=
  let stepback := indent in
  let indent' := indent ++ gap in
  match partial with
  | [] => o ++ c
  | _ =>
      match gap with
      | [] => o ++ join (lit ",") partial ++ c
      | _ =>
          o ++ [newline] ++ indent'
            ++ join (lit "," ++ [newline] ++ indent') partial
            ++ [newline] ++ stepback ++ c
      end
  end.

(** [json_stringify gap indent v] is [SerializeJSONProperty]: [gap] is the
    indentation unit (empty for the compact form), [indent] the current
    indentation.  [None] is the [undefined] result, for which an array
    writes [null] and an object leaves the property out. *)
Fixpoint json_stringify (gap indent : str) (v : jsval) : option str :=
  let indent' := indent ++ gap in
  match v with
  | JUndef => None
  | JNull => Some (lit "null")
  | JBool b => Some (if b then lit "true" else lit "false")
  | JNum n => Some (if isFinite n then number_to_string n else lit "null")
  | JStr s => Some (json_quote s)
  | JArr l =>
      let items :=
        (fix go (l : list jsval) : list str :=
           match l with
           | [] => []
           | x :: r =>
               match json_stringify gap indent' x with
               | Some t => t :: go r
               | None => lit "null" :: go r
               end
           end) l in
      Some (json_wrap gap indent (lit "[") (lit "]") items)
  | JObj o =>
      let sep := match gap with [] => lit ":" | _ => lit ": " end in
      let items :=
        (fix go (o : list (str * jsval)) : list str :=
           match o with
           | [] => []
           | (k, x) :: r =>
               match json_stringify gap indent' x with
               | Some t => (json_quote k ++ sep ++ t) :: go r
               | None => go r
               end
           end) o in
      Some (json_wrap gap indent (lit "{") (lit "}") items)
  end.

(** [JSON_stringify v] is [JSON.stringify(v)] for a value that is not
    [undefined]. *)
Definition JSON_stringify (v : jsval) : str :=
  match json_stringify [] [] v with Some t => t | None => lit "undefined" end.

(** [JSON_stringify_2 v] is [JSON.stringify(v, null, 2)]. *)
Definition JSON_stringify_2 (v : jsval) : str :=
  match json_stringify (lit "  ") [] v with Some t => t | None => lit "undefined" end.

(** [ToString v]: the text a template literal gives for [v]. *)
Fixpoint ToString (v : jsval) : str :=
  match v with
  | JUndef => lit "undefined"
  | JNull => lit "null"
  | JBool b => if b then lit "true" else lit "false"
  | JNum n => number_to_string n
  | JStr s => s
  | JArr l =>
      join (lit ",")
        ((fix go (l : list jsval) : list str :=
            match l with
            | [] => []
            | x :: r =>
                match x with
                | JUndef | JNull => [] :: go r
                | _ => ToString x :: go r
                end
            end) l)
  | JObj _ => lit "[object Object]"
  end.

(** Truthiness of a string: [if (s)]. *)
Definition truthy_str (s : str) : bool :=
  match s with [] => false | _ :: _ => true end.

(* ===================================================================== *)
(** * Part II. TypeBox: schemas and [Value.Check]                         *)
(* ===================================================================== *)

(** The options of a schema that this program sets: numeric bounds and the
    [default] annotation ([description] carries no behaviour). *)
Record SchemaOptions := {
  minimum : option number;
  maximum : option number;
  default : option jsval
}.

Definition with_default (o : SchemaOptions) (d : jsval) : SchemaOptions :=
  {| minimum := minimum o; maximum := maximum o; default := Some d |}.

Inductive TSchema :=
| Type_Number (o : SchemaOptions)
| Type_Integer (o : SchemaOptions)
| Type_Boolean (o : SchemaOptions)
| Type_String
| Type_Array (items : TSchema) (o : SchemaOptions).

(** [Type.Optional] marks a property of an object schema as optional and
    leaves the check of a value that is there unchanged. *)
Definition Type_Optional (s : TSchema) : TSchema := s.

(** The bounds [minimum] and [maximum] of a numeric schema, when set. *)
Definition in_bounds (o : SchemaOptions) (n : number) : bool :=
  match minimum o with Some lo => num_le lo n | None => true end
  && match maximum o with Some hi => num_le n hi | None => true end.

(** [Value.Check(schema, value)]: a number is finite and within the
    bounds, an integer is moreover integral, a boolean is a boolean, an
    array is an array whose elements all pass the schema of the items.
    The [default] annotation plays no part. *)
Fixpoint Value_Check (schema : TSchema) (value : jsval) : bool :=
  match schema, value with
  | Type_Number o, JNum n => isFinite n && in_bounds o n
  | Type_Integer o, JNum n => isInteger n && in_bounds o n
  | Type_Boolean _, JBool _ => true
  | Type_String, JStr _ => true
  | Type_Array items _, JArr l => forallb (Value_Check items) l
  | _, _ => false
  end.

(* ===================================================================== *)
(** * Part III. The program                                               *)
(* ===================================================================== *)

(** ** [src/promtOptions/value.ts] *)

(** Number literals of the sources. *)
Definition int (z : Z) : number := num_of_Z z.
Definition dec (m e : Z) : number :=
  number_of_decimal (m <? 0) (Z.abs m) e.

Definition bounds (lo hi : number) : SchemaOptions :=
  {| minimum := Some lo; maximum := Some hi; default := None |}.

Definition no_bounds : SchemaOptions :=
  {| minimum := None; maximum := None; default := None |}.

Module PromtValue.
Definition temperature := bounds (dec 0 0) (dec 20 (-1)).
Definition topP := bounds (dec 0 0) (dec 10 (-1)).
Definition topK := bounds (int 1) (int 1000).
Definition minP := bounds (dec 0 0) (dec 10 (-1)).
Definition maxTokens := bounds (int 1) (int 131072).
Definition repeatPenalty := bounds (dec (-20) (-1)) (dec 20 (-1)).
Definition repeatPenaltyNum := bounds (int 0) (int 2048).
Definition presencePenalty := bounds (dec (-20) (-1)) (dec 20 (-1)).
Definition frequencyPenalty := bounds (dec (-20) (-1)) (dec 20 (-1)).
Definition mirostat := bounds (int 0) (int 2).
Definition mirostatTau := bounds (dec 0 0) (dec 100 (-1)).
Definition mirostatEta := bounds (int 0) (dec 10 (-1)).
Definition penalizeNewline := no_bounds.
Definition stopSequences := no_bounds.
Definition trimWhitespace := no_bounds.
Definition seed :=
  {| minimum := Some (int 0); maximum := None; default := None |}.
End PromtValue.

Definition defVal : obj := Eval vm_compute in
  [ (lit "temperature", JNum (dec 8 (-1)));
    (lit "topP", JNum (dec 9 (-1)));
    (lit "topK", JNum (int 40));
    (lit "minP", JNum (dec 0 0));
    (lit "maxTokens", JNum (int 128));
    (lit "repeatPenalty", JNum (dec 11 (-1)));
    (lit "repeatPenaltyNum", JNum (int 64));
    (lit "presencePenalty", JNum (dec 0 0));
    (lit "frequencyPenalty", JNum (dec 11 (-1)));
    (lit "mirostat", JNum (int 0));
    (lit "mirostatTau", JNum (dec 50 (-1)));
    (lit "mirostatEta", JNum (dec 1 (-1)));
    (lit "penalizeNewline", JBool true);
    (lit "stopSequences", JArr []);
    (lit "trimWhitespace", JBool true) ].

Definition defValJson : obj := Eval vm_compute in
  [ (lit "temperature", JNum (dec 0 0));
    (lit "topP", JNum (dec 1 (-1)));
    (lit "topK", JNum (int 10));
    (lit "minP", JNum (dec 0 0));
    (lit "maxTokens", JNum (int 4096));
    (lit "repeatPenalty", JNum (dec 10 (-1)));
    (lit "repeatPenaltyNum", JNum (int 0));
    (lit "presencePenalty", JNum (dec 0 0));
    (lit "frequencyPenalty", JNum (dec 0 0));
    (lit "mirostat", JNum (int 0));
    (lit "mirostatTau", JNum (dec 50 (-1)));
    (lit "mirostatEta", JNum (dec 1 (-1)));
    (lit "penalizeNewline", JBool false);
    (lit "stopSequences", JArr []);
    (lit "trimWhitespace", JBool true) ].

(** ** [src/promtOptions/index.ts] *)

(** The [properties] of the object schema of a table of defaults [d]. *)
Definition schema_properties (d : obj) : props TSchema :=
  let number_of (o : SchemaOptions) (k : str) :=
    Type_Optional (Type_Number (with_default o (js_get d k))) in
  let integer_of (o : SchemaOptions) (k : str) :=
    Type_Optional (Type_Integer (with_default o (js_get d k))) in
  let boolean_of (o : SchemaOptions) (k : str) :=
    Type_Optional (Type_Boolean (with_default o (js_get d k))) in
  [ (lit "temperature", number_of PromtValue.temperature (lit "temperature"));
    (lit "topP", number_of PromtValue.topP (lit "topP"));
    (lit "topK", integer_of PromtValue.topK (lit "topK"));
    (lit "minP", number_of PromtValue.minP (lit "minP"));
    (lit "maxTokens", integer_of PromtValue.maxTokens (lit "maxTokens"));
    (lit "repeatPenalty", number_of PromtValue.repeatPenalty (lit "repeatPenalty"));
    (lit "repeatPenaltyNum",
      integer_of PromtValue.repeatPenaltyNum (lit "repeatPenaltyNum"));
    (lit "presencePenalty",
      number_of PromtValue.presencePenalty (lit "presencePenalty"));
    (lit "frequencyPenalty",
      number_of PromtValue.frequencyPenalty (lit "frequencyPenalty"));
    (lit "mirostat", integer_of PromtValue.mirostat (lit "mirostat"));
    (lit "mirostatTau", number_of PromtValue.mirostatTau (lit "mirostatTau"));
    (lit "mirostatEta", number_of PromtValue.mirostatEta (lit "mirostatEta"));
    (lit "penalizeNewline",
      boolean_of PromtValue.penalizeNewline (lit "penalizeNewline"));
    (lit "stopSequences",
      Type_Optional
        (Type_Array Type_String
           (with_default PromtValue.stopSequences (js_get d (lit "stopSequences")))));
    (lit "trimWhitespace",
      boolean_of PromtValue.trimWhitespace (lit "trimWhitespace"));
    (lit "seed", Type_Optional (Type_Integer PromtValue.seed)) ].

Definition SPromtOptions : props TSchema :=
  Eval vm_compute in schema_properties defVal.
Definition SPromtOptionsJson : props TSchema :=
  Eval vm_compute in schema_properties defValJson.

(** [TPromtOptions]: an object whose properties are among those of the
    schema, all optional. *)
Definition TPromtOptions := obj.

(** ** [src/index.ts] *)

(** [TPromt]; [segment] is a [Record<string, string>]. *)
Record TPromt := {
  system : option str;
  user : str;
  options : option TPromtOptions;
  segment : option (props str);
  grammar : option str
}.

(** [Partial<TPromt>]: the record under construction in [parse], whose
    [user] may still be missing. *)
Record PartialPromt := {
  p_system : option str;
  p_user : option str;
  p_options : option TPromtOptions;
  p_segment : option (props str);
  p_grammar : option str
}.

(** The empty object [{}] that [parse] starts a block with. *)
Definition empty_promt : PartialPromt :=
  {| p_system := None; p_user := None; p_options := None;
     p_segment := None; p_grammar := None |}.

(** [currentPromt as TPromt], for a record whose [user] is [u]. *)
Definition as_TPromt (p : PartialPromt) (u : str) : TPromt :=
  {| system := p_system p; user := u; options := p_options p;
     segment := p_segment p; grammar := p_grammar p |}.

(** The parameter [use]: ['core' | 'json']. *)
Inductive Use := core | json.

(** *** [PromtOptionsParse] *)

(** One turn of the loop over [Object.keys(defaults)]. *)
Definition PromtOptionsParse_key (schema : props TSchema) (defaults input : obj)
  (useAllOptions : bool) (result : TPromtOptions) (key : str) : TPromtOptions :=
  let inputValue := js_get input key in
  let defaultValue := js_get defaults key in
  if is_undefined inputValue then
    if useAllOptions then prop_set result key defaultValue else result
  else
    let propertySchema := prop_lookup schema key in
    if match propertySchema with
       | Some s => Value_Check s inputValue
       | None => false
       end
    then prop_set result key inputValue
    else if useAllOptions then prop_set result key defaultValue else result.

(** [raw] is optional: [None] stands for a missing argument (or one that is
    not an object), read as [{}]. *)
Definition PromtOptionsParse (use : Use) (raw : option obj) (useAllOptions : bool)
  : TPromtOptions :=
  let schema := match use with core => SPromtOptions | json => SPromtOptionsJson end in
  let defaults := match use with core => defVal | json => defValJson end in
  let input := match raw with Some o => o | None => [] end in
  let result : TPromtOptions := [] in
  let result :=
    fold_left (PromtOptionsParse_key schema defaults input useAllOptions)
      (List.map fst defaults) result in
  if negb (is_undefined (js_get input (lit "seed"))) then
    let seedSchema := prop_lookup schema (lit "seed") in
    if match seedSchema with
       | Some s => Value_Check s (js_get input (lit "seed"))
       | None => false
       end
    then prop_set result (lit "seed") (js_get input (lit "seed"))
    else result
  else result.

(** *** [ToPromtOptionsLlamaCpp] *)

(** [if (options.k !== undefined) result.k' = options.k]. *)
Definition copy_defined (options : TPromtOptions) (k k' : str) (result : obj) : obj :=
  if negb (is_undefined (js_get options k)) then prop_set result k' (js_get options k)
  else result.

(** [v.length > 0] for an array (or a string); other values have no
    [length]. *)
Definition length_positive (v : jsval) : bool :=
  match v with
  | JArr (_ :: _) => true
  | JStr (_ :: _) => true
  | _ => false
  end.

(** [Object.keys(v).length > 0]. *)
Definition has_keys (v : jsval) : bool :=
  match v with
  | JObj (_ :: _) => true
  | JArr (_ :: _) => true
  | JStr (_ :: _) => true
  | _ => false
  end.

(** [...(options.k !== undefined && { k': options.k })] inside an object
    literal. *)
Definition spread_defined (options : TPromtOptions) (k k' : str) (o : obj) : obj :=
  if negb (is_undefined (js_get options k)) then prop_set o k' (js_get options k)
  else o.

Definition ToPromtOptionsLlamaCpp (options : TPromtOptions) : obj :=
  let result : obj := [] in
  let result := copy_defined options (lit "temperature") (lit "temperature") result in
  let result := copy_defined options (lit "topP") (lit "topP") result in
  let result := copy_defined options (lit "topK") (lit "topK") result in
  let result := copy_defined options (lit "minP") (lit "minP") result in
  let result := copy_defined options (lit "maxTokens") (lit "maxTokens") result in
  let result := copy_defined options (lit "seed") (lit "seed") result in
  let result :=
    copy_defined options (lit "trimWhitespace") (lit "trimWhitespaceSuffix") result in
  let result :=
    if negb (is_undefined (js_get options (lit "stopSequences")))
       && length_positive (js_get options (lit "stopSequences"))
    then prop_set result (lit "customStopTriggers") (js_get options (lit "stopSequences"))
    else result in
  let result :=
    if negb (is_undefined (js_get options (lit "tokenBias")))
       && has_keys (js_get options (lit "tokenBias"))
    then prop_set result (lit "tokenBias") (js_get options (lit "tokenBias"))
    else result in
  let result :=
    copy_defined options (lit "evaluationPriority") (lit "evaluationPriority") result in
  let result :=
    copy_defined options (lit "contextShiftSize") (lit "contextShiftSize") result in
  let result :=
    copy_defined options (lit "disableContextShift") (lit "disableContextShift") result in
  let hasRepeatPenalty :=
    negb (is_undefined (js_get options (lit "repeatPenalty")))
    || negb (is_undefined (js_get options (lit "repeatPenaltyNum")))
    || negb (is_undefined (js_get options (lit "frequencyPenalty")))
    || negb (is_undefined (js_get options (lit "presencePenalty")))
    || negb (is_undefined (js_get options (lit "penalizeNewline"))) in
  if hasRepeatPenalty then
    let o : obj := [] in
    let o := spread_defined options (lit "repeatPenalty") (lit "penalty") o in
    let o := spread_defined options (lit "repeatPenaltyNum") (lit "lastTokens") o in
    let o := spread_defined options (lit "frequencyPenalty") (lit "frequencyPenalty") o in
    let o := spread_defined options (lit "presencePenalty") (lit "presencePenalty") o in
    let o := spread_defined options (lit "penalizeNewline") (lit "penalizeNewLine") o in
    prop_set result (lit "repeatPenalty") (JObj o)
  else result.

(** *** [ToPromtOptionsOpenAi] *)

Definition ToPromtOptionsOpenAi (options : TPromtOptions) : obj :=
  let result : obj := [] in
  let result := copy_defined options (lit "temperature") (lit "temperature") result in
  let result := copy_defined options (lit "topP") (lit "top_p") result in
  let result := copy_defined options (lit "maxTokens") (lit "max_tokens") result in
  let result :=
    copy_defined options (lit "frequencyPenalty") (lit "frequency_penalty") result in
  let result :=
    copy_defined options (lit "presencePenalty") (lit "presence_penalty") result in
  let result := copy_defined options (lit "seed") (lit "seed") result in
  let result :=
    if negb (is_undefined (js_get options (lit "stopSequences")))
       && length_positive (js_get options (lit "stopSequences"))
    then prop_set result (lit "stop") (js_get options (lit "stopSequences"))
    else result in
  let result :=
    if negb (is_undefined (js_get options (lit "tokenBias")))
       && has_keys (js_get options (lit "tokenBias"))
    then prop_set result (lit "logit_bias") (js_get options (lit "tokenBias"))
    else result in
  result.

(** *** [ToPromtOptionsOllama] *)

Definition ToPromtOptionsOllama (options : TPromtOptions) : obj :=
  let result : obj := [] in
  let result := copy_defined options (lit "temperature") (lit "temperature") result in
  let result := copy_defined options (lit "topP") (lit "top_p") result in
  let result := copy_defined options (lit "topK") (lit "top_k") result in
  let result := copy_defined options (lit "minP") (lit "min_p") result in
  let result := copy_defined options (lit "maxTokens") (lit "num_predict") result in
  let result :=
    copy_defined options (lit "repeatPenalty") (lit "repeat_penalty") result in
  let result :=
    copy_defined options (lit "repeatPenaltyNum") (lit "repeat_last_n") result in
  let result := copy_defined options (lit "mirostat") (lit "mirostat") result in
  let result := copy_defined options (lit "mirostatTau") (lit "mirostat_tau") result in
  let result := copy_defined options (lit "mirostatEta") (lit "mirostat_eta") result in
  let result := copy_defined options (lit "seed") (lit "seed") result in
  let result :=
    if negb (is_undefined (js_get options (lit "stopSequences")))
       && length_positive (js_get options (lit "stopSequences"))
    then prop_set result (lit "stop") (js_get options (lit "stopSequences"))
    else result in
  let result :=
    copy_defined options (lit "penalizeNewline") (lit "penalize_newline") result in
  result.

(** *** [GrammarCheck] *)

Definition GrammarCheck (raw : str) : str :=
  if negb (truthy_str raw) || str_eqb (trim raw) [] then []
  else
    match JSON_parse raw with
    | Some parsed => JSON_stringify_2 parsed
    | None => []
    end.

(** *** [parseOptionValue] *)

Definition is_array (v : jsval) : bool :=
  match v with JArr _ => true | _ => false end.

(** The result [undefined] is [JUndef]. *)
Definition parseOptionValue (valueStr : str) : jsval :=
  if str_eqb valueStr [] then JUndef
  else
    let cleanValue := valueStr in
    let cleanValue :=
      if (startsWith [dquote] cleanValue && endsWith [dquote] cleanValue)
         || (startsWith [squote] cleanValue && endsWith [squote] cleanValue)
      then slice_1_m1 cleanValue
      else cleanValue in
    let from_json :=
      if startsWith (lit "[") valueStr then
        match JSON_parse valueStr with
        | Some parsed => if is_array parsed then Some parsed else None
        | None => None
        end
      else None in
    match from_json with
    | Some parsed => parsed
    | None =>
        let lower := toLowerCase cleanValue in
        if str_eqb lower (lit "true") || str_eqb lower (lit "1")
           || str_eqb lower (lit "y") then JBool true
        else if str_eqb lower (lit "false") || str_eqb lower (lit "0")
                || str_eqb lower (lit "n") then JBool false
        else
          let numValue := replace_first 44%N 46%N cleanValue in
          let parsed := parseFloat numValue in
          if negb (isNaN parsed) then JNum parsed else JUndef
    end.

(** *** [parseOptionsToObject] *)

(** One turn of the loop over the lines. *)
Definition parseOptionsToObject_line (options : obj) (line : str) : obj :=
  let trimmed := trim line in
  if negb (truthy_str trimmed) then options
  else
    let eqIndex := indexOf 61%N trimmed in
    if eqIndex <=? 0 then options
    else
      let key := trim (substring 0 eqIndex trimmed) in
      let valueStr := trim (substring_from (eqIndex + 1) trimmed) in
      let value := parseOptionValue valueStr in
      if negb (is_undefined value) then js_set options key value
      else options.

Definition parseOptionsToObject (content : str) : obj :=
  let options : obj := [] in
  let lines := split newline content in
  fold_left parseOptionsToObject_line lines options.

(** *** [finishSection] *)

Inductive Section_ := sec_system | sec_user | sec_segment | sec_options | sec_grammar.

(** The record [promt] is updated in place by the source; here the updated
    record is returned. *)
Definition finishSection (promt : PartialPromt) (section : Section_)
  (lines : list str) (use : Use) (segmentName : option str) : PartialPromt :=
  let content := trim (join [newline] lines) in
  match section with
  | sec_system =>
      {| p_system := Some content; p_user := p_user promt;
         p_options := p_options promt; p_segment := p_segment promt;
         p_grammar := p_grammar promt |}
  | sec_user =>
      {| p_system := p_system promt; p_user := Some content;
         p_options := p_options promt; p_segment := p_segment promt;
         p_grammar := p_grammar promt |}
  | sec_segment =>
      match segmentName with
      | Some name =>
          if truthy_str name then
            let seg := match p_segment promt with Some s => s | None => [] end in
            {| p_system := p_system promt; p_user := p_user promt;
               p_options := p_options promt;
               p_segment := Some (js_set seg name content);
               p_grammar := p_grammar promt |}
          else promt
      | None => promt
      end
  | sec_options =>
      let rawOptions := parseOptionsToObject content in
      {| p_system := p_system promt; p_user := p_user promt;
         p_options := Some (PromtOptionsParse use (Some rawOptions) false);
         p_segment := p_segment promt; p_grammar := p_grammar promt |}
  | sec_grammar =>
      let validated := GrammarCheck content in
      if truthy_str validated then
        {| p_system := p_system promt; p_user := p_user promt;
           p_options := p_options promt; p_segment := p_segment promt;
           p_grammar := Some validated |}
      else promt
  end.

(** *** [parse] *)

(** The local variables of [parse]; [currentPromt] is [null] outside a
    block, [promts] is the result under construction. *)
Record ParseState := {
  inBlock : bool;
  currentPromt : option PartialPromt;
  currentSection : option Section_;
  currentSegmentName : option str;
  sectionContent : list str;
  promts : list TPromt
}.

Definition parse_init : ParseState :=
  {| inBlock := false; currentPromt := None; currentSection := None;
     currentSegmentName := None; sectionContent := []; promts := [] |}.

(** [if (currentSection && sectionContent.length > 0) finishSection(...)],
    the statement that opens every marker branch. *)
Definition finish_pending (use : Use) (st : ParseState) (promt : PartialPromt)
  : PartialPromt :=
  match currentSection st, sectionContent st with
  | Some section, _ :: _ =>
      finishSection promt section (sectionContent st) use (currentSegmentName st)
  | _, _ => promt
  end.

(** [if (currentPromt.user) promts.push(currentPromt as TPromt)]. *)
Definition push_if_user (out : list TPromt) (promt : PartialPromt) : list TPromt :=
  match p_user promt with
  | Some u => if truthy_str u then out ++ [as_TPromt promt u] else out
  | None => out
  end.

(** The body of [if (inBlock && currentPromt) { ... }], which the branches
    of [$$begin] and [$$end] and the end of [parse] share. *)
Definition close_block (use : Use) (st : ParseState) : list TPromt :=
  match inBlock st, currentPromt st with
  | true, Some promt => push_if_user (promts st) (finish_pending use st promt)
  | _, _ => promts st
  end.

(** A section marker: the pending section is finished, the new one is
    selected and the buffer is cleared. *)
Definition enter_section (use : Use) (st : ParseState) (promt : PartialPromt)
  (section : Section_) (name : option str) : ParseState :=
  {| inBlock := inBlock st;
     currentPromt := Some (finish_pending use st promt);
     currentSection := Some section;
     currentSegmentName := name;
     sectionContent := [];
     promts := promts st |}.

(** The body of the loop over the lines. *)
Definition parse_line (use : Use) (st : ParseState) (line : str) : ParseState :=
  let trimmed := trim line in
  if str_eqb trimmed (lit "$$begin") then
    {| inBlock := true; currentPromt := Some empty_promt; currentSection := None;
       currentSegmentName := None; sectionContent := [];
       promts := close_block use st |}
  else if str_eqb trimmed (lit "$$end") then
    {| inBlock := false; currentPromt := None; currentSection := None;
       currentSegmentName := None; sectionContent := [];
       promts := close_block use st |}
  else
    match inBlock st, currentPromt st with
    | true, Some promt =>
        if str_eqb trimmed (lit "$$system") then
          enter_section use st promt sec_system None
        else if str_eqb trimmed (lit "$$user") then
          enter_section use st promt sec_user None
        else if str_eqb trimmed (lit "$$options") then
          enter_section use st promt sec_options None
        else if str_eqb trimmed (lit "$$grammar") then
          enter_section use st promt sec_grammar None
        else if startsWith (lit "$$segment=") trimmed then
          enter_section use st promt sec_segment
            (Some (trim (substring_from 10 trimmed)))
        else
          match currentSection st with
          | Some _ =>
              {| inBlock := inBlock st; currentPromt := currentPromt st;
                 currentSection := currentSection st;
                 currentSegmentName := currentSegmentName st;
                 sectionContent := sectionContent st ++ [line];
                 promts := promts st |}
          | None => st
          end
    | _, _ => st
    end.

Definition parse (content : str) (use : Use) : list TPromt :=
  let lines := split newline content in
  let st := fold_left (parse_line use) lines parse_init in
  close_block use st.

(** *** [serialize] and [serializeOptionValue] *)

Definition serializeOptionValue (key : str) (value : jsval) : str :=
  if is_undefined value then key ++ lit "="
  else if is_array value then key ++ lit "=" ++ JSON_stringify value
  else key ++ lit "=" ++ ToString value.

(** The body of the loop over the records: the pushes onto [result]. *)
Definition serialize_promt (result : list str) (promt : TPromt) : list str :=
  let result := result ++ [lit "$$begin"] in
  let result :=
    match options promt with
    | Some o =>
        fold_left
          (fun result kv => result ++ [serializeOptionValue (fst kv) (snd kv)])
          o (result ++ [lit "$$options"])
    | None => result
    end in
  let result :=
    match system promt with
    | Some s => if truthy_str s then (result ++ [lit "$$system"]) ++ [s] else result
    | None => result
    end in
  let result := result ++ [lit "$$user"] in
  let result := result ++ [user promt] in
  let result :=
    match grammar promt with
    | Some g => if truthy_str g then (result ++ [lit "$$grammar"]) ++ [g] else result
    | None => result
    end in
  let result :=
    match segment promt with
    | Some sg =>
        fold_left
          (fun result kv => (result ++ [lit "$$segment=" ++ fst kv]) ++ [snd kv])
          sg result
    | None => result
    end in
  result ++ [lit "$$end"].

Definition serialize (promts : list TPromt) : str :=
  join [newline] (fold_left serialize_promt promts []).

(** *** The exported functions *)

Definition PromtLoad (raw : str) (use : Use) : list TPromt := parse raw use.

Definition PromtStore (promt : list TPromt) : str := serialize promt.

(* ===================================================================== *)
(** * Part IV. Vocabulary of the statements                               *)
(* ===================================================================== *)

(** ** Options *)

(** The schema and the table of defaults that [PromtOptionsParse] selects
    for a profile. *)
Definition schema_of (use : Use) : props TSchema :=
  match use with core => SPromtOptions | json => SPromtOptionsJson end.

Definition defaults_of (use : Use) : obj :=
  match use with core => defVal | json => defValJson end.

(** The object that [PromtOptionsParse] reads: [raw], or [{}]. *)
Definition input_of (raw : option obj) : obj :=
  match raw with Some o => o | None => [] end.

(** [propertySchema && Value.Check(propertySchema, v)] for the field [k]. *)
Definition field_check (use : Use) (k : str) (v : jsval) : bool :=
  match prop_lookup (schema_of use) k with
  | Some s => Value_Check s v
  | None => false
  end.

(** The names of the fields: those of the table of defaults, and [seed]. *)
Definition field_names (use : Use) : list str :=
  List.map fst (defaults_of use) ++ [lit "seed"].

(** What one turn of the loop of [PromtOptionsParse] decides for a key: the
    value to store, or nothing. *)
Definition key_outcome (schema : props TSchema) (defaults input : obj)
  (useAllOptions : bool) (key : str) : option jsval :=
  if is_undefined (js_get input key) then
    if useAllOptions then Some (js_get defaults key) else None
  else if match prop_lookup schema key with
          | Some s => Value_Check s (js_get input key)
          | None => false
          end
  then Some (js_get input key)
  else if useAllOptions then Some (js_get defaults key) else None.

(** [options.k !== undefined]. *)
Definition defined (options : obj) (k : str) : bool :=
  negb (is_undefined (js_get options k)).

(** The sub-object that groups the penalty fields, by the words of the
    specification: each of the five fields that is present, under its new
    name; the absent ones are left out. *)
Definition penalty_group (options : obj) : obj :=
  let entry (k k' : str) :=
    if defined options k then [(k', js_get options k)] else [] in
  entry (lit "repeatPenalty") (lit "penalty")
  ++ entry (lit "repeatPenaltyNum") (lit "lastTokens")
  ++ entry (lit "frequencyPenalty") (lit "frequencyPenalty")
  ++ entry (lit "presencePenalty") (lit "presencePenalty")
  ++ entry (lit "penalizeNewline") (lit "penalizeNewLine").

(** The property [k] of the options under its name, when it is defined. *)
Definition present (options : obj) (k : str) : option jsval :=
  if defined options k then Some (js_get options k) else None.

(** [stopSequences], when it is defined and not empty. *)
Definition stop_sequences (options : obj) : option jsval :=
  if defined options (lit "stopSequences")
     && length_positive (js_get options (lit "stopSequences"))
  then Some (js_get options (lit "stopSequences"))
  else None.

(** [tokenBias], when it is defined and has a key. *)
Definition token_bias (options : obj) : option jsval :=
  if defined options (lit "tokenBias") && has_keys (js_get options (lit "tokenBias"))
  then Some (js_get options (lit "tokenBias"))
  else None.

(** Options within their type, as far as the converters read them:
    [stopSequences] is absent or an array, and [tokenBias] is not
    [null]. *)
Definition converter_input (options : obj) : bool :=
  match js_get options (lit "stopSequences") with
  | JUndef | JArr _ => true
  | _ => false
  end
  && match js_get options (lit "tokenBias") with JNull => false | _ => true end.

(** ** Texts *)

(** A text between double quotes, and between single quotes. *)
Definition quoted (s : str) : str := [dquote] ++ s ++ [dquote].
Definition squoted (s : str) : str := [squote] ++ s ++ [squote].

(** [cased mask s] writes in upper case the letters of [s] that [mask]
    selects: the spellings of a word that differ in case only. *)
Definition upper_char (c : char) : char :=
  (if (97 <=? c) && (c <=? 122) then c - 32 else c)%N.

Fixpoint cased (mask : list bool) (s : str) {struct s} : str :=
  match s with
  | [] => []
  | c :: r =>
      match mask with
      | [] => c :: r
      | b :: m => (if b then upper_char c else c) :: cased m r
      end
  end.

(** The text left once one pair of quotes around it is removed, as
    [parseOptionValue] computes it. *)
Definition quote_stripped (valueStr : str) : str :=
  if (startsWith [dquote] valueStr && endsWith [dquote] valueStr)
     || (startsWith [squote] valueStr && endsWith [squote] valueStr)
  then slice_1_m1 valueStr
  else valueStr.

(** The text is read as a JSON array. *)
Definition reads_as_array (valueStr : str) : bool :=
  startsWith (lit "[") valueStr
  && match JSON_parse valueStr with Some v => is_array v | None => false end.

(** The quote-stripped text is one of the six boolean words. *)
Definition boolean_word (valueStr : str) : bool :=
  let lower := toLowerCase (quote_stripped valueStr) in
  (str_eqb lower (lit "true") || str_eqb lower (lit "1") || str_eqb lower (lit "y"))
  || (str_eqb lower (lit "false") || str_eqb lower (lit "0")
      || str_eqb lower (lit "n")).

(** A decimal numeral as [parseFloat] reads one: an optional sign, the
    digits before the point, the digits after the point when there is a
    point, and an optional exponent (the letter, in upper case or not, an
    optional sign and digits). *)
Record numeral := {
  num_sign : option bool;
  num_int : str;
  num_point : option str;
  num_exp : option (bool * option bool * str)
}.

(** The sign [-] is [Some true], the sign [+] is [Some false]. *)
Definition sign_text (sg : option bool) : str :=
  match sg with
  | None => []
  | Some false => lit "+"
  | Some true => lit "-"
  end.

Definition num_frac (n : numeral) : str :=
  match num_point n with Some f => f | None => [] end.

Definition numeral_text (n : numeral) : str :=
  sign_text (num_sign n) ++ num_int n
  ++ match num_point n with Some f => lit "." ++ f | None => [] end
  ++ match num_exp n with
     | Some (upper, sg, d) =>
         (if upper then lit "E" else lit "e") ++ sign_text sg ++ d
     | None => []
     end.

(** The digits are digits, there is one at least before or after the
    point, and the exponent has one at least. *)
Definition numeral_ok (n : numeral) : bool :=
  forallb is_digit (num_int n) && forallb is_digit (num_frac n)
  && negb (str_eqb (num_int n ++ num_frac n) [])
  && match num_exp n with
     | Some (_, _, d) => forallb is_digit d && negb (str_eqb d [])
     | None => true
     end.

(** The number that the numeral denotes: the nearest to the decimal
    value of its digits. *)
Definition numeral_value (n : numeral) : number :=
  number_of_decimal
    match num_sign n with Some true => true | _ => false end
    (digits_value (num_int n ++ num_frac n))
    (match num_exp n with
     | Some (_, Some true, d) => - digits_value d
     | Some (_, _, d) => digits_value d
     | None => 0
     end - Z.of_nat (List.length (num_frac n))).

Definition starts_with_digit (r : str) : bool :=
  match r with c :: _ => is_digit c | [] => false end.

(** The text starts with an exponent: the letter, an optional sign and a
    digit. *)
Definition exponent_start (r : str) : bool :=
  match r with
  | e :: r' =>
      (N.eqb e 101 || N.eqb e 69)
      && match r' with
         | c :: r'' =>
             is_digit c || ((N.eqb c 43 || N.eqb c 45) && starts_with_digit r'')
         | [] => false
         end
  | [] => false
  end.

(** The text [r] does not continue the numeral [n]: [n] followed by [r]
    is read as [n]. *)
Definition numeral_stops (n : numeral) (r : str) : bool :=
  negb (starts_with_digit r)
  && match num_exp n with
     | Some _ => true
     | None =>
         negb (exponent_start r)
         && match num_point n with
            | Some _ => true
            | None => negb (startsWith (lit ".") r)
            end
     end.

(** The text has a prefix that [parseFloat] reads as a number: after
    white space and an optional sign, [Infinity], a digit, or a point and
    a digit. *)
Definition numeric_prefix (s : str) : bool :=
  match trimStart s with
  | c :: r =>
      let u := if N.eqb c 43 || N.eqb c 45 then r else c :: r in
      startsWith (lit "Infinity") u
      || match u with
         | d :: u' => is_digit d || (N.eqb d 46 && starts_with_digit u')
         | [] => false
         end
  | [] => false
  end.

Definition numeral_body (n : numeral) : str :=
  num_int n
  ++ match num_point n with Some f => lit "." ++ f | None => [] end
  ++ match num_exp n with
     | Some (upper, sg, d) =>
         (if upper then lit "E" else lit "e") ++ sign_text sg ++ d
     | None => []
     end.

(** ** The layout of a serialized record *)

(** The line of one option, by the words of the specification: the bare
    [key=] for a value that is absent, a JSON array literal for an array,
    the text form of the value otherwise. *)
Definition option_line (kv : str * jsval) : str :=
  match snd kv with
  | JUndef => fst kv ++ lit "="
  | JArr l => fst kv ++ lit "=" ++ JSON_stringify (JArr l)
  | v => fst kv ++ lit "=" ++ ToString v
  end.

Definition options_lines (o : option TPromtOptions) : list str :=
  match o with
  | Some entries => lit "$$options" :: List.map option_line entries
  | None => []
  end.

Definition segment_lines (sg : option (props str)) : list str :=
  match sg with
  | Some entries =>
      flat_map (fun kv => [lit "$$segment=" ++ fst kv; snd kv]) entries
  | None => []
  end.

(** A section that is written whenever the field is present. *)
Definition section_if_present (marker : str) (field : option str) : list str :=
  match field with
  | Some text => [marker; text]
  | None => []
  end.

(** A section that is written when the field is present and not empty. *)
Definition section_if_nonempty (marker : str) (field : option str) : list str :=
  match field with
  | Some (c :: text) => [marker; c :: text]
  | _ => []
  end.

(** The lines of one record as the specification words them: [system] and
    [grammar] are written when present. *)
Definition claimed_layout (promt : TPromt) : list str :=
  [lit "$$begin"]
  ++ options_lines (options promt)
  ++ section_if_present (lit "$$system") (system promt)
  ++ [lit "$$user"; user promt]
  ++ section_if_present (lit "$$grammar") (grammar promt)
  ++ segment_lines (segment promt)
  ++ [lit "$$end"].

(** The lines of one record, with [system] and [grammar] written when
    present and not empty. *)
Definition layout (promt : TPromt) : list str :=
  [lit "$$begin"]
  ++ options_lines (options promt)
  ++ section_if_nonempty (lit "$$system") (system promt)
  ++ [lit "$$user"; user promt]
  ++ section_if_nonempty (lit "$$grammar") (grammar promt)
  ++ segment_lines (segment promt)
  ++ [lit "$$end"].

(** ** The lines of an options block *)

(** [break_at c s] cuts [s] at the first [c]: what is before it and what
    is after it. *)
Fixpoint break_at (c : char) (s : str) : option (str * str) :=
  match s with
  | [] => None
  | x :: r =>
      if N.eqb x c then Some ([], r)
      else match break_at c r with
           | Some (a, b) => Some (x :: a, b)
           | None => None
           end
  end.

(** What one line contributes, by the words of the specification: nothing
    for a line without [=] (a blank line has none) or with [=] as its first
    character after trimming; otherwise the trimmed left-hand side with the
    decoded right-hand side, unless the decoder gives no value. *)
Definition line_binding (line : str) : option (str * jsval) :=
  match break_at 61%N (trim line) with
  | None => None
  | Some ([], _) => None
  | Some (lhs, rhs) =>
      match parseOptionValue (trim rhs) with
      | JUndef => None
      | v => Some (trim lhs, v)
      end
  end.

(** The value of the last binding of the key [k], if any. *)
Definition last_binding (k : str) (bs : list (option (str * jsval)))
  : option jsval :=
  fold_left
    (fun acc b =>
       match b with
       | Some (k', v) => if str_eqb k' k then Some v else acc
       | None => acc
       end)
    bs None.

(** ** Blocks *)

(** A text all of white space (the empty text is one). *)
Definition blank (s : str) : bool := forallb is_ws s.





(** The state of [parse] after the lines [lines], from the state [st]. *)
Definition run (use : Use) (st : ParseState) (lines : list str) : ParseState :=
  fold_left (parse_line use) lines st.


(** ** Lines *)

(** [text lines] is the text made of the lines [lines]. *)
Definition text (lines : list str) : str := join [newline] lines.

(** The trimmed line [t] is one of the markers of the format. *)
Definition is_marker (t : str) : bool :=
  str_eqb t (lit "$$begin") || str_eqb t (lit "$$end")
  || str_eqb t (lit "$$system") || str_eqb t (lit "$$user")
  || str_eqb t (lit "$$options") || str_eqb t (lit "$$grammar")
  || startsWith (lit "$$segment=") t.

(** A line that [parse] takes as content of the current section. *)
Definition content_line (line : str) : bool := negb (is_marker (trim line)).

(** A text without line feed. *)
Definition one_line (s : str) : bool := forallb (fun c => negb (N.eqb c newline)) s.

(** ** Parsed records *)

(** [opt_all P o]: the property [P] of the value of [o], when present. *)
Definition opt_all {A : Type} (P : A -> Prop) (o : option A) : Prop :=
  match o with Some x => P x | None => True end.

(** A text as [finishSection] stores it: trimmed, and made of content
    lines. *)
Definition section_text (s : str) : Prop :=
  trim s = s /\ Forall (fun l => content_line l = true) (split newline s).

(** A segment name as [parse] stores it: not empty, trimmed, on one line. *)
Definition segment_name (k : str) : Prop :=
  k <> [] /\ trim k = k /\ one_line k = true.

(** The names [ks] are in the order in which an object enumerates
    them. *)
Fixpoint ordered (ks : list str) : bool :=
  match ks with
  | [] => true
  | k :: r => forallb (key_le k) r && ordered r
  end.

(** A segment map as [finishSection] builds it: its names are distinct
    and in the order of enumeration, none is [__proto__], and its texts
    are section texts. *)
Definition segment_map (sg : props str) : Prop :=
  ordered (List.map fst sg) = true /\ NoDup (List.map fst sg)
  /\ Forall (fun kv => fst kv <> lit "__proto__"
                       /\ segment_name (fst kv) /\ section_text (snd kv)) sg.

(** The option records that [finishSection] stores. *)
Definition parsed_options (use : Use) (o : TPromtOptions) : Prop :=
  exists content,
    o = PromtOptionsParse use (Some (parseOptionsToObject content)) false.

(** The grammar texts that [finishSection] stores. *)
Definition parsed_grammar (g : str) : Prop :=
  g <> [] /\ exists content, g = GrammarCheck content.

(** What holds of every record under construction in [parse]. *)
Definition parsed_partial (use : Use) (p : PartialPromt) : Prop :=
  opt_all section_text (p_system p)
  /\ opt_all section_text (p_user p)
  /\ opt_all (parsed_options use) (p_options p)
  /\ opt_all segment_map (p_segment p)
  /\ opt_all parsed_grammar (p_grammar p).

(** What holds of every record that [parse] returns. *)
Definition parsed_record (use : Use) (r : TPromt) : Prop :=
  user r <> []
  /\ opt_all section_text (system r)
  /\ section_text (user r)
  /\ opt_all (parsed_options use) (options r)
  /\ opt_all segment_map (segment r)
  /\ opt_all parsed_grammar (grammar r).

(** What holds of the state of [parse] after lines without line feed. *)
Definition parsed_state (use : Use) (st : ParseState) : Prop :=
  Forall (parsed_record use) (promts st)
  /\ opt_all (parsed_partial use) (currentPromt st)
  /\ Forall (fun l => one_line l = true /\ content_line l = true)
            (sectionContent st)
  /\ opt_all (fun n => n = [] \/ segment_name n) (currentSegmentName st).

(** ** Reading a serialized record back *)

(** The state of [parse] outside a block, with the records [out]. *)
Definition outside (out : list TPromt) : ParseState :=
  {| inBlock := false; currentPromt := None; currentSection := None;
     currentSegmentName := None; sectionContent := []; promts := out |}.

(** The state of [parse] inside a block. *)
Definition in_block (out : list TPromt) (promt : PartialPromt)
  (section : option Section_) (name : option str) (content : list str)
  : ParseState :=
  {| inBlock := true; currentPromt := Some promt; currentSection := section;
     currentSegmentName := name; sectionContent := content; promts := out |}.

(** A section of a serialized block: its kind, the name of the segment and
    the lines of its content. *)
Definition section_lines : Type := Section_ * option str * list str.

(** The marker that opens a section. *)
Definition marker_line (section : Section_) (name : option str) : str :=
  match section with
  | sec_system => lit "$$system"
  | sec_user => lit "$$user"
  | sec_options => lit "$$options"
  | sec_grammar => lit "$$grammar"
  | sec_segment =>
      lit "$$segment=" ++ match name with Some k => k | None => [] end
  end.

Definition marker_ok (section : Section_) (name : option str) : Prop :=
  match section with
  | sec_segment => exists k, name = Some k /\ segment_name k
  | _ => name = None
  end.

(** The lines of a section: its marker and its content. *)
Definition lines_of_section (s : section_lines) : list str :=
  let '(section, name, content) := s in marker_line section name :: content.

Definition section_ok (s : section_lines) : Prop :=
  let '(section, name, content) := s in
  marker_ok section name /\ content <> []
  /\ Forall (fun l => content_line l = true) content.

(** The sections that [serialize] writes for a record, in order. *)
Definition sections_of (promt : TPromt) : list section_lines :=
  match options promt with
  | Some o =>
      [(sec_options, None, flat_map (split newline) (List.map option_line o))]
  | None => []
  end
  ++ match system promt with
     | Some (c :: s) => [(sec_system, None, split newline (c :: s))]
     | _ => []
     end
  ++ [(sec_user, None, split newline (user promt))]
  ++ match grammar promt with
     | Some (c :: g) => [(sec_grammar, None, split newline (c :: g))]
     | _ => []
     end
  ++ match segment promt with
     | Some sg =>
         List.map (fun kv => (sec_segment, Some (fst kv), split newline (snd kv))) sg
     | None => []
     end.

(** The record that the sections build, from the record [promt]. *)
Definition absorb (use : Use) (promt : PartialPromt) (secs : list section_lines)
  : PartialPromt :=
  fold_left
    (fun q (s : section_lines) =>
       let '(section, name, content) := s in
       finishSection q section content use name)
    secs promt.

(** The record under construction once the pending section is finished. *)
Definition flushed (use : Use) (st : ParseState) : option PartialPromt :=
  match currentPromt st with
  | Some promt => Some (finish_pending use st promt)
  | None => None
  end.

(** What reading a record back from its serialized form relies on: the
    option lines, when there are options, are not empty and are decoded
    and validated back to the same options; [system] is not the empty
    text; [segment] is not the empty mapping; [GrammarCheck] leaves the
    grammar unchanged.  For the records that [parse] returns all of this
    follows from [storable], defined below. *)
Definition reads_back (use : Use) (promt : TPromt) : Prop :=
  opt_all
    (fun o =>
       o <> []
       /\ PromtOptionsParse use
            (Some (parseOptionsToObject (join [newline] (List.map option_line o))))
            false = o)
    (options promt)
  /\ system promt <> Some []
  /\ segment promt <> Some []
  /\ opt_all (fun g => GrammarCheck g = g) (grammar promt).

(** The texts that [serialize] writes on lines of their own are read back
    as content: every option line is one content line, and the grammar is
    a section text. *)
Definition written_as_content (promt : TPromt) : Prop :=
  opt_all
    (fun o =>
       Forall (fun kv => one_line (option_line kv) = true
                         /\ content_line (option_line kv) = true) o)
    (options promt)
  /\ opt_all section_text (grammar promt).

(** The record of [Partial<TPromt>] with the fields of [promt]. *)
Definition partial_of (promt : TPromt) : PartialPromt :=
  {| p_system := system promt; p_user := Some (user promt);
     p_options := options promt; p_segment := segment promt;
     p_grammar := grammar promt |}.

(** ** The shape of written texts *)

(** A code unit that is no white space and no dollar sign, and a text
    made of such code units. *)
Definition plain_char (c : char) : bool := negb (is_ws c) && negb (N.eqb c 36).

Definition plain (s : str) : bool := forallb plain_char s.

(** The first code unit of [x] that is no white space is no dollar sign:
    the line that starts at [x] is no marker. *)
Definition safe_at (x : str) : bool :=
  match trimStart x with
  | c :: _ => negb (N.eqb c 36)
  | [] => true
  end.

(** Every line of [s] after the first starts safely. *)
Fixpoint safe_lines (s : str) : bool :=
  match s with
  | [] => true
  | c :: r => (if N.eqb c newline then safe_at r else true) && safe_lines r
  end.

(** No line of the text is a marker, wherever the text is inserted after
    white space. *)
Definition safe_text (s : str) : bool := safe_at s && safe_lines s.

(** ** JSON texts *)

(** The text that an array writes for an element, and the texts that an
    object writes for its properties. *)
Definition array_item (gap indent : str) (x : jsval) : str :=
  match json_stringify gap indent x with
  | Some t => t
  | None => lit "null"
  end.

Definition object_items (gap indent : str) (o : list (str * jsval)) : list str :=
  flat_map
    (fun kv =>
       match json_stringify gap indent (snd kv) with
       | Some t =>
           [json_quote (fst kv)
            ++ match gap with [] => lit ":" | _ => lit ": " end ++ t]
       | None => []
       end)
    o.

(** A property name that starts a content line: on one line, and its
    first code unit is no white space and no dollar sign. *)
Definition name_ok (k : str) : bool :=
  one_line k
  && match k with
     | c :: _ => negb (is_ws c) && negb (N.eqb c 36)
     | [] => false
     end.

(** The schemas of the fields: numbers, integers, booleans and arrays of
    strings. *)
Definition field_schema (s : TSchema) : bool :=
  match s with
  | Type_Number _ | Type_Integer _ | Type_Boolean _ => true
  | Type_Array Type_String _ => true
  | _ => false
  end.

(** The values that pass the check of a field. *)
Definition field_value (v : jsval) : Prop :=
  match v with
  | JNum _ | JBool _ => True
  | JArr l => Forall (fun x => exists s, x = JStr s) l
  | _ => False
  end.

(** ** The decimal digits of a number *)

(** [magnitude a b n]: [10^(n-1) <= a/b < 10^n], for positive [a] and
    [b]. *)
Definition magnitude (a b n : Z) : Prop :=
  if 0 <? n then b * 10 ^ (n - 1) <= a < b * 10 ^ n
  else b <= a * 10 ^ (1 - n) /\ a * 10 ^ (- n) < b.

(** One turn of [shortest_digits], for [k] digits: the candidate [c]
    reads back as the value; the quotient [lo] of the scaled fraction;
    the candidate that is chosen, if any. *)
Definition sd_ok (m : positive) (e n k c : Z) : bool :=
  num_eqb (if c =? 10 ^ k then number_of_decimal false 1 n
           else number_of_decimal false c (n - k))
          (S754_finite false m e).

Definition sd_lo (a b n k : Z) : Z :=
  let p := n - k in
  let a' := if p <? 0 then a * 10 ^ (- p) else a in
  let b' := if p <? 0 then b else b * 10 ^ p in
  a' / b'.

Definition sd_pick (m : positive) (e a b n k : Z) : option Z :=
  let p := n - k in
  let a' := if p <? 0 then a * 10 ^ (- p) else a in
  let b' := if p <? 0 then b else b * 10 ^ p in
  let lo := a' / b' in
  let hi := lo + 1 in
  let d_lo := a' - lo * b' in
  let d_hi := hi * b' - a' in
  if sd_ok m e n k lo && sd_ok m e n k hi then
    if d_lo <? d_hi then Some lo
    else if d_hi <? d_lo then Some hi
    else if Z.even lo then Some lo else Some hi
  else if sd_ok m e n k lo then Some lo
  else if sd_ok m e n k hi then Some hi
  else None.

(** The number [x] with the sign [neg]. *)
Definition with_sign (neg : bool) (x : number) : number :=
  match x with
  | S754_zero _ => S754_zero neg
  | S754_infinity _ => S754_infinity neg
  | S754_nan => S754_nan
  | S754_finite _ m e => S754_finite neg m e
  end.

(** The numeral that [Number::toString] writes for the digits [s] and the
    magnitude [n]: the four layouts of [positive_to_string]. *)
Definition printed (neg : bool) (s n : Z) : numeral :=
  let ds := Z_to_string s in
  let k := Z.of_nat (List.length ds) in
  let sg := if neg then Some true else None in
  if (k <=? n) && (n <=? 21) then
    {| num_sign := sg; num_int := ds ++ zeros (n - k); num_point := None;
       num_exp := None |}
  else if (0 <? n) && (n <=? 21) then
    {| num_sign := sg; num_int := firstn (Z.to_nat n) ds;
       num_point := Some (skipn (Z.to_nat n) ds); num_exp := None |}
  else if (-6 <? n) && (n <=? 0) then
    {| num_sign := sg; num_int := lit "0"; num_point := Some (zeros (- n) ++ ds);
       num_exp := None |}
  else
    {| num_sign := sg; num_int := firstn 1 ds;
       num_point := match ds with _ :: _ :: _ => Some (skipn 1 ds) | _ => None end;
       num_exp := Some (false, Some (n - 1 <? 0), Z_to_string (Z.abs (n - 1))) |}.

(** The code units of a written number. *)
Definition num_char (c : char) : bool :=
  is_digit c || N.eqb c 43 || N.eqb c 45 || N.eqb c 46 || N.eqb c 101.

(** ** Reading JSON texts *)

(** The text [r] does not continue a JSON number. *)
Definition json_stop (r : str) : bool :=
  match r with
  | [] => true
  | c :: _ =>
      negb (is_digit c) && negb (N.eqb c 46) && negb (N.eqb c 101)
      && negb (N.eqb c 69)
  end.

(** A numeral of the JSON grammar: no sign [+], no leading zero, and a
    digit after the point. *)
Definition json_numeral (n : numeral) : bool :=
  match num_sign n with Some false => false | _ => true end
  && match num_int n with
     | [] => false
     | c :: r => negb (N.eqb c 48) || match r with [] => true | _ => false end
     end
  && match num_point n with Some [] => false | _ => true end.

(** The number of values in a value, each element and each property
    counting for one more: the fuel that reading the value takes. *)
Fixpoint json_size (v : jsval) : nat :=
  match v with
  | JArr l =>
      S ((fix go (l : list jsval) : nat :=
            match l with
            | [] => O
            | x :: r => S (json_size x + go r)
            end) l)
  | JObj o =>
      S ((fix go (o : list (str * jsval)) : nat :=
            match o with
            | [] => O
            | (_, x) :: r => S (json_size x + go r)
            end) o)
  | _ => 1%nat
  end.

Definition elements_size (l : list jsval) : nat :=
  fold_right (fun x n => S (json_size x + n)) O l.

Definition members_size (o : list (str * jsval)) : nat :=
  fold_right (fun kv n => S (json_size (snd kv) + n)) O o.

Definition texts_size (ts : list str) : nat :=
  fold_right (fun t n => S (List.length t + n)) O ts.

(** The value that is read back from the text of a value: a number that
    is not finite is written [null], and the zeros are written [0]. *)
Definition norm_number (n : number) : jsval :=
  match n with
  | S754_zero _ => JNum (S754_zero false)
  | S754_finite _ _ _ => JNum n
  | _ => JNull
  end.

Fixpoint json_norm (v : jsval) : jsval :=
  match v with
  | JNum n => norm_number n
  | JArr l => JArr (List.map json_norm l)
  | JObj o =>
      JObj ((fix go (o : list (str * jsval)) : list (str * jsval) :=
               match o with
               | [] => []
               | (k, x) :: r => (k, json_norm x) :: go r
               end) o)
  | _ => v
  end.

Definition norm_members (o : list (str * jsval)) : list (str * jsval) :=
  List.map (fun kv => (fst kv, json_norm (snd kv))) o.

(** The values that [JSON.parse] returns: no [undefined], numbers in
    canonical form, properties with distinct names in the order of
    enumeration. *)
Fixpoint json_wf (v : jsval) : Prop :=
  match v with
  | JUndef => False
  | JNum n => valid_binary prec emax n = true
  | JArr l =>
      (fix all (l : list jsval) : Prop :=
         match l with
         | [] => True
         | x :: r => json_wf x /\ all r
         end) l
  | JObj o =>
      ordered (List.map fst o) = true /\ NoDup (List.map fst o)
      /\ (fix all (o : list (str * jsval)) : Prop :=
            match o with
            | [] => True
            | (_, x) :: r => json_wf x /\ all r
            end) o
  | _ => True
  end.

Definition object_wf (o : list (str * jsval)) : Prop :=
  ordered (List.map fst o) = true /\ NoDup (List.map fst o)
  /\ Forall (fun kv => json_wf (snd kv)) o.

(** The white space that [json_wrap] writes before the first element and
    after each comma, and before the closing bracket. *)
Definition wrap_pre (gap indent : str) : str :=
  match gap with [] => [] | _ => [newline] ++ indent ++ gap end.

Definition wrap_post (gap indent : str) : str :=
  match gap with [] => [] | _ => [newline] ++ indent end.

(** The text of a property: its name, the colon and its value. *)
Definition member_text (gap indent : str) (kv : str * jsval) : str :=
  json_quote (fst kv)
  ++ match gap with [] => lit ":" | _ => lit ": " end
  ++ array_item gap indent (snd kv).

(** The first code unit of the text of a value: no white space and no
    closing bracket. *)
Definition value_start (c : char) : bool :=
  negb (json_ws c) && negb (N.eqb c 93) && negb (N.eqb c 125).

(** The text of [v], whatever the indentation, is read back as [v] in
    normal form by [json_value], with fuel for the size of [v]. *)
Definition reads (v : jsval) : Prop :=
  forall gap indent fuel rest,
    forallb json_ws gap = true -> forallb json_ws indent = true ->
    (json_size v <= fuel)%nat -> json_stop rest = true ->
    json_value fuel (array_item gap indent v ++ rest) = Some (json_norm v, rest).

(** ** Records that are read back *)

(** A value of an options block: its numbers are in canonical form. *)
Definition option_value (v : jsval) : Prop :=
  match v with
  | JNum n => valid_binary prec emax n = true
  | _ => True
  end.

(** The names of the fields: plain texts without [=], that are no array
    index and not [__proto__]. *)
Definition field_name (k : str) : bool :=
  plain k && negb (existsb (N.eqb 61) k)
  && match array_index k with None => true | Some _ => false end
  && negb (str_eqb k (lit "__proto__"))
  && negb (str_eqb k []).

(** The text that [serializeOptionValue] writes for a value. *)
Definition value_text (v : jsval) : str :=
  match v with
  | JArr l => JSON_stringify (JArr l)
  | _ => ToString v
  end.

(** The value is the number 0 (of either sign) or 1: [serialize] writes
    it [0] or [1], which [parseOptionValue] reads as a boolean. *)
Definition zero_or_one (v : jsval) : bool :=
  match v with
  | JNum (S754_zero _) => true
  | JNum n => num_eqb n (int 1)
  | _ => false
  end.

(** The record is one that [serialize] writes in full and [parse] reads
    back unchanged: its options, when present, are not empty (the marker
    [$$options] without lines is skipped) and none of their values is
    the number 0 or 1; [system] is not the empty text (which is not
    written); [segment] is not the empty mapping (which writes
    nothing). *)
Definition storable (promt : TPromt) : bool :=
  match options promt with
  | Some o =>
      negb (match o with [] => true | _ => false end)
      && forallb (fun kv => negb (zero_or_one (snd kv))) o
  | None => true
  end
  && match system promt with Some [] => false | _ => true end
  && match segment promt with Some [] => false | _ => true end.

(* ===================================================================== *)
(** * Part V. Properties                                                  *)
(* ===================================================================== *)

(** ** Strings and objects *)

Lemma str_eqb_refl (a : str) : str_eqb a a = true.
Proof.
  induction a as [|x a IH]; simpl; [reflexivity|].
  now rewrite N.eqb_refl, IH.
Qed.

Lemma str_eqb_eq (a b : str) : str_eqb a b = true <-> a = b.
Proof.
  split.
  - revert b; induction a as [|x a IH]; intros [|y b] H; simpl in H;
      try discriminate; [reflexivity|].
    apply andb_true_iff in H as [Hx Hr].
    apply N.eqb_eq in Hx. f_equal; auto.
  - intros ->. apply str_eqb_refl.
Qed.

Lemma str_eqb_neq (a b : str) : str_eqb a b = false <-> a <> b.
Proof.
  split.
  - intros H E. apply str_eqb_eq in E. congruence.
  - intros H. destruct (str_eqb a b) eqn:E; [|reflexivity].
    apply str_eqb_eq in E. contradiction.
Qed.

Lemma str_eqb_sym (a b : str) : str_eqb a b = str_eqb b a.
Proof.
  destruct (str_eqb a b) eqn:E.
  - apply str_eqb_eq in E. subst. now rewrite str_eqb_refl.
  - symmetry. apply str_eqb_neq. apply str_eqb_neq in E. congruence.
Qed.

Section Props.
Context {A : Type}.

Lemma prop_lookup_app (a b : props A) (k : str) :
  prop_lookup (a ++ b) k =
  match prop_lookup a k with Some v => Some v | None => prop_lookup b k end.
Proof.
  induction a as [|[k' v'] a IH]; cbn [app prop_lookup]; [reflexivity|].
  destruct (str_eqb k' k); [reflexivity|exact IH].
Qed.

Lemma prop_lookup_replace_eq (o : props A) (k : str) (v v0 : A) :
  prop_lookup o k = Some v0 -> prop_lookup (prop_replace o k v) k = Some v.
Proof.
  induction o as [|[k' v'] o IH]; cbn [prop_lookup prop_replace]; [discriminate|].
  destruct (str_eqb k' k) eqn:E; cbn [prop_lookup]; rewrite E; auto.
Qed.

Lemma prop_lookup_replace_ne (o : props A) (k k' : str) (v : A) :
  k <> k' -> prop_lookup (prop_replace o k v) k' = prop_lookup o k'.
Proof.
  intros Hne. induction o as [|[k0 v0] o IH]; cbn [prop_lookup prop_replace];
    [reflexivity|].
  destruct (str_eqb k0 k) eqn:E; cbn [prop_lookup].
  - apply str_eqb_eq in E. subst k0.
    destruct (str_eqb k k') eqn:E'; [|reflexivity].
    apply str_eqb_eq in E'. contradiction.
  - now rewrite IH.
Qed.

Lemma prop_lookup_insert_eq (o : props A) (k : str) (v : A) :
  prop_lookup o k = None -> prop_lookup (prop_insert o k v) k = Some v.
Proof.
  induction o as [|[k' v'] o IH]; cbn [prop_lookup prop_insert].
  - now rewrite str_eqb_refl.
  - destruct (str_eqb k' k) eqn:E; [discriminate|]. intros H.
    destruct (key_le k' k); cbn [prop_lookup];
      rewrite ?E, ?str_eqb_refl; auto.
Qed.

Lemma prop_lookup_insert_ne (o : props A) (k k' : str) (v : A) :
  k <> k' -> prop_lookup (prop_insert o k v) k' = prop_lookup o k'.
Proof.
  intros Hne. apply str_eqb_neq in Hne.
  induction o as [|[k0 v0] o IH]; cbn [prop_lookup prop_insert].
  - now rewrite Hne.
  - destruct (key_le k0 k); cbn [prop_lookup]; rewrite ?Hne, ?IH; reflexivity.
Qed.

Lemma prop_lookup_set_eq (o : props A) (k : str) (v : A) :
  prop_lookup (prop_set o k v) k = Some v.
Proof.
  unfold prop_set. destruct (prop_lookup o k) as [v0|] eqn:E.
  - now apply prop_lookup_replace_eq with v0.
  - now apply prop_lookup_insert_eq.
Qed.

Lemma prop_lookup_set_ne (o : props A) (k k' : str) (v : A) :
  k <> k' -> prop_lookup (prop_set o k v) k' = prop_lookup o k'.
Proof.
  intros Hne. unfold prop_set. destruct (prop_lookup o k) as [v0|].
  - now apply prop_lookup_replace_ne.
  - now apply prop_lookup_insert_ne.
Qed.

Lemma prop_replace_In (o : props A) (k : str) (v : A) (kv : str * A) :
  In kv (prop_replace o k v) -> kv = (k, v) \/ In kv o.
Proof.
  induction o as [|[k0 v0] o IH]; cbn [prop_replace]; [intros []|].
  destruct (str_eqb k0 k) eqn:E; cbn [In].
  - apply str_eqb_eq in E. subst k0. intros [<-|H]; auto.
  - intros [<-|H]; auto. destruct (IH H); auto.
Qed.

Lemma prop_insert_In (o : props A) (k : str) (v : A) (kv : str * A) :
  In kv (prop_insert o k v) <-> kv = (k, v) \/ In kv o.
Proof.
  induction o as [|[k0 v0] o IH]; cbn [prop_insert].
  - cbn [In]. intuition.
  - destruct (key_le k0 k); cbn [In] in *; rewrite ?IH; intuition.
Qed.

Lemma prop_set_In (o : props A) (k : str) (v : A) (kv : str * A) :
  In kv (prop_set o k v) -> kv = (k, v) \/ In kv o.
Proof.
  unfold prop_set. destruct (prop_lookup o k).
  - apply prop_replace_In.
  - apply prop_insert_In.
Qed.

Lemma prop_set_Forall (P : str * A -> Prop) (o : props A) (k : str) (v : A) :
  Forall P o -> P (k, v) -> Forall P (prop_set o k v).
Proof.
  intros Ho Hkv. apply Forall_forall. intros kv Hin.
  apply prop_set_In in Hin as [->|Hin]; [assumption|].
  rewrite Forall_forall in Ho. auto.
Qed.

Lemma js_set_Forall (P : str * A -> Prop) (o : props A) (k : str) (v : A) :
  Forall P o -> P (k, v) -> Forall P (js_set o k v).
Proof.
  intros Ho Hkv. unfold js_set.
  destruct (str_eqb k (lit "__proto__")); [assumption|].
  now apply prop_set_Forall.
Qed.

Lemma prop_lookup_In (o : props A) (k : str) (v : A) :
  prop_lookup o k = Some v -> In (k, v) o.
Proof.
  induction o as [|[k0 v0] o IH]; simpl; [discriminate|].
  destruct (str_eqb k0 k) eqn:E.
  - apply str_eqb_eq in E. subst. intros [= ->]. now left.
  - intros H. right. auto.
Qed.

Lemma prop_lookup_None (o : props A) (k : str) :
  prop_lookup o k = None <-> ~ In k (List.map fst o).
Proof.
  induction o as [|[k0 v0] o IH]; simpl.
  - tauto.
  - destruct (str_eqb k0 k) eqn:E.
    + apply str_eqb_eq in E. subst. split; [discriminate|]. tauto.
    + apply str_eqb_neq in E. rewrite IH. tauto.
Qed.

Lemma prop_insert_last (o : props A) (k : str) (v : A) :
  forallb (fun kv => key_le (fst kv) k) o = true ->
  prop_insert o k v = o ++ [(k, v)].
Proof.
  induction o as [|[k0 v0] o IH]; cbn [prop_insert forallb fst app];
    [reflexivity|].
  intros H. apply andb_true_iff in H as [H1 H2]. now rewrite H1, IH.
Qed.

(** Setting a property that is not there, and whose name is no array
    index, appends it. *)
Lemma prop_set_fresh (o : props A) (k : str) (v : A) :
  prop_lookup o k = None -> array_index k = None ->
  prop_set o k v = o ++ [(k, v)].
Proof.
  intros H1 H2. unfold prop_set. rewrite H1. apply prop_insert_last.
  apply forallb_forall. intros [k0 v0] _. unfold key_le. cbn [fst].
  rewrite H2. now destruct (array_index k0).
Qed.
End Props.

Lemma js_get_set_eq (o : obj) (k : str) (v : jsval) : js_get (prop_set o k v) k = v.
Proof. unfold js_get. now rewrite prop_lookup_set_eq. Qed.

Lemma js_get_set_ne (o : obj) (k k' : str) (v : jsval) :
  k <> k' -> js_get (prop_set o k v) k' = js_get o k'.
Proof. intros H. unfold js_get. now rewrite prop_lookup_set_ne. Qed.

Lemma prop_lookup_js_set {A : Type} (o : props A) (k k' : str) (v : A) :
  prop_lookup (js_set o k v) k' =
  if str_eqb k (lit "__proto__") then prop_lookup o k'
  else if str_eqb k k' then Some v else prop_lookup o k'.
Proof.
  unfold js_set. destruct (str_eqb k (lit "__proto__")); [reflexivity|].
  destruct (str_eqb k k') eqn:E.
  - apply str_eqb_eq in E. subst k'. apply prop_lookup_set_eq.
  - apply str_eqb_neq in E. now apply prop_lookup_set_ne.
Qed.

(** ** [PromtOptionsParse] *)

Lemma PromtOptionsParse_key_outcome schema defaults input all result key :
  PromtOptionsParse_key schema defaults input all result key =
  match key_outcome schema defaults input all key with
  | Some v => prop_set result key v
  | None => result
  end.
Proof.
  unfold PromtOptionsParse_key, key_outcome.
  destruct (is_undefined (js_get input key)); [now destruct all|].
  destruct (match prop_lookup schema key with
            | Some s => Value_Check s (js_get input key)
            | None => false
            end); [reflexivity|now destruct all].
Qed.

(** The loop over the keys, seen from one property of the result. *)
Lemma fold_keys_lookup schema defaults input all ks :
  forall result k,
    prop_lookup
      (fold_left (PromtOptionsParse_key schema defaults input all) ks result) k =
    if existsb (str_eqb k) ks then
      match key_outcome schema defaults input all k with
      | Some v => Some v
      | None => prop_lookup result k
      end
    else prop_lookup result k.
Proof.
  induction ks as [|key ks IH]; intros result k; simpl; [reflexivity|].
  rewrite IH, PromtOptionsParse_key_outcome.
  destruct (str_eqb k key) eqn:E; simpl.
  - apply str_eqb_eq in E. subst key.
    destruct (key_outcome schema defaults input all k) as [v|] eqn:Ho.
    + rewrite prop_lookup_set_eq. now destruct (existsb (str_eqb k) ks).
    + now destruct (existsb (str_eqb k) ks).
  - apply str_eqb_neq in E.
    destruct (key_outcome schema defaults input all key) as [v|]; [|reflexivity].
    rewrite prop_lookup_set_ne by congruence. reflexivity.
Qed.

Lemma fold_keys_Forall (P : str * jsval -> Prop) schema defaults input all ks :
  (forall k v, In k ks -> key_outcome schema defaults input all k = Some v -> P (k, v)) ->
  forall result, Forall P result ->
    Forall P (fold_left (PromtOptionsParse_key schema defaults input all) ks result).
Proof.
  induction ks as [|key ks IH]; intros Hk result Hr; simpl; [assumption|].
  apply IH.
  - intros k v Hin. apply Hk. now right.
  - rewrite PromtOptionsParse_key_outcome.
    destruct (key_outcome schema defaults input all key) as [v|] eqn:Ho;
      [|assumption].
    apply prop_set_Forall; [assumption|]. apply Hk; [now left|assumption].
Qed.

Lemma existsb_str_eqb_In (k : str) (ks : list str) :
  existsb (str_eqb k) ks = true <-> In k ks.
Proof.
  rewrite existsb_exists. split.
  - intros [x [Hin E]]. apply str_eqb_eq in E. now subst.
  - intros H. exists k. split; [assumption|apply str_eqb_refl].
Qed.

(** [PromtOptionsParse] through the vocabulary above. *)
Lemma PromtOptionsParse_unfold use raw all :
  PromtOptionsParse use raw all =
  let result :=
    fold_left
      (PromtOptionsParse_key (schema_of use) (defaults_of use) (input_of raw) all)
      (List.map fst (defaults_of use)) [] in
  let seed := js_get (input_of raw) (lit "seed") in
  if negb (is_undefined seed) && field_check use (lit "seed") seed
  then prop_set result (lit "seed") seed
  else result.
Proof.
  unfold PromtOptionsParse, field_check, schema_of, defaults_of, input_of.
  cbv zeta.
  destruct (is_undefined
              (js_get match raw with Some o => o | None => [] end (lit "seed")));
    reflexivity.
Qed.

(** Every default passes the check of its field. *)
Lemma defaults_valid (use : Use) :
  forallb (fun kv => field_check use (fst kv) (snd kv)) (defaults_of use) = true.
Proof. destruct use; vm_compute; reflexivity. Qed.

Lemma default_valid (use : Use) (k : str) :
  In k (List.map fst (defaults_of use)) ->
  field_check use k (js_get (defaults_of use) k) = true.
Proof.
  intros Hin.
  assert (H := defaults_valid use).
  destruct use; simpl in Hin;
    repeat (destruct Hin as [<-|Hin]; [vm_compute; reflexivity|]);
    destruct Hin.
Qed.

Lemma seed_not_default (use : Use) (k : str) :
  In k (List.map fst (defaults_of use)) -> k <> lit "seed".
Proof.
  intros Hin E. subst k.
  destruct use; simpl in Hin;
    repeat (destruct Hin as [Hin|Hin]; [vm_compute in Hin; discriminate|]);
    destruct Hin.
Qed.

Lemma seed_schema (use : Use) :
  prop_lookup (schema_of use) (lit "seed") = Some (Type_Integer PromtValue.seed).
Proof. destruct use; reflexivity. Qed.

Lemma seed_check (use : Use) (v : jsval) :
  field_check use (lit "seed") v = true <->
  exists n, v = JNum n /\ isInteger n = true /\ num_le (int 0) n = true.
Proof.
  unfold field_check. rewrite seed_schema.
  destruct v as [| |b|n|s|l|o]; simpl;
    try (split; [discriminate|intros [n' [E _]]; discriminate]).
  unfold in_bounds. simpl minimum. simpl maximum.
  rewrite andb_true_r, andb_true_iff. split.
  - intros [Hi Hb]. exists n. auto.
  - intros [n' [[= <-] [Hi Hb]]]. auto.
Qed.

(** The loop of [PromtOptionsParse] never stores [seed]. *)
Lemma fold_keys_no_seed (use : Use) input all :
  prop_lookup
    (fold_left
       (PromtOptionsParse_key (schema_of use) (defaults_of use) input all)
       (List.map fst (defaults_of use)) []) (lit "seed") = None.
Proof.
  rewrite fold_keys_lookup.
  replace (existsb (str_eqb (lit "seed")) (List.map fst (defaults_of use)))
    with false by (destruct use; reflexivity).
  reflexivity.
Qed.

(** C2.  For every profile, every field [f] of its table of defaults (every
    field but [seed]) and every raw mapping whose value for [f] fails the
    check of [f]: with [useAllOptions = true] the result maps [f] to the
    default of the profile, which itself passes the check; with
    [useAllOptions = false] the result has no [f].  The function is total:
    nothing is raised, and the invalid value is not kept. *)
Theorem PromtOptionsParse_invalid_value (use : Use) (raw : obj) (f : str) :
  In f (List.map fst (defaults_of use)) ->
  field_check use f (js_get raw f) = false ->
  prop_lookup (PromtOptionsParse use (Some raw) true) f
    = Some (js_get (defaults_of use) f)
  /\ field_check use f (js_get (defaults_of use) f) = true
  /\ prop_lookup (PromtOptionsParse use (Some raw) false) f = None.
Proof.
  intros Hin Hbad.
  assert (Hseed : f <> lit "seed") by now apply (seed_not_default use).
  assert (Hex : existsb (str_eqb f) (List.map fst (defaults_of use)) = true)
    by now apply existsb_str_eqb_In.
  assert (Hout : forall all,
             key_outcome (schema_of use) (defaults_of use) raw all f =
             if all then Some (js_get (defaults_of use) f) else None).
  { intros all. unfold key_outcome.
    destruct (is_undefined (js_get raw f)); [reflexivity|].
    unfold field_check in Hbad. now rewrite Hbad. }
  assert (Hres : forall all,
             prop_lookup (PromtOptionsParse use (Some raw) all) f =
             if all then Some (js_get (defaults_of use) f) else None).
  { intros all. rewrite PromtOptionsParse_unfold. cbv zeta.
    match goal with
    | |- prop_lookup (if ?c then _ else _) _ = _ => destruct c
    end.
    - rewrite prop_lookup_set_ne by congruence.
      rewrite fold_keys_lookup, Hex. simpl input_of. rewrite Hout.
      now destruct all.
    - rewrite fold_keys_lookup, Hex. simpl input_of. rewrite Hout.
      now destruct all. }
  split; [apply (Hres true)|].
  split; [now apply default_valid|apply (Hres false)].
Qed.

Lemma PromtOptionsParse_invalid_value_witness :
  let raw := [(lit "temperature", JNum (int 5))] in
  In (lit "temperature") (List.map fst (defaults_of core))
  /\ field_check core (lit "temperature") (js_get raw (lit "temperature")) = false
  /\ prop_lookup (PromtOptionsParse core (Some raw) true) (lit "temperature")
       = Some (js_get (defaults_of core) (lit "temperature"))
  /\ field_check core (lit "temperature")
       (js_get (defaults_of core) (lit "temperature")) = true
  /\ prop_lookup (PromtOptionsParse core (Some raw) false) (lit "temperature") = None.
Proof.
  intros raw.
  assert (Hin : In (lit "temperature") (List.map fst (defaults_of core)))
    by (left; reflexivity).
  assert (Hbad : field_check core (lit "temperature")
                   (js_get raw (lit "temperature")) = false)
    by (vm_compute; reflexivity).
  split; [exact Hin|]. split; [exact Hbad|].
  exact (PromtOptionsParse_invalid_value core raw (lit "temperature") Hin Hbad).
Defined.

(** C3.  For every profile, raw mapping and flag [useAllOptions], the result
    of [PromtOptionsParse] has a [seed] exactly when the raw mapping gives
    [seed] a value that passes the check of the field, an integer that is
    at least 0; the value is then the one of the raw mapping, never a
    default. *)
Theorem PromtOptionsParse_seed (use : Use) (raw : option obj)
  (useAllOptions : bool) (v : jsval) :
  prop_lookup (PromtOptionsParse use raw useAllOptions) (lit "seed") = Some v <->
  js_get (input_of raw) (lit "seed") = v
  /\ exists n, v = JNum n /\ isInteger n = true /\ num_le (int 0) n = true.
Proof.
  rewrite PromtOptionsParse_unfold. cbv zeta.
  rewrite <- (seed_check use).
  destruct (is_undefined (js_get (input_of raw) (lit "seed"))) eqn:Hu; simpl negb.
  - simpl andb. cbv iota. rewrite fold_keys_no_seed.
    split; [discriminate|]. intros [<- Hc].
    destruct (js_get (input_of raw) (lit "seed")); try discriminate.
    apply seed_check in Hc as [n [E _]]. discriminate.
  - rewrite andb_true_l.
    destruct (field_check use (lit "seed") (js_get (input_of raw) (lit "seed")))
      eqn:Hc.
    + rewrite prop_lookup_set_eq. split.
      * intros [= <-]. auto.
      * intros [<- _]. reflexivity.
    + rewrite fold_keys_no_seed. split; [discriminate|].
      intros [<- Hc']. congruence.
Qed.

(** The properties of the record that [PromtOptionsParse] returns. *)
Lemma PromtOptionsParse_entries (use : Use) (raw : option obj)
  (useAllOptions : bool) :
  Forall (fun kv => In (fst kv) (field_names use)
                    /\ field_check use (fst kv) (snd kv) = true)
         (PromtOptionsParse use raw useAllOptions).
Proof.
  rewrite PromtOptionsParse_unfold. cbv zeta.
  assert (Hloop :
    Forall (fun kv => In (fst kv) (field_names use)
                      /\ field_check use (fst kv) (snd kv) = true)
      (fold_left
         (PromtOptionsParse_key (schema_of use) (defaults_of use)
            (input_of raw) useAllOptions)
         (List.map fst (defaults_of use)) [])).
  { apply fold_keys_Forall; [|constructor].
    intros k v Hin Hout. simpl fst. simpl snd. split.
    - unfold field_names. apply in_or_app. now left.
    - unfold key_outcome in Hout.
      destruct (is_undefined (js_get (input_of raw) k)).
      + destruct useAllOptions; [|discriminate].
        injection Hout as <-. now apply default_valid.
      + fold (field_check use k (js_get (input_of raw) k)) in Hout.
        destruct (field_check use k (js_get (input_of raw) k)) eqn:Hc.
        * now injection Hout as <-.
        * destruct useAllOptions; [|discriminate].
          injection Hout as <-. now apply default_valid. }
  destruct (negb (is_undefined (js_get (input_of raw) (lit "seed"))));
    [|exact Hloop].
  rewrite andb_true_l.
  destruct (field_check use (lit "seed") (js_get (input_of raw) (lit "seed")))
    eqn:Hc; [|exact Hloop].
  apply prop_set_Forall; [exact Hloop|].
  simpl fst. simpl snd. split; [|exact Hc].
  unfold field_names. apply in_or_app. right. now left.
Qed.

(** C8.  For every profile, raw mapping and flag [useAllOptions], every
    property of the record returned by [PromtOptionsParse] has the name of
    a field (one of the table of defaults, or [seed]) and a value that
    passes the check of that field; and every default of the profile
    passes the check of its field. *)
Theorem PromtOptionsParse_valid (use : Use) (raw : option obj)
  (useAllOptions : bool) :
  Forall (fun kv => In (fst kv) (field_names use)
                    /\ field_check use (fst kv) (snd kv) = true)
         (PromtOptionsParse use raw useAllOptions)
  /\ Forall (fun kv => field_check use (fst kv) (snd kv) = true) (defaults_of use).
Proof.
  split; [apply PromtOptionsParse_entries|].
  apply Forall_forall. intros kv Hin.
  assert (H := defaults_valid use).
  rewrite forallb_forall in H. auto.
Qed.

(** ** [ToPromtOptionsLlamaCpp] *)

Lemma copy_defined_lookup options k k' result key :
  k' <> key ->
  prop_lookup (copy_defined options k k' result) key = prop_lookup result key.
Proof.
  intros H. unfold copy_defined.
  destruct (negb (is_undefined (js_get options k))); [|reflexivity].
  now apply prop_lookup_set_ne.
Qed.

Ltac lit_neq := let E := fresh in intro E; vm_compute in E; discriminate.

(** The sub-object built by the spreads is the group of the present
    fields. *)
Lemma spread_penalty_group (options : obj) :
  spread_defined options (lit "penalizeNewline") (lit "penalizeNewLine")
    (spread_defined options (lit "presencePenalty") (lit "presencePenalty")
       (spread_defined options (lit "frequencyPenalty") (lit "frequencyPenalty")
          (spread_defined options (lit "repeatPenaltyNum") (lit "lastTokens")
             (spread_defined options (lit "repeatPenalty") (lit "penalty") []))))
  = penalty_group options.
Proof.
  unfold spread_defined, penalty_group, defined.
  destruct (negb (is_undefined (js_get options (lit "repeatPenalty"))));
  destruct (negb (is_undefined (js_get options (lit "repeatPenaltyNum"))));
  destruct (negb (is_undefined (js_get options (lit "frequencyPenalty"))));
  destruct (negb (is_undefined (js_get options (lit "presencePenalty"))));
  destruct (negb (is_undefined (js_get options (lit "penalizeNewline"))));
  reflexivity.
Qed.

(** C9.  [ToPromtOptionsLlamaCpp] gives the result a [repeatPenalty]
    exactly when one of [repeatPenalty], [repeatPenaltyNum],
    [frequencyPenalty], [presencePenalty], [penalizeNewline] is present in
    the input; it is then the sub-object of the present ones under the names
    [penalty], [lastTokens], [frequencyPenalty], [presencePenalty],
    [penalizeNewLine].  The projection of
    [{repeatPenalty: 1.1, repeatPenaltyNum: 64, frequencyPenalty: 0.5}] is
    [{repeatPenalty: {penalty: 1.1, lastTokens: 64, frequencyPenalty: 0.5}}]
    and nothing else. *)
Theorem ToPromtOptionsLlamaCpp_repeatPenalty (options : TPromtOptions) :
  prop_lookup (ToPromtOptionsLlamaCpp options) (lit "repeatPenalty") =
    (if defined options (lit "repeatPenalty")
        || defined options (lit "repeatPenaltyNum")
        || defined options (lit "frequencyPenalty")
        || defined options (lit "presencePenalty")
        || defined options (lit "penalizeNewline")
     then Some (JObj (penalty_group options))
     else None)
  /\ ToPromtOptionsLlamaCpp
       [ (lit "repeatPenalty", JNum (dec 11 (-1)));
         (lit "repeatPenaltyNum", JNum (int 64));
         (lit "frequencyPenalty", JNum (dec 5 (-1))) ]
     = [ (lit "repeatPenalty",
          JObj [ (lit "penalty", JNum (dec 11 (-1)));
                 (lit "lastTokens", JNum (int 64));
                 (lit "frequencyPenalty", JNum (dec 5 (-1))) ]) ].
Proof.
  split; [|vm_compute; reflexivity].
  unfold ToPromtOptionsLlamaCpp. cbv zeta. fold (defined options (lit "repeatPenalty")).
  fold (defined options (lit "repeatPenaltyNum")).
  fold (defined options (lit "frequencyPenalty")).
  fold (defined options (lit "presencePenalty")).
  fold (defined options (lit "penalizeNewline")).
  destruct (defined options (lit "repeatPenalty")
            || defined options (lit "repeatPenaltyNum")
            || defined options (lit "frequencyPenalty")
            || defined options (lit "presencePenalty")
            || defined options (lit "penalizeNewline")).
  - rewrite prop_lookup_set_eq, spread_penalty_group. reflexivity.
  - rewrite !copy_defined_lookup by lit_neq.
    destruct (negb (is_undefined (js_get options (lit "tokenBias")))
              && has_keys (js_get options (lit "tokenBias")));
      [rewrite prop_lookup_set_ne by lit_neq|];
      (destruct (negb (is_undefined (js_get options (lit "stopSequences")))
                 && length_positive (js_get options (lit "stopSequences")));
       [rewrite prop_lookup_set_ne by lit_neq|]);
      rewrite !copy_defined_lookup by lit_neq; reflexivity.
Qed.

(** ** The fields that the converters copy *)

Lemma copy_defined_get options k t r q :
  prop_lookup (copy_defined options k t r) q =
  if str_eqb t q && defined options k then Some (js_get options k)
  else prop_lookup r q.
Proof.
  unfold copy_defined, defined.
  destruct (negb (is_undefined (js_get options k))).
  - rewrite andb_true_r. destruct (str_eqb t q) eqn:E.
    + apply str_eqb_eq in E. subst q. apply prop_lookup_set_eq.
    + apply str_eqb_neq in E. now apply prop_lookup_set_ne.
  - now rewrite andb_false_r.
Qed.

Lemma cond_set_get (c : bool) (r : obj) (t : str) (v : jsval) (q : str) :
  prop_lookup (if c then prop_set r t v else r) q =
  if str_eqb t q && c then Some v else prop_lookup r q.
Proof.
  destruct c.
  - rewrite andb_true_r. destruct (str_eqb t q) eqn:E.
    + apply str_eqb_eq in E. subst q. apply prop_lookup_set_eq.
    + apply str_eqb_neq in E. now apply prop_lookup_set_ne.
  - now rewrite andb_false_r.
Qed.

Ltac eval_str_eqb :=
  repeat match goal with
         | |- context [str_eqb (lit ?a) (lit ?b)] =>
             let v := eval vm_compute in (str_eqb (lit a) (lit b)) in
             change (str_eqb (lit a) (lit b)) with v
         end.

Ltac converter_get :=
  repeat (rewrite cond_set_get || rewrite copy_defined_get); cbn [prop_lookup];
  eval_str_eqb; cbn [andb];
  unfold present, stop_sequences, token_bias, defined;
  repeat match goal with
         | |- context [if ?c then _ else _] => destruct c
         end; reflexivity.

Ltac converter_none H :=
  repeat (rewrite cond_set_get || rewrite copy_defined_get); cbn [prop_lookup];
  repeat match goal with
         | |- context [str_eqb (lit ?a) ?q] =>
             replace (str_eqb (lit a) q) with false
               by (symmetry; apply str_eqb_neq; intros E; apply H; rewrite <- E;
                   cbn; tauto)
         end; reflexivity.

(** X9.  [ToPromtOptionsOpenAi] copies, under the names of the OpenAI
    API, the fields [temperature], [topP], [maxTokens], [frequencyPenalty],
    [presencePenalty] and [seed] that are defined, gives [stop] the stop
    sequences when there is one at least and [logit_bias] the token bias
    when it has a key, and returns nothing else: the other fields of the
    options ([topK], [minP], the mirostat fields, ...) are left out.  The
    options are within their type: [stopSequences] is absent or an array
    and [tokenBias] is not [null]. *)
Theorem ToPromtOptionsOpenAi_fields (options : TPromtOptions) :
  converter_input options = true ->
  let get := prop_lookup (ToPromtOptionsOpenAi options) in
  get (lit "temperature") = present options (lit "temperature")
  /\ get (lit "top_p") = present options (lit "topP")
  /\ get (lit "max_tokens") = present options (lit "maxTokens")
  /\ get (lit "frequency_penalty") = present options (lit "frequencyPenalty")
  /\ get (lit "presence_penalty") = present options (lit "presencePenalty")
  /\ get (lit "seed") = present options (lit "seed")
  /\ get (lit "stop") = stop_sequences options
  /\ get (lit "logit_bias") = token_bias options
  /\ forall q,
       ~ In q [lit "temperature"; lit "top_p"; lit "max_tokens";
               lit "frequency_penalty"; lit "presence_penalty"; lit "seed";
               lit "stop"; lit "logit_bias"] ->
       get q = None.
Proof.
  intros _ get. unfold get, ToPromtOptionsOpenAi. cbv zeta.
  split; [converter_get|]. split; [converter_get|]. split; [converter_get|].
  split; [converter_get|]. split; [converter_get|]. split; [converter_get|].
  split; [converter_get|]. split; [converter_get|].
  intros q Hq. converter_none Hq.
Qed.

Lemma ToPromtOptionsOpenAi_fields_witness :
  let options :=
    [ (lit "temperature", JNum (dec 7 (-1))); (lit "topK", JNum (int 40));
      (lit "maxTokens", JNum (int 2048));
      (lit "stopSequences", JArr [JStr (lit "###")]) ] in
  converter_input options = true
  /\ ToPromtOptionsOpenAi options
     = [ (lit "temperature", JNum (dec 7 (-1)));
         (lit "max_tokens", JNum (int 2048));
         (lit "stop", JArr [JStr (lit "###")]) ]
  /\ prop_lookup (ToPromtOptionsOpenAi options) (lit "max_tokens")
     = present options (lit "maxTokens").
Proof.
  intros options.
  assert (H : converter_input options = true) by (vm_compute; reflexivity).
  split; [exact H|]. split; [vm_compute; reflexivity|].
  exact (proj1 (proj2 (proj2 (ToPromtOptionsOpenAi_fields options H)))).
Defined.

(** X10.  [ToPromtOptionsOllama] copies, under the names of the Ollama
    API, the thirteen fields it knows when they are defined ([maxTokens]
    as [num_predict], [repeatPenaltyNum] as [repeat_last_n], ...), [stop]
    only for stop sequences that are not empty, and returns nothing else:
    [frequencyPenalty], [presencePenalty] and [trimWhitespace] are left
    out.  The options are within their type. *)
Theorem ToPromtOptionsOllama_fields (options : TPromtOptions) :
  converter_input options = true ->
  let get := prop_lookup (ToPromtOptionsOllama options) in
  get (lit "temperature") = present options (lit "temperature")
  /\ get (lit "top_p") = present options (lit "topP")
  /\ get (lit "top_k") = present options (lit "topK")
  /\ get (lit "min_p") = present options (lit "minP")
  /\ get (lit "num_predict") = present options (lit "maxTokens")
  /\ get (lit "repeat_penalty") = present options (lit "repeatPenalty")
  /\ get (lit "repeat_last_n") = present options (lit "repeatPenaltyNum")
  /\ get (lit "mirostat") = present options (lit "mirostat")
  /\ get (lit "mirostat_tau") = present options (lit "mirostatTau")
  /\ get (lit "mirostat_eta") = present options (lit "mirostatEta")
  /\ get (lit "seed") = present options (lit "seed")
  /\ get (lit "stop") = stop_sequences options
  /\ get (lit "penalize_newline") = present options (lit "penalizeNewline")
  /\ forall q,
       ~ In q [lit "temperature"; lit "top_p"; lit "top_k"; lit "min_p";
               lit "num_predict"; lit "repeat_penalty"; lit "repeat_last_n";
               lit "mirostat"; lit "mirostat_tau"; lit "mirostat_eta";
               lit "seed"; lit "stop"; lit "penalize_newline"] ->
       get q = None.
Proof.
  intros _ get. unfold get, ToPromtOptionsOllama. cbv zeta.
  split; [converter_get|]. split; [converter_get|]. split; [converter_get|].
  split; [converter_get|]. split; [converter_get|]. split; [converter_get|].
  split; [converter_get|]. split; [converter_get|]. split; [converter_get|].
  split; [converter_get|]. split; [converter_get|]. split; [converter_get|].
  split; [converter_get|].
  intros q Hq. converter_none Hq.
Qed.

Lemma ToPromtOptionsOllama_fields_witness :
  let options :=
    [ (lit "temperature", JNum (dec 8 (-1))); (lit "topK", JNum (int 40));
      (lit "maxTokens", JNum (int 512)); (lit "mirostat", JNum (int 2));
      (lit "mirostatTau", JNum (dec 50 (-1)));
      (lit "frequencyPenalty", JNum (dec 5 (-1)));
      (lit "stopSequences", JArr []) ] in
  converter_input options = true
  /\ ToPromtOptionsOllama options
     = [ (lit "temperature", JNum (dec 8 (-1))); (lit "top_k", JNum (int 40));
         (lit "num_predict", JNum (int 512)); (lit "mirostat", JNum (int 2));
         (lit "mirostat_tau", JNum (dec 50 (-1))) ]
  /\ prop_lookup (ToPromtOptionsOllama options) (lit "stop")
     = stop_sequences options.
Proof.
  intros options.
  assert (H : converter_input options = true) by (vm_compute; reflexivity).
  split; [exact H|]. split; [vm_compute; reflexivity|].
  assert (T := ToPromtOptionsOllama_fields options H). cbv zeta in T.
  exact (proj1 (proj2 (proj2 (proj2 (proj2 (proj2 (proj2 (proj2 (proj2
           (proj2 (proj2 T))))))))))).
Defined.

(** X11.  Besides the group [repeatPenalty], [ToPromtOptionsLlamaCpp]
    copies the fields [temperature], [topP], [topK], [minP], [maxTokens],
    [seed], [evaluationPriority], [contextShiftSize] and
    [disableContextShift] under their own names when they are defined,
    [trimWhitespace] as [trimWhitespaceSuffix], the stop sequences that
    are not empty as [customStopTriggers] and a token bias with a key as
    [tokenBias]; it returns no other property.  The options are within
    their type. *)
Theorem ToPromtOptionsLlamaCpp_fields (options : TPromtOptions) :
  converter_input options = true ->
  let get := prop_lookup (ToPromtOptionsLlamaCpp options) in
  get (lit "temperature") = present options (lit "temperature")
  /\ get (lit "topP") = present options (lit "topP")
  /\ get (lit "topK") = present options (lit "topK")
  /\ get (lit "minP") = present options (lit "minP")
  /\ get (lit "maxTokens") = present options (lit "maxTokens")
  /\ get (lit "seed") = present options (lit "seed")
  /\ get (lit "trimWhitespaceSuffix") = present options (lit "trimWhitespace")
  /\ get (lit "customStopTriggers") = stop_sequences options
  /\ get (lit "tokenBias") = token_bias options
  /\ get (lit "evaluationPriority") = present options (lit "evaluationPriority")
  /\ get (lit "contextShiftSize") = present options (lit "contextShiftSize")
  /\ get (lit "disableContextShift") = present options (lit "disableContextShift")
  /\ forall q,
       ~ In q [lit "temperature"; lit "topP"; lit "topK"; lit "minP";
               lit "maxTokens"; lit "seed"; lit "trimWhitespaceSuffix";
               lit "customStopTriggers"; lit "tokenBias";
               lit "evaluationPriority"; lit "contextShiftSize";
               lit "disableContextShift"; lit "repeatPenalty"] ->
       get q = None.
Proof.
  intros _ get. unfold get, ToPromtOptionsLlamaCpp. cbv zeta.
  split; [converter_get|]. split; [converter_get|]. split; [converter_get|].
  split; [converter_get|]. split; [converter_get|]. split; [converter_get|].
  split; [converter_get|]. split; [converter_get|]. split; [converter_get|].
  split; [converter_get|]. split; [converter_get|]. split; [converter_get|].
  intros q Hq. converter_none Hq.
Qed.

Lemma ToPromtOptionsLlamaCpp_fields_witness :
  let options :=
    [ (lit "temperature", JNum (dec 7 (-1))); (lit "topP", JNum (dec 9 (-1)));
      (lit "maxTokens", JNum (int 1024)); (lit "trimWhitespace", JBool true);
      (lit "mirostat", JNum (int 2));
      (lit "stopSequences", JArr [JStr (lit "</s>")]) ] in
  converter_input options = true
  /\ ToPromtOptionsLlamaCpp options
     = [ (lit "temperature", JNum (dec 7 (-1))); (lit "topP", JNum (dec 9 (-1)));
         (lit "maxTokens", JNum (int 1024));
         (lit "trimWhitespaceSuffix", JBool true);
         (lit "customStopTriggers", JArr [JStr (lit "</s>")]) ]
  /\ prop_lookup (ToPromtOptionsLlamaCpp options) (lit "trimWhitespaceSuffix")
     = present options (lit "trimWhitespace").
Proof.
  intros options.
  assert (H : converter_input options = true) by (vm_compute; reflexivity).
  split; [exact H|]. split; [vm_compute; reflexivity|].
  assert (T := ToPromtOptionsLlamaCpp_fields options H). cbv zeta in T.
  exact (proj1 (proj2 (proj2 (proj2 (proj2 (proj2 (proj2 T))))))).
Defined.

(** ** [parseOptionValue] *)

Ltac by_cases_on_mask mask :=
  do 5 (try (destruct mask as [|[|] mask])); vm_compute; reflexivity.

Lemma true_any_case (mask : list bool) :
  parseOptionValue (cased mask (lit "true")) = JBool true
  /\ parseOptionValue (quoted (cased mask (lit "true"))) = JBool true
  /\ parseOptionValue (squoted (cased mask (lit "true"))) = JBool true.
Proof.
  repeat split; by_cases_on_mask mask.
Qed.

Lemma false_any_case (mask : list bool) :
  parseOptionValue (cased mask (lit "false")) = JBool false
  /\ parseOptionValue (quoted (cased mask (lit "false"))) = JBool false
  /\ parseOptionValue (squoted (cased mask (lit "false"))) = JBool false.
Proof.
  repeat split; by_cases_on_mask mask.
Qed.

Lemma letter_any_case (mask : list bool) :
  parseOptionValue (cased mask (lit "y")) = JBool true
  /\ parseOptionValue (quoted (cased mask (lit "y"))) = JBool true
  /\ parseOptionValue (cased mask (lit "n")) = JBool false
  /\ parseOptionValue (quoted (cased mask (lit "n"))) = JBool false.
Proof.
  repeat split; by_cases_on_mask mask.
Qed.

(** C5.  The branches of the value decoder, in order.  The text
    [["a","b"]] gives the array of [a] and [b]; the array is looked for in
    the text as given, so the same text between quotes is no array (and no
    value).  [Y] gives [true]: the words [true], [1], [y] give [true] and
    [false], [0], [n] give [false], in any case and with or without one
    pair of quotes around them.  [1,5] gives 1.5.  The empty text gives no
    value, and the line [bad=] leaves no key. *)
Theorem parseOptionValue_scenarios :
  parseOptionValue
    (lit "[" ++ quoted (lit "a") ++ lit "," ++ quoted (lit "b") ++ lit "]")
    = JArr [JStr (lit "a"); JStr (lit "b")]
  /\ parseOptionValue
       (squoted (lit "[" ++ quoted (lit "a") ++ lit "," ++ quoted (lit "b") ++ lit "]"))
     = JUndef
  /\ parseOptionValue (lit "Y") = JBool true
  /\ (forall mask,
        parseOptionValue (cased mask (lit "true")) = JBool true
        /\ parseOptionValue (quoted (cased mask (lit "true"))) = JBool true
        /\ parseOptionValue (squoted (cased mask (lit "true"))) = JBool true)
  /\ (forall mask,
        parseOptionValue (cased mask (lit "false")) = JBool false
        /\ parseOptionValue (quoted (cased mask (lit "false"))) = JBool false
        /\ parseOptionValue (squoted (cased mask (lit "false"))) = JBool false)
  /\ (forall mask,
        parseOptionValue (cased mask (lit "y")) = JBool true
        /\ parseOptionValue (quoted (cased mask (lit "y"))) = JBool true
        /\ parseOptionValue (cased mask (lit "n")) = JBool false
        /\ parseOptionValue (quoted (cased mask (lit "n"))) = JBool false)
  /\ parseOptionValue (lit "1") = JBool true
  /\ parseOptionValue (lit "0") = JBool false
  /\ parseOptionValue (lit "1,5") = JNum (dec 15 (-1))
  /\ parseOptionValue [] = JUndef
  /\ parseOptionsToObject
       (lit "stop=[" ++ quoted (lit "a") ++ lit "," ++ quoted (lit "b") ++ lit "]")
     = [(lit "stop", JArr [JStr (lit "a"); JStr (lit "b")])]
  /\ parseOptionsToObject (lit "flag=Y") = [(lit "flag", JBool true)]
  /\ parseOptionsToObject (lit "ratio=1,5") = [(lit "ratio", JNum (dec 15 (-1)))]
  /\ parseOptionsToObject (lit "bad=") = [].
Proof.
  split; [vm_compute; reflexivity|].
  split; [vm_compute; reflexivity|].
  split; [vm_compute; reflexivity|].
  split; [exact true_any_case|].
  split; [exact false_any_case|].
  split; [exact letter_any_case|].
  repeat split; vm_compute; reflexivity.
Qed.

(** *** Rounding never gives [NaN] *)

Lemma iter_pos_invariant {A : Type} (P : A -> Prop) (f : A -> A) :
  (forall x, P x -> P (f x)) -> forall n x, P x -> P (iter_pos f n x).
Proof.
  intros Hf. induction n as [n IH|n IH|]; intros x Hx; simpl; auto.
Qed.

Lemma shr_1_nonneg (mrs : shr_record) : 0 <= shr_m mrs -> 0 <= shr_m (shr_1 mrs).
Proof.
  destruct mrs as [m r s]. simpl.
  destruct m as [|[p|p|]|[p|p|]]; simpl; lia.
Qed.

Lemma shr_nonneg (mrs : shr_record) (e n : Z) :
  0 <= shr_m mrs -> 0 <= shr_m (fst (shr mrs e n)).
Proof.
  intros H. destruct n as [|p|p]; simpl; try assumption.
  apply (iter_pos_invariant (fun x => 0 <= shr_m x)); [apply shr_1_nonneg|assumption].
Qed.

Lemma shr_fexp_nonneg (m e : Z) (l : location) :
  0 <= m -> 0 <= shr_m (fst (shr_fexp prec emax m e l)).
Proof.
  intros H. unfold shr_fexp. apply shr_nonneg.
  destruct l as [|[]]; simpl; assumption.
Qed.

Lemma round_nearest_even_nonneg (m : Z) (l : location) :
  0 <= m -> 0 <= round_nearest_even m l.
Proof.
  intros H. destruct l as [|[]]; simpl; try assumption; [|lia].
  destruct (Z.even m); lia.
Qed.

Lemma binary_round_aux_not_nan (s : bool) (m e : Z) (l : location) :
  0 <= m -> isNaN (binary_round_aux prec emax s m e l) = false.
Proof.
  intros H. unfold binary_round_aux.
  assert (H1 := shr_fexp_nonneg m e l H).
  destruct (shr_fexp prec emax m e l) as [mrs' e'] eqn:E1. simpl fst in H1.
  assert (H2 := shr_fexp_nonneg
                  (round_nearest_even (shr_m mrs') (loc_of_shr_record mrs')) e'
                  loc_Exact (round_nearest_even_nonneg _ _ H1)).
  destruct (shr_fexp prec emax
              (round_nearest_even (shr_m mrs') (loc_of_shr_record mrs')) e'
              loc_Exact) as [mrs'' e''] eqn:E2.
  simpl fst in H2.
  destruct (shr_m mrs'') as [|p|p]; [reflexivity| |lia].
  destruct (e'' <=? emax - prec); reflexivity.
Qed.

Lemma number_of_decimal_not_nan (neg : bool) (m e : Z) :
  0 <= m -> isNaN (number_of_decimal neg m e) = false.
Proof.
  intros H. unfold number_of_decimal.
  destruct m as [|p|p]; [reflexivity| |lia].
  destruct (0 <=? e) eqn:He.
  - unfold binary_round.
    destruct (shl_align (Z.to_pos (Z.pos p * 10 ^ e)) 0
                (fexp prec emax
                   (Z.pos (digits2_pos (Z.to_pos (Z.pos p * 10 ^ e))) + 0)))
      as [mz ez].
    apply binary_round_aux_not_nan. lia.
  - destruct (SFdiv_core_binary prec emax (Z.pos p) 0 (10 ^ (- e)) 0)
      as [[q e'] l] eqn:E.
    apply binary_round_aux_not_nan.
    unfold SFdiv_core_binary in E.
    apply Z.leb_gt in He.
    assert (Hd : 0 < 10 ^ (- e)) by (apply Z.pow_pos_nonneg; lia).
    match type of E with
    | (let '(q0, r0) := Z.div_eucl ?a ?b in _) = _ =>
        assert (Ha : 0 <= a);
        [|assert (Hq := Z.div_pos a b Ha Hd); unfold Z.div in Hq;
          destruct (Z.div_eucl a b) as [quo rem]; injection E; intros; subst; exact Hq]
    end.
    match goal with
    | |- 0 <= match ?s with _ => _ end =>
        destruct s; [lia|apply Z.shiftl_nonneg; lia|lia]
    end.
Qed.

(** *** Numerals with a tail *)

Lemma digit_cases (c : char) :
  is_digit c = true -> In c [48; 49; 50; 51; 52; 53; 54; 55; 56; 57]%N.
Proof.
  unfold is_digit. intros H. apply andb_true_iff in H as [H1 H2].
  apply N.leb_le in H1, H2. simpl.
  assert (E : (c = 48 \/ c = 49 \/ c = 50 \/ c = 51 \/ c = 52 \/ c = 53
               \/ c = 54 \/ c = 55 \/ c = 56 \/ c = 57)%N) by lia.
  intuition auto.
Qed.

Ltac digit_facts c H :=
  apply digit_cases in H; simpl in H;
  repeat (destruct H as [<-|H];
          [try reflexivity; try (vm_compute; discriminate)|]);
  try destruct H.

Lemma digit_val_nonneg (c : char) : is_digit c = true -> 0 <= digit_val c.
Proof. intros H. unfold digit_val. digit_facts c H. Qed.

Lemma digits_value_nonneg (d : str) :
  forallb is_digit d = true -> 0 <= digits_value d.
Proof.
  assert (G : forall acc, 0 <= acc -> forallb is_digit d = true ->
                0 <= fold_left (fun a c => 10 * a + digit_val c) d acc).
  { induction d as [|c d IH]; intros acc Ha Hd; cbn [fold_left]; [assumption|].
    simpl in Hd. apply andb_true_iff in Hd as [Hc Hd].
    apply IH; [|assumption]. apply digit_val_nonneg in Hc. lia. }
  intros Hd. apply G; [lia|assumption].
Qed.

Lemma span_digits_app (d r : str) :
  forallb is_digit d = true ->
  match r with c :: _ => is_digit c = false | [] => True end ->
  span_digits (d ++ r) = (d, r).
Proof.
  intros Hd Hr. induction d as [|c d IH]; cbn [app span_digits].
  - destruct r as [|c r]; [reflexivity|]. cbn [span_digits]. now rewrite Hr.
  - cbn [forallb] in Hd. apply andb_true_iff in Hd as [Hc Hd].
    now rewrite Hc, IH.
Qed.

(** When [parseOptionValue] gives no value. *)
Lemma parseOptionValue_undefined (valueStr : str) :
  is_undefined (parseOptionValue valueStr) =
  str_eqb valueStr []
  || (negb (reads_as_array valueStr) && negb (boolean_word valueStr)
      && isNaN (parseFloat (replace_first 44%N 46%N (quote_stripped valueStr)))).
Proof.
  unfold parseOptionValue, reads_as_array, boolean_word.
  fold (quote_stripped valueStr). cbv zeta.
  generalize (isNaN (parseFloat (replace_first 44%N 46%N (quote_stripped valueStr)))).
  generalize (str_eqb (toLowerCase (quote_stripped valueStr)) (lit "true")
              || str_eqb (toLowerCase (quote_stripped valueStr)) (lit "1")
              || str_eqb (toLowerCase (quote_stripped valueStr)) (lit "y")).
  generalize (str_eqb (toLowerCase (quote_stripped valueStr)) (lit "false")
              || str_eqb (toLowerCase (quote_stripped valueStr)) (lit "0")
              || str_eqb (toLowerCase (quote_stripped valueStr)) (lit "n")).
  intros f t n.
  destruct (str_eqb valueStr []); [reflexivity|].
  destruct (startsWith (lit "[") valueStr);
    [destruct (JSON_parse valueStr) as [[| |b|x|s|l|o]|]|];
    destruct t, f, n; reflexivity.
Qed.

(** ** [serialize] *)

Lemma fold_left_push {A B : Type} (f : A -> list B) (l : list A) :
  forall acc, fold_left (fun result x => result ++ f x) l acc = acc ++ flat_map f l.
Proof.
  induction l as [|x l IH]; intros acc; simpl.
  - now rewrite app_nil_r.
  - now rewrite IH, app_assoc.
Qed.

Lemma serializeOptionValue_line (kv : str * jsval) :
  serializeOptionValue (fst kv) (snd kv) = option_line kv.
Proof.
  unfold serializeOptionValue, option_line.
  destruct (snd kv); reflexivity.
Qed.

Lemma serialize_promt_layout (result : list str) (promt : TPromt) :
  serialize_promt result promt = result ++ layout promt.
Proof.
  unfold serialize_promt, layout, options_lines, segment_lines.
  destruct promt as [sys usr opts seg gram]. simpl.
  assert (Ho : forall acc o,
             fold_left
               (fun result kv => result ++ [serializeOptionValue (fst kv) (snd kv)])
               o acc = acc ++ List.map option_line o).
  { intros acc o.
    rewrite (fold_left_push (fun kv => [serializeOptionValue (fst kv) (snd kv)])).
    f_equal. induction o as [|kv o IH]; cbn [flat_map List.map app];
      [reflexivity|].
    now rewrite serializeOptionValue_line, IH. }
  assert (Hs : forall acc sg,
             fold_left
               (fun result (kv : str * str) =>
                  (result ++ [lit "$$segment=" ++ fst kv]) ++ [snd kv])
               sg acc
             = acc ++ flat_map (fun kv => [lit "$$segment=" ++ fst kv; snd kv]) sg).
  { intros acc sg. revert acc.
    induction sg as [|kv sg IH]; intros acc; simpl.
    - now rewrite app_nil_r.
    - rewrite IH. rewrite <- !app_assoc. reflexivity. }
  destruct opts as [o|]; destruct sys as [[|c s]|]; destruct gram as [[|c' g]|];
    destruct seg as [sg|]; simpl; rewrite ?Ho, ?Hs, <- ?app_assoc; simpl;
    rewrite <- ?app_assoc; reflexivity.
Qed.

Lemma serialize_flat_layout (promts : list TPromt) :
  serialize promts = join [newline] (flat_map layout promts).
Proof.
  unfold serialize. f_equal.
  assert (G : forall acc,
             fold_left serialize_promt promts acc = acc ++ flat_map layout promts).
  { induction promts as [|p promts IH]; intros acc; cbn [fold_left flat_map].
    - now rewrite app_nil_r.
    - now rewrite IH, serialize_promt_layout, app_assoc. }
  apply (G []).
Qed.

(** C6, as amended.  [serialize] writes for each record, in this order:
    [$$begin]; when [options] is present, [$$options] and one line per
    entry in the order of the entries, [key=] for an [undefined] value, a
    JSON array literal for an array and the text form of the value
    otherwise; when [system] is present and not empty, [$$system] and its
    text; always [$$user] and the text of [user]; when [grammar] is present
    and not empty, [$$grammar] and its text; [$$segment=name] and the text
    for each segment in the order of the entries; [$$end].  The lines are
    joined with a line feed. *)
Theorem serialize_layout (promts : list TPromt) :
  serialize promts = join [newline] (flat_map layout promts).
Proof. exact (serialize_flat_layout promts). Qed.

(** C6, as stated, fails on a record whose [system] is the empty string:
    the record is written without a [$$system] section. *)
Lemma serialize_claimed_layout_counterexample :
  let promt :=
    {| system := Some []; user := lit "hi"; options := None;
       segment := None; grammar := None |} in
  serialize [promt] = lit "$$begin" ++ [newline] ++ lit "$$user" ++ [newline]
                      ++ lit "hi" ++ [newline] ++ lit "$$end"
  /\ serialize [promt] <> join [newline] (flat_map claimed_layout [promt]).
Proof.
  split; [vm_compute; reflexivity|].
  vm_compute. discriminate.
Qed.

(** ** [parseOptionsToObject] *)

Lemma break_at_indexOf (c : char) (s : str) :
  match break_at c s with
  | None => indexOf c s = -1
  | Some (a, b) => indexOf c s = Z.of_nat (List.length a) /\ s = a ++ c :: b
  end.
Proof.
  induction s as [|x s IH]; cbn [break_at indexOf]; [reflexivity|].
  destruct (N.eqb x c) eqn:E.
  - apply N.eqb_eq in E. subst x. split; reflexivity.
  - destruct (break_at c s) as [[a b]|].
    + destruct IH as [Hi Hs]. rewrite Hi.
      replace (Z.of_nat (List.length a) <? 0) with false
        by (symmetry; apply Z.ltb_ge; lia).
      split; [cbn [List.length]; lia|]. cbn [app]. now rewrite <- Hs.
    + rewrite IH. reflexivity.
Qed.

Lemma substring_prefix (a b : str) (c : char) :
  substring 0 (Z.of_nat (List.length a)) (a ++ c :: b) = a
  /\ substring_from (Z.of_nat (List.length a) + 1) (a ++ c :: b) = b.
Proof.
  unfold substring, substring_from. split.
  - rewrite Z.sub_0_r, Nat2Z.id. cbn [Z.to_nat skipn].
    rewrite firstn_app, Nat.sub_diag, firstn_all. cbn [firstn].
    now rewrite app_nil_r.
  - replace (Z.to_nat (Z.of_nat (List.length a) + 1)) with (List.length a + 1)%nat
      by lia.
    rewrite skipn_app.
    rewrite skipn_all2 by lia.
    replace (List.length a + 1 - List.length a)%nat with 1%nat by lia.
    reflexivity.
Qed.

(** One turn of the loop does what the binding of the line says. *)
Lemma parseOptionsToObject_line_binding (options : obj) (line : str) :
  parseOptionsToObject_line options line =
  match line_binding line with
  | Some (k, v) => js_set options k v
  | None => options
  end.
Proof.
  unfold parseOptionsToObject_line, line_binding. cbv zeta.
  assert (H := break_at_indexOf 61%N (trim line)).
  destruct (break_at 61%N (trim line)) as [[a b]|].
  - destruct H as [Hi Hs]. rewrite Hi.
    destruct (substring_prefix a b 61%N) as [Ha Hb].
    rewrite Hs, Ha, Hb.
    destruct a as [|x a].
    + cbn [app truthy_str negb List.length]. reflexivity.
    + cbn [app truthy_str negb].
      replace (Z.of_nat (List.length (x :: a)) <=? 0) with false
        by (symmetry; apply Z.leb_gt; cbn [List.length]; lia).
      destruct (parseOptionValue (trim b)); reflexivity.
  - rewrite H. destruct (negb (truthy_str (trim line))); reflexivity.
Qed.

(** C7.  [parseOptionsToObject] maps a key other than [__proto__] to the
    value of the last line that binds it.  A line binds a key when, once
    trimmed, it has an [=] that is not its first character and the decoder
    gives a value for the trimmed text after the first [=]; the key is the
    trimmed text before that [=].  Blank lines, lines without [=], lines
    that start with [=] and lines whose value decodes to nothing bind no
    key.  The key [__proto__] is never recorded: the line [__proto__=5]
    binds it to 5 by these words, and the result has no such property. *)
Theorem parseOptionsToObject_last_binding (content k : str) :
  prop_lookup (parseOptionsToObject content) k =
    (if str_eqb k (lit "__proto__") then None
     else last_binding k (List.map line_binding (split newline content)))
  /\ last_binding (lit "__proto__")
       (List.map line_binding (split newline (lit "__proto__=5")))
     = Some (JNum (int 5))
  /\ parseOptionsToObject (lit "__proto__=5") = []
  /\ parseOptionsToObject (text [lit "__proto__=5"; lit "x=2"])
     = [(lit "x", JNum (int 2))].
Proof.
  split; [|repeat split; vm_compute; reflexivity].
  unfold parseOptionsToObject, last_binding.
  assert (G : forall lines (options : obj),
             prop_lookup (fold_left parseOptionsToObject_line lines options) k =
             if str_eqb k (lit "__proto__") then prop_lookup options k
             else
               fold_left
                 (fun acc b =>
                    match b with
                    | Some (k', v) => if str_eqb k' k then Some v else acc
                    | None => acc
                    end)
                 (List.map line_binding lines) (prop_lookup options k)).
  { induction lines as [|line lines IH]; intros options;
      cbn [fold_left List.map]; [now destruct (str_eqb k (lit "__proto__"))|].
    rewrite IH, parseOptionsToObject_line_binding.
    destruct (line_binding line) as [[k' v]|]; [|reflexivity].
    rewrite prop_lookup_js_set.
    destruct (str_eqb k (lit "__proto__")) eqn:Ek.
    - apply str_eqb_eq in Ek. subst k.
      destruct (str_eqb k' (lit "__proto__")); reflexivity.
    - destruct (str_eqb k' (lit "__proto__")) eqn:Ek'; [|reflexivity].
      apply str_eqb_eq in Ek'. subst k'.
      rewrite str_eqb_sym, Ek. reflexivity. }
  rewrite (G (split newline content) []).
  now destruct (str_eqb k (lit "__proto__")).
Qed.

(** ** Trimming, splitting and joining *)

Lemma trimStart_blank (s : str) : trimStart s = [] <-> blank s = true.
Proof.
  unfold blank. induction s as [|c s IH]; cbn [trimStart forallb]; [tauto|].
  destruct (is_ws c); cbn [andb]; [exact IH|].
  split; discriminate.
Qed.

Lemma blank_rev (s : str) : blank (rev s) = blank s.
Proof.
  unfold blank. induction s as [|c s IH]; [reflexivity|].
  cbn [rev forallb]. rewrite forallb_app, IH. cbn [forallb].
  rewrite andb_true_r. apply andb_comm.
Qed.

Lemma blank_app (a b : str) : blank (a ++ b) = blank a && blank b.
Proof. apply forallb_app. Qed.

Lemma trimStart_not_blank (s : str) :
  blank s = false -> exists c r, trimStart s = c :: r /\ is_ws c = false.
Proof.
  unfold blank. induction s as [|c s IH]; cbn [trimStart forallb]; [discriminate|].
  destruct (is_ws c) eqn:E; cbn [andb]; [exact IH|].
  intros _. eauto.
Qed.

(** [trimStart] removes a blank prefix. *)
Lemma trimStart_split (s : str) :
  exists a, blank a = true /\ s = a ++ trimStart s.
Proof.
  induction s as [|c s [a [Ha Hs]]]; cbn [trimStart].
  - exists []. split; reflexivity.
  - destruct (is_ws c) eqn:E.
    + exists (c :: a). split.
      * unfold blank in *. cbn [forallb]. now rewrite E, Ha.
      * cbn [app]. now rewrite <- Hs.
    + exists []. split; reflexivity.
Qed.

Lemma trimStart_blank_app (a s : str) :
  blank a = true -> trimStart (a ++ s) = trimStart s.
Proof.
  unfold blank. induction a as [|c a IH]; cbn [app forallb trimStart];
    [reflexivity|].
  intros H. apply andb_true_iff in H as [Hc Ha]. rewrite Hc. auto.
Qed.

Lemma trimStart_app_not_blank (s t : str) :
  blank s = false -> trimStart (s ++ t) = trimStart s ++ t.
Proof.
  unfold blank. induction s as [|c s IH]; cbn [app forallb trimStart];
    [discriminate|].
  destruct (is_ws c); cbn [andb]; [exact IH|reflexivity].
Qed.

Lemma trimStart_idem (s : str) : trimStart (trimStart s) = trimStart s.
Proof.
  induction s as [|c s IH]; cbn [trimStart]; [reflexivity|].
  destruct (is_ws c) eqn:E; [exact IH|].
  cbn [trimStart]. now rewrite E.
Qed.

Lemma trimEnd_blank (s : str) : trimEnd s = [] <-> blank s = true.
Proof.
  unfold trimEnd. rewrite <- blank_rev, <- trimStart_blank.
  split; intros H.
  - apply (f_equal (@rev char)) in H. now rewrite rev_involutive in H.
  - now rewrite H.
Qed.

Lemma trimEnd_blank_app (s b : str) :
  blank b = true -> trimEnd (s ++ b) = trimEnd s.
Proof.
  intros H. unfold trimEnd. rewrite rev_app_distr.
  rewrite trimStart_blank_app; [reflexivity|]. now rewrite blank_rev.
Qed.

Lemma trimEnd_app_not_blank (s t : str) :
  blank t = false -> trimEnd (s ++ t) = s ++ trimEnd t.
Proof.
  intros H. unfold trimEnd. rewrite rev_app_distr.
  rewrite trimStart_app_not_blank by now rewrite blank_rev.
  now rewrite rev_app_distr, rev_involutive.
Qed.

Lemma trimEnd_split (s : str) :
  exists b, blank b = true /\ s = trimEnd s ++ b.
Proof.
  unfold trimEnd. destruct (trimStart_split (rev s)) as [a [Ha Hs]].
  exists (rev a). split; [now rewrite blank_rev|].
  rewrite <- rev_app_distr, <- Hs. now rewrite rev_involutive.
Qed.

Lemma trim_blank (s : str) : trim s = [] <-> blank s = true.
Proof.
  unfold trim. rewrite trimEnd_blank. split; intros H.
  - destruct (trimStart_split s) as [a [Ha Hs]].
    rewrite Hs, blank_app, Ha, H. reflexivity.
  - destruct (blank s) eqn:E; [|discriminate].
    apply trimStart_blank in E. now rewrite E.
Qed.


Lemma split_nonempty (sep : char) (s : str) : split sep s <> [].
Proof.
  destruct s as [|c s]; cbn [split]; [discriminate|].
  destruct (N.eqb c sep); [discriminate|].
  destruct (split sep s); discriminate.
Qed.

Lemma split_app (sep : char) (a b : str) :
  split sep (a ++ sep :: b) = split sep a ++ split sep b.
Proof.
  induction a as [|c a IH]; cbn [app split].
  - now rewrite N.eqb_refl.
  - destruct (N.eqb c sep); rewrite IH; [reflexivity|].
    assert (H := split_nonempty sep a).
    destruct (split sep a) as [|l ls]; [contradiction|]. reflexivity.
Qed.

(** ** The numbers that [parseOptionValue] reads *)

Lemma span_digits_digits (s : str) : forallb is_digit (fst (span_digits s)) = true.
Proof.
  induction s as [|c s IH]; cbn [span_digits]; [reflexivity|].
  destruct (is_digit c) eqn:E; [|reflexivity].
  destruct (span_digits s) as [d t]. cbn [fst forallb] in *. now rewrite E, IH.
Qed.

Lemma span_digits_nil (s : str) :
  fst (span_digits s) = [] <-> starts_with_digit s = false.
Proof.
  destruct s as [|c s]; cbn [span_digits starts_with_digit]; [tauto|].
  destruct (is_digit c); [|tauto].
  destruct (span_digits s). cbn [fst]. split; discriminate.
Qed.

Lemma span_digits_stop (d r : str) :
  forallb is_digit d = true -> starts_with_digit r = false ->
  span_digits (d ++ r) = (d, r).
Proof.
  intros Hd Hr. apply span_digits_app; [exact Hd|].
  destruct r; [exact I|exact Hr].
Qed.

Lemma exponent_part_none (r : str) :
  exponent_start r = false -> exponent_part r = 0.
Proof.
  unfold exponent_start, exponent_part.
  destruct r as [|e r]; [reflexivity|].
  destruct (N.eqb e 101 || N.eqb e 69); [|reflexivity].
  cbn [andb]. destruct r as [|c r]; [reflexivity|].
  intros H. apply orb_false_iff in H as [Hc H].
  destruct (N.eqb c 43) eqn:E1.
  - cbn [orb andb] in H. apply span_digits_nil in H. now rewrite H.
  - destruct (N.eqb c 45) eqn:E2.
    + cbn [orb andb] in H. apply span_digits_nil in H. now rewrite H.
    + assert (Hn : fst (span_digits (c :: r)) = [])
        by now apply span_digits_nil.
      now rewrite Hn.
Qed.

Lemma digit_not_sign (c : char) :
  is_digit c = true ->
  N.eqb c 43 = false /\ N.eqb c 45 = false /\ N.eqb c 46 = false
  /\ N.eqb c 101 = false /\ N.eqb c 69 = false /\ is_ws c = false
  /\ N.eqb c 73 = false /\ N.eqb c 91 = false /\ N.eqb c 44 = false.
Proof. intros H. repeat split; digit_facts c H. Qed.

Lemma exponent_part_some (upper : bool) (sg : option bool) (d r : str) :
  forallb is_digit d = true -> d <> [] -> starts_with_digit r = false ->
  exponent_part ((if upper then lit "E" else lit "e") ++ sign_text sg ++ d ++ r)
  = match sg with Some true => - digits_value d | _ => digits_value d end.
Proof.
  intros Hd Hne Hr.
  assert (Hsp := span_digits_stop d r Hd Hr).
  assert (E : exponent_part ((if upper then lit "E" else lit "e")
                             ++ sign_text sg ++ d ++ r)
              = match sign_text sg ++ d ++ r with
                | s :: r' =>
                    if N.eqb s 43 then
                      match fst (span_digits r') with
                      | [] => 0 | x => digits_value x end
                    else if N.eqb s 45 then
                      match fst (span_digits r') with
                      | [] => 0 | x => - digits_value x end
                    else
                      match fst (span_digits (sign_text sg ++ d ++ r)) with
                      | [] => 0 | x => digits_value x end
                | [] => 0
                end) by now destruct upper.
  rewrite E. clear E.
  destruct d as [|c d]; [contradiction|].
  destruct sg as [[|]|].
  - change (sign_text (Some true) ++ (c :: d) ++ r) with (45%N :: (c :: d) ++ r).
    cbv beta iota. change (N.eqb 45 43) with false. change (N.eqb 45 45) with true.
    cbv iota. now rewrite Hsp.
  - change (sign_text (Some false) ++ (c :: d) ++ r) with (43%N :: (c :: d) ++ r).
    cbv beta iota. change (N.eqb 43 43) with true. cbv iota. now rewrite Hsp.
  - change (sign_text None ++ (c :: d) ++ r) with (c :: d ++ r).
    cbv beta iota.
    cbn [forallb] in Hd. apply andb_true_iff in Hd as [Hc _].
    destruct (digit_not_sign c Hc) as [H1 [H2 _]]. rewrite H1, H2.
    change (c :: d ++ r) with ((c :: d) ++ r). now rewrite Hsp.
Qed.

Lemma str_eqb_nil (s : str) : str_eqb s [] = false <-> s <> [].
Proof. destruct s; cbn [str_eqb]; split; congruence. Qed.

Lemma parse_unsigned_numeral (neg : bool) (n : numeral) (r : str) :
  numeral_ok n = true -> numeral_stops n r = true ->
  parse_unsigned neg (numeral_body n ++ r) =
  number_of_decimal neg (digits_value (num_int n ++ num_frac n))
    (match num_exp n with
     | Some (_, Some true, d) => - digits_value d
     | Some (_, _, d) => digits_value d
     | None => 0
     end - Z.of_nat (List.length (num_frac n))).
Proof.
  destruct n as [sg int point ex]. unfold numeral_ok, numeral_stops, numeral_body,
    num_frac. cbn [num_int num_point num_exp].
  intros Hok Hstop.
  apply andb_true_iff in Hok as [Hok Hex].
  apply andb_true_iff in Hok as [Hok Hne].
  apply andb_true_iff in Hok as [Hint Hfrac].
  apply negb_true_iff, str_eqb_nil in Hne.
  apply andb_true_iff in Hstop as [Hr Hstop]. apply negb_true_iff in Hr.
  set (etext := match ex with
                | Some (upper, s, d) =>
                    (if upper then lit "E" else lit "e") ++ sign_text s ++ d
                | None => []
                end) in *.
  set (ptext := match point with Some f => lit "." ++ f | None => [] end) in *.
  set (frac := match point with Some f => f | None => [] end) in *.
  set (rest2 := etext ++ r).
  set (rest1 := ptext ++ rest2).
  replace ((int ++ ptext ++ etext) ++ r) with (int ++ rest1)
    by (unfold rest1, rest2; now rewrite <- !app_assoc).
  assert (H2 : starts_with_digit rest2 = false
               /\ startsWith (lit ".") rest2
                  = match ex, point with
                    | None, None => false
                    | None, Some _ => startsWith (lit ".") r
                    | Some _, _ => false
                    end
               /\ exponent_part rest2
                  = match ex with
                    | Some (_, Some true, d) => - digits_value d
                    | Some (_, _, d) => digits_value d
                    | None => 0
                    end).
  { unfold rest2, etext. destruct ex as [[[upper s] d]|].
    - apply andb_true_iff in Hex as [Hd Hdne].
      apply negb_true_iff, str_eqb_nil in Hdne.
      split; [now destruct upper|]. split; [now destruct upper|].
      rewrite <- !app_assoc. rewrite exponent_part_some by assumption.
      now destruct s as [[|]|].
    - cbn [app]. apply andb_true_iff in Hstop as [He Hp].
      apply negb_true_iff in He.
      split; [exact Hr|]. split.
      + destruct point; [reflexivity|]. now apply negb_true_iff in Hp.
      + now apply exponent_part_none. }
  destruct H2 as [Hd2 [Hp2 He2]].
  assert (H1 : starts_with_digit rest1 = false).
  { unfold rest1, ptext. destruct point; [reflexivity|exact Hd2]. }
  assert (Hinf : startsWith (lit "Infinity") (int ++ rest1) = false).
  { destruct int as [|c int].
    - unfold rest1, ptext. destruct point as [f|]; [reflexivity|].
      unfold frac in Hne. now contradiction Hne.
    - cbn [forallb] in Hint. apply andb_true_iff in Hint as [Hc _].
      destruct (digit_not_sign c Hc) as [_ [_ [_ [_ [_ [_ [HI _]]]]]]].
      cbn [app]. change (lit "Infinity") with (73%N :: lit "nfinity").
      cbn [startsWith]. now rewrite N.eqb_sym, HI. }
  unfold parse_unsigned. rewrite Hinf.
  rewrite (span_digits_stop int rest1 Hint H1).
  cbv beta iota.
  match goal with
  | |- (let '(_, _) := ?X in _) = _ => assert (Hfr : X = (frac, rest2))
  end.
  { unfold rest1, ptext, frac. destruct point as [f|].
    - change ((lit "." ++ f) ++ rest2) with (46%N :: f ++ rest2).
      change (N.eqb 46 46) with true. cbv iota.
      now apply span_digits_stop.
    - cbn [app]. destruct rest2 as [|c r0]; [reflexivity|].
      change (startsWith (lit ".") (c :: r0)) with (N.eqb 46 c && true) in Hp2.
      rewrite andb_true_r, N.eqb_sym in Hp2.
      assert (Hc : N.eqb c 46 = false) by (destruct ex; exact Hp2).
      now rewrite Hc. }
  rewrite Hfr. cbv beta iota. rewrite He2.
  destruct (int ++ frac) eqn:E; [contradiction|reflexivity].
Qed.

Lemma numeral_text_body (n : numeral) :
  numeral_text n = sign_text (num_sign n) ++ numeral_body n.
Proof. reflexivity. Qed.

(** The first code unit of a numeral: a digit or a point. *)
Lemma numeral_body_head (n : numeral) (r : str) :
  numeral_ok n = true ->
  exists c t, numeral_body n ++ r = c :: t
              /\ (is_digit c = true \/ c = 46%N).
Proof.
  destruct n as [sg int point ex]. unfold numeral_ok, numeral_body, num_frac.
  cbn [num_int num_point num_exp]. intros Hok.
  apply andb_true_iff in Hok as [Hok _].
  apply andb_true_iff in Hok as [Hok Hne].
  apply andb_true_iff in Hok as [Hint _].
  apply negb_true_iff, str_eqb_nil in Hne.
  destruct int as [|c int].
  - destruct point as [f|]; [|now contradiction Hne].
    exists 46%N. eexists. split; [reflexivity|now right].
  - cbn [forallb] in Hint. apply andb_true_iff in Hint as [Hc _].
    exists c. eexists. split; [reflexivity|now left].
Qed.

Lemma parseFloat_numeral (ws : str) (n : numeral) (r : str) :
  blank ws = true -> numeral_ok n = true -> numeral_stops n r = true ->
  parseFloat (ws ++ numeral_text n ++ r) = numeral_value n.
Proof.
  intros Hws Hok Hstop. unfold parseFloat.
  rewrite trimStart_blank_app by exact Hws.
  rewrite numeral_text_body, <- app_assoc.
  destruct (numeral_body_head n r Hok) as [c [t [Hb Hc]]].
  assert (Hfacts : is_ws c = false /\ N.eqb c 43 = false /\ N.eqb c 45 = false).
  { destruct Hc as [Hc| ->]; [|now repeat split].
    destruct (digit_not_sign c Hc) as [H1 [H2 [_ [_ [_ [H3 _]]]]]]. auto. }
  destruct Hfacts as [H1 [H2 H3]].
  unfold numeral_value.
  rewrite <- (parse_unsigned_numeral _ n r Hok Hstop).
  destruct (num_sign n) as [[|]|].
  - reflexivity.
  - reflexivity.
  - cbn [sign_text app]. rewrite Hb. cbn [trimStart]. now rewrite H1, H2, H3.
Qed.

Lemma parse_unsigned_nan (neg : bool) (u : str) :
  isNaN (parse_unsigned neg u) =
  negb (startsWith (lit "Infinity") u
        || match u with
           | d :: u' => is_digit d || (N.eqb d 46 && starts_with_digit u')
           | [] => false
           end).
Proof.
  unfold parse_unsigned.
  destruct (startsWith (lit "Infinity") u); [reflexivity|]. cbn [orb].
  assert (Hd := span_digits_digits u).
  assert (Hn := span_digits_nil u).
  destruct (span_digits u) as [int_d r1] eqn:E. cbn [fst] in Hd, Hn.
  assert (Hr1 : int_d = [] -> r1 = u).
  { intros ->. destruct u as [|c u]; cbn [span_digits] in E; [congruence|].
    destruct (is_digit c); [|congruence].
    destruct (span_digits u). discriminate E. }
  destruct int_d as [|c0 int_d].
  - rewrite (Hr1 eq_refl). cbn [app].
    destruct u as [|c u]; [reflexivity|].
    assert (Hc : is_digit c = false) by now apply Hn.
    cbn [starts_with_digit] in *. rewrite Hc. cbn [orb].
    destruct (N.eqb c 46); [|reflexivity]. cbn [andb].
    assert (Hd' := span_digits_digits u).
    assert (Hn' := span_digits_nil u).
    destruct (span_digits u) as [frac_d r2]. cbn [fst] in Hd', Hn'.
    destruct frac_d as [|f frac_d].
    + now rewrite (proj1 Hn' eq_refl).
    + destruct (starts_with_digit u);
        [|destruct Hn' as [_ Hn']; discriminate (Hn' eq_refl)].
      apply number_of_decimal_not_nan. now apply digits_value_nonneg.
  - destruct u as [|c u]; [discriminate E|].
    assert (Hc : is_digit c = true).
    { destruct (is_digit c) eqn:Ec; [reflexivity|].
      cbn [starts_with_digit] in Hn. now apply Hn in Ec. }
    rewrite Hc. cbn [orb negb].
    match goal with
    | |- isNaN (let '(_, _) := ?X in _) = _ =>
        assert (Hf : forallb is_digit (fst X) = true)
    end.
    { destruct r1 as [|x r1]; [reflexivity|].
      destruct (N.eqb x 46); [apply span_digits_digits|reflexivity]. }
    match goal with
    | |- isNaN (let '(_, _) := ?X in _) = _ => destruct X as [frac_d r2]
    end.
    cbn [fst] in Hf. cbn [app].
    apply number_of_decimal_not_nan.
    apply (digits_value_nonneg ((c0 :: int_d) ++ frac_d)).
    now rewrite forallb_app, Hd, Hf.
Qed.

Lemma parseFloat_nan (s : str) : isNaN (parseFloat s) = negb (numeric_prefix s).
Proof.
  unfold parseFloat, numeric_prefix.
  destruct (trimStart s) as [|c r]; [reflexivity|].
  destruct (N.eqb c 43) eqn:E1; [cbn [orb]; apply parse_unsigned_nan|].
  destruct (N.eqb c 45) eqn:E2; cbn [orb]; apply parse_unsigned_nan.
Qed.

Lemma numeral_text_head (n : numeral) (r : str) :
  numeral_ok n = true ->
  exists c t, numeral_text n ++ r = c :: t
              /\ (is_digit c = true \/ c = 46%N \/ c = 43%N \/ c = 45%N).
Proof.
  intros Hok. rewrite numeral_text_body, <- app_assoc.
  destruct (numeral_body_head n r Hok) as [c [t [Hb Hc]]].
  destruct (num_sign n) as [[|]|].
  - exists 45%N. eexists. split; [reflexivity|tauto].
  - exists 43%N. eexists. split; [reflexivity|tauto].
  - exists c, t. split; [exact Hb|tauto].
Qed.

Lemma numeral_not_array (valueStr ws r : str) (n : numeral) :
  blank ws = true -> numeral_ok n = true ->
  replace_first 44%N 46%N (quote_stripped valueStr) = ws ++ numeral_text n ++ r ->
  str_eqb valueStr [] = false /\ startsWith (lit "[") valueStr = false.
Proof.
  intros Hws Hok E.
  destruct (numeral_text_head n r Hok) as [c [t [Hh Hc]]]. rewrite Hh in E.
  destruct valueStr as [|x v].
  - destruct ws; discriminate E.
  - split; [reflexivity|].
    change (startsWith (lit "[") (x :: v)) with (N.eqb 91 x && true).
    rewrite andb_true_r. destruct (N.eqb 91 x) eqn:Ex; [|reflexivity].
    apply N.eqb_eq in Ex. subst x.
    match type of E with
    | context [quote_stripped ?X] => change (quote_stripped X) with X in E
    end.
    cbn [replace_first] in E.
    change (N.eqb 91 44) with false in E. cbv iota in E.
    destruct ws as [|w ws].
    + cbn [app] in E. injection E as E _. subst c.
      destruct Hc as [Hc|[Hc|[Hc|Hc]]]; discriminate Hc.
    + cbn [app] in E. injection E as E _. subst w.
      cbn [blank forallb] in Hws. discriminate Hws.
Qed.

(** C10.  Whatever text the decoder reads as a number (the value without
    one pair of quotes around it, its first comma turned into a point)
    that is white space, a decimal numeral and a tail that does not
    continue the numeral, the result is the number of the numeral, for a
    value that is no boolean word: the numeral may have a sign, a
    fraction and an exponent, and the tail is ignored.  [12abc] gives 12;
    in [1,5,7] the first comma is read as the decimal point and the text
    gives 1.5.  The decoder gives no value exactly for the empty text and
    for a text that is no array, no boolean word and has no numeric
    prefix at all (after white space and a sign: [Infinity], a digit, or
    a point and a digit). *)
Theorem parseOptionValue_numeric_prefix (valueStr ws r : str) (n : numeral) :
  blank ws = true -> numeral_ok n = true -> numeral_stops n r = true ->
  replace_first 44%N 46%N (quote_stripped valueStr) = ws ++ numeral_text n ++ r ->
  boolean_word valueStr = false ->
  parseOptionValue valueStr = JNum (numeral_value n)
  /\ isNaN (numeral_value n) = false
  /\ parseOptionValue (lit "12abc") = JNum (int 12)
  /\ parseOptionValue (lit "1,5,7") = JNum (dec 15 (-1))
  /\ forall v,
       is_undefined (parseOptionValue v) =
       str_eqb v []
       || (negb (reads_as_array v) && negb (boolean_word v)
           && negb (numeric_prefix (replace_first 44%N 46%N (quote_stripped v)))).
Proof.
  intros Hws Hok Hstop E Hb.
  assert (Hnum := parseFloat_numeral ws n r Hws Hok Hstop).
  assert (Hnan : isNaN (numeral_value n) = false).
  { unfold numeral_value. apply number_of_decimal_not_nan.
    apply digits_value_nonneg. rewrite forallb_app.
    unfold numeral_ok in Hok. apply andb_true_iff in Hok as [Hok _].
    apply andb_true_iff in Hok as [Hok _].
    exact Hok. }
  split; [|split; [exact Hnan|split; [vm_compute; reflexivity|
                    split; [vm_compute; reflexivity|]]]].
  - destruct (numeral_not_array valueStr ws r n Hws Hok E) as [Hne Harr].
    unfold boolean_word in Hb. cbv zeta in Hb.
    apply orb_false_iff in Hb as [Ht Hf].
    unfold parseOptionValue. fold (quote_stripped valueStr). cbv zeta.
    rewrite Hne, Harr, Ht, Hf, E, Hnum, Hnan. reflexivity.
  - intros v. rewrite parseOptionValue_undefined. now rewrite parseFloat_nan.
Qed.

Lemma parseOptionValue_numeric_prefix_witness :
  let valueStr := quoted (lit " -1,5e+3,2x") in
  let n := {| num_sign := Some true; num_int := lit "1";
              num_point := Some (lit "5");
              num_exp := Some (false, Some false, lit "3") |} in
  blank (lit " ") = true /\ numeral_ok n = true
  /\ numeral_stops n (lit ",2x") = true
  /\ replace_first 44%N 46%N (quote_stripped valueStr)
     = lit " " ++ numeral_text n ++ lit ",2x"
  /\ boolean_word valueStr = false
  /\ parseOptionValue valueStr = JNum (numeral_value n)
  /\ numeral_value n = number_of_decimal true 1500 0.
Proof.
  intros valueStr n.
  assert (H1 : blank (lit " ") = true) by reflexivity.
  assert (H2 : numeral_ok n = true) by reflexivity.
  assert (H3 : numeral_stops n (lit ",2x") = true) by reflexivity.
  assert (H4 : replace_first 44%N 46%N (quote_stripped valueStr)
               = lit " " ++ numeral_text n ++ lit ",2x") by reflexivity.
  assert (H5 : boolean_word valueStr = false) by reflexivity.
  repeat (split; [assumption|]).
  split; [|vm_compute; reflexivity].
  exact (proj1 (parseOptionValue_numeric_prefix valueStr (lit " ") (lit ",2x") n
                  H1 H2 H3 H4 H5)).
Defined.

(** ** Blocks without a [user] text *)









Lemma parse_line_end use st :
  parse_line use st (lit "$$end") =
  {| inBlock := false; currentPromt := None; currentSection := None;
     currentSegmentName := None; sectionContent := [];
     promts := close_block use st |}.
Proof. reflexivity. Qed.

Lemma run_app use st (a b : list str) :
  run use st (a ++ b) = run use (run use st a) b.
Proof. apply fold_left_app. Qed.

Lemma PromtLoad_run (raw : str) (use : Use) :
  PromtLoad raw use = close_block use (run use parse_init (split newline raw)).
Proof. reflexivity. Qed.




(** ** Lines of a trimmed text *)

Lemma trimEnd_idem (s : str) : trimEnd (trimEnd s) = trimEnd s.
Proof.
  unfold trimEnd. now rewrite rev_involutive, trimStart_idem.
Qed.

Lemma trim_idem (s : str) : trim (trim s) = trim s.
Proof.
  unfold trim.
  destruct (blank (trimStart s)) eqn:E.
  - apply trimEnd_blank in E. rewrite E. reflexivity.
  - destruct (trimEnd_split (trimStart s)) as [b [Hb Hs]].
    assert (Hne : blank (trimEnd (trimStart s)) = false).
    { destruct (blank (trimEnd (trimStart s))) eqn:E'; [|reflexivity].
      rewrite Hs, blank_app, E', Hb in E. discriminate. }
    destruct (trimStart_not_blank s) as [c [r [Hc Hw]]].
    { destruct (blank s) eqn:Es; [|reflexivity].
      apply trimStart_blank in Es. rewrite Es in E. discriminate. }
    assert (Hst : trimStart (trimEnd (trimStart s)) = trimEnd (trimStart s)).
    { rewrite Hc in Hs |- *. 
      destruct (trimEnd (c :: r)) as [|c' r'] eqn:Et.
      - reflexivity.
      - cbn [app] in Hs. injection Hs as <- _. cbn [trimStart]. now rewrite Hw. }
    rewrite Hst. apply trimEnd_idem.
Qed.

Lemma trim_blank_prefix (a s : str) : blank a = true -> trim (a ++ s) = trim s.
Proof. intros H. unfold trim. now rewrite trimStart_blank_app. Qed.

Lemma trim_blank_suffix (s b : str) : blank b = true -> trim (s ++ b) = trim s.
Proof.
  intros H. unfold trim. destruct (blank s) eqn:E.
  - assert (E' : blank (s ++ b) = true) by now rewrite blank_app, E, H.
    apply trimStart_blank in E, E'. now rewrite E, E'.
  - rewrite trimStart_app_not_blank by assumption.
    now apply trimEnd_blank_app.
Qed.

Lemma split_rev (sep : char) (s : str) :
  split sep (rev s) = rev (List.map (@rev char) (split sep s)).
Proof.
  induction s as [|c s IH]; [reflexivity|].
  cbn [rev split].
  destruct (N.eqb c sep) eqn:E.
  - apply N.eqb_eq in E. subst c. rewrite split_app, IH.
    cbn [List.map rev split]. reflexivity.
  - assert (G : forall t, split sep (t ++ [c]) =
                  removelast (split sep t) ++ [last (split sep t) [] ++ [c]]).
    { induction t as [|x t IHt]; cbn [app split].
      - now rewrite E.
      - destruct (N.eqb x sep).
        + rewrite IHt. assert (Hn := split_nonempty sep t).
          destruct (split sep t) as [|l ls]; [contradiction|]. reflexivity.
        + rewrite IHt. assert (Hn := split_nonempty sep t).
          destruct (split sep t) as [|l ls]; [contradiction|].
          destruct ls as [|l' ls]; reflexivity. }
    rewrite G, IH.
    assert (Hn := split_nonempty sep s).
    destruct (split sep s) as [|l ls]; [contradiction|].
    cbn [List.map rev].
    rewrite removelast_app by discriminate. rewrite last_last.
    cbn [removelast]. rewrite app_nil_r. reflexivity.
Qed.

(** A property of lines that survives the removal of white space at the
    start of a line holds of the lines of a text trimmed at the start. *)
Lemma split_trimStart_Forall (Q : str -> Prop) (s : str) :
  (forall c l, is_ws c = true -> Q (c :: l) -> Q l) ->
  Forall Q (split newline s) -> Forall Q (split newline (trimStart s)).
Proof.
  intros HQ. induction s as [|c s IH]; cbn [trimStart]; [auto|].
  destruct (is_ws c) eqn:Ew; [|auto].
  intros H. apply IH. cbn [split] in H.
  destruct (N.eqb c newline).
  - now inversion H.
  - destruct (split newline s) as [|l ls]; [constructor|].
    inversion H as [|? ? Hl Hls]; subst. constructor; [|assumption].
    exact (HQ c l Ew Hl).
Qed.

Lemma split_trimEnd_Forall (Q : str -> Prop) (s : str) :
  (forall c l, is_ws c = true -> Q (l ++ [c]) -> Q l) ->
  Forall Q (split newline s) -> Forall Q (split newline (trimEnd s)).
Proof.
  intros HQ H. unfold trimEnd. rewrite split_rev.
  apply Forall_rev. apply Forall_map.
  apply (split_trimStart_Forall (fun l => Q (rev l))).
  - intros c l Ew Hl. cbn [rev] in Hl. exact (HQ c (rev l) Ew Hl).
  - rewrite split_rev. apply Forall_rev. apply Forall_map.
    rewrite Forall_forall in H |- *. intros l Hl.
    rewrite rev_involutive. auto.
Qed.

Lemma split_trim_Forall (Q : str -> Prop) (s : str) :
  (forall c l, is_ws c = true -> Q (c :: l) -> Q l) ->
  (forall c l, is_ws c = true -> Q (l ++ [c]) -> Q l) ->
  Forall Q (split newline s) -> Forall Q (split newline (trim s)).
Proof.
  intros H1 H2 H. unfold trim.
  apply split_trimEnd_Forall; [assumption|].
  apply split_trimStart_Forall; assumption.
Qed.

Lemma content_line_trim_start (c : char) (l : str) :
  is_ws c = true -> content_line (c :: l) = true -> content_line l = true.
Proof.
  intros Ew. unfold content_line.
  change (c :: l) with ([c] ++ l). rewrite trim_blank_prefix; [auto|].
  unfold blank. cbn [forallb]. now rewrite Ew.
Qed.

Lemma content_line_trim_end (c : char) (l : str) :
  is_ws c = true -> content_line (l ++ [c]) = true -> content_line l = true.
Proof.
  intros Ew. unfold content_line. rewrite trim_blank_suffix; [auto|].
  unfold blank. cbn [forallb]. now rewrite Ew.
Qed.

Lemma join_cons (sep x y : str) (r : list str) :
  join sep (x :: y :: r) = x ++ sep ++ join sep (y :: r).
Proof. reflexivity. Qed.

Lemma split_join (ls : list str) :
  ls <> [] -> Forall (fun l => one_line l = true) ls ->
  split newline (join [newline] ls) = ls.
Proof.
  intros Hne H. induction H as [|l ls Hl Hls IH]; [contradiction|].
  assert (G : forall t, one_line l = true ->
                split newline (l ++ t) =
                match split newline t with
                | l' :: r => (l ++ l') :: r
                | [] => [l]
                end).
  { clear. intros t. induction l as [|c l IHl]; intros H; cbn [app].
    - assert (Hn := split_nonempty newline t).
      destruct (split newline t); [contradiction|reflexivity].
    - unfold one_line in H. cbn [forallb] in H.
      apply andb_true_iff in H as [Hc Hl]. apply negb_true_iff in Hc.
      cbn [split]. rewrite Hc, (IHl Hl).
      assert (Hn := split_nonempty newline t).
      destruct (split newline t); [contradiction|reflexivity]. }
  destruct ls as [|l' ls].
  - cbn [join]. rewrite <- (app_nil_r l) at 1. rewrite (G [] Hl). cbn [split].
    now rewrite app_nil_r.
  - rewrite join_cons, (G _ Hl).
    change ([newline] ++ join [newline] (l' :: ls))
      with (newline :: join [newline] (l' :: ls)).
    cbn [split]. rewrite N.eqb_refl, IH by discriminate.
    now rewrite app_nil_r.
Qed.

Lemma join_split (s : str) : join [newline] (split newline s) = s.
Proof.
  induction s as [|c s IH]; [reflexivity|].
  cbn [split]. destruct (N.eqb c newline) eqn:E.
  - apply N.eqb_eq in E. subst c.
    assert (Hn := split_nonempty newline s).
    destruct (split newline s) as [|l ls]; [contradiction|].
    cbn [join app] in *. now rewrite IH.
  - assert (Hn := split_nonempty newline s).
    destruct (split newline s) as [|l ls]; [contradiction|].
    destruct ls as [|l' ls]; cbn [join app] in *; now rewrite IH.
Qed.

Lemma split_one_line (s : str) :
  Forall (fun l => one_line l = true) (split newline s).
Proof.
  induction s as [|c s IH]; cbn [split].
  - constructor; [reflexivity|constructor].
  - destruct (N.eqb c newline) eqn:E.
    + constructor; [reflexivity|assumption].
    + destruct (split newline s) as [|l ls]; [repeat constructor|].
      * unfold one_line. cbn [forallb]. now rewrite E.
      * inversion IH as [|? ? Hl Hls]; subst. constructor; [|assumption].
        unfold one_line in *. cbn [forallb]. now rewrite E, Hl.
Qed.

(** The text that [finishSection] makes of content lines is trimmed, and
    its own lines are content lines again. *)
Lemma section_text_lines (ls : list str) :
  Forall (fun l => one_line l = true) ls ->
  Forall (fun l => content_line l = true) ls ->
  let content := trim (join [newline] ls) in
  trim content = content
  /\ Forall (fun l => content_line l = true) (split newline content).
Proof.
  intros H1 Hc content. split; [apply trim_idem|].
  apply split_trim_Forall.
  - exact content_line_trim_start.
  - exact content_line_trim_end.
  - destruct ls as [|l ls].
    + cbn [join split]. constructor; [reflexivity|constructor].
    + rewrite split_join; [assumption|discriminate|assumption].
Qed.

(** ** What [parse] returns *)

Lemma one_line_app (a b : str) : one_line (a ++ b) = one_line a && one_line b.
Proof. apply forallb_app. Qed.

Lemma forallb_rev {A : Type} (f : A -> bool) (l : list A) :
  forallb f (rev l) = forallb f l.
Proof.
  induction l as [|x l IH]; [reflexivity|].
  cbn [rev]. rewrite forallb_app, IH. cbn [forallb].
  rewrite andb_true_r. apply andb_comm.
Qed.

Lemma one_line_rev (s : str) : one_line (rev s) = one_line s.
Proof. apply forallb_rev. Qed.

Lemma one_line_trimStart (s : str) :
  one_line s = true -> one_line (trimStart s) = true.
Proof.
  intros H. destruct (trimStart_split s) as [a [_ Hs]].
  rewrite Hs, one_line_app in H. now apply andb_true_iff in H as [_ H].
Qed.

Lemma one_line_trim (s : str) : one_line s = true -> one_line (trim s) = true.
Proof.
  intros H. unfold trim, trimEnd. rewrite one_line_rev.
  apply one_line_trimStart. rewrite one_line_rev.
  now apply one_line_trimStart.
Qed.

Lemma one_line_skipn (n : nat) (s : str) :
  one_line s = true -> one_line (skipn n s) = true.
Proof.
  intros H. rewrite <- (firstn_skipn n s), one_line_app in H.
  now apply andb_true_iff in H as [_ H].
Qed.

Lemma section_text_of_lines (ls : list str) :
  Forall (fun l => one_line l = true /\ content_line l = true) ls ->
  section_text (trim (join [newline] ls)).
Proof.
  intros H. apply section_text_lines.
  - eapply Forall_impl; [|exact H]. now intros l [H1 _].
  - eapply Forall_impl; [|exact H]. now intros l [_ H2].
Qed.

Section PropSetKeys.
Context {A : Type}.

Lemma prop_replace_keys (o : props A) (k : str) (v : A) :
  List.map fst (prop_replace o k v) = List.map fst o.
Proof.
  induction o as [|[k' v'] o IH]; [reflexivity|].
  cbn [prop_replace]. destruct (str_eqb k' k); cbn [List.map fst];
    [reflexivity|now rewrite IH].
Qed.

Lemma prop_insert_keys_In (o : props A) (k k' : str) (v : A) :
  In k' (List.map fst (prop_insert o k v)) <-> k' = k \/ In k' (List.map fst o).
Proof.
  induction o as [|[k0 v0] o IH]; cbn [prop_insert].
  - cbn. intuition.
  - destruct (key_le k0 k); cbn [List.map fst In] in *; rewrite ?IH; intuition.
Qed.

Lemma prop_insert_NoDup (o : props A) (k : str) (v : A) :
  ~ In k (List.map fst o) -> NoDup (List.map fst o) ->
  NoDup (List.map fst (prop_insert o k v)).
Proof.
  induction o as [|[k0 v0] o IH]; cbn [prop_insert List.map fst]; intros Hk Hn.
  - repeat constructor. intros [].
  - inversion Hn as [|x l Hx Hl]; subst.
    destruct (key_le k0 k); cbn [List.map fst].
    + constructor.
      * rewrite prop_insert_keys_In. intros [->|H]; [|contradiction].
        apply Hk. now left.
      * apply IH; [|assumption]. intros H. apply Hk. now right.
    + constructor; [exact Hk|exact Hn].
Qed.

Lemma prop_set_NoDup (o : props A) (k : str) (v : A) :
  NoDup (List.map fst o) -> NoDup (List.map fst (prop_set o k v)).
Proof.
  intros H. unfold prop_set. destruct (prop_lookup o k) eqn:E.
  - now rewrite prop_replace_keys.
  - apply prop_insert_NoDup; [|exact H]. now apply prop_lookup_None.
Qed.

Lemma prop_insert_not_nil (o : props A) (k : str) (v : A) : prop_insert o k v <> [].
Proof.
  destruct o as [|[k' v'] o]; cbn [prop_insert]; [discriminate|].
  destruct (key_le k' k); discriminate.
Qed.

Lemma prop_set_not_nil (o : props A) (k : str) (v : A) : prop_set o k v <> [].
Proof.
  unfold prop_set. destruct (prop_lookup o k) eqn:E.
  - destruct o as [|[k' v'] o]; [discriminate E|].
    cbn [prop_replace]. destruct (str_eqb k' k); discriminate.
  - apply prop_insert_not_nil.
Qed.

Lemma key_le_total (a b : str) : key_le a b = false -> key_le b a = true.
Proof.
  unfold key_le.
  destruct (array_index a) as [n|], (array_index b) as [n'|];
    try reflexivity; try discriminate.
  intros H. apply Z.leb_gt in H. apply Z.leb_le. lia.
Qed.

Lemma key_le_trans (a b c : str) :
  key_le a b = true -> key_le b c = true -> key_le a c = true.
Proof.
  unfold key_le.
  destruct (array_index a) as [n|], (array_index b) as [n'|],
    (array_index c) as [n''|]; try reflexivity; try discriminate.
  intros H1 H2. apply Z.leb_le in H1, H2. apply Z.leb_le. lia.
Qed.

Lemma prop_insert_keys_forallb (f : str -> bool) (o : props A) (k : str) (v : A) :
  f k = true -> forallb f (List.map fst o) = true ->
  forallb f (List.map fst (prop_insert o k v)) = true.
Proof.
  intros Hk. induction o as [|[k0 v0] o IH]; cbn [prop_insert List.map fst forallb].
  - now rewrite Hk.
  - intros H. apply andb_true_iff in H as [H1 H2].
    destruct (key_le k0 k); cbn [List.map fst forallb];
      rewrite ?Hk, ?H1, ?H2, ?IH; auto.
Qed.

Lemma prop_insert_ordered (o : props A) (k : str) (v : A) :
  ordered (List.map fst o) = true ->
  ordered (List.map fst (prop_insert o k v)) = true.
Proof.
  induction o as [|[k0 v0] o IH]; cbn [prop_insert List.map fst ordered];
    [reflexivity|].
  intros H. apply andb_true_iff in H as [H1 H2].
  destruct (key_le k0 k) eqn:E; cbn [List.map fst ordered forallb].
  - rewrite IH by exact H2. rewrite andb_true_r.
    now apply prop_insert_keys_forallb.
  - apply key_le_total in E. rewrite E, H1, H2. cbn [andb].
    rewrite andb_true_r. apply forallb_forall. intros x Hx.
    rewrite forallb_forall in H1. apply key_le_trans with k0; auto.
Qed.

Lemma prop_set_ordered (o : props A) (k : str) (v : A) :
  ordered (List.map fst o) = true ->
  ordered (List.map fst (prop_set o k v)) = true.
Proof.
  intros H. unfold prop_set. destruct (prop_lookup o k).
  - now rewrite prop_replace_keys.
  - now apply prop_insert_ordered.
Qed.

Lemma ordered_app_last (ks : list str) (k : str) :
  ordered (ks ++ [k]) = true -> forallb (fun x => key_le x k) ks = true.
Proof.
  induction ks as [|x ks IH]; cbn [app ordered forallb]; [reflexivity|].
  intros H. apply andb_true_iff in H as [H1 H2].
  rewrite forallb_app in H1. apply andb_true_iff in H1 as [_ H1].
  cbn [forallb] in H1. rewrite andb_true_r in H1. rewrite H1. now apply IH.
Qed.

(** A property created in the order of enumeration comes last. *)
Lemma prop_set_last (o : props A) (k : str) (v : A) :
  ordered (List.map fst o ++ [k]) = true -> ~ In k (List.map fst o) ->
  prop_set o k v = o ++ [(k, v)].
Proof.
  intros Ho Hk. unfold prop_set.
  replace (prop_lookup o k) with (@None A)
    by (symmetry; now apply prop_lookup_None).
  apply prop_insert_last. apply ordered_app_last in Ho.
  clear Hk. induction o as [|[k0 v0] o IH]; [reflexivity|].
  cbn [List.map fst forallb] in *.
  apply andb_true_iff in Ho as [H1 H2]. now rewrite H1, IH.
Qed.
End PropSetKeys.

Lemma segment_map_js_set (sg : props str) (n c : str) :
  segment_map sg -> segment_name n -> section_text c ->
  segment_map (js_set sg n c).
Proof.
  intros [Ho [Hn Hf]] Hname Hc. unfold js_set.
  destruct (str_eqb n (lit "__proto__")) eqn:E; [now repeat split|].
  apply str_eqb_neq in E. repeat split.
  - now apply prop_set_ordered.
  - now apply prop_set_NoDup.
  - apply prop_set_Forall; [exact Hf|]. cbn [fst snd]. auto.
Qed.

Lemma parsed_finishSection use promt section lines name :
  parsed_partial use promt ->
  Forall (fun l => one_line l = true /\ content_line l = true) lines ->
  opt_all (fun n => n = [] \/ segment_name n) name ->
  parsed_partial use (finishSection promt section lines use name).
Proof.
  intros [Hsys [Husr [Hopt [Hseg Hgr]]]] Hl Hn.
  assert (Ht := section_text_of_lines lines Hl).
  unfold finishSection, parsed_partial. destruct section.
  - cbn [p_system p_user p_options p_segment p_grammar opt_all]. auto.
  - cbn [p_system p_user p_options p_segment p_grammar opt_all]. auto.
  - destruct name as [n|]; [|repeat split; assumption].
    destruct (truthy_str n) eqn:Et; [|repeat split; assumption].
    cbn [p_system p_user p_options p_segment p_grammar].
    split; [assumption|]. split; [assumption|]. split; [assumption|].
    split; [|assumption].
    cbn [opt_all]. apply segment_map_js_set.
    + destruct (p_segment promt) as [sg|]; [apply Hseg|].
      repeat split; constructor.
    + cbn [opt_all] in Hn. destruct Hn as [->|Hn]; [discriminate|assumption].
    + assumption.
  - cbn [p_system p_user p_options p_segment p_grammar].
    repeat split; try assumption.
    cbn [opt_all]. eexists. reflexivity.
  - destruct (truthy_str (GrammarCheck (trim (join [newline] lines)))) eqn:Et;
      [|repeat split; assumption].
    cbn [p_system p_user p_options p_segment p_grammar].
    repeat split; try assumption.
    + intros E. rewrite E in Et. discriminate.
    + eexists. reflexivity.
Qed.

Lemma parsed_finish_pending use st promt :
  parsed_state use st -> parsed_partial use promt ->
  parsed_partial use (finish_pending use st promt).
Proof.
  intros [_ [_ [Hl Hn]]] Hp. unfold finish_pending.
  destruct (currentSection st) as [section|]; [|assumption].
  destruct (sectionContent st) as [|l ls] eqn:E; [assumption|].
  now apply parsed_finishSection.
Qed.

Lemma parsed_close_block use st :
  parsed_state use st -> Forall (parsed_record use) (close_block use st).
Proof.
  intros H. assert (H' := H). destruct H' as [Ho [Hp _]].
  unfold close_block. destruct (inBlock st); [|assumption].
  destruct (currentPromt st) as [p|]; [|assumption].
  cbn [opt_all] in Hp.
  assert (Hq := parsed_finish_pending use st p H Hp).
  unfold push_if_user.
  destruct (p_user (finish_pending use st p)) as [u|] eqn:Eu; [|assumption].
  destruct (truthy_str u) eqn:Et; [|assumption].
  apply Forall_app. split; [assumption|]. constructor; [|constructor].
  destruct Hq as [Hsys [Husr [Hopt [Hseg Hgr]]]].
  rewrite Eu in Husr. unfold parsed_record, as_TPromt.
  cbn [system user options segment grammar].
  repeat split; try assumption; try apply Husr.
  intros E. rewrite E in Et. discriminate.
Qed.

Lemma parsed_enter_section use st promt section name :
  parsed_state use st -> currentPromt st = Some promt ->
  opt_all (fun n => n = [] \/ segment_name n) name ->
  parsed_state use (enter_section use st promt section name).
Proof.
  intros H Hp Hn. assert (H' := H). destruct H' as [Ho [Hq _]].
  rewrite Hp in Hq. cbn [opt_all] in Hq.
  unfold parsed_state, enter_section.
  cbn [promts currentPromt sectionContent currentSegmentName].
  split; [assumption|].
  split; [cbn [opt_all]; now apply parsed_finish_pending|].
  split; [constructor|assumption].
Qed.

Lemma parsed_parse_line use st line :
  parsed_state use st -> one_line line = true ->
  parsed_state use (parse_line use st line).
Proof.
  intros H Hl. assert (H' := H). destruct H' as [Ho [Hp [Hc Hn]]].
  unfold parse_line.
  destruct (str_eqb (trim line) (lit "$$begin")) eqn:E1.
  { unfold parsed_state.
    cbn [promts currentPromt sectionContent currentSegmentName opt_all].
    split; [now apply parsed_close_block|].
    split; [unfold parsed_partial, empty_promt; cbn; auto|].
    split; [constructor|exact I]. }
  destruct (str_eqb (trim line) (lit "$$end")) eqn:E2.
  { unfold parsed_state.
    cbn [promts currentPromt sectionContent currentSegmentName opt_all].
    split; [now apply parsed_close_block|].
    split; [exact I|]. split; [constructor|exact I]. }
  destruct (inBlock st); [|assumption].
  destruct (currentPromt st) as [p|] eqn:Ep; [|assumption].
  destruct (str_eqb (trim line) (lit "$$system")) eqn:E3;
    [now apply parsed_enter_section|].
  destruct (str_eqb (trim line) (lit "$$user")) eqn:E4;
    [now apply parsed_enter_section|].
  destruct (str_eqb (trim line) (lit "$$options")) eqn:E5;
    [now apply parsed_enter_section|].
  destruct (str_eqb (trim line) (lit "$$grammar")) eqn:E6;
    [now apply parsed_enter_section|].
  destruct (startsWith (lit "$$segment=") (trim line)) eqn:E7.
  { apply parsed_enter_section; [assumption|assumption|].
    cbn [opt_all].
    destruct (trim (substring_from 10 (trim line))) as [|c n] eqn:En;
      [now left|right].
    rewrite <- En. split; [rewrite En; discriminate|].
    split; [apply trim_idem|].
    apply one_line_trim. unfold substring_from. apply one_line_skipn.
    now apply one_line_trim. }
  destruct (currentSection st) as [section|]; [|assumption].
  unfold parsed_state.
  cbn [promts currentPromt sectionContent currentSegmentName].
  split; [assumption|]. split; [assumption|]. split; [|assumption].
  apply Forall_app. split; [assumption|]. constructor; [|constructor].
  split; [assumption|].
  unfold content_line, is_marker. now rewrite E1, E2, E3, E4, E5, E6, E7.
Qed.

(** Every record that [PromtLoad] returns is a parsed record. *)
Lemma PromtLoad_parsed (raw : str) (use : Use) :
  Forall (parsed_record use) (PromtLoad raw use).
Proof.
  rewrite PromtLoad_run. apply parsed_close_block.
  assert (G : forall lines st,
             parsed_state use st ->
             Forall (fun l => one_line l = true) lines ->
             parsed_state use (run use st lines)).
  { induction lines as [|l lines IH]; intros st Hs Hl; [assumption|].
    inversion Hl as [|? ? H1 H2]; subst.
    unfold run. cbn [fold_left]. apply IH; [|assumption].
    now apply parsed_parse_line. }
  apply G; [|apply split_one_line].
  unfold parsed_state, parse_init. cbn. auto.
Qed.

(** ** Reading sections back *)

Lemma trimmed_not_blank (k : str) : k <> [] -> trim k = k -> blank k = false.
Proof.
  intros Hne Ht. destruct (blank k) eqn:E; [|reflexivity].
  apply trim_blank in E. congruence.
Qed.

Lemma trimEnd_trimmed (k : str) : trim k = k -> trimEnd k = k.
Proof.
  intros Ht. rewrite <- Ht at 1. unfold trim. rewrite trimEnd_idem. exact Ht.
Qed.

(** A trimmed text after a prefix that starts with no white space is
    trimmed. *)
Lemma trim_prefixed (c : char) (a k : str) :
  is_ws c = false -> k <> [] -> trim k = k ->
  trim ((c :: a) ++ k) = (c :: a) ++ k.
Proof.
  intros Hc Hne Ht. unfold trim. cbn [app trimStart]. rewrite Hc.
  change (c :: a ++ k) with ((c :: a) ++ k).
  rewrite trimEnd_app_not_blank by now apply trimmed_not_blank.
  now rewrite trimEnd_trimmed.
Qed.

Lemma parse_line_marker use out promt section0 name0 content0 section name :
  marker_ok section name ->
  parse_line use (in_block out promt section0 name0 content0)
    (marker_line section name)
  = enter_section use (in_block out promt section0 name0 content0) promt
      section name.
Proof.
  intros H. destruct section; cbn [marker_ok] in H; try (subst name; reflexivity).
  destruct H as [k [-> [Hne [Ht Hl]]]]. cbn [marker_line].
  unfold parse_line.
  assert (E : trim (lit "$$segment=" ++ k) = lit "$$segment=" ++ k).
  { apply (trim_prefixed 36%N); [reflexivity|assumption|assumption]. }
  rewrite E.
  change (str_eqb (lit "$$segment=" ++ k) (lit "$$begin")) with false.
  change (str_eqb (lit "$$segment=" ++ k) (lit "$$end")) with false.
  cbn [inBlock currentPromt in_block].
  change (str_eqb (lit "$$segment=" ++ k) (lit "$$system")) with false.
  change (str_eqb (lit "$$segment=" ++ k) (lit "$$user")) with false.
  change (str_eqb (lit "$$segment=" ++ k) (lit "$$options")) with false.
  change (str_eqb (lit "$$segment=" ++ k) (lit "$$grammar")) with false.
  change (startsWith (lit "$$segment=") (lit "$$segment=" ++ k)) with true.
  change (substring_from 10 (lit "$$segment=" ++ k)) with k.
  cbv iota. now rewrite Ht.
Qed.

Lemma parse_line_content use out promt section name content line :
  content_line line = true ->
  parse_line use (in_block out promt (Some section) name content) line
  = in_block out promt (Some section) name (content ++ [line]).
Proof.
  unfold content_line, is_marker. intros H. apply negb_true_iff in H.
  repeat (apply orb_false_iff in H as [H ?]).
  unfold parse_line.
  repeat match goal with E : _ = false |- _ => rewrite E; clear E end.
  reflexivity.
Qed.

Lemma run_content use out promt section name content lines :
  Forall (fun l => content_line l = true) lines ->
  run use (in_block out promt (Some section) name content) lines
  = in_block out promt (Some section) name (content ++ lines).
Proof.
  intros H. revert content.
  induction H as [|l lines Hl Hls IH]; intros content.
  - now rewrite app_nil_r.
  - unfold run. cbn [fold_left]. rewrite parse_line_content by assumption.
    fold (run use (in_block out promt (Some section) name (content ++ [l])) lines).
    rewrite IH, <- app_assoc. reflexivity.
Qed.

(** The sections of a block, read one after the other. *)
Lemma run_sections use out (secs : list section_lines) :
  Forall section_ok secs ->
  forall promt section name content,
  exists promt' section' name' content',
    run use (in_block out promt section name content)
      (flat_map lines_of_section secs)
    = in_block out promt' section' name' content'
    /\ flushed use (in_block out promt' section' name' content')
       = Some (absorb use
                 (finish_pending use (in_block out promt section name content)
                    promt)
                 secs).
Proof.
  induction 1 as [|[[sec nm] cl] secs Hok Hoks IH];
    intros promt section name content.
  - exists promt, section, name, content. split; reflexivity.
  - destruct Hok as [Hm [Hne Hc]].
    cbn [flat_map lines_of_section]. rewrite <- app_comm_cons.
    unfold run at 1. cbn [fold_left].
    rewrite parse_line_marker by assumption.
    unfold enter_section. cbn [inBlock promts in_block].
    fold (in_block out
            (finish_pending use (in_block out promt section name content) promt)
            (Some sec) nm []).
    match goal with
    | |- context [fold_left (parse_line use) (cl ++ ?rest) ?st] =>
        change (fold_left (parse_line use) (cl ++ rest) st)
          with (run use st (cl ++ rest))
    end.
    rewrite run_app, run_content by assumption.
    cbn [app].
    destruct (IH (finish_pending use (in_block out promt section name content) promt)
                (Some sec) nm cl)
      as [p' [s' [n' [c' [Hrun Hfl]]]]].
    exists p', s', n', c'. split; [exact Hrun|].
    rewrite Hfl. f_equal. cbn [absorb fold_left]. f_equal.
    unfold finish_pending at 2. cbn [currentSection sectionContent in_block
      currentSegmentName].
    destruct cl as [|l cl]; [contradiction|reflexivity].
Qed.

Lemma split_one (s : str) : one_line s = true -> split newline s = [s].
Proof.
  intros H. rewrite <- (split_join [s]); [reflexivity|discriminate|].
  constructor; [assumption|constructor].
Qed.

Lemma split_join_lines (xs : list str) :
  xs <> [] ->
  split newline (join [newline] xs) = flat_map (split newline) xs.
Proof.
  induction xs as [|x xs IH]; [contradiction|]. intros _.
  destruct xs as [|y xs].
  - cbn [join flat_map]. now rewrite app_nil_r.
  - rewrite join_cons. change ([newline] ++ join [newline] (y :: xs))
      with (newline :: join [newline] (y :: xs)).
    rewrite split_app, IH by discriminate. reflexivity.
Qed.

Lemma join_flat_split (xs : list str) :
  join [newline] (flat_map (split newline) xs) = join [newline] xs.
Proof.
  destruct xs as [|x xs]; [reflexivity|].
  rewrite <- split_join_lines by discriminate. apply join_split.
Qed.

(** *** The options block may be trimmed *)

Lemma split_app_last (sep : char) (x y : str) :
  split sep (x ++ y) =
  removelast (split sep x)
  ++ (last (split sep x) [] ++ hd [] (split sep y)) :: tl (split sep y).
Proof.
  induction x as [|c x IH]; cbn [app split].
  - cbn [removelast last app].
    assert (Hn := split_nonempty sep y).
    destruct (split sep y); [contradiction|reflexivity].
  - assert (Hn := split_nonempty sep x).
    destruct (N.eqb c sep).
    + rewrite IH. destruct (split sep x) as [|l ls]; [contradiction|].
      reflexivity.
    + rewrite IH. destruct (split sep x) as [|l ls]; [contradiction|].
      destruct ls as [|l' ls]; reflexivity.
Qed.

Lemma split_blank (b : str) :
  blank b = true -> Forall (fun l => blank l = true) (split newline b).
Proof.
  unfold blank. induction b as [|c b IH]; cbn [split forallb]; intros H.
  - constructor; [reflexivity|constructor].
  - apply andb_true_iff in H as [Hc Hb]. specialize (IH Hb).
    destruct (N.eqb c newline).
    + constructor; [reflexivity|assumption].
    + destruct (split newline b) as [|l ls]; [repeat constructor; cbn; now rewrite Hc|].
      inversion IH as [|? ? Hl Hls]; subst. constructor; [|assumption].
      cbn [forallb]. now rewrite Hc, Hl.
Qed.

Section TrimmedBlock.
Variable g : obj -> str -> obj.
Hypothesis g_empty : forall o, g o [] = o.

Let f (o : obj) (line : str) : obj := g o (trim line).

Lemma fold_blank_lines (ls : list str) (o : obj) :
  Forall (fun l => blank l = true) ls -> fold_left f ls o = o.
Proof.
  induction 1 as [|l ls Hl Hls IH]; [reflexivity|].
  change (fold_left f (l :: ls) o) with (fold_left f ls (g o (trim l))).
  apply trim_blank in Hl. rewrite Hl, g_empty. exact IH.
Qed.

Lemma fold_split_trimStart (s : str) (o : obj) :
  fold_left f (split newline (trimStart s)) o = fold_left f (split newline s) o.
Proof.
  induction s as [|c s IH]; [reflexivity|].
  cbn [trimStart]. destruct (is_ws c) eqn:Ew; [|reflexivity].
  rewrite IH. cbn [split].
  destruct (N.eqb c newline).
  - change (fold_left f ([] :: split newline s) o)
      with (fold_left f (split newline s) (g o (trim []))).
    change (trim []) with (@nil char). now rewrite g_empty.
  - assert (Hn := split_nonempty newline s).
    destruct (split newline s) as [|l ls]; [contradiction|].
    change (fold_left f (l :: ls) o) with (fold_left f ls (g o (trim l))).
    change (fold_left f ((c :: l) :: ls) o)
      with (fold_left f ls (g o (trim ([c] ++ l)))).
    rewrite trim_blank_prefix; [reflexivity|].
    unfold blank. cbn [forallb]. now rewrite Ew.
Qed.

Lemma fold_split_blank_suffix (x b : str) (o : obj) :
  blank b = true ->
  fold_left f (split newline (x ++ b)) o = fold_left f (split newline x) o.
Proof.
  intros Hb. rewrite split_app_last.
  assert (Hlines := split_blank b Hb).
  assert (Hn := split_nonempty newline b).
  destruct (split newline b) as [|b0 bs]; [contradiction|].
  inversion Hlines as [|? ? Hb0 Hbs]; subst. cbn [hd tl].
  rewrite fold_left_app.
  change (fold_left f ((last (split newline x) [] ++ b0) :: bs) ?a)
    with (fold_left f bs (g a (trim (last (split newline x) [] ++ b0)))).
  rewrite fold_blank_lines by assumption.
  rewrite trim_blank_suffix by assumption.
  assert (Hx := split_nonempty newline x).
  assert (E : forall ls : list str, ls <> [] ->
                fold_left f ls o =
                g (fold_left f (removelast ls) o) (trim (last ls []))).
  { intros ls Hls. rewrite (app_removelast_last [] Hls) at 1.
    rewrite fold_left_app. reflexivity. }
  now rewrite (E _ Hx).
Qed.

Lemma fold_split_trim (s : str) (o : obj) :
  fold_left f (split newline (trim s)) o = fold_left f (split newline s) o.
Proof.
  unfold trim.
  destruct (trimEnd_split (trimStart s)) as [b [Hb Hs]].
  rewrite <- (fold_split_trimStart s o).
  transitivity (fold_left f (split newline (trimEnd (trimStart s) ++ b)) o).
  - symmetry. now apply fold_split_blank_suffix.
  - now rewrite <- Hs.
Qed.
End TrimmedBlock.

(** [parseOptionsToObject] gives the same mapping for a block and for the
    trimmed block. *)
Lemma parseOptionsToObject_trim (content : str) :
  parseOptionsToObject (trim content) = parseOptionsToObject content.
Proof.
  unfold parseOptionsToObject.
  set (g := fun (options : obj) (trimmed : str) =>
              if negb (truthy_str trimmed) then options
              else
                let eqIndex := indexOf 61%N trimmed in
                if eqIndex <=? 0 then options
                else
                  let key := trim (substring 0 eqIndex trimmed) in
                  let valueStr := trim (substring_from (eqIndex + 1) trimmed) in
                  let value := parseOptionValue valueStr in
                  if negb (is_undefined value) then js_set options key value
                  else options).
  change parseOptionsToObject_line with (fun o line => g o (trim line)).
  apply fold_split_trim. reflexivity.
Qed.

(** *** What each section stores *)

Lemma finishSection_system q (s : str) use :
  trim s = s ->
  finishSection q sec_system (split newline s) use None =
  {| p_system := Some s; p_user := p_user q; p_options := p_options q;
     p_segment := p_segment q; p_grammar := p_grammar q |}.
Proof. intros H. unfold finishSection. now rewrite join_split, H. Qed.

Lemma finishSection_user_text q (s : str) use :
  trim s = s ->
  finishSection q sec_user (split newline s) use None =
  {| p_system := p_system q; p_user := Some s; p_options := p_options q;
     p_segment := p_segment q; p_grammar := p_grammar q |}.
Proof. intros H. unfold finishSection. now rewrite join_split, H. Qed.

Lemma finishSection_options q (o : TPromtOptions) use :
  PromtOptionsParse use
    (Some (parseOptionsToObject (join [newline] (List.map option_line o))))
    false = o ->
  finishSection q sec_options
    (flat_map (split newline) (List.map option_line o)) use None =
  {| p_system := p_system q; p_user := p_user q; p_options := Some o;
     p_segment := p_segment q; p_grammar := p_grammar q |}.
Proof.
  intros H. unfold finishSection.
  now rewrite join_flat_split, parseOptionsToObject_trim, H.
Qed.

Lemma finishSection_grammar q (g : str) use :
  g <> [] -> trim g = g -> GrammarCheck g = g ->
  finishSection q sec_grammar (split newline g) use None =
  {| p_system := p_system q; p_user := p_user q; p_options := p_options q;
     p_segment := p_segment q; p_grammar := Some g |}.
Proof.
  intros Hne Ht Hg. unfold finishSection. rewrite join_split, Ht, Hg.
  destruct g as [|c g]; [contradiction|reflexivity].
Qed.

Lemma finishSection_segment q (k v : str) use :
  k <> [] -> trim v = v ->
  finishSection q sec_segment (split newline v) use (Some k) =
  {| p_system := p_system q; p_user := p_user q; p_options := p_options q;
     p_segment :=
       Some (js_set match p_segment q with Some sg => sg | None => [] end k v);
     p_grammar := p_grammar q |}.
Proof.
  intros Hne Ht. unfold finishSection. rewrite join_split, Ht.
  destruct k as [|c k]; [contradiction|reflexivity].
Qed.

Lemma absorb_app use q (a b : list section_lines) :
  absorb use q (a ++ b) = absorb use (absorb use q a) b.
Proof. apply fold_left_app. Qed.

Lemma ordered_app_l (a b : list str) : ordered (a ++ b) = true -> ordered a = true.
Proof.
  induction a as [|x a IH]; cbn [app ordered]; [reflexivity|].
  intros H. apply andb_true_iff in H as [H1 H2].
  rewrite forallb_app in H1. apply andb_true_iff in H1 as [H1 _].
  now rewrite H1, IH.
Qed.

(** The segments are stored one after the other, in their order. *)
Lemma absorb_segments use (sg : props str) :
  forall q (sg0 : props str),
    sg0 = match p_segment q with Some s => s | None => [] end ->
    sg <> [] ->
    ordered (List.map fst (sg0 ++ sg)) = true ->
    NoDup (List.map fst (sg0 ++ sg)) ->
    Forall (fun kv => fst kv <> lit "__proto__"
                      /\ segment_name (fst kv) /\ section_text (snd kv)) sg ->
    absorb use q
      (List.map (fun kv => (sec_segment, Some (fst kv), split newline (snd kv))) sg)
    = {| p_system := p_system q; p_user := p_user q; p_options := p_options q;
         p_segment := Some (sg0 ++ sg); p_grammar := p_grammar q |}.
Proof.
  induction sg as [|[k v] sg IH]; intros q sg0 Hq Hne Hord Hnd Hall;
    [contradiction|].
  inversion Hall as [|? ? [Hproto [[Hk _] [Hv _]]] Hrest]; subst.
  cbn [List.map fst snd absorb fold_left] in *.
  rewrite finishSection_segment by assumption.
  assert (Hfresh : js_set match p_segment q with Some s => s | None => [] end k v
                   = match p_segment q with Some s => s | None => [] end ++ [(k, v)]).
  { unfold js_set. apply str_eqb_neq in Hproto. rewrite Hproto.
    rewrite map_app in Hord, Hnd. cbn [List.map fst] in Hord, Hnd.
    apply prop_set_last.
    - change (k :: List.map fst sg) with ([k] ++ List.map fst sg) in Hord.
      rewrite app_assoc in Hord. now apply ordered_app_l in Hord.
    - apply NoDup_remove_2 in Hnd. intros Hin. apply Hnd.
      apply in_or_app. now left. }
  rewrite Hfresh.
  destruct sg as [|kv' sg].
  - cbn [List.map fold_left]. reflexivity.
  - match goal with
    | |- fold_left ?f ?l ?q0 = _ => change (fold_left f l q0) with (absorb use q0 l)
    end.
    rewrite (IH _ (match p_segment q with Some s => s | None => [] end ++ [(k, v)]));
      [| reflexivity | discriminate | | | assumption].
    + cbn [p_system p_user p_options p_grammar]. now rewrite <- app_assoc.
    + now rewrite <- app_assoc.
    + now rewrite <- app_assoc.
Qed.

(** The sections of a serialized record build the record again. *)
Lemma absorb_sections use (r : TPromt) :
  parsed_record use r -> reads_back use r -> written_as_content r ->
  absorb use empty_promt (sections_of r) = partial_of r.
Proof.
  intros [Hune [Hsys [Husr [_ [Hseg Hgr]]]]] [Hopt [Hsne [Hsgne Hgfix]]] [_ Hgtext].
  destruct r as [sys usr opts seg gram].
  cbn [system user options segment grammar] in *.
  unfold sections_of, partial_of. cbn [system user options segment grammar].
  rewrite !absorb_app.
  match goal with
  | |- context [absorb use empty_promt ?X] =>
      assert (E1 : absorb use empty_promt X
                   = {| p_system := None; p_user := None; p_options := opts;
                        p_segment := None; p_grammar := None |})
  end.
  { destruct opts as [o|]; [|reflexivity].
    cbn [opt_all] in Hopt. destruct Hopt as [_ Ho].
    cbn [absorb fold_left]. now rewrite finishSection_options. }
  rewrite E1. clear E1.
  match goal with
  | |- context [absorb use (absorb use _ ?X) [(sec_user, None, _)]] =>
      assert (E2 : forall q,
                 absorb use q X
                 = {| p_system := match sys with Some _ => sys | None => p_system q end;
                  p_user := p_user q; p_options := p_options q;
                  p_segment := p_segment q; p_grammar := p_grammar q |})
  end.
  { intros q. destruct sys as [[|c s]|].
    - contradiction.
    - cbn [opt_all] in Hsys. destruct Hsys as [Ht _].
      cbn [absorb fold_left]. now rewrite finishSection_system.
    - destruct q; reflexivity. }
  rewrite E2. clear E2. cbn [p_system p_user p_options p_segment p_grammar].
  cbn [absorb fold_left]. destruct Husr as [Hut _].
  rewrite finishSection_user_text by assumption.
  cbn [p_system p_user p_options p_segment p_grammar].
  match goal with
  | |- absorb use (absorb use _ ?l') _ = _ =>
      assert (E3 : forall q,
                 absorb use q l'
                 = {| p_system := p_system q; p_user := p_user q;
                      p_options := p_options q; p_segment := p_segment q;
                      p_grammar := match gram with
                                   | Some _ => gram
                                   | None => p_grammar q
                                   end |})
  end.
  { intros q. destruct gram as [[|c g]|].
    - cbn [opt_all] in Hgr. destruct Hgr as [Hne _]. contradiction.
    - cbn [opt_all] in Hgr, Hgfix, Hgtext. destruct Hgtext as [Ht _].
      cbn [absorb fold_left].
      rewrite finishSection_grammar; [reflexivity|discriminate|assumption|assumption].
    - destruct q; reflexivity. }
  rewrite E3. clear E3. cbn [p_system p_user p_options p_segment p_grammar].
  destruct seg as [sg|].
  - cbn [opt_all] in Hseg. destruct Hseg as [Hord [Hnd Hall]].
    rewrite (absorb_segments use sg _ []);
      [| reflexivity | intros ->; now apply Hsgne | assumption | assumption
       | assumption].
    cbn [p_system p_user p_options p_segment p_grammar app].
    destruct sys, gram; reflexivity.
  - cbn [absorb fold_left]. destruct sys, gram; reflexivity.
Qed.

Lemma sections_of_ok use (r : TPromt) :
  parsed_record use r -> reads_back use r -> written_as_content r ->
  Forall section_ok (sections_of r).
Proof.
  intros [Hune [Hsys [Husr [_ [Hseg Hgr]]]]] [Hopt [Hsne _]] [Holines Hgtext].
  destruct r as [sys usr opts seg gram].
  cbn [system user options segment grammar] in *.
  unfold sections_of. cbn [system user options segment grammar].
  apply Forall_app; split; [|apply Forall_app; split;
    [|apply Forall_app; split; [|apply Forall_app; split]]].
  - destruct opts as [o|]; [|constructor].
    cbn [opt_all] in Hopt, Holines. destruct Hopt as [Hone _].
    constructor; [|constructor].
    unfold section_ok. split; [reflexivity|]. split.
    + destruct o as [|kv o]; [contradiction|]. cbn [List.map flat_map].
      assert (Hn := split_nonempty newline (option_line kv)).
      destruct (split newline (option_line kv)); [contradiction|discriminate].
    + clear Hone. induction Holines as [|kv o [H1 H2] Ho IH]; [constructor|].
      cbn [List.map flat_map]. rewrite (split_one _ H1).
      constructor; assumption.
  - destruct sys as [[|c s]|]; try constructor; [|constructor].
    cbn [opt_all] in Hsys. destruct Hsys as [_ Hl].
    unfold section_ok. split; [reflexivity|].
    split; [apply split_nonempty|assumption].
  - constructor; [|constructor]. destruct Husr as [_ Hl].
    unfold section_ok. split; [reflexivity|].
    split; [apply split_nonempty|assumption].
  - destruct gram as [[|c g]|]; try constructor; [|constructor].
    cbn [opt_all] in Hgtext. destruct Hgtext as [_ Hl].
    unfold section_ok. split; [reflexivity|].
    split; [apply split_nonempty|assumption].
  - destruct seg as [sg|]; [|constructor].
    cbn [opt_all] in Hseg. destruct Hseg as [_ [_ Hall]].
    apply Forall_map. eapply Forall_impl; [|exact Hall].
    intros [k v] [_ [Hk [_ Hl]]]. cbn [fst snd] in *.
    unfold section_ok. split; [exists k; split; [reflexivity|assumption]|].
    split; [apply split_nonempty|assumption].
Qed.

(** The lines of a serialized record: [$$begin], the sections, [$$end]. *)
Lemma layout_sections use (r : TPromt) :
  parsed_record use r ->
  flat_map (split newline) (layout r)
  = lit "$$begin" :: flat_map lines_of_section (sections_of r) ++ [lit "$$end"].
Proof.
  intros [_ [_ [_ [_ [Hseg _]]]]].
  destruct r as [sys usr opts seg gram].
  cbn [system user options segment grammar] in *.
  unfold layout, sections_of. cbn [system user options segment grammar].
  rewrite !flat_map_app.
  change (flat_map (split newline) [lit "$$begin"]) with [lit "$$begin"].
  change (flat_map (split newline) [lit "$$end"]) with [lit "$$end"].
  cbn [app]. f_equal. rewrite <- !app_assoc.
  apply (f_equal2 (@app str));
    [|apply (f_equal2 (@app str));
      [|apply (f_equal2 (@app str));
        [|apply (f_equal2 (@app str));
          [|apply (f_equal2 (@app str)); [|reflexivity]]]]].
  - destruct opts as [o|]; [|reflexivity].
    cbn [options_lines flat_map lines_of_section marker_line app].
    now rewrite app_nil_r.
  - destruct sys as [[|c s]|]; reflexivity.
  - cbn [flat_map lines_of_section marker_line app].
    change (split newline (lit "$$user")) with [lit "$$user"].
    now rewrite !app_nil_r.
  - destruct gram as [[|c g]|]; reflexivity.
  - destruct seg as [sg|]; [|reflexivity].
    cbn [opt_all] in Hseg. destruct Hseg as [_ [_ Hall]].
    unfold segment_lines.
    induction Hall as [|[k v] sg [_ [[_ [_ Hk]] _]] Hsg IH]; [reflexivity|].
    cbn [flat_map List.map lines_of_section marker_line fst snd app].
    rewrite split_one by (rewrite one_line_app; cbn [fst] in Hk; now rewrite Hk).
    cbn [app]. now rewrite IH.
Qed.

Lemma as_TPromt_partial_of (r : TPromt) : as_TPromt (partial_of r) (user r) = r.
Proof. destruct r; reflexivity. Qed.

(** A serialized record, read from outside a block, gives the record. *)
Lemma reparse_record use (r : TPromt) (out : list TPromt) :
  parsed_record use r -> reads_back use r -> written_as_content r ->
  run use (outside out) (flat_map (split newline) (layout r))
  = outside (out ++ [r]).
Proof.
  intros Hp Hr Hw.
  rewrite (layout_sections use r Hp).
  change (lit "$$begin" :: flat_map lines_of_section (sections_of r) ++ [lit "$$end"])
    with ([lit "$$begin"] ++ flat_map lines_of_section (sections_of r)
          ++ [lit "$$end"]).
  rewrite !run_app.
  change (run use (outside out) [lit "$$begin"])
    with (in_block out empty_promt None None []).
  destruct (run_sections use out (sections_of r) (sections_of_ok use r Hp Hr Hw)
              empty_promt None None [])
    as [p' [s' [n' [c' [Hrun Hfl]]]]].
  rewrite Hrun.
  change (finish_pending use (in_block out empty_promt None None []) empty_promt)
    with empty_promt in Hfl.
  rewrite (absorb_sections use r Hp Hr Hw) in Hfl.
  unfold flushed in Hfl. cbn [currentPromt in_block] in Hfl.
  injection Hfl as Hfl.
  change (run use (in_block out p' s' n' c') [lit "$$end"])
    with (parse_line use (in_block out p' s' n' c') (lit "$$end")).
  rewrite parse_line_end. unfold outside. f_equal.
  unfold close_block. cbn [inBlock currentPromt promts in_block].
  rewrite Hfl. unfold push_if_user. cbn [p_user partial_of].
  destruct Hp as [Hune _].
  destruct (user r) as [|c u] eqn:Eu; [contradiction|].
  cbn [truthy_str]. rewrite <- Eu. now rewrite as_TPromt_partial_of.
Qed.

Lemma layout_not_nil (r : TPromt) : layout r <> [].
Proof. unfold layout. discriminate. Qed.

(** Serialized records, read from outside a block, give the records. *)
Lemma reparse_records use (rs : list TPromt) :
  Forall (fun r => parsed_record use r /\ reads_back use r
                   /\ written_as_content r) rs ->
  forall out,
    run use (outside out) (flat_map (split newline) (flat_map layout rs))
    = outside (out ++ rs).
Proof.
  induction 1 as [|r rs [Hp [Hr Hw]] Hrs IH]; intros out.
  - now rewrite app_nil_r.
  - cbn [flat_map]. rewrite flat_map_app, run_app.
    rewrite reparse_record by assumption.
    rewrite IH, <- app_assoc. reflexivity.
Qed.

(** Parsing what [PromtStore] writes gives the records back. *)
Lemma PromtLoad_PromtStore use (rs : list TPromt) :
  Forall (fun r => parsed_record use r /\ reads_back use r
                   /\ written_as_content r) rs ->
  PromtLoad (PromtStore rs) use = rs.
Proof.
  intros H. destruct rs as [|r rs]; [reflexivity|].
  rewrite PromtLoad_run. unfold PromtStore. rewrite serialize_flat_layout.
  rewrite split_join_lines.
  - change parse_init with (outside []).
    rewrite (reparse_records use (r :: rs) H []). reflexivity.
  - cbn [flat_map]. assert (Hn := layout_not_nil r).
    destruct (layout r); [contradiction|discriminate].
Qed.

(** ** The texts that [serialize] writes *)

Lemma plain_app (a b : str) : plain (a ++ b) = plain a && plain b.
Proof. apply forallb_app. Qed.

Lemma plain_firstn (n : nat) (s : str) : plain s = true -> plain (firstn n s) = true.
Proof.
  intros H. rewrite <- (firstn_skipn n s), plain_app in H.
  now apply andb_true_iff in H as [H _].
Qed.

Lemma plain_skipn (n : nat) (s : str) : plain s = true -> plain (skipn n s) = true.
Proof.
  intros H. rewrite <- (firstn_skipn n s), plain_app in H.
  now apply andb_true_iff in H as [_ H].
Qed.

Lemma plain_zeros (n : Z) : plain (zeros n) = true.
Proof.
  unfold zeros. induction (Z.to_nat n) as [|k IH]; [reflexivity|].
  cbn [repeat]. unfold plain in *. cbn [forallb]. now rewrite IH.
Qed.

Lemma plain_digit (m : Z) : 0 <= m < 10 -> plain_char (Z.to_N (48 + m)) = true.
Proof.
  intros H.
  assert (E : m = 0 \/ m = 1 \/ m = 2 \/ m = 3 \/ m = 4 \/ m = 5 \/ m = 6
              \/ m = 7 \/ m = 8 \/ m = 9) by lia.
  repeat (destruct E as [->|E]; [reflexivity|]). now subst.
Qed.

Lemma plain_dec_digits (fuel : nat) :
  forall n acc, plain acc = true -> plain (dec_digits fuel n acc) = true.
Proof.
  induction fuel as [|fuel IH]; intros n acc Hacc; [assumption|].
  cbn [dec_digits].
  assert (Hd : plain (Z.to_N (48 + n mod 10) :: acc) = true).
  { unfold plain in *. cbn [forallb]. rewrite Hacc, andb_true_r.
    apply plain_digit. apply Z.mod_pos_bound. lia. }
  destruct (n <? 10); [assumption|]. now apply IH.
Qed.

Lemma plain_Z_to_string (n : Z) : plain (Z_to_string n) = true.
Proof. unfold Z_to_string. now apply plain_dec_digits. Qed.

Lemma plain_positive_to_string (m : positive) (e : Z) :
  plain (positive_to_string m e) = true.
Proof.
  unfold positive_to_string.
  cbv zeta. destruct (shortest_digits _ m e _ _ _ 1) as [s n].
  assert (Hs := plain_Z_to_string s).
  set (ds := Z_to_string s) in *.
  destruct ((Z.of_nat (Datatypes.length ds) <=? n) && (n <=? 21)).
  { now rewrite plain_app, Hs, plain_zeros. }
  destruct ((0 <? n) && (n <=? 21)).
  { rewrite !plain_app, plain_firstn, plain_skipn by assumption. reflexivity. }
  destruct ((-6 <? n) && (n <=? 0)).
  { now rewrite !plain_app, plain_zeros, Hs. }
  destruct ds as [|d [|d' r]]; [reflexivity| |].
  - rewrite !plain_app, plain_Z_to_string.
    unfold plain in Hs |- *. cbn [forallb] in Hs |- *.
    apply andb_true_iff in Hs as [Hd _]. rewrite Hd.
    destruct (n - 1 <? 0); reflexivity.
  - rewrite !plain_app, plain_Z_to_string.
    unfold plain in Hs |- *. cbn [forallb] in Hs |- *.
    apply andb_true_iff in Hs as [Hd Hr]. rewrite Hd, Hr.
    destruct (n - 1 <? 0); reflexivity.
Qed.

Lemma plain_number_to_string (x : number) : plain (number_to_string x) = true.
Proof.
  destruct x as [s|s| |s m e]; cbn [number_to_string]; try reflexivity.
  - destruct s; reflexivity.
  - destruct s; [|apply plain_positive_to_string].
    now rewrite plain_app, plain_positive_to_string.
Qed.

Lemma plain_char_ws (c : char) : plain_char c = true -> is_ws c = false.
Proof.
  unfold plain_char. intros H. apply andb_true_iff in H as [H _].
  now apply negb_true_iff in H.
Qed.

Lemma plain_one_line (s : str) : plain s = true -> one_line s = true.
Proof.
  unfold plain, one_line. induction s as [|c s IH]; [reflexivity|].
  cbn [forallb]. intros H. apply andb_true_iff in H as [Hc Hs].
  rewrite (IH Hs), andb_true_r.
  apply plain_char_ws in Hc. apply negb_true_iff.
  destruct (N.eqb c newline) eqn:E; [|reflexivity].
  apply N.eqb_eq in E. subst c. discriminate.
Qed.

Lemma trim_plain (s : str) : plain s = true -> trim s = s.
Proof.
  intros H.
  assert (G : forall t, plain t = true -> trimStart t = t).
  { intros [|c t] Ht; [reflexivity|]. cbn [trimStart].
    unfold plain in Ht. cbn [forallb] in Ht.
    apply andb_true_iff in Ht as [Hc _]. now rewrite (plain_char_ws c Hc). }
  unfold trim, trimEnd. rewrite (G s H), G, rev_involutive; [reflexivity|].
  unfold plain. now rewrite forallb_rev.
Qed.

(** *** Quoted strings *)

Lemma one_line_hex_digit (n : N) : N.eqb (hex_digit n) newline = false.
Proof.
  unfold hex_digit, newline. apply N.eqb_neq.
  destruct (n <? 10)%N; lia.
Qed.

Lemma one_line_unicode_escape (c : char) : one_line (unicode_escape c) = true.
Proof.
  unfold unicode_escape. rewrite one_line_app.
  apply andb_true_iff. split; [reflexivity|].
  unfold one_line. cbn [forallb].
  now rewrite !one_line_hex_digit.
Qed.

Lemma one_line_json_quote_body (s : str) : one_line (json_quote_body s) = true.
Proof.
  assert (G : forall n s, (List.length s <= n)%nat ->
                one_line (json_quote_body s) = true).
  { clear s. induction n as [|n IH]; intros s Hn.
    - destruct s; [reflexivity|cbn [List.length] in Hn; lia].
    - destruct s as [|c r]; [reflexivity|].
      cbn [List.length] in Hn.
      assert (Hr : one_line (json_quote_body r) = true) by (apply IH; lia).
      cbn [json_quote_body].
      repeat match goal with
             | |- one_line (if N.eqb c ?k then _ else _) = true =>
                 destruct (N.eqb c k) eqn:?;
                 [rewrite one_line_app, Hr; reflexivity|]
             end.
      destruct (c <? 32)%N;
        [now rewrite one_line_app, one_line_unicode_escape, Hr|].
      destruct (is_high_surrogate c).
      + destruct r as [|d r'].
        * apply one_line_unicode_escape.
        * destruct (is_low_surrogate d) eqn:Ed.
          -- assert (Hr' : one_line (json_quote_body r') = true)
               by (apply IH; cbn [List.length] in Hn; lia).
             unfold one_line in *. cbn [forallb]. rewrite Hr', andb_true_r.
             apply andb_true_iff. split; apply negb_true_iff.
             ++ assumption.
             ++ unfold is_low_surrogate in Ed.
                apply andb_true_iff in Ed as [Ed _]. apply N.leb_le in Ed.
                apply N.eqb_neq. unfold newline. lia.
          -- now rewrite one_line_app, one_line_unicode_escape, Hr.
      + destruct (is_low_surrogate c);
          [now rewrite one_line_app, one_line_unicode_escape, Hr|].
        unfold one_line in *. cbn [forallb]. rewrite Hr, andb_true_r.
        apply negb_true_iff. assumption. }
  apply (G (List.length s)). lia.
Qed.

Lemma one_line_json_quote (s : str) : one_line (json_quote s) = true.
Proof.
  unfold json_quote. now rewrite !one_line_app, one_line_json_quote_body.
Qed.

(** A text between two code units that are no white space is trimmed. *)
Lemma trim_bracket (c1 c2 : char) (x : str) :
  is_ws c1 = false -> is_ws c2 = false ->
  trim (c1 :: x ++ [c2]) = c1 :: x ++ [c2].
Proof.
  intros H1 H2. unfold trim. cbn [trimStart]. rewrite H1.
  change (c1 :: x ++ [c2]) with ((c1 :: x) ++ [c2]).
  rewrite trimEnd_app_not_blank.
  - unfold trimEnd. cbn [rev app trimStart]. now rewrite H2.
  - unfold blank. cbn [forallb]. now rewrite H2.
Qed.

(** *** Safe texts *)

Lemma safe_at_app (a b : str) :
  safe_at a = true -> safe_at b = true -> safe_at (a ++ b) = true.
Proof.
  unfold safe_at. intros Ha Hb. destruct (blank a) eqn:E.
  - now rewrite trimStart_blank_app.
  - rewrite trimStart_app_not_blank by assumption.
    destruct (trimStart_not_blank a E) as [c [r [Hc _]]].
    rewrite Hc in Ha |- *. exact Ha.
Qed.

Lemma safe_lines_app (a b : str) :
  safe_lines a = true -> safe_text b = true -> safe_lines (a ++ b) = true.
Proof.
  unfold safe_text. intros Ha Hb. apply andb_true_iff in Hb as [Hb1 Hb2].
  induction a as [|c a IH]; [assumption|].
  cbn [app safe_lines] in Ha |- *.
  apply andb_true_iff in Ha as [Hc Ha]. rewrite (IH Ha), andb_true_r.
  destruct (N.eqb c newline); [|reflexivity].
  now apply safe_at_app.
Qed.

Lemma safe_text_app (a b : str) :
  safe_text a = true -> safe_text b = true -> safe_text (a ++ b) = true.
Proof.
  intros Ha Hb. unfold safe_text.
  assert (Ha' := Ha). assert (Hb' := Hb). unfold safe_text in Ha', Hb'.
  apply andb_true_iff in Ha' as [Ha1 Ha2].
  apply andb_true_iff in Hb' as [Hb1 Hb2].
  now rewrite safe_at_app, safe_lines_app.
Qed.

Lemma safe_lines_one_line (s : str) : one_line s = true -> safe_lines s = true.
Proof.
  unfold one_line. induction s as [|c s IH]; [reflexivity|].
  cbn [forallb safe_lines]. intros H. apply andb_true_iff in H as [Hc Hs].
  apply negb_true_iff in Hc. now rewrite Hc, IH.
Qed.

Lemma safe_text_plain (s : str) : plain s = true -> safe_text s = true.
Proof.
  intros H. unfold safe_text.
  rewrite safe_lines_one_line by now apply plain_one_line.
  rewrite andb_true_r. unfold safe_at.
  destruct s as [|c s]; [reflexivity|]. cbn [trimStart].
  unfold plain in H. cbn [forallb] in H. apply andb_true_iff in H as [Hc _].
  rewrite (plain_char_ws c Hc).
  unfold plain_char in Hc. now apply andb_true_iff in Hc as [_ Hc].
Qed.

Lemma safe_text_blank (s : str) : blank s = true -> safe_text s = true.
Proof.
  intros H. unfold safe_text, safe_at.
  assert (E := H). apply trimStart_blank in E. rewrite E. cbn [andb].
  unfold blank in H. induction s as [|c s IH]; [reflexivity|].
  cbn [forallb safe_lines] in H |- *. apply andb_true_iff in H as [Hc Hs].
  rewrite IH; [|assumption|now apply trimStart_blank].
  rewrite andb_true_r. destruct (N.eqb c newline); [|reflexivity].
  unfold safe_at. assert (E' : trimStart s = []) by now apply trimStart_blank.
  now rewrite E'.
Qed.

Lemma safe_text_json_quote (s : str) : safe_text (json_quote s) = true.
Proof.
  unfold safe_text.
  rewrite safe_lines_one_line by apply one_line_json_quote.
  reflexivity.
Qed.

Lemma safe_text_join (sep : str) (items : list str) :
  safe_text sep = true ->
  Forall (fun t => safe_text t = true) items ->
  safe_text (join sep items) = true.
Proof.
  intros Hsep H. induction H as [|x items Hx Hitems IH]; [reflexivity|].
  destruct items as [|y items]; [exact Hx|].
  rewrite join_cons.
  apply safe_text_app; [exact Hx|]. apply safe_text_app; [exact Hsep|exact IH].
Qed.

(** *** JSON texts *)

(** Induction on values, with the hypothesis for the elements of arrays
    and the values of objects. *)
Lemma jsval_induction (P : jsval -> Prop) :
  P JUndef -> P JNull -> (forall b, P (JBool b)) -> (forall n, P (JNum n)) ->
  (forall s, P (JStr s)) ->
  (forall l, Forall P l -> P (JArr l)) ->
  (forall o, Forall (fun kv => P (snd kv)) o -> P (JObj o)) ->
  forall v, P v.
Proof.
  intros Hu Hn Hb Hnum Hs Ha Ho.
  fix IH 1. intros [| |b|n|s|l|o].
  - exact Hu.
  - exact Hn.
  - apply Hb.
  - apply Hnum.
  - apply Hs.
  - apply Ha. induction l as [|x l IHl]; constructor; [apply IH|exact IHl].
  - apply Ho. induction o as [|[k x] o IHo]; constructor; [apply IH|exact IHo].
Qed.

Lemma json_stringify_array (gap indent : str) (l : list jsval) :
  json_stringify gap indent (JArr l) =
  Some (json_wrap gap indent (lit "[") (lit "]")
          (List.map (array_item gap (indent ++ gap)) l)).
Proof.
  cbn [json_stringify]. do 2 f_equal.
  induction l as [|x l IH]; [reflexivity|].
  cbn [List.map]. unfold array_item at 1.
  destruct (json_stringify gap (indent ++ gap) x); now rewrite IH.
Qed.

Lemma json_stringify_object (gap indent : str) (o : list (str * jsval)) :
  json_stringify gap indent (JObj o) =
  Some (json_wrap gap indent (lit "{") (lit "}")
          (object_items gap (indent ++ gap) o)).
Proof.
  cbn [json_stringify]. do 2 f_equal.
  induction o as [|[k x] o IH]; [reflexivity|].
  unfold object_items. cbn [flat_map fst snd].
  fold (object_items gap (indent ++ gap) o).
  destruct (json_stringify gap (indent ++ gap) x); now rewrite IH.
Qed.

Lemma safe_text_json_wrap (gap indent o c : str) (partial : list str) :
  blank gap = true -> blank indent = true ->
  safe_text o = true -> safe_text c = true ->
  Forall (fun t => safe_text t = true) partial ->
  safe_text (json_wrap gap indent o c partial) = true.
Proof.
  intros Hg Hi Ho Hc Hp. unfold json_wrap.
  assert (Hi' : safe_text (indent ++ gap) = true)
    by (apply safe_text_blank; now rewrite blank_app, Hi, Hg).
  destruct partial as [|x partial]; [now apply safe_text_app|].
  destruct gap as [|g gap].
  - apply safe_text_app; [assumption|].
    apply safe_text_app; [|assumption].
    now apply safe_text_join.
  - apply safe_text_app; [assumption|].
    apply safe_text_app; [reflexivity|].
    apply safe_text_app; [assumption|].
    apply safe_text_app.
    + apply safe_text_join; [|assumption].
      apply safe_text_app; [reflexivity|].
      apply safe_text_app; [reflexivity|assumption].
    + apply safe_text_app; [reflexivity|].
      apply safe_text_app; [now apply safe_text_blank|assumption].
Qed.

(** No line of a JSON text is a marker. *)
Lemma safe_text_json_stringify (v : jsval) :
  forall gap indent t,
    blank gap = true -> blank indent = true ->
    json_stringify gap indent v = Some t -> safe_text t = true.
Proof.
  induction v as [| |b|n|s|l IH|o IH] using jsval_induction;
    intros gap indent t Hg Hi E.
  - discriminate.
  - injection E as <-. reflexivity.
  - injection E as <-. destruct b; reflexivity.
  - cbn [json_stringify] in E. injection E as <-.
    destruct (isFinite n); [|reflexivity].
    apply safe_text_plain, plain_number_to_string.
  - injection E as <-. apply safe_text_json_quote.
  - rewrite json_stringify_array in E. injection E as <-.
    apply safe_text_json_wrap; try assumption; try reflexivity.
    apply Forall_map. eapply Forall_impl; [|exact IH].
    intros x Hx. unfold array_item.
    destruct (json_stringify gap (indent ++ gap) x) as [t|] eqn:Ex; [|reflexivity].
    apply (Hx gap (indent ++ gap) t); [assumption| |assumption].
    now rewrite blank_app, Hi, Hg.
  - rewrite json_stringify_object in E. injection E as <-.
    apply safe_text_json_wrap; try assumption; try reflexivity.
    unfold object_items. apply Forall_flat_map.
    eapply Forall_impl; [|exact IH].
    intros [k x] Hx. cbn [fst snd] in *.
    destruct (json_stringify gap (indent ++ gap) x) as [t|] eqn:Ex;
      [|constructor].
    constructor; [|constructor].
    apply safe_text_app; [apply safe_text_json_quote|].
    apply safe_text_app; [destruct gap; reflexivity|].
    apply (Hx gap (indent ++ gap) t); [assumption| |assumption].
    now rewrite blank_app, Hi, Hg.
Qed.

Lemma json_wrap_bracket (gap indent o c : str) (partial : list str) :
  exists x, json_wrap gap indent o c partial = o ++ x ++ c.
Proof.
  unfold json_wrap. destruct partial as [|p partial].
  - exists []. reflexivity.
  - destruct gap as [|g gap].
    + exists (join (lit ",") (p :: partial)). reflexivity.
    + exists ([newline] ++ (indent ++ g :: gap)
              ++ join (lit "," ++ [newline] ++ indent ++ g :: gap) (p :: partial)
              ++ [newline] ++ indent).
      now rewrite <- !app_assoc.
Qed.

(** A JSON text is trimmed. *)
Lemma trim_JSON_stringify_2 (v : jsval) :
  trim (JSON_stringify_2 v) = JSON_stringify_2 v.
Proof.
  unfold JSON_stringify_2. destruct v as [| |b|n|s|l|o].
  - reflexivity.
  - reflexivity.
  - destruct b; reflexivity.
  - cbn [json_stringify]. destruct (isFinite n); [|reflexivity].
    apply trim_plain, plain_number_to_string.
  - cbn [json_stringify]. unfold json_quote. cbn [app].
    now apply trim_bracket.
  - rewrite json_stringify_array.
    destruct (json_wrap_bracket (lit "  ") [] (lit "[") (lit "]")
                (List.map (array_item (lit "  ") ([] ++ lit "  ")) l)) as [x Hx].
    rewrite Hx.
    change (lit "[" ++ x ++ lit "]") with (91%N :: x ++ [93%N]).
    now apply trim_bracket.
  - rewrite json_stringify_object.
    destruct (json_wrap_bracket (lit "  ") [] (lit "{") (lit "}")
                (object_items (lit "  ") ([] ++ lit "  ") o)) as [x Hx].
    rewrite Hx.
    change (lit "{" ++ x ++ lit "}") with (123%N :: x ++ [125%N]).
    now apply trim_bracket.
Qed.

Lemma safe_text_JSON_stringify_2 (v : jsval) :
  safe_text (JSON_stringify_2 v) = true.
Proof.
  unfold JSON_stringify_2.
  destruct (json_stringify (lit "  ") [] v) as [t|] eqn:E; [|reflexivity].
  now apply (safe_text_json_stringify v (lit "  ") [] t).
Qed.

(** *** Lines that are no markers *)

Lemma is_marker_head (c : char) (r : str) :
  is_marker (c :: r) = true -> c = 36%N.
Proof.
  intros H. destruct (N.eqb c 36) eqn:E; [now apply N.eqb_eq|].
  assert (E' : N.eqb 36 c = false) by now rewrite N.eqb_sym.
  unfold is_marker in H.
  cbn [lit List.map list_ascii_of_string str_eqb startsWith] in H.
  change (N_of_ascii "$") with 36%N in H.
  rewrite E, E' in H. discriminate.
Qed.

Lemma trim_head (c : char) (r : str) :
  is_ws c = false -> exists r', trim (c :: r) = c :: r'.
Proof.
  intros H. unfold trim. cbn [trimStart]. rewrite H.
  destruct (trimEnd_split (c :: r)) as [b [Hb Hs]].
  destruct (trimEnd (c :: r)) as [|c' r'] eqn:E.
  - cbn [app] in Hs. subst b. unfold blank in Hb. cbn [forallb] in Hb.
    rewrite H in Hb. discriminate.
  - cbn [app] in Hs. injection Hs as <- _. eauto.
Qed.

Lemma content_line_head (c : char) (l : str) :
  is_ws c = false -> N.eqb c 36 = false -> content_line (c :: l) = true.
Proof.
  intros Hw Hd. unfold content_line.
  destruct (trim_head c l Hw) as [r' ->].
  destruct (is_marker (c :: r')) eqn:E; [|reflexivity].
  apply is_marker_head in E. subst c. discriminate.
Qed.

Lemma content_line_ws_cons (c : char) (l : str) :
  is_ws c = true -> content_line (c :: l) = content_line l.
Proof.
  intros Ew. unfold content_line.
  change (c :: l) with ([c] ++ l). rewrite trim_blank_prefix; [reflexivity|].
  unfold blank. cbn [forallb]. now rewrite Ew.
Qed.

(** The lines of a text whose lines start safely are content lines. *)
Lemma safe_lines_content (s : str) :
  safe_lines s = true ->
  Forall (fun l => content_line l = true) (tl (split newline s))
  /\ (safe_at s = true -> content_line (hd [] (split newline s)) = true).
Proof.
  induction s as [|c s IH]; intros H.
  - split; [constructor|reflexivity].
  - cbn [safe_lines] in H. apply andb_true_iff in H as [Hc Hs].
    destruct (IH Hs) as [Htl Hhd]. cbn [split].
    assert (Hn := split_nonempty newline s).
    destruct (split newline s) as [|l ls] eqn:El; [contradiction|].
    cbn [hd tl] in Htl, Hhd.
    destruct (N.eqb c newline) eqn:E.
    + cbn [hd tl]. split; [|reflexivity].
      constructor; [now apply Hhd|assumption].
    + cbn [hd tl]. split; [assumption|].
      unfold safe_at. cbn [trimStart].
      destruct (is_ws c) eqn:Ew.
      * intros Hat. rewrite content_line_ws_cons by assumption.
        apply Hhd. exact Hat.
      * intros Hat. apply content_line_head; [assumption|].
        now apply negb_true_iff in Hat.
Qed.

Lemma safe_text_content_lines (s : str) :
  safe_text s = true ->
  Forall (fun l => content_line l = true) (split newline s).
Proof.
  unfold safe_text. intros H. apply andb_true_iff in H as [Hat Hl].
  destruct (safe_lines_content s Hl) as [Htl Hhd].
  assert (Hn := split_nonempty newline s).
  destruct (split newline s) as [|l ls]; [contradiction|].
  constructor; [now apply Hhd|assumption].
Qed.

(** The grammar that [finishSection] stores is a section text. *)
Lemma parsed_grammar_text (g : str) : parsed_grammar g -> section_text g.
Proof.
  intros [Hne [content Hg]]. unfold GrammarCheck in Hg.
  destruct (negb (truthy_str content) || str_eqb (trim content) []);
    [contradiction|].
  destruct (JSON_parse content) as [parsed|]; [|contradiction].
  subst g. split.
  - apply trim_JSON_stringify_2.
  - apply safe_text_content_lines, safe_text_JSON_stringify_2.
Qed.

(** *** The lines of parsed options *)

Lemma field_names_ok (use : Use) : forallb name_ok (field_names use) = true.
Proof. destruct use; vm_compute; reflexivity. Qed.

Lemma field_schemas (use : Use) :
  forallb (fun ks => field_schema (snd ks)) (schema_of use) = true.
Proof. destruct use; vm_compute; reflexivity. Qed.

Lemma field_check_value (use : Use) (k : str) (v : jsval) :
  field_check use k v = true -> field_value v.
Proof.
  unfold field_check.
  destruct (prop_lookup (schema_of use) k) as [s|] eqn:Es; [|discriminate].
  apply prop_lookup_In in Es.
  assert (Hs := field_schemas use). rewrite forallb_forall in Hs.
  specialize (Hs _ Es). cbn [snd] in Hs.
  destruct s as [o|o|o| |items o]; try discriminate;
    destruct v as [| |b|n|t|l|ob]; try discriminate; intros H; try exact I.
  destruct items; try discriminate.
  cbn [Value_Check] in H. cbn [field_value].
  rewrite forallb_forall in H. apply Forall_forall. intros x Hx.
  specialize (H x Hx). destruct x; try discriminate. eauto.
Qed.

Lemma one_line_join (sep : str) (items : list str) :
  one_line sep = true -> Forall (fun t => one_line t = true) items ->
  one_line (join sep items) = true.
Proof.
  intros Hsep H. induction H as [|x items Hx Hitems IH]; [reflexivity|].
  destruct items as [|y items]; [exact Hx|].
  rewrite join_cons, !one_line_app, Hx, Hsep. exact IH.
Qed.

Lemma one_line_JSON_stringify_strings (l : list jsval) :
  Forall (fun x => exists s, x = JStr s) l ->
  one_line (JSON_stringify (JArr l)) = true.
Proof.
  intros H. unfold JSON_stringify. rewrite json_stringify_array.
  unfold json_wrap.
  assert (Hitems : Forall (fun t => one_line t = true)
                     (List.map (array_item [] ([] ++ [])) l)).
  { apply Forall_map. eapply Forall_impl; [|exact H].
    intros x [s ->]. apply one_line_json_quote. }
  destruct (List.map (array_item [] ([] ++ [])) l) as [|t ts] eqn:E;
    [reflexivity|].
  rewrite !one_line_app. rewrite one_line_join; [reflexivity|reflexivity|].
  exact Hitems.
Qed.

Lemma option_line_ok (use : Use) (kv : str * jsval) :
  In (fst kv) (field_names use) -> field_check use (fst kv) (snd kv) = true ->
  one_line (option_line kv) = true /\ content_line (option_line kv) = true.
Proof.
  destruct kv as [k v]. cbn [fst snd]. intros Hin Hc.
  assert (Hk := field_names_ok use). rewrite forallb_forall in Hk.
  specialize (Hk k Hin). unfold name_ok in Hk.
  apply andb_true_iff in Hk as [Hk1 Hk2].
  destruct k as [|c k]; [discriminate|].
  apply andb_true_iff in Hk2 as [Hw Hd].
  apply negb_true_iff in Hw, Hd.
  apply field_check_value in Hc.
  unfold option_line. cbn [fst snd].
  destruct v as [| |b|n|t|l|ob]; cbn [field_value] in Hc; try contradiction.
  - split; [|now apply content_line_head].
    rewrite !one_line_app, Hk1. cbn [ToString]. destruct b; reflexivity.
  - split; [|now apply content_line_head].
    rewrite !one_line_app, Hk1. cbn [ToString].
    now rewrite (plain_one_line _ (plain_number_to_string n)).
  - split; [|now apply content_line_head].
    rewrite !one_line_app, Hk1.
    now rewrite one_line_JSON_stringify_strings.
Qed.

(** What [parse] returns is written as content by [serialize]. *)
Lemma parsed_written_as_content (use : Use) (r : TPromt) :
  parsed_record use r -> written_as_content r.
Proof.
  intros [_ [_ [_ [Hopt [_ Hgr]]]]]. split.
  - destruct (options r) as [o|]; [|exact I].
    cbn [opt_all] in *. destruct Hopt as [content ->].
    eapply Forall_impl; [|apply PromtOptionsParse_entries].
    intros kv [Hin Hc]. now apply (option_line_ok use).
  - destruct (grammar r) as [g|]; [|exact I].
    cbn [opt_all] in *. now apply parsed_grammar_text.
Qed.

(** ** Numbers that are written and read back *)

(** *** Binary digits *)

Lemma digits2_pos_spec (p : positive) :
  2 ^ (Z.pos (digits2_pos p) - 1) <= Z.pos p < 2 ^ Z.pos (digits2_pos p).
Proof.
  induction p as [p IH|p IH|]; cbn [digits2_pos].
  - rewrite Pos2Z.inj_succ.
    replace (Z.succ (Z.pos (digits2_pos p)) - 1) with (Z.pos (digits2_pos p) - 1 + 1)
      by lia.
    rewrite Z.pow_succ_r by lia.
    rewrite Z.pow_add_r by lia. change (2 ^ 1) with 2. lia.
  - rewrite Pos2Z.inj_succ.
    replace (Z.succ (Z.pos (digits2_pos p)) - 1) with (Z.pos (digits2_pos p) - 1 + 1)
      by lia.
    rewrite Z.pow_succ_r by lia.
    rewrite Z.pow_add_r by lia. change (2 ^ 1) with 2. lia.
  - cbn. lia.
Qed.

Lemma pow2_lt_inv (a b : Z) : 0 <= b -> 2 ^ a < 2 ^ b -> a < b.
Proof.
  intros Hb H. destruct (Z_lt_le_dec a b) as [L|L]; [exact L|].
  exfalso. assert (2 ^ b <= 2 ^ a) by (apply Z.pow_le_mono_r; lia). lia.
Qed.

Lemma Zdigits2_unique (x d : Z) :
  0 < x -> 2 ^ (d - 1) <= x < 2 ^ d -> Zdigits2 x = d.
Proof.
  intros Hx [H1 H2]. destruct x as [|p|p]; try lia. cbn [Zdigits2].
  assert (Hd : 0 < d).
  { destruct (Z_lt_le_dec 0 d) as [L|L]; [exact L|].
    exfalso. destruct d as [|d|d]; cbn in H2; lia. }
  destruct (digits2_pos_spec p) as [S1 S2].
  set (k := Z.pos (digits2_pos p)) in *.
  assert (k - 1 < d) by (apply pow2_lt_inv; lia).
  assert (d - 1 < k) by (apply pow2_lt_inv; lia).
  lia.
Qed.

Lemma Zdigits2_spec (x : Z) :
  0 < x -> 0 < Zdigits2 x /\ 2 ^ (Zdigits2 x - 1) <= x < 2 ^ Zdigits2 x.
Proof.
  intros Hx. destruct x as [|p|p]; try lia. cbn [Zdigits2].
  split; [lia|apply digits2_pos_spec].
Qed.

Lemma Zdigits2_mul_pow2 (x n : Z) :
  0 < x -> 0 <= n -> Zdigits2 (x * 2 ^ n) = Zdigits2 x + n.
Proof.
  intros Hx Hn. destruct (Zdigits2_spec x Hx) as [Hd [H1 H2]].
  assert (Hp : 0 < 2 ^ n) by (apply Z.pow_pos_nonneg; lia).
  apply Zdigits2_unique; [nia|].
  replace (Zdigits2 x + n - 1) with ((Zdigits2 x - 1) + n) by lia.
  rewrite !Z.pow_add_r by lia. nia.
Qed.

Lemma Zdigits2_div_pow2 (x n : Z) :
  0 < x -> 0 <= n -> n < Zdigits2 x ->
  Zdigits2 (x / 2 ^ n) = Zdigits2 x - n.
Proof.
  intros Hx Hn Hlt. destruct (Zdigits2_spec x Hx) as [Hd [H1 H2]].
  assert (Hp : 0 < 2 ^ n) by (apply Z.pow_pos_nonneg; lia).
  assert (E1 : 2 ^ (Zdigits2 x - 1) = 2 ^ (Zdigits2 x - n - 1) * 2 ^ n).
  { rewrite <- Z.pow_add_r by lia. f_equal. lia. }
  assert (E2 : 2 ^ Zdigits2 x = 2 ^ (Zdigits2 x - n) * 2 ^ n).
  { rewrite <- Z.pow_add_r by lia. f_equal. lia. }
  assert (L : 2 ^ (Zdigits2 x - n - 1) <= x / 2 ^ n).
  { apply Z.div_le_lower_bound; [lia|]. rewrite Z.mul_comm. lia. }
  assert (U : x / 2 ^ n < 2 ^ (Zdigits2 x - n)).
  { apply Z.div_lt_upper_bound; [lia|]. rewrite Z.mul_comm. lia. }
  assert (0 < 2 ^ (Zdigits2 x - n - 1)) by (apply Z.pow_pos_nonneg; lia).
  apply Zdigits2_unique; [lia|]. split; [exact L|exact U].
Qed.

Lemma div_pow2_small (x n : Z) :
  0 <= x -> 0 <= n -> Zdigits2 x <= n -> x / 2 ^ n = 0.
Proof.
  intros Hx Hn Hd. destruct (Z.eq_dec x 0) as [->|Hne]; [apply Z.div_0_l|].
  - assert (0 < 2 ^ n) by (apply Z.pow_pos_nonneg; lia). lia.
  - destruct (Zdigits2_spec x ltac:(lia)) as [_ [_ H2]].
    apply Z.div_small. split; [lia|].
    assert (2 ^ Zdigits2 x <= 2 ^ n) by (apply Z.pow_le_mono_r; lia). lia.
Qed.

(** *** Shifts *)

Lemma iter_pos_nat {A : Type} (f : A -> A) (n : positive) (x : A) :
  iter_pos f n x = Nat.iter (Pos.to_nat n) f x.
Proof.
  revert x. induction n as [n IH|n IH|]; intros x; cbn [iter_pos].
  - rewrite !IH, Pos2Nat.inj_xI.
    replace (S (2 * Pos.to_nat n))%nat with (Pos.to_nat n + (Pos.to_nat n + 1))%nat
      by lia.
    rewrite !Nat.iter_add. reflexivity.
  - rewrite !IH, Pos2Nat.inj_xO.
    replace (2 * Pos.to_nat n)%nat with (Pos.to_nat n + Pos.to_nat n)%nat by lia.
    rewrite Nat.iter_add. reflexivity.
  - reflexivity.
Qed.

Lemma shr_1_m (mrs : shr_record) :
  0 <= shr_m mrs -> shr_m (shr_1 mrs) = shr_m mrs / 2.
Proof.
  destruct mrs as [m r s]. cbn [shr_m]. intros Hm.
  destruct m as [|[p|p|]|p]; cbn [shr_1 shr_m].
  - reflexivity.
  - apply Z.div_unique with 1; lia.
  - apply Z.div_unique with 0; lia.
  - reflexivity.
  - lia.
Qed.

Lemma shr_iter_m (n : nat) (mrs : shr_record) :
  0 <= shr_m mrs ->
  shr_m (Nat.iter n shr_1 mrs) = shr_m mrs / 2 ^ Z.of_nat n
  /\ 0 <= shr_m (Nat.iter n shr_1 mrs).
Proof.
  intros Hm. induction n as [|n [IH1 IH2]].
  - change (Nat.iter 0 shr_1 mrs) with mrs. rewrite Z.div_1_r. auto.
  - change (Nat.iter (S n) shr_1 mrs) with (shr_1 (Nat.iter n shr_1 mrs)).
    rewrite shr_1_m by exact IH2. rewrite IH1.
    rewrite Nat2Z.inj_succ, Z.pow_succ_r by lia.
    rewrite Z.div_div by (try apply Z.pow_pos_nonneg; lia).
    rewrite (Z.mul_comm 2). split; [reflexivity|].
    apply Z.div_pos; [lia|].
    apply Z.mul_pos_pos; try apply Z.pow_pos_nonneg; lia.
Qed.

Lemma shr_m_div (mrs : shr_record) (e n : Z) :
  0 <= shr_m mrs -> 0 <= n ->
  shr_m (fst (shr mrs e n)) = shr_m mrs / 2 ^ n /\ snd (shr mrs e n) = e + n.
Proof.
  intros Hm Hn. destruct n as [|p|p]; try lia; cbn [shr fst snd].
  - rewrite Z.div_1_r. split; [reflexivity|lia].
  - rewrite iter_pos_nat. split; [|reflexivity].
    rewrite (proj1 (shr_iter_m _ mrs Hm)). now rewrite positive_nat_Z.
Qed.

Lemma shr_1_exact (q : Z) :
  0 <= q ->
  shr_1 {| shr_m := 2 * q; shr_r := false; shr_s := false |}
  = {| shr_m := q; shr_r := false; shr_s := false |}.
Proof. intros Hq. destruct q as [|p|p]; try lia; reflexivity. Qed.

Lemma shr_iter_exact (n : nat) (q : Z) :
  0 <= q ->
  Nat.iter n shr_1 {| shr_m := q * 2 ^ Z.of_nat n; shr_r := false; shr_s := false |}
  = {| shr_m := q; shr_r := false; shr_s := false |}.
Proof.
  intros Hq. revert q Hq. induction n as [|n IH]; intros q Hq.
  - change (2 ^ Z.of_nat 0) with 1. now rewrite Z.mul_1_r.
  - rewrite Nat.iter_succ_r.
    rewrite Nat2Z.inj_succ, Z.pow_succ_r by lia.
    replace (q * (2 * 2 ^ Z.of_nat n)) with (2 * (q * 2 ^ Z.of_nat n)) by lia.
    rewrite shr_1_exact; [apply IH; exact Hq|].
    apply Z.mul_nonneg_nonneg; [lia|]. apply Z.pow_nonneg. lia.
Qed.

Lemma shr_exact (q e n : Z) :
  0 <= q -> 0 <= n ->
  shr {| shr_m := q * 2 ^ n; shr_r := false; shr_s := false |} e n
  = ({| shr_m := q; shr_r := false; shr_s := false |}, e + n).
Proof.
  intros Hq Hn. destruct n as [|p|p]; try lia; cbn [shr].
  - rewrite Z.mul_1_r, Z.add_0_r. reflexivity.
  - rewrite iter_pos_nat. f_equal.
    rewrite <- (positive_nat_Z p). now apply shr_iter_exact.
Qed.

(** *** Rounding a value that needs none *)

Lemma bounded_canonical (m : positive) (e : Z) :
  bounded prec emax m e = true ->
  fexp prec emax (Zdigits2 (Z.pos m) + e) = e /\ e <= emax - prec.
Proof.
  unfold bounded, canonical_mantissa. intros H.
  apply andb_true_iff in H as [H1 H2].
  apply Z.eqb_eq in H1. apply Z.leb_le in H2. cbn [Zdigits2]. auto.
Qed.

Lemma binary_round_aux_exact (sx : bool) (m : positive) (e n : Z) :
  bounded prec emax m e = true -> 0 <= n ->
  binary_round_aux prec emax sx (Z.pos m * 2 ^ n) (e - n) loc_Exact
  = S754_finite sx m e.
Proof.
  intros Hb Hn. destruct (bounded_canonical m e Hb) as [Hc He].
  unfold binary_round_aux.
  assert (E1 : shr_fexp prec emax (Z.pos m * 2 ^ n) (e - n) loc_Exact
               = ({| shr_m := Z.pos m; shr_r := false; shr_s := false |}, e)).
  { unfold shr_fexp. rewrite Zdigits2_mul_pow2 by lia.
    replace (Zdigits2 (Z.pos m) + n + (e - n)) with (Zdigits2 (Z.pos m) + e) by lia.
    rewrite Hc. replace (e - (e - n)) with n by lia.
    cbn [shr_record_of_loc]. rewrite shr_exact by lia. f_equal. lia. }
  rewrite E1. cbn [shr_m loc_of_shr_record round_nearest_even].
  assert (E2 : shr_fexp prec emax (Z.pos m) e loc_Exact
               = ({| shr_m := Z.pos m; shr_r := false; shr_s := false |}, e)).
  { unfold shr_fexp. rewrite Hc, Z.sub_diag. reflexivity. }
  rewrite E2. cbn [shr_m].
  replace (e <=? emax - prec) with true by (symmetry; apply Z.leb_le; lia).
  reflexivity.
Qed.

(** The number of an integer that is a binary64 value. *)
Lemma number_of_decimal_exact_int (sx : bool) (m : positive) (e : Z) :
  bounded prec emax m e = true -> 0 <= e ->
  number_of_decimal sx (Z.pos m * 2 ^ e) 0 = S754_finite sx m e.
Proof.
  intros Hb He. destruct (bounded_canonical m e Hb) as [Hc _].
  assert (Hp : 0 < 2 ^ e) by (apply Z.pow_pos_nonneg; lia).
  unfold number_of_decimal.
  destruct (Z.pos m * 2 ^ e) as [|p|p] eqn:Ep; try lia.
  change (0 <=? 0) with true. cbv iota.
  change (10 ^ 0) with 1. rewrite Z.mul_1_r. cbn [Z.to_pos].
  unfold binary_round.
  assert (Hd : Z.pos (digits2_pos p) + 0 = Zdigits2 (Z.pos m) + e).
  { change (Z.pos (digits2_pos p)) with (Zdigits2 (Z.pos p)).
    rewrite <- Ep, Zdigits2_mul_pow2 by lia. lia. }
  rewrite Hd, Hc. unfold shl_align.
  replace (e - 0) with e by lia.
  destruct e as [|pe|pe]; try lia.
  - rewrite <- Ep. 
    apply (binary_round_aux_exact sx m 0 0 Hb). lia.
  - rewrite <- Ep.
    assert (H := binary_round_aux_exact sx m (Z.pos pe) (Z.pos pe) Hb He).
    rewrite Z.sub_diag in H. exact H.
Qed.

Lemma Zdigits2_le (x d : Z) : 0 < x -> 0 <= d -> x < 2 ^ d -> Zdigits2 x <= d.
Proof.
  intros Hx Hd H. destruct (Zdigits2_spec x Hx) as [Hp [H1 _]].
  assert (Zdigits2 x - 1 < d) by (apply pow2_lt_inv; lia). lia.
Qed.

Lemma fexp_mono (a b : Z) : a <= b -> fexp prec emax a <= fexp prec emax b.
Proof. unfold fexp, emin, prec, emax. lia. Qed.

Lemma new_location_exact (nb : Z) : new_location nb 0 = loc_Exact.
Proof. unfold new_location. now destruct (Z.even nb). Qed.

(** The number of a decimal fraction that is a binary64 value. *)
Lemma number_of_decimal_exact_frac (sx : bool) (m : positive) (k : Z) :
  bounded prec emax m (- k) = true -> 0 < k ->
  number_of_decimal sx (Z.pos m * 5 ^ k) (- k) = S754_finite sx m (- k).
Proof.
  intros Hb Hk. destruct (bounded_canonical m (- k) Hb) as [Hc _].
  assert (H5 : 0 < 5 ^ k) by (apply Z.pow_pos_nonneg; lia).
  assert (H2 : 0 < 2 ^ k) by (apply Z.pow_pos_nonneg; lia).
  assert (H10 : 10 ^ k = 5 ^ k * 2 ^ k).
  { change 10 with (5 * 2). apply Z.pow_mul_l. }
  unfold number_of_decimal.
  destruct (Z.pos m * 5 ^ k) as [|p|p] eqn:Ep; try lia.
  replace (0 <=? - k) with false by (symmetry; apply Z.leb_gt; lia).
  rewrite Z.opp_involutive. unfold SFdiv_core_binary.
  rewrite !Z.add_0_r, Z.sub_diag, Z.sub_0_l.
  set (d1 := Zdigits2 (Z.pos p)). set (d2 := Zdigits2 (10 ^ k)).
  set (e' := Z.min (fexp prec emax (d1 - d2)) 0).
  assert (Hd2 : d2 = Zdigits2 (5 ^ k) + k).
  { unfold d2. rewrite H10. apply Zdigits2_mul_pow2; lia. }
  assert (Hd1 : d1 <= Zdigits2 (Z.pos m) + Zdigits2 (5 ^ k)).
  { unfold d1. rewrite <- Ep.
    destruct (Zdigits2_spec (Z.pos m) ltac:(lia)) as [Pm [_ Um]].
    destruct (Zdigits2_spec (5 ^ k) H5) as [P5 [_ U5]].
    apply Zdigits2_le; [lia|lia|]. rewrite Z.pow_add_r by lia. nia. }
  assert (He' : e' <= - k).
  { unfold e'. apply Z.le_trans with (fexp prec emax (d1 - d2));
      [apply Z.le_min_l|].
    apply Z.le_trans with (fexp prec emax (Zdigits2 (Z.pos m) + - k));
      [apply fexp_mono; lia|lia]. }
  set (n := - k - e').
  assert (Hn : 0 <= n) by (unfold n; lia).
  assert (Hs : match - e' with
               | 0 => Z.pos p
               | Z.pos _ => Z.shiftl (Z.pos p) (- e')
               | Z.neg _ => 0
               end = (Z.pos m * 2 ^ n) * 10 ^ k).
  { assert (E : Z.pos p * 2 ^ (- e') = (Z.pos m * 2 ^ n) * 10 ^ k).
    { rewrite <- Ep, H10. replace (- e') with (n + k) by (unfold n; lia).
      rewrite Z.pow_add_r by lia. ring. }
    rewrite <- E. destruct (- e') as [|q|q] eqn:Eq; try lia.
    now rewrite Z.shiftl_mul_pow2 by lia. }
  rewrite Hs.
  assert (Hdiv : Z.div_eucl (Z.pos m * 2 ^ n * 10 ^ k) (10 ^ k)
                 = (Z.pos m * 2 ^ n, 0)).
  { assert (Hp10 : 0 < 10 ^ k) by (apply Z.pow_pos_nonneg; lia).
    assert (Hq := Z.div_mul (Z.pos m * 2 ^ n) (10 ^ k) ltac:(lia)).
    assert (Hr := Z.mod_mul (Z.pos m * 2 ^ n) (10 ^ k) ltac:(lia)).
    unfold Z.div, Z.modulo in Hq, Hr.
    destruct (Z.div_eucl (Z.pos m * 2 ^ n * 10 ^ k) (10 ^ k)) as [q r].
    now subst. }
  rewrite Hdiv, new_location_exact.
  replace e' with (- k - n) by (unfold n; lia).
  now apply binary_round_aux_exact.
Qed.

(** *** The numbers that rounding gives are binary64 values *)

Lemma round_nearest_even_range (m : Z) (l : location) :
  m <= round_nearest_even m l <= m + 1.
Proof.
  destruct l as [|[| |]]; cbn [round_nearest_even]; try lia.
  destruct (Z.even m); lia.
Qed.

Lemma shr_record_of_loc_m (m : Z) (l : location) : shr_m (shr_record_of_loc m l) = m.
Proof. now destruct l as [|[| |]]. Qed.

Lemma Zdigits2_pow2 (d : Z) : 0 <= d -> Zdigits2 (2 ^ d) = d + 1.
Proof.
  intros Hd. apply Zdigits2_unique.
  - apply Z.pow_pos_nonneg; lia.
  - replace (d + 1 - 1) with d by lia. split; [lia|].
    apply Z.pow_lt_mono_r; lia.
Qed.

Lemma finish_valid (sx : bool) (m3 e3 : Z) :
  0 <= m3 -> (0 < m3 -> fexp prec emax (Zdigits2 m3 + e3) = e3) ->
  valid_binary prec emax
    match m3 with
    | 0 => S754_zero sx
    | Z.pos m => if e3 <=? emax - prec then S754_finite sx m e3
                 else S754_infinity sx
    | Z.neg _ => S754_nan
    end = true.
Proof.
  intros H0 Hc. destruct m3 as [|m|m]; try reflexivity.
  destruct (e3 <=? emax - prec) eqn:E; [|reflexivity].
  cbn [valid_binary]. unfold bounded, canonical_mantissa. rewrite E, andb_true_r.
  apply Z.eqb_eq. apply (Hc ltac:(lia)).
Qed.

Lemma binary_round_aux_valid (sx : bool) (mx ex : Z) (lx : location) :
  0 <= mx -> ex <= fexp prec emax (Zdigits2 mx + ex) ->
  valid_binary prec emax (binary_round_aux prec emax sx mx ex lx) = true.
Proof.
  intros Hmx Hex. unfold binary_round_aux, shr_fexp.
  set (D := Zdigits2 mx + ex) in *. set (e1 := fexp prec emax D) in *.
  assert (Hshr := shr_m_div (shr_record_of_loc mx lx) ex (e1 - ex)).
  rewrite shr_record_of_loc_m in Hshr. specialize (Hshr Hmx ltac:(lia)).
  destruct Hshr as [Hm1 He1].
  destruct (shr (shr_record_of_loc mx lx) ex (e1 - ex)) as [mrs' e'].
  cbn [fst snd] in Hm1, He1. replace e' with e1 by lia. clear e' He1.
  set (m1 := shr_m mrs') in *.
  assert (Hm1pos : 0 <= m1).
  { rewrite Hm1. apply Z.div_pos; [lia|]. apply Z.pow_pos_nonneg; lia. }
  assert (Hr := round_nearest_even_range m1 (loc_of_shr_record mrs')).
  set (m2 := round_nearest_even m1 (loc_of_shr_record mrs')) in *.
  cbn [shr_record_of_loc].
  assert (Hd : 0 < mx -> e1 - ex < Zdigits2 mx ->
               Zdigits2 m1 = D - e1 /\ 0 < D - e1).
  { intros Hp Hlt. rewrite Hm1, Zdigits2_div_pow2 by lia. unfold D. lia. }
  assert (Hz : mx = 0 \/ Zdigits2 mx <= e1 - ex -> m1 = 0 /\ e1 = -1074).
  { intros Hcase. split.
    - rewrite Hm1. destruct Hcase as [->|Hcase].
      + apply Z.div_0_l. assert (0 < 2 ^ (e1 - ex)) by (apply Z.pow_pos_nonneg; lia).
        lia.
      + apply div_pow2_small; lia.
    - destruct Hcase as [->|Hcase].
      + unfold e1, D, fexp, emin, prec, emax in *. cbn [Zdigits2] in *. lia.
      + unfold e1, D, fexp, emin, prec, emax in *. lia. }
  destruct (Z.eq_dec m2 0) as [Hm2|Hm2].
  - (* the rounded mantissa is zero *)
    rewrite Hm2 in *. 
    destruct (shr {| shr_m := 0; shr_r := false; shr_s := false |} e1
                (fexp prec emax (Zdigits2 0 + e1) - e1)) as [mrs'' e''] eqn:E.
    assert (Hm3 : shr_m mrs'' = 0).
    { cbn [Zdigits2] in E.
      destruct (fexp prec emax (0 + e1) - e1) as [|q|q] eqn:Eq;
        cbn [shr] in E; try (injection E as <- _; reflexivity).
      injection E as <- _. rewrite iter_pos_nat.
      rewrite (proj1 (shr_iter_m _ {| shr_m := 0; shr_r := false; shr_s := false |}
                        ltac:(cbn; lia))).
      cbn [shr_m]. apply Z.div_0_l.
      assert (0 < 2 ^ Z.of_nat (Pos.to_nat q)) by (apply Z.pow_pos_nonneg; lia).
      lia. }
    rewrite Hm3. reflexivity.
  - assert (Hm2pos : 0 < m2) by lia.
    assert (Hcases : (m1 = 0 /\ e1 = -1074 /\ m2 = 1)
                     \/ (0 < D - e1 /\ 2 ^ (D - e1 - 1) <= m2 <= 2 ^ (D - e1))).
    { destruct (Z.eq_dec mx 0) as [Hmx0|Hmx0].
      - left. destruct (Hz (or_introl Hmx0)). lia.
      - destruct (Z_lt_le_dec (e1 - ex) (Zdigits2 mx)) as [Hlt|Hge].
        + right. destruct (Hd ltac:(lia) Hlt) as [Hdig Hpos].
          destruct (Z.eq_dec m1 0) as [Hm10|Hm10].
          * exfalso. rewrite Hm10 in Hdig. cbn [Zdigits2] in Hdig. lia.
          * destruct (Zdigits2_spec m1 ltac:(lia)) as [_ [L U]].
            rewrite Hdig in L, U. split; [exact Hpos|]. lia.
        + left. destruct (Hz (or_intror Hge)). lia. }
    assert (Hfin : exists m3 e3,
               shr {| shr_m := m2; shr_r := false; shr_s := false |} e1
                 (fexp prec emax (Zdigits2 m2 + e1) - e1)
               = (m3, e3)
               /\ 0 < shr_m m3
               /\ fexp prec emax (Zdigits2 (shr_m m3) + e3) = e3).
    { destruct Hcases as [[_ [He Hone]]|[Hpos [L U]]].
      - rewrite Hone, He. eexists _, _. split; [reflexivity|].
        split; reflexivity.
      - destruct (Z.eq_dec m2 (2 ^ (D - e1))) as [Htop|Htop].
        + rewrite Htop, Zdigits2_pow2 by lia.
          replace (D - e1 + 1 + e1) with (D + 1) by lia.
          assert (Hf : fexp prec emax (D + 1) - e1 = 1
                       \/ (fexp prec emax (D + 1) - e1 = 0 /\ e1 = -1074)).
          { unfold e1, fexp, emin, prec, emax. lia. }
          destruct Hf as [Hf|[Hf He]].
          * rewrite Hf.
            assert (Hx := shr_exact (2 ^ (D - e1 - 1)) e1 1).
            change (2 ^ 1) with 2 in Hx.
            replace (2 ^ (D - e1 - 1) * 2) with (2 ^ (D - e1)) in Hx.
            -- rewrite Hx; [|apply Z.pow_nonneg; lia|lia].
               eexists _, _. split; [reflexivity|]. cbn [shr_m].
               split; [apply Z.pow_pos_nonneg; lia|].
               rewrite Zdigits2_pow2 by lia.
               replace (D - e1 - 1 + 1 + (e1 + 1)) with (D + 1) by lia. lia.
            -- replace (D - e1) with (D - e1 - 1 + 1) at 1 by lia.
               rewrite Z.pow_add_r by lia. reflexivity.
          * rewrite Hf. cbn [shr]. eexists _, _. split; [reflexivity|].
            cbn [shr_m]. split; [apply Z.pow_pos_nonneg; lia|].
            rewrite Zdigits2_pow2 by lia.
            replace (D - e1 + 1 + e1) with (D + 1) by lia. lia.
        + assert (Hdig : Zdigits2 m2 = D - e1)
            by (apply Zdigits2_unique; lia).
          rewrite Hdig. replace (D - e1 + e1) with D by lia.
          fold e1. rewrite Z.sub_diag. cbn [shr].
          eexists _, _. split; [reflexivity|]. cbn [shr_m].
          split; [lia|]. rewrite Hdig. replace (D - e1 + e1) with D by lia.
          reflexivity. }
    destruct Hfin as [m3 [e3 [E [Hpos Hcan]]]]. rewrite E.
    apply finish_valid; [lia|]. intros _. exact Hcan.
Qed.

Lemma Pos_iter_xO (m d : positive) :
  Z.pos (Pos.iter xO m d) = Z.pos m * 2 ^ Z.pos d.
Proof.
  induction d as [|d IH] using Pos.peano_ind.
  - cbn [Pos.iter]. change (2 ^ 1) with 2. lia.
  - rewrite Pos.iter_succ, Pos2Z.inj_xO, IH, Pos2Z.inj_succ, Z.pow_succ_r by lia.
    ring.
Qed.

Lemma Zdigits2_ge (x d : Z) : 0 <= d -> 2 ^ d <= x -> d + 1 <= Zdigits2 x.
Proof.
  intros Hd H. assert (0 < 2 ^ d) by (apply Z.pow_pos_nonneg; lia).
  destruct (Zdigits2_spec x ltac:(lia)) as [Hp [_ U]].
  assert (d < Zdigits2 x) by (apply pow2_lt_inv; lia). lia.
Qed.

Lemma binary_round_valid (sx : bool) (mx : positive) (ex : Z) :
  valid_binary prec emax (binary_round prec emax sx mx ex) = true.
Proof.
  unfold binary_round, shl_align.
  change (Z.pos (digits2_pos mx)) with (Zdigits2 (Z.pos mx)).
  set (f := fexp prec emax (Zdigits2 (Z.pos mx) + ex)).
  destruct (f - ex) as [|d|d] eqn:E.
  - apply binary_round_aux_valid; [lia|]. fold f. lia.
  - apply binary_round_aux_valid; [lia|]. fold f. lia.
  - apply binary_round_aux_valid; [lia|].
    rewrite Pos_iter_xO, Zdigits2_mul_pow2 by lia.
    replace (Zdigits2 (Z.pos mx) + Z.pos d + f) with (Zdigits2 (Z.pos mx) + ex)
      by lia.
    fold f. lia.
Qed.

Lemma SFdiv_core_binary_ok (m1 m2 : positive) :
  let '(q, e', l) :=
    SFdiv_core_binary prec emax (Z.pos m1) 0 (Z.pos m2) 0 in
  0 <= q /\ e' <= fexp prec emax (Zdigits2 q + e').
Proof.
  unfold SFdiv_core_binary. rewrite !Z.add_0_r, Z.sub_diag, Z.sub_0_l.
  set (d1 := Zdigits2 (Z.pos m1)). set (d2 := Zdigits2 (Z.pos m2)).
  set (e' := Z.min (fexp prec emax (d1 - d2)) 0).
  assert (He' : e' <= 0) by apply Z.le_min_r.
  assert (Hm' : match - e' with
                | 0 => Z.pos m1
                | Z.pos _ => Z.shiftl (Z.pos m1) (- e')
                | Z.neg _ => 0
                end = Z.pos m1 * 2 ^ (- e')).
  { destruct (- e') as [|s|s] eqn:Es; try lia.
    now rewrite Z.shiftl_mul_pow2 by lia. }
  rewrite Hm'. set (s := - e') in *.
  assert (Hps : 0 < 2 ^ s) by (apply Z.pow_pos_nonneg; lia).
  assert (Hq := Z.div_mod (Z.pos m1 * 2 ^ s) (Z.pos m2) ltac:(lia)).
  assert (Hr := Z.mod_pos_bound (Z.pos m1 * 2 ^ s) (Z.pos m2) ltac:(lia)).
  unfold Z.div, Z.modulo in Hq, Hr.
  destruct (Z.div_eucl (Z.pos m1 * 2 ^ s) (Z.pos m2)) as [q r].
  assert (Hq0 : 0 <= q) by nia.
  split; [exact Hq0|].
  destruct (Zdigits2_spec (Z.pos m1) ltac:(lia)) as [P1 [L1 U1]].
  destruct (Zdigits2_spec (Z.pos m2) ltac:(lia)) as [P2 [L2 U2]].
  fold d1 in P1, L1, U1. fold d2 in P2, L2, U2.
  assert (Hfe : e' <= fexp prec emax (d1 - d2)) by apply Z.le_min_l.
  destruct (Z_lt_le_dec (d1 + s - d2 - 1) 0) as [Hj|Hj].
  - (* the quotient may be small *)
    destruct (Z.eq_dec q 0) as [->|Hq1].
    + cbn [Zdigits2]. unfold fexp, emin, prec, emax in *. lia.
    + destruct (Zdigits2_spec q ltac:(lia)) as [Pq _].
      apply Z.le_trans with (fexp prec emax (d1 - d2)); [exact Hfe|].
      apply fexp_mono. lia.
  - assert (Hlow : 2 ^ (d1 + s - d2 - 1) <= q).
    { assert (E : 2 ^ (d1 - 1) * 2 ^ s = 2 ^ (d1 + s - d2 - 1) * 2 ^ d2).
      { rewrite <- !Z.pow_add_r by lia. f_equal. lia. }
      assert (0 < 2 ^ (d1 + s - d2 - 1)) by (apply Z.pow_pos_nonneg; lia).
      destruct (Z_lt_le_dec q (2 ^ (d1 + s - d2 - 1))) as [C|C]; [|exact C].
      exfalso. nia. }
    assert (Hdq := Zdigits2_ge q (d1 + s - d2 - 1) Hj Hlow).
    apply Z.le_trans with (fexp prec emax (d1 - d2)); [exact Hfe|].
    apply fexp_mono. lia.
Qed.

Lemma number_of_decimal_valid (neg : bool) (m e : Z) :
  valid_binary prec emax (number_of_decimal neg m e) = true.
Proof.
  unfold number_of_decimal. destruct m as [|p|p]; try reflexivity.
  destruct (0 <=? e) eqn:E.
  - apply binary_round_valid.
  - assert (Hp : 0 < 10 ^ (- e)).
    { apply Z.leb_gt in E. apply Z.pow_pos_nonneg; lia. }
    destruct (10 ^ (- e)) as [|t|t] eqn:Et; try lia.
    assert (H := SFdiv_core_binary_ok p t).
    destruct (SFdiv_core_binary prec emax (Z.pos p) 0 (Z.pos t) 0) as [[q e'] l].
    destruct H as [Hq He]. now apply binary_round_aux_valid.
Qed.

(** *** Decimal digits *)

Lemma digits_value_app (a b : str) :
  digits_value (a ++ b)
  = digits_value a * 10 ^ Z.of_nat (List.length b) + digits_value b.
Proof.
  unfold digits_value. rewrite fold_left_app.
  generalize (fold_left (fun a0 c => 10 * a0 + digit_val c) a 0). intros x.
  assert (G : forall l acc,
             fold_left (fun a0 c => 10 * a0 + digit_val c) l acc
             = acc * 10 ^ Z.of_nat (List.length l)
               + fold_left (fun a0 c => 10 * a0 + digit_val c) l 0).
  { induction l as [|c l IH]; intros acc; cbn [fold_left List.length].
    - change (10 ^ Z.of_nat 0) with 1. lia.
    - rewrite IH, (IH (10 * 0 + digit_val c)).
      rewrite Nat2Z.inj_succ, Z.pow_succ_r by lia. ring. }
  apply G.
Qed.

Lemma digits_value_cons (c : char) (s : str) :
  digits_value (c :: s) = digit_val c * 10 ^ Z.of_nat (List.length s) + digits_value s.
Proof.
  change (c :: s) with ([c] ++ s). rewrite digits_value_app.
  unfold digits_value at 1. cbn [fold_left]. lia.
Qed.

Lemma digit_char (d : Z) :
  0 <= d < 10 ->
  is_digit (Z.to_N (48 + d)) = true /\ digit_val (Z.to_N (48 + d)) = d.
Proof.
  intros H. unfold is_digit, digit_val. split.
  - apply andb_true_iff. split; apply N.leb_le; lia.
  - lia.
Qed.

Lemma dec_digits_digits (fuel : nat) :
  forall n acc, 0 <= n -> forallb is_digit acc = true ->
    forallb is_digit (dec_digits fuel n acc) = true.
Proof.
  induction fuel as [|f IH]; intros n acc Hn Ha; cbn [dec_digits]; [exact Ha|].
  assert (Hd := Z.mod_pos_bound n 10 ltac:(lia)).
  assert (Hc : forallb is_digit (Z.to_N (48 + n mod 10) :: acc) = true).
  { cbn [forallb]. now rewrite (proj1 (digit_char _ Hd)), Ha. }
  destruct (n <? 10); [exact Hc|].
  apply IH; [|exact Hc]. apply Z.div_pos; lia.
Qed.

Lemma dec_digits_value (fuel : nat) :
  forall n acc, 0 <= n -> n < 10 ^ Z.of_nat fuel ->
    digits_value (dec_digits fuel n acc)
    = n * 10 ^ Z.of_nat (List.length acc) + digits_value acc.
Proof.
  induction fuel as [|f IH]; intros n acc Hn Hlt.
  - change (10 ^ Z.of_nat 0) with 1 in Hlt. cbn [dec_digits].
    replace n with 0 by lia. lia.
  - cbn [dec_digits].
    assert (Hd := Z.mod_pos_bound n 10 ltac:(lia)).
    assert (Hv : digits_value (Z.to_N (48 + n mod 10) :: acc)
                 = n mod 10 * 10 ^ Z.of_nat (List.length acc) + digits_value acc).
    { rewrite digits_value_cons. now rewrite (proj2 (digit_char _ Hd)). }
    destruct (n <? 10) eqn:E.
    + apply Z.ltb_lt in E. rewrite Hv, Z.mod_small by lia. reflexivity.
    + rewrite IH.
      * rewrite Hv. cbn [List.length].
        rewrite Nat2Z.inj_succ, Z.pow_succ_r by lia.
        assert (Hq := Z.div_mod n 10 ltac:(lia)). nia.
      * apply Z.div_pos; lia.
      * rewrite Nat2Z.inj_succ, Z.pow_succ_r in Hlt by lia.
        apply Z.div_lt_upper_bound; lia.
Qed.

(** The number of decimal digits of a positive integer. *)
Lemma dec_digits_length (fuel : nat) :
  forall n acc, 0 < n -> n < 10 ^ Z.of_nat fuel ->
    exists L, 0 < L
      /\ Z.of_nat (List.length (dec_digits fuel n acc))
         = L + Z.of_nat (List.length acc)
      /\ 10 ^ (L - 1) <= n < 10 ^ L.
Proof.
  induction fuel as [|f IH]; intros n acc Hn Hlt.
  - change (10 ^ Z.of_nat 0) with 1 in Hlt. lia.
  - cbn [dec_digits]. destruct (n <? 10) eqn:E.
    + apply Z.ltb_lt in E. exists 1. cbn [List.length].
      rewrite Nat2Z.inj_succ. change (10 ^ (1 - 1)) with 1.
      change (10 ^ 1) with 10. lia.
    + apply Z.ltb_ge in E.
      rewrite Nat2Z.inj_succ, Z.pow_succ_r in Hlt by lia.
      assert (Hq : 0 < n / 10) by (apply Z.div_str_pos; lia).
      assert (Hq' : n / 10 < 10 ^ Z.of_nat f)
        by (apply Z.div_lt_upper_bound; lia).
      destruct (IH (n / 10) (Z.to_N (48 + n mod 10) :: acc) Hq Hq')
        as [L [HL [Hlen [Lo Hi]]]].
      exists (L + 1). cbn [List.length] in Hlen. rewrite Nat2Z.inj_succ in Hlen.
      split; [lia|]. split; [lia|].
      replace (L + 1 - 1) with (L - 1 + 1) by lia.
      rewrite !Z.pow_add_r by lia. change (10 ^ 1) with 10.
      assert (Hdm := Z.div_mod n 10 ltac:(lia)).
      assert (Hd := Z.mod_pos_bound n 10 ltac:(lia)). lia.
Qed.

Lemma dec_digits_head (fuel : nat) :
  forall n acc, 0 < n -> n < 10 ^ Z.of_nat fuel ->
    exists c t, dec_digits fuel n acc = c :: t
                /\ is_digit c = true /\ N.eqb c 48 = false.
Proof.
  induction fuel as [|f IH]; intros n acc Hn Hlt.
  - change (10 ^ Z.of_nat 0) with 1 in Hlt. lia.
  - cbn [dec_digits]. destruct (n <? 10) eqn:E.
    + apply Z.ltb_lt in E. rewrite Z.mod_small by lia.
      eexists _, _. split; [reflexivity|]. split.
      * apply digit_char. lia.
      * apply N.eqb_neq. lia.
    + apply Z.ltb_ge in E.
      rewrite Nat2Z.inj_succ, Z.pow_succ_r in Hlt by lia.
      apply IH; [apply Z.div_str_pos; lia|].
      apply Z.div_lt_upper_bound; lia.
Qed.

Lemma pow10_gt_fuel (n : Z) : 0 <= n -> n < 10 ^ Z.of_nat (S (Z.to_nat (Z.log2 n))).
Proof.
  intros Hn. destruct (Z.eq_dec n 0) as [->|Hne].
  - cbn. lia.
  - destruct (Z.log2_spec n ltac:(lia)) as [_ U].
    rewrite Nat2Z.inj_succ, Z2Nat.id by apply Z.log2_nonneg.
    apply Z.lt_le_trans with (2 ^ Z.succ (Z.log2 n)); [exact U|].
    apply Z.pow_le_mono_l. lia.
Qed.

Lemma Z_to_string_digits (n : Z) : 0 <= n -> forallb is_digit (Z_to_string n) = true.
Proof. intros Hn. now apply dec_digits_digits. Qed.

Lemma Z_to_string_value (n : Z) : 0 <= n -> digits_value (Z_to_string n) = n.
Proof.
  intros Hn. unfold Z_to_string.
  rewrite dec_digits_value; [|exact Hn|now apply pow10_gt_fuel].
  cbn [List.length]. change (digits_value []) with 0.
  change (10 ^ Z.of_nat 0) with 1. lia.
Qed.

Lemma Z_to_string_length (n : Z) :
  0 < n ->
  let L := Z.of_nat (List.length (Z_to_string n)) in
  0 < L /\ 10 ^ (L - 1) <= n < 10 ^ L.
Proof.
  intros Hn. unfold Z_to_string.
  destruct (dec_digits_length (S (Z.to_nat (Z.log2 n))) n [] Hn
              (pow10_gt_fuel n ltac:(lia))) as [L [HL [Hlen H]]].
  cbn [List.length] in Hlen. rewrite Z.add_0_r in Hlen.
  cbv zeta. rewrite Hlen. auto.
Qed.

Lemma Z_to_string_head (n : Z) :
  0 < n ->
  exists c t, Z_to_string n = c :: t /\ is_digit c = true /\ N.eqb c 48 = false.
Proof.
  intros Hn. apply dec_digits_head; [exact Hn|]. apply pow10_gt_fuel. lia.
Qed.

Lemma pow10_lt_inv (a b : Z) : 0 <= b -> 10 ^ a < 10 ^ b -> a < b.
Proof.
  intros Hb H. destruct (Z_lt_le_dec a b) as [L|L]; [exact L|].
  exfalso. assert (10 ^ b <= 10 ^ a) by (apply Z.pow_le_mono_r; lia). lia.
Qed.

(** An integer between [10^(k-1)] and [10^k] has [k] digits. *)
Lemma Z_to_string_length_eq (n k : Z) :
  0 < k -> 10 ^ (k - 1) <= n < 10 ^ k ->
  Z.of_nat (List.length (Z_to_string n)) = k.
Proof.
  intros Hk [Lo Hi].
  assert (Hn : 0 < n).
  { assert (0 < 10 ^ (k - 1)) by (apply Z.pow_pos_nonneg; lia). lia. }
  destruct (Z_to_string_length n Hn) as [HL [Lo' Hi']].
  set (L := Z.of_nat (List.length (Z_to_string n))) in *.
  assert (k - 1 < L) by (apply pow10_lt_inv; lia).
  assert (L - 1 < k) by (apply pow10_lt_inv; lia).
  lia.
Qed.

(** *** The decimal magnitude *)

Lemma num_eqb_eq (x y : number) : num_eqb x y = true -> x = y.
Proof.
  destruct x as [a|a| |a m e], y as [b|b| |b m' e']; cbn [num_eqb];
    try discriminate; intros H.
  - apply Bool.eqb_prop in H. now subst.
  - apply Bool.eqb_prop in H. now subst.
  - reflexivity.
  - apply andb_true_iff in H as [H H3]. apply andb_true_iff in H as [H1 H2].
    apply Bool.eqb_prop in H1. apply Pos.eqb_eq in H2. apply Z.eqb_eq in H3.
    now subst.
Qed.

Lemma num_eqb_refl (x : number) : num_eqb x x = true.
Proof.
  destruct x as [a|a| |a m e]; cbn [num_eqb].
  - apply Bool.eqb_reflx.
  - apply Bool.eqb_reflx.
  - reflexivity.
  - now rewrite Bool.eqb_reflx, Pos.eqb_refl, Z.eqb_refl.
Qed.

Lemma first_scale_spec (fuel : nat) (a b : Z) :
  0 < a ->
  forall j, 0 <= j -> a * 10 ^ (j - 1) < b -> b <= a * 10 ^ (j + Z.of_nat fuel) ->
  let r := first_scale fuel a b j in
  j <= r /\ a * 10 ^ (r - 1) < b <= a * 10 ^ r.
Proof.
  intros Ha. induction fuel as [|fuel IH]; intros j Hj Hlo Hhi; cbn [first_scale].
  - cbn [Z.of_nat] in Hhi. rewrite Z.add_0_r in Hhi. cbv zeta. lia.
  - destruct (b <=? a * 10 ^ j) eqn:E.
    + apply Z.leb_le in E. cbv zeta. lia.
    + apply Z.leb_gt in E.
      assert (H := IH (j + 1) ltac:(lia)).
      replace (j + 1 - 1) with j in H by lia.
      specialize (H E).
      replace (j + 1 + Z.of_nat fuel) with (j + Z.of_nat (S fuel)) in H by lia.
      specialize (H Hhi). cbv zeta in H |- *. lia.
Qed.

Lemma decimal_magnitude_spec (a b : Z) :
  0 < a -> 0 < b -> b <= a * 10 ^ 401 ->
  magnitude a b (decimal_magnitude a b).
Proof.
  intros Ha Hb Hlim. unfold decimal_magnitude, magnitude.
  destruct (b <=? a) eqn:E.
  - apply Z.leb_le in E.
    assert (Hq : 0 < a / b) by (apply Z.div_str_pos; lia).
    destruct (Z_to_string_length (a / b) Hq) as [HL [Lo Hi]].
    set (L := Z.of_nat (List.length (Z_to_string (a / b)))) in *.
    replace (0 <? L) with true by (symmetry; apply Z.ltb_lt; lia).
    assert (Hd := Z.mul_div_le a b Hb).
    assert (Hm := Z.mod_pos_bound a b Hb).
    assert (Hdm := Z.div_mod a b ltac:(lia)).
    split; nia.
  - apply Z.leb_gt in E.
    assert (H := first_scale_spec 400 a b Ha 1 ltac:(lia)).
    change (1 - 1) with 0 in H. change (10 ^ 0) with 1 in H.
    rewrite Z.mul_1_r in H. specialize (H E).
    change (1 + Z.of_nat 400) with 401 in H. specialize (H Hlim).
    cbv zeta in H. set (r := first_scale 400 a b 1) in *.
    replace (0 <? 1 - r) with false by (symmetry; apply Z.ltb_ge; lia).
    replace (1 - (1 - r)) with r by lia.
    replace (- (1 - r)) with (r - 1) by lia. lia.
Qed.

(** The scaled fraction [a'/b'] of the search for [k] digits. *)
Lemma magnitude_scaled (a b n k : Z) :
  0 < a -> 0 < b -> magnitude a b n -> 1 <= k ->
  let p := n - k in
  let a' := if p <? 0 then a * 10 ^ (- p) else a in
  let b' := if p <? 0 then b else b * 10 ^ p in
  0 < b' /\ b' * 10 ^ (k - 1) <= a' < b' * 10 ^ k.
Proof.
  intros Ha Hb Hm Hk. cbv zeta. unfold magnitude in Hm.
  destruct (n - k <? 0) eqn:Ep.
  - apply Z.ltb_lt in Ep. split; [exact Hb|].
    destruct (0 <? n) eqn:En.
    + apply Z.ltb_lt in En.
      assert (P : 0 < 10 ^ (- (n - k))) by (apply Z.pow_pos_nonneg; lia).
      assert (E1 : 10 ^ (k - 1) = 10 ^ (n - 1) * 10 ^ (- (n - k))).
      { rewrite <- Z.pow_add_r by lia. f_equal. lia. }
      assert (E2 : 10 ^ k = 10 ^ n * 10 ^ (- (n - k))).
      { rewrite <- Z.pow_add_r by lia. f_equal. lia. }
      rewrite E1, E2. 
      set (X := 10 ^ (- (n - k))) in *. set (Y := 10 ^ (n - 1)) in *.
      set (W := 10 ^ n) in *. clearbody X Y W. clear E1 E2. split; nia.
    + apply Z.ltb_ge in En.
      assert (P : 0 < 10 ^ (k - 1)) by (apply Z.pow_pos_nonneg; lia).
      assert (P' : 0 < 10 ^ k) by (apply Z.pow_pos_nonneg; lia).
      assert (E1 : 10 ^ (- (n - k)) = 10 ^ (1 - n) * 10 ^ (k - 1)).
      { rewrite <- Z.pow_add_r by lia. f_equal. lia. }
      assert (E2 : 10 ^ (- (n - k)) = 10 ^ (- n) * 10 ^ k).
      { rewrite <- Z.pow_add_r by lia. f_equal. lia. }
      split.
      * rewrite E1. set (X := 10 ^ (k - 1)) in *. set (Y := 10 ^ (1 - n)) in *.
        clearbody X Y. nia.
      * rewrite E2. set (X := 10 ^ k) in *. set (Y := 10 ^ (- n)) in *.
        clearbody X Y. nia.
  - apply Z.ltb_ge in Ep.
    assert (En : 0 < n) by lia.
    apply Z.ltb_lt in En. rewrite En in Hm. apply Z.ltb_lt in En.
    assert (P : 0 < 10 ^ (n - k)) by (apply Z.pow_pos_nonneg; lia).
    split; [nia|].
    rewrite <- !Z.mul_assoc, <- !Z.pow_add_r by lia.
    replace (n - k + (k - 1)) with (n - 1) by lia.
    replace (n - k + k) with n by lia. exact Hm.
Qed.

(** *** The search for the shortest digits *)

Lemma shortest_digits_eq (fuel : nat) (m : positive) (e a b n k : Z) :
  shortest_digits fuel m e a b n k =
  match sd_pick m e a b n k, fuel with
  | Some c, _ => if c =? 10 ^ k then (1, n + 1) else (c, n)
  | None, S f => shortest_digits f m e a b n (k + 1)
  | None, O => (sd_lo a b n k, n)
  end.
Proof. destruct fuel; reflexivity. Qed.

Lemma sd_pick_some (m : positive) (e a b n k c : Z) :
  sd_pick m e a b n k = Some c ->
  (c = sd_lo a b n k \/ c = sd_lo a b n k + 1) /\ sd_ok m e n k c = true.
Proof.
  unfold sd_pick, sd_lo. cbv zeta.
  set (a' := if n - k <? 0 then a * _ else a).
  set (b' := if n - k <? 0 then b else _).
  set (lo := a' / b'). clearbody lo.
  set (c1 := a' - lo * b' <? (lo + 1) * b' - a').
  set (c2 := (lo + 1) * b' - a' <? a' - lo * b').
  clearbody c1 c2.
  destruct (sd_ok m e n k lo) eqn:E1, (sd_ok m e n k (lo + 1)) eqn:E2;
    cbn [andb].
  - destruct c1; [intros [= <-]; auto|].
    destruct c2; [intros [= <-]; auto|].
    destruct (Z.even lo); intros [= <-]; auto.
  - intros [= <-]. auto.
  - intros [= <-]. auto.
  - discriminate.
Qed.

Lemma sd_pick_lo (m : positive) (e a b n k : Z) :
  sd_ok m e n k (sd_lo a b n k) = true -> sd_pick m e a b n k <> None.
Proof.
  unfold sd_pick, sd_lo. cbv zeta.
  set (a' := if n - k <? 0 then a * _ else a).
  set (b' := if n - k <? 0 then b else _).
  set (lo := a' / b'). clearbody lo.
  set (c1 := a' - lo * b' <? (lo + 1) * b' - a').
  set (c2 := (lo + 1) * b' - a' <? a' - lo * b').
  clearbody c1 c2. intros ->.
  destruct (sd_ok m e n k (lo + 1)); cbn [andb].
  - destruct c1; [discriminate|].
    destruct c2; [discriminate|]. destruct (Z.even lo); discriminate.
  - discriminate.
Qed.

Lemma sd_lo_range (a b n k : Z) :
  0 < a -> 0 < b -> magnitude a b n -> 1 <= k ->
  10 ^ (k - 1) <= sd_lo a b n k < 10 ^ k.
Proof.
  intros Ha Hb Hm Hk.
  destruct (magnitude_scaled a b n k Ha Hb Hm Hk) as [Hb' [Lo Hi]].
  unfold sd_lo. cbv zeta.
  set (a' := if n - k <? 0 then _ else _) in *.
  set (b' := if n - k <? 0 then _ else _) in *.
  split.
  - apply Z.div_le_lower_bound; lia.
  - apply Z.div_lt_upper_bound; lia.
Qed.

Section Shortest.
Variables (m : positive) (e a b n kstar : Z).
Hypothesis Ha : 0 < a.
Hypothesis Hb : 0 < b.
Hypothesis Hmag : magnitude a b n.
Hypothesis Hexact :
  number_of_decimal false (sd_lo a b n kstar) (n - kstar) = S754_finite false m e.

Lemma shortest_digits_spec (fuel : nat) :
  forall k, 1 <= k <= kstar -> kstar - k <= Z.of_nat fuel ->
  exists s n' k',
    shortest_digits fuel m e a b n k = (s, n')
    /\ 1 <= k' /\ 10 ^ (k' - 1) <= s < 10 ^ k'
    /\ number_of_decimal false s (n' - k') = S754_finite false m e.
Proof.
  assert (Hstar : forall k, k = kstar -> 1 <= k -> sd_pick m e a b n k <> None).
  { intros k -> Hk. apply sd_pick_lo. unfold sd_ok.
    destruct (sd_lo_range a b n kstar Ha Hb Hmag Hk) as [_ Hi].
    replace (sd_lo a b n kstar =? 10 ^ kstar) with false
      by (symmetry; apply Z.eqb_neq; lia).
    rewrite Hexact. apply num_eqb_refl. }
  assert (Hsome : forall k c, 1 <= k -> sd_pick m e a b n k = Some c ->
            exists s n' k',
              (if c =? 10 ^ k then (1, n + 1) else (c, n)) = (s, n')
              /\ 1 <= k' /\ 10 ^ (k' - 1) <= s < 10 ^ k'
              /\ number_of_decimal false s (n' - k') = S754_finite false m e).
  { intros k c Hk Hc. apply sd_pick_some in Hc as [Hc Hok].
    destruct (sd_lo_range a b n k Ha Hb Hmag Hk) as [Lo Hi].
    unfold sd_ok in Hok. destruct (c =? 10 ^ k) eqn:Ec.
    - exists 1, (n + 1), 1. split; [reflexivity|]. split; [lia|].
      split; [cbn; lia|]. replace (n + 1 - 1) with n by lia.
      now apply num_eqb_eq.
    - apply Z.eqb_neq in Ec. exists c, n, k. split; [reflexivity|].
      split; [exact Hk|]. split; [lia|]. now apply num_eqb_eq. }
  induction fuel as [|fuel IH]; intros k Hk Hf; rewrite shortest_digits_eq.
  - destruct (sd_pick m e a b n k) as [c|] eqn:Ep.
    + apply (Hsome k c); [lia|exact Ep].
    + exfalso. apply (Hstar k); [|lia|exact Ep]. cbn in Hf. lia.
  - destruct (sd_pick m e a b n k) as [c|] eqn:Ep.
    + apply (Hsome k c); [lia|exact Ep].
    + assert (k <> kstar). { intros ->. now apply (Hstar kstar). }
      apply IH; lia.
Qed.

End Shortest.

(** *** The sign *)

Lemma binary_round_aux_sign (neg : bool) (m e : Z) (l : location) :
  binary_round_aux prec emax neg m e l
  = with_sign neg (binary_round_aux prec emax false m e l).
Proof.
  unfold binary_round_aux.
  destruct (shr_fexp prec emax m e l) as [mrs' e'].
  destruct (shr_fexp prec emax _ e' loc_Exact) as [mrs'' e''].
  destruct (shr_m mrs''); try reflexivity.
  destruct (e'' <=? emax - prec); reflexivity.
Qed.

Lemma number_of_decimal_sign (neg : bool) (m e : Z) :
  number_of_decimal neg m e = with_sign neg (number_of_decimal false m e).
Proof.
  unfold number_of_decimal. destruct m as [|p|p]; try reflexivity.
  destruct (0 <=? e).
  - unfold binary_round. destruct (shl_align _ _ _) as [mz ez].
    apply binary_round_aux_sign.
  - destruct (SFdiv_core_binary _ _ _ _ _ _) as [[q e'] l].
    apply binary_round_aux_sign.
Qed.

Lemma number_of_decimal_finite (neg : bool) (s p : Z) (m : positive) (e : Z) :
  number_of_decimal false s p = S754_finite false m e ->
  number_of_decimal neg s p = S754_finite neg m e.
Proof. intros H. now rewrite number_of_decimal_sign, H. Qed.

(** *** The digits of a positive value *)

Lemma bounded_emin (m : positive) (e : Z) :
  bounded prec emax m e = true -> -1074 <= e.
Proof.
  intros H. destruct (bounded_canonical m e H) as [Hc _].
  unfold fexp, emin, prec, emax in Hc. lia.
Qed.

Lemma pow2_le_pow10 : 2 ^ 1074 <= 10 ^ 401.
Proof. apply Z.leb_le. vm_compute. reflexivity. Qed.

Lemma pow10_split (k : Z) : 0 <= k -> 10 ^ k = 5 ^ k * 2 ^ k.
Proof. intros Hk. now rewrite <- Z.pow_mul_l. Qed.

Lemma positive_digits (m : positive) (e : Z) :
  bounded prec emax m e = true ->
  let a := if 0 <=? e then Z.pos m * 2 ^ e else Z.pos m in
  let b := if 0 <=? e then 1 else 2 ^ (- e) in
  let n0 := decimal_magnitude a b in
  exists s n k,
    shortest_digits (Z.to_nat (n0 - Z.min e 0)) m e a b n0 1 = (s, n)
    /\ 1 <= k /\ 10 ^ (k - 1) <= s < 10 ^ k
    /\ number_of_decimal false s (n - k) = S754_finite false m e.
Proof.
  intros Hb. cbv zeta. assert (Hmin := bounded_emin m e Hb).
  destruct (0 <=? e) eqn:E.
  - apply Z.leb_le in E.
    assert (P : 0 < 2 ^ e) by (apply Z.pow_pos_nonneg; lia).
    set (a := Z.pos m * 2 ^ e). assert (Ha : 0 < a) by (unfold a; nia).
    assert (Hlim : 1 <= a * 10 ^ 401).
    { assert (0 < 10 ^ 401) by (apply Z.pow_pos_nonneg; lia). nia. }
    assert (Hm := decimal_magnitude_spec a 1 Ha ltac:(lia) Hlim).
    set (n0 := decimal_magnitude a 1) in *.
    assert (Hn : 1 <= n0).
    { unfold magnitude in Hm. destruct (0 <? n0) eqn:En.
      - apply Z.ltb_lt in En. lia.
      - apply Z.ltb_ge in En. exfalso.
        assert (0 < 10 ^ (- n0)) by (apply Z.pow_pos_nonneg; lia). nia. }
    apply (shortest_digits_spec m e a 1 n0 n0 Ha ltac:(lia) Hm).
    + unfold sd_lo. cbv zeta. rewrite Z.sub_diag. change (0 <? 0) with false.
      cbv iota. change (10 ^ 0) with 1. change (1 * 1) with 1.
      rewrite Z.div_1_r. unfold a. now apply number_of_decimal_exact_int.
    + lia.
    + lia.
  - apply Z.leb_gt in E.
    assert (P : 0 < 2 ^ (- e)) by (apply Z.pow_pos_nonneg; lia).
    set (a := Z.pos m). set (b := 2 ^ (- e)). assert (Ha : 0 < a) by (unfold a; lia).
    assert (Hlim : b <= a * 10 ^ 401).
    { assert (b <= 2 ^ 1074) by (apply Z.pow_le_mono_r; lia).
      assert (H1 := pow2_le_pow10). nia. }
    assert (Hm := decimal_magnitude_spec a b Ha P Hlim).
    set (n0 := decimal_magnitude a b) in *.
    assert (Hn : 1 <= n0 - e).
    { unfold magnitude in Hm. destruct (0 <? n0) eqn:En.
      - apply Z.ltb_lt in En. lia.
      - apply Z.ltb_ge in En. destruct Hm as [_ Hm].
        assert (H1 : 10 ^ (- n0) < 10 ^ (- e)).
        { assert (0 < 10 ^ (- n0)) by (apply Z.pow_pos_nonneg; lia).
          assert (b <= 10 ^ (- e)) by (apply Z.pow_le_mono_l; lia). nia. }
        apply pow10_lt_inv in H1; lia. }
    apply (shortest_digits_spec m e a b n0 (n0 - e) Ha P Hm).
    + unfold sd_lo. cbv zeta.
      replace (n0 - (n0 - e)) with e by lia.
      replace (e <? 0) with true by (symmetry; apply Z.ltb_lt; lia).
      cbv iota. unfold a, b. rewrite (pow10_split (- e)) by lia.
      rewrite Z.mul_assoc, Z.div_mul by lia.
      assert (H := number_of_decimal_exact_frac false m (- e)).
      rewrite Z.opp_involutive in H. apply H; [exact Hb|lia].
    + lia.
    + lia.
Qed.

(** *** The numeral that [Number::toString] writes *)

Lemma positive_to_string_layout (s n : Z) :
  0 < s ->
  (let ds := Z_to_string s in
   let k := Z.of_nat (List.length ds) in
   if (k <=? n) && (n <=? 21) then ds ++ zeros (n - k)
   else if (0 <? n) && (n <=? 21) then
     firstn (Z.to_nat n) ds ++ lit "." ++ skipn (Z.to_nat n) ds
   else if (-6 <? n) && (n <=? 0) then lit "0." ++ zeros (- n) ++ ds
   else
     let x := n - 1 in
     let sg := if x <? 0 then lit "-" else lit "+" in
     match ds with
     | [d] => [d] ++ lit "e" ++ sg ++ Z_to_string (Z.abs x)
     | d :: r => [d] ++ lit "." ++ r ++ lit "e" ++ sg ++ Z_to_string (Z.abs x)
     | [] => []
     end)
  = numeral_body (printed false s n).
Proof.
  intros Hs. unfold printed. cbv zeta.
  destruct (Z_to_string_head s Hs) as [c [t [E _]]].
  set (ds := Z_to_string s) in *.
  set (k := Z.of_nat (List.length ds)).
  destruct ((k <=? n) && (n <=? 21)).
  { unfold numeral_body. cbn [num_int num_point num_exp].
    now rewrite !app_nil_r. }
  destruct ((0 <? n) && (n <=? 21)).
  { unfold numeral_body. cbn [num_int num_point num_exp].
    now rewrite !app_nil_r. }
  destruct ((-6 <? n) && (n <=? 0)).
  { unfold numeral_body. cbn [num_int num_point num_exp].
    now rewrite !app_nil_r. }
  unfold numeral_body. cbn [num_int num_point num_exp].
  rewrite E. destruct t as [|c' t]; cbn [firstn skipn].
  - destruct (n - 1 <? 0); reflexivity.
  - destruct (n - 1 <? 0); cbn [sign_text app]; rewrite <- ?app_assoc; reflexivity.
Qed.

Lemma number_to_string_printed (neg : bool) (m : positive) (e : Z) :
  bounded prec emax m e = true ->
  exists s n k,
    1 <= k /\ 10 ^ (k - 1) <= s < 10 ^ k
    /\ number_of_decimal neg s (n - k) = S754_finite neg m e
    /\ number_to_string (S754_finite neg m e) = numeral_text (printed neg s n).
Proof.
  intros Hb. destruct (positive_digits m e Hb) as [s [n [k [E [Hk [Hs Hv]]]]]].
  exists s, n, k. split; [exact Hk|]. split; [exact Hs|].
  split; [now apply number_of_decimal_finite|].
  assert (Hpos : 0 < s).
  { assert (0 < 10 ^ (k - 1)) by (apply Z.pow_pos_nonneg; lia). lia. }
  assert (Hp : positive_to_string m e = numeral_body (printed false s n)).
  { unfold positive_to_string. cbv zeta in E |- *. rewrite E.
    apply (positive_to_string_layout s n Hpos). }
  cbn [number_to_string]. rewrite Hp, numeral_text_body.
  assert (Hbody : numeral_body (printed neg s n) = numeral_body (printed false s n)).
  { unfold printed. cbv zeta.
    destruct ((_ <=? n) && (n <=? 21)); [reflexivity|].
    destruct ((0 <? n) && (n <=? 21)); [reflexivity|].
    destruct ((-6 <? n) && (n <=? 0)); reflexivity. }
  rewrite Hbody.
  assert (Hsg : num_sign (printed neg s n) = if neg then Some true else None).
  { unfold printed. cbv zeta.
    destruct ((_ <=? n) && (n <=? 21)); [reflexivity|].
    destruct ((0 <? n) && (n <=? 21)); [reflexivity|].
    destruct ((-6 <? n) && (n <=? 0)); reflexivity. }
  rewrite Hsg. destruct neg; reflexivity.
Qed.

Lemma zeros_digits (j : Z) : forallb is_digit (zeros j) = true.
Proof.
  unfold zeros. induction (Z.to_nat j) as [|i IH]; [reflexivity|].
  cbn [repeat forallb]. now rewrite IH.
Qed.

Lemma zeros_length (j : Z) : 0 <= j -> Z.of_nat (List.length (zeros j)) = j.
Proof. intros Hj. unfold zeros. rewrite repeat_length. lia. Qed.

Lemma zeros_value (j : Z) : digits_value (zeros j) = 0.
Proof.
  unfold zeros. induction (Z.to_nat j) as [|i IH]; [reflexivity|].
  cbn [repeat]. rewrite digits_value_cons, IH. reflexivity.
Qed.

Lemma forallb_firstn {A : Type} (f : A -> bool) (n : nat) (l : list A) :
  forallb f l = true -> forallb f (firstn n l) = true.
Proof.
  revert n. induction l as [|x l IH]; intros [|n] H; try reflexivity.
  cbn [firstn forallb] in *. apply andb_true_iff in H as [-> H]. now apply IH.
Qed.

Lemma forallb_skipn {A : Type} (f : A -> bool) (n : nat) (l : list A) :
  forallb f l = true -> forallb f (skipn n l) = true.
Proof.
  revert n. induction l as [|x l IH]; intros [|n] H; try reflexivity; try exact H.
  cbn [skipn forallb] in *. apply andb_true_iff in H as [_ H]. now apply IH.
Qed.

Lemma number_of_decimal_shift (neg : bool) (s p : Z) :
  0 < s -> 0 <= p ->
  number_of_decimal neg (s * 10 ^ p) 0 = number_of_decimal neg s p.
Proof.
  intros Hs Hp. unfold number_of_decimal.
  assert (P : 0 < 10 ^ p) by (apply Z.pow_pos_nonneg; lia).
  destruct s as [|q|q]; try lia.
  destruct (Z.pos q * 10 ^ p) as [|t|t] eqn:E; try lia.
  change (0 <=? 0) with true. cbv iota.
  replace (0 <=? p) with true by (symmetry; apply Z.leb_le; lia).
  change (10 ^ 0) with 1. rewrite Z.mul_1_r. reflexivity.
Qed.

Section Printed.
Variables (neg : bool) (s n k : Z).
Hypothesis Hk : 1 <= k.
Hypothesis Hs : 10 ^ (k - 1) <= s < 10 ^ k.

Lemma printed_pos : 0 < s.
Proof. assert (0 < 10 ^ (k - 1)) by (apply Z.pow_pos_nonneg; lia). lia. Qed.

Lemma printed_length : Z.of_nat (List.length (Z_to_string s)) = k.
Proof. apply Z_to_string_length_eq; [lia|exact Hs]. Qed.

Lemma printed_sign :
  match num_sign (printed neg s n) with Some true => true | _ => false end = neg.
Proof.
  unfold printed. cbv zeta.
  destruct ((_ <=? n) && (n <=? 21)); [now destruct neg|].
  destruct ((0 <? n) && (n <=? 21)); [now destruct neg|].
  destruct ((-6 <? n) && (n <=? 0)); now destruct neg.
Qed.

Lemma printed_ok : numeral_ok (printed neg s n) = true.
Proof.
  assert (Hpos := printed_pos).
  assert (Hd := Z_to_string_digits s ltac:(lia)).
  destruct (Z_to_string_head s Hpos) as [c [t [E [Hc Hc0]]]].
  unfold printed. cbv zeta. set (ds := Z_to_string s) in *.
  destruct ((Z.of_nat (List.length ds) <=? n) && (n <=? 21)).
  { unfold numeral_ok, num_frac. cbn [num_int num_point num_exp].
    rewrite forallb_app, Hd, zeros_digits. rewrite E. reflexivity. }
  destruct ((0 <? n) && (n <=? 21)) eqn:E2.
  { unfold numeral_ok, num_frac. cbn [num_int num_point num_exp].
    rewrite forallb_firstn, forallb_skipn by exact Hd.
    rewrite firstn_skipn, E. reflexivity. }
  destruct ((-6 <? n) && (n <=? 0)) eqn:E3.
  { unfold numeral_ok, num_frac. cbn [num_int num_point num_exp].
    rewrite forallb_app, zeros_digits, Hd. reflexivity. }
  unfold numeral_ok, num_frac. cbn [num_int num_point num_exp].
  assert (Hx : 0 < Z.abs (n - 1)).
  { destruct (Z.eq_dec n 1) as [->|Hn]; [|lia].
    exfalso. cbn in E2. discriminate. }
  destruct (Z_to_string_head _ Hx) as [c1 [t1 [E1 _]]].
  rewrite Z_to_string_digits by lia. rewrite E1.
  rewrite E in Hd |- *. cbn [forallb] in Hd.
  apply andb_true_iff in Hd as [Hdc Hdt].
  destruct t as [|c' t]; cbn [firstn skipn forallb app str_eqb negb andb].
  - now rewrite Hdc.
  - cbn [forallb] in Hdt. now rewrite Hdc, Hdt.
Qed.

Lemma printed_value :
  numeral_value (printed neg s n) = number_of_decimal neg s (n - k).
Proof.
  assert (Hpos := printed_pos). assert (Hlen := printed_length).
  assert (Hv := Z_to_string_value s ltac:(lia)).
  destruct (Z_to_string_head s Hpos) as [c [t [E _]]].
  unfold numeral_value. rewrite printed_sign.
  unfold printed. cbv zeta. set (ds := Z_to_string s) in *.
  rewrite Hlen.
  destruct ((k <=? n) && (n <=? 21)) eqn:E1.
  { apply andb_true_iff in E1 as [L1 _]. apply Z.leb_le in L1.
    unfold num_frac. cbn [num_int num_point num_exp].
    rewrite app_nil_r, digits_value_app, zeros_value, zeros_length, Hv by lia.
    cbn [List.length]. rewrite Z.add_0_r.
    change (0 - Z.of_nat 0) with 0. now apply number_of_decimal_shift; lia. }
  destruct ((0 <? n) && (n <=? 21)) eqn:E2.
  { apply andb_true_iff in E2 as [L2 L3]. apply Z.ltb_lt in L2.
    apply andb_false_iff in E1. rewrite L3 in E1.
    destruct E1 as [E1|E1]; [|discriminate]. apply Z.leb_gt in E1.
    unfold num_frac. cbn [num_int num_point num_exp].
    rewrite firstn_skipn, Hv. f_equal.
    rewrite length_skipn. lia. }
  destruct ((-6 <? n) && (n <=? 0)) eqn:E3.
  { apply andb_true_iff in E3 as [L2 L3]. apply Z.leb_le in L3.
    unfold num_frac. cbn [num_int num_point num_exp].
    change (lit "0" ++ zeros (- n) ++ ds) with ((48%N :: zeros (- n)) ++ ds).
    rewrite digits_value_app, Hv, digits_value_cons, zeros_value.
    change (digit_val 48%N) with 0.
    replace ((0 * 10 ^ Z.of_nat (List.length (zeros (- n))) + 0)
             * 10 ^ Z.of_nat (List.length ds) + s) with s by ring.
    f_equal. rewrite length_app, Nat2Z.inj_add, zeros_length by lia. lia. }
  unfold num_frac. cbn [num_int num_point num_exp].
  assert (Hx : digits_value (Z_to_string (Z.abs (n - 1))) = Z.abs (n - 1))
    by (apply Z_to_string_value; lia).
  rewrite Hx.
  clearbody ds. subst ds. f_equal.
  - rewrite <- Hv. destruct t as [|c' t]; reflexivity.
  - destruct (n - 1 <? 0) eqn:En;
      [apply Z.ltb_lt in En|apply Z.ltb_ge in En];
      destruct t as [|c' t]; cbn [skipn List.length] in *; lia.
Qed.

End Printed.

(** *** Reading a written number back *)

Lemma numeral_stops_nil (n : numeral) : numeral_stops n [] = true.
Proof.
  unfold numeral_stops. cbn [starts_with_digit negb andb exponent_start].
  destruct (num_exp n); [reflexivity|]. destruct (num_point n); reflexivity.
Qed.

Lemma parseFloat_number_to_string (neg : bool) (m : positive) (e : Z) :
  bounded prec emax m e = true ->
  parseFloat (number_to_string (S754_finite neg m e)) = S754_finite neg m e.
Proof.
  intros Hb.
  destruct (number_to_string_printed neg m e Hb) as [s [n [k [Hk [Hs [Hv Ht]]]]]].
  rewrite Ht.
  assert (H := parseFloat_numeral [] (printed neg s n) [] eq_refl
                 (printed_ok neg s n k Hk Hs) (numeral_stops_nil _)).
  rewrite app_nil_r in H. cbn [app] in H.
  rewrite H, (printed_value neg s n k Hk Hs). exact Hv.
Qed.

(** ** JSON texts that are written and read back *)

(** *** JSON numbers *)

Lemma json_stop_digit (r : str) : json_stop r = true -> starts_with_digit r = false.
Proof.
  destruct r as [|c r]; [reflexivity|]. cbn [json_stop starts_with_digit].
  destruct (is_digit c); [discriminate|reflexivity].
Qed.

Lemma json_number_numeral (n : numeral) (r : str) :
  numeral_ok n = true -> json_numeral n = true -> json_stop r = true ->
  json_number (numeral_text n ++ r) = Some (numeral_value n, r).
Proof.
  destruct n as [sg int point ex].
  unfold numeral_ok, json_numeral, numeral_text, numeral_value, num_frac.
  cbn [num_sign num_int num_point num_exp].
  intros Hok Hj Hr.
  apply andb_true_iff in Hok as [Hok Hex].
  apply andb_true_iff in Hok as [Hok _].
  apply andb_true_iff in Hok as [Hint Hfrac].
  apply andb_true_iff in Hj as [Hj Hpt].
  apply andb_true_iff in Hj as [Hsg Hlead].
  assert (Hrd := json_stop_digit r Hr).
  set (etext := match ex with
                | Some (upper, s, d) =>
                    (if upper then lit "E" else lit "e") ++ sign_text s ++ d
                | None => []
                end) in *.
  set (ptext := match point with Some f => lit "." ++ f | None => [] end) in *.
  set (frac := match point with Some f => f | None => [] end) in *.
  set (rest2 := etext ++ r).
  set (rest1 := ptext ++ rest2).
  set (neg := match sg with Some true => true | _ => false end).
  replace ((sign_text sg ++ int ++ ptext ++ etext) ++ r)
    with (sign_text sg ++ int ++ rest1)
    by (unfold rest1, rest2; now rewrite <- !app_assoc).
  destruct int as [|c int]; [discriminate|].
  cbn [forallb] in Hint. apply andb_true_iff in Hint as [Hc Hint].
  destruct (digit_not_sign c Hc) as [_ [Hc45 _]].
  (* the exponent and what follows *)
  assert (H2 : starts_with_digit rest2 = false
               /\ match rest2 with c2 :: _ => N.eqb c2 46 = false | [] => True end).
  { unfold rest2, etext. destruct ex as [[[upper s] d]|].
    - destruct upper; split; reflexivity.
    - cbn [app]. split; [exact Hrd|]. destruct r as [|c2 r]; [exact I|].
      cbn [json_stop] in Hr. destruct (N.eqb c2 46); [|reflexivity].
      rewrite andb_false_r in Hr. cbn in Hr. 
      destruct (is_digit c2); discriminate. }
  destruct H2 as [Hd2 Hp2].
  assert (H1 : starts_with_digit rest1 = false).
  { unfold rest1, ptext. destruct point; [reflexivity|exact Hd2]. }
  unfold json_number.
  (* the sign *)
  match goal with
  | |- (let '(_, _) := ?X in _) = _ =>
      assert (Hs : X = (neg, (c :: int) ++ rest1))
  end.
  { destruct sg as [[|]|]; [reflexivity|discriminate|].
    cbn [sign_text app]. now rewrite Hc45. }
  rewrite Hs. clear Hs. cbv beta iota.
  (* the integer part *)
  match goal with
  | |- (let '(_, _) := ?X in _) = _ =>
      assert (Hi : X = (c :: int, rest1))
  end.
  { cbn [app]. destruct (N.eqb c 48) eqn:E0.
    - cbn [negb orb] in Hlead. destruct int; [reflexivity|discriminate].
    - change (c :: int ++ rest1) with ((c :: int) ++ rest1).
      apply span_digits_stop; [|exact H1]. cbn [forallb]. now rewrite Hc, Hint. }
  rewrite Hi. clear Hi. cbv beta iota.
  (* the fraction *)
  match goal with
  | |- match ?X with Some _ => _ | None => _ end = _ =>
      assert (Hf : X = Some (frac, rest2))
  end.
  { unfold rest1, ptext, frac. destruct point as [f|].
    - change ((lit "." ++ f) ++ rest2) with (46%N :: f ++ rest2).
      change (N.eqb 46 46) with true. cbv iota.
      rewrite (span_digits_stop f rest2 Hfrac Hd2).
      destruct f; [discriminate|reflexivity].
    - cbn [app]. destruct rest2 as [|c2 r2]; [reflexivity|]. now rewrite Hp2. }
  rewrite Hf. clear Hf. cbv beta iota.
  (* the exponent *)
  unfold rest2 at 1. unfold etext at 1.
  destruct ex as [[[upper s] d]|].
  - apply andb_true_iff in Hex as [Hd Hdne].
    apply negb_true_iff, str_eqb_nil in Hdne.
    destruct d as [|cd d]; [contradiction|].
    assert (Hcd : is_digit cd = true).
    { cbn [forallb] in Hd. now apply andb_true_iff in Hd as [Hcd _]. }
    destruct (digit_not_sign cd Hcd) as [Hcd43 [Hcd45 _]].
    assert (Hsp := span_digits_stop (cd :: d) r Hd Hrd).
    assert (He : exists c0 r0,
               ((if upper then lit "E" else lit "e") ++ sign_text s ++ cd :: d) ++ r
               = c0 :: r0 /\ (N.eqb c0 101 || N.eqb c0 69)%bool = true
               /\ match r0 with
                  | g :: r' =>
                      if N.eqb g 43 then (1, r')
                      else if N.eqb g 45 then (-1, r') else (1, r0)
                  | [] => (1, r0)
                  end = (match s with Some true => -1 | _ => 1 end,
                         (cd :: d) ++ r)).
    { destruct upper.
      - exists 69%N, ((sign_text s ++ cd :: d) ++ r). split; [reflexivity|].
        split; [reflexivity|].
        destruct s as [[|]|]; [reflexivity|reflexivity|].
        cbn [sign_text app]. now rewrite Hcd43, Hcd45.
      - exists 101%N, ((sign_text s ++ cd :: d) ++ r). split; [reflexivity|].
        split; [reflexivity|].
        destruct s as [[|]|]; [reflexivity|reflexivity|].
        cbn [sign_text app]. now rewrite Hcd43, Hcd45. }
    destruct He as [c0 [r0 [E0 [E1 E2]]]]. rewrite E0, E1, E2, Hsp.
    cbv beta iota. f_equal. f_equal. f_equal.
    destruct s as [[|]|]; lia.
  - cbn [app]. destruct r as [|c0 r0]; [reflexivity|].
    cbn [json_stop] in Hr.
    apply andb_true_iff in Hr as [Hr H69]. apply andb_true_iff in Hr as [_ H101].
    apply negb_true_iff in H69, H101. now rewrite H101, H69.
Qed.

Lemma json_stop_numeral (n : numeral) (r : str) :
  json_stop r = true -> numeral_stops n r = true.
Proof.
  intros H. unfold numeral_stops. rewrite (json_stop_digit r H). cbn [negb andb].
  destruct (num_exp n); [reflexivity|].
  destruct r as [|c r]; [now destruct (num_point n)|].
  cbn [json_stop] in H.
  apply andb_true_iff in H as [H H69]. apply andb_true_iff in H as [H H101].
  apply andb_true_iff in H as [_ H46].
  apply negb_true_iff in H69, H101, H46.
  unfold exponent_start. rewrite H101, H69. cbn [orb andb negb].
  destruct (num_point n); [reflexivity|].
  change (startsWith (lit ".") (c :: r)) with (N.eqb 46 c && true).
  now rewrite N.eqb_sym, H46.
Qed.

Lemma printed_json (neg : bool) (s n k : Z) :
  1 <= k -> 10 ^ (k - 1) <= s < 10 ^ k -> json_numeral (printed neg s n) = true.
Proof.
  intros Hk Hs. assert (Hpos := printed_pos s k Hk Hs).
  assert (Hlen := printed_length s k Hk Hs).
  destruct (Z_to_string_head s Hpos) as [c [t [E [Hc Hc0]]]].
  unfold printed. cbv zeta. set (ds := Z_to_string s) in *.
  clearbody ds. subst ds. rewrite Hlen.
  destruct ((k <=? n) && (n <=? 21)) eqn:E1.
  { unfold json_numeral. cbn [num_sign num_int num_point app].
    rewrite Hc0. now destruct neg. }
  destruct ((0 <? n) && (n <=? 21)) eqn:E2.
  { apply andb_true_iff in E2 as [L2 L3]. apply Z.ltb_lt in L2.
    rewrite L3, andb_true_r in E1. apply Z.leb_gt in E1.
    unfold json_numeral. cbn [num_sign num_int num_point].
    destruct (Z.to_nat n) as [|i] eqn:Ei; [lia|]. cbn [firstn skipn].
    rewrite Hc0. cbn [negb orb andb].
    assert (Hsk : skipn i t <> []).
    { intros Hnil. apply (f_equal (@List.length _)) in Hnil.
      rewrite length_skipn in Hnil. cbn [List.length] in Hnil, Hlen. lia. }
    destruct (skipn i t); [contradiction|]. now destruct neg. }
  destruct ((-6 <? n) && (n <=? 0)) eqn:E3.
  { unfold json_numeral. cbn [num_sign num_int num_point].
    change (N.eqb 48 48) with true. cbn [negb orb andb].
    destruct (zeros (- n)); now destruct neg. }
  unfold json_numeral. cbn [num_sign num_int num_point firstn].
  rewrite Hc0. destruct t; now destruct neg.
Qed.

Lemma json_number_number_to_string (neg : bool) (m : positive) (e : Z) (r : str) :
  bounded prec emax m e = true -> json_stop r = true ->
  json_number (number_to_string (S754_finite neg m e) ++ r)
  = Some (S754_finite neg m e, r).
Proof.
  intros Hb Hr.
  destruct (number_to_string_printed neg m e Hb) as [s [n [k [Hk [Hs [Hv Ht]]]]]].
  rewrite Ht, json_number_numeral.
  - now rewrite (printed_value neg s n k Hk Hs), Hv.
  - exact (printed_ok neg s n k Hk Hs).
  - exact (printed_json neg s n k Hk Hs).
  - exact Hr.
Qed.

Lemma json_number_zero (r : str) :
  json_stop r = true -> json_number (lit "0" ++ r) = Some (S754_zero false, r).
Proof.
  intros Hr.
  apply (json_number_numeral
           {| num_sign := None; num_int := lit "0"; num_point := None;
              num_exp := None |} r); [reflexivity|reflexivity|exact Hr].
Qed.

(** *** JSON strings *)

Lemma hex_val_digit (x : N) : (x < 16)%N -> hex_val (hex_digit x) = Some x.
Proof.
  intros H. unfold hex_digit, hex_val.
  destruct (x <? 10)%N eqn:E.
  - apply N.ltb_lt in E.
    replace ((48 <=? 48 + x) && (48 + x <=? 57))%N with true.
    + f_equal. lia.
    + symmetry. apply andb_true_iff. split; apply N.leb_le; lia.
  - apply N.ltb_ge in E.
    replace ((48 <=? 87 + x) && (87 + x <=? 57))%N with false.
    + replace ((97 <=? 87 + x) && (87 + x <=? 102))%N with true.
      * f_equal. lia.
      * symmetry. apply andb_true_iff. split; apply N.leb_le; lia.
    + symmetry. apply andb_false_iff. right. apply N.leb_gt. lia.
Qed.

Lemma hex_split (c : N) :
  (c < 65536)%N ->
  ((c / 4096 mod 16) * 4096 + (c / 256 mod 16) * 256 + (c / 16 mod 16) * 16
   + c mod 16 = c)%N.
Proof.
  intros H.
  assert (E1 : (c / 256 = c / 16 / 16)%N) by (rewrite N.Div0.div_div; reflexivity).
  assert (E2 : (c / 4096 = c / 16 / 16 / 16)%N)
    by (rewrite !N.Div0.div_div; reflexivity).
  rewrite E1, E2.
  assert (H0 := N.Div0.div_mod c 16).
  assert (B0 := N.mod_lt c 16 ltac:(discriminate)).
  set (x1 := (c / 16)%N) in *.
  assert (H1 := N.Div0.div_mod x1 16).
  assert (B1 := N.mod_lt x1 16 ltac:(discriminate)).
  set (x2 := (x1 / 16)%N) in *.
  assert (H2 := N.Div0.div_mod x2 16).
  assert (B2 := N.mod_lt x2 16 ltac:(discriminate)).
  set (x3 := (x2 / 16)%N) in *.
  assert (H3 := N.Div0.div_mod x3 16).
  assert (B3 := N.mod_lt x3 16 ltac:(discriminate)).
  set (y3 := (x3 / 16)%N) in *.
  set (r0 := (c mod 16)%N) in *. set (r1 := (x1 mod 16)%N) in *.
  set (r2 := (x2 mod 16)%N) in *. set (r3 := (x3 mod 16)%N) in *.
  clearbody r0 r1 r2 r3 y3 x3 x2 x1. lia.
Qed.

Lemma unicode_escape_read (c : char) (t : str) :
  (c < 65536)%N ->
  json_string_body (unicode_escape c ++ t)
  = match json_string_body t with
    | Some (u, rest) => Some (c :: u, rest)
    | None => None
    end.
Proof.
  intros H. unfold unicode_escape.
  change (lit "\u") with [92%N; 117%N]. cbn [app].
  cbn [json_string_body].
  change (N.eqb 92 34) with false. change (N.eqb 92 92) with true.
  change (N.eqb 117 34) with false. change (N.eqb 117 92) with false.
  change (N.eqb 117 47) with false. change (N.eqb 117 98) with false.
  change (N.eqb 117 102) with false. change (N.eqb 117 110) with false.
  change (N.eqb 117 114) with false. change (N.eqb 117 116) with false.
  change (N.eqb 117 117) with true. cbv iota.
  rewrite !hex_val_digit by (apply N.mod_lt; discriminate).
  destruct (json_string_body t) as [[u rest]|]; [|reflexivity].
  now rewrite hex_split.
Qed.

Lemma json_string_body_raw (c : char) (t : str) :
  N.eqb c 34 = false -> N.eqb c 92 = false -> (c <? 32)%N = false ->
  json_string_body (c :: t)
  = match json_string_body t with
    | Some (u, rest) => Some (c :: u, rest)
    | None => None
    end.
Proof. intros H1 H2 H3. cbn [json_string_body]. now rewrite H1, H2, H3. Qed.

Lemma surrogate_raw (c : char) :
  (is_high_surrogate c || is_low_surrogate c)%bool = true ->
  N.eqb c 34 = false /\ N.eqb c 92 = false /\ (c <? 32)%N = false
  /\ (c < 65536)%N.
Proof.
  unfold is_high_surrogate, is_low_surrogate. intros H.
  apply orb_true_iff in H as [H|H]; apply andb_true_iff in H as [H1 H2];
    apply N.leb_le in H1, H2; repeat split;
    try (apply N.eqb_neq; lia); try (apply N.ltb_ge; lia); lia.
Qed.

Lemma json_string_body_quote_aux (n : nat) :
  forall s, (List.length s <= n)%nat ->
  forall rest,
    json_string_body (json_quote_body s ++ 34%N :: rest) = Some (s, rest).
Proof.
  induction n as [|n IH]; intros s Hlen rest.
  { destruct s; [reflexivity|cbn in Hlen; lia]. }
  destruct s as [|c s]; [reflexivity|].
  assert (IHs : forall rest, json_string_body (json_quote_body s ++ 34%N :: rest)
                             = Some (s, rest)).
  { intros rest'. apply IH. cbn in Hlen. lia. }
  cbn [json_quote_body].
  destruct (N.eqb c 8) eqn:E8.
  { apply N.eqb_eq in E8. subst c. change (lit "\b") with [92%N; 98%N].
    cbn [app json_string_body N.eqb Pos.eqb]. now rewrite IHs. }
  destruct (N.eqb c 9) eqn:E9.
  { apply N.eqb_eq in E9. subst c. change (lit "\t") with [92%N; 116%N].
    cbn [app json_string_body N.eqb Pos.eqb]. now rewrite IHs. }
  destruct (N.eqb c 10) eqn:E10.
  { apply N.eqb_eq in E10. subst c. change (lit "\n") with [92%N; 110%N].
    cbn [app json_string_body N.eqb Pos.eqb]. now rewrite IHs. }
  destruct (N.eqb c 12) eqn:E12.
  { apply N.eqb_eq in E12. subst c. change (lit "\f") with [92%N; 102%N].
    cbn [app json_string_body N.eqb Pos.eqb]. now rewrite IHs. }
  destruct (N.eqb c 13) eqn:E13.
  { apply N.eqb_eq in E13. subst c. change (lit "\r") with [92%N; 114%N].
    cbn [app json_string_body N.eqb Pos.eqb]. now rewrite IHs. }
  destruct (N.eqb c 34) eqn:E34.
  { apply N.eqb_eq in E34. subst c.
    cbn [app json_string_body N.eqb Pos.eqb]. now rewrite IHs. }
  destruct (N.eqb c 92) eqn:E92.
  { apply N.eqb_eq in E92. subst c.
    cbn [app json_string_body N.eqb Pos.eqb]. now rewrite IHs. }
  destruct (c <? 32)%N eqn:E32.
  { apply N.ltb_lt in E32. rewrite <- app_assoc.
    rewrite unicode_escape_read by lia. now rewrite IHs. }
  destruct (is_high_surrogate c) eqn:Eh.
  { destruct (surrogate_raw c) as [_ [_ [_ Hc]]]; [now rewrite Eh|].
    destruct s as [|d s].
    - rewrite unicode_escape_read by exact Hc. reflexivity.
    - destruct (is_low_surrogate d) eqn:El.
      + destruct (surrogate_raw d) as [D1 [D2 [D3 _]]];
          [now rewrite El, orb_true_r|].
        cbn [app]. rewrite json_string_body_raw by assumption.
        rewrite json_string_body_raw by assumption.
        rewrite IH; [reflexivity|]. cbn in Hlen |- *. lia.
      + rewrite <- app_assoc. rewrite unicode_escape_read by exact Hc.
        now rewrite IHs. }
  destruct (is_low_surrogate c) eqn:El.
  { destruct (surrogate_raw c) as [_ [_ [_ Hc]]]; [now rewrite El, orb_true_r|].
    rewrite <- app_assoc. rewrite unicode_escape_read by exact Hc.
    now rewrite IHs. }
  cbn [app]. rewrite json_string_body_raw by assumption. now rewrite IHs.
Qed.

Lemma json_string_body_quote (s rest : str) :
  json_string_body (json_quote_body s ++ 34%N :: rest) = Some (s, rest).
Proof. now apply (json_string_body_quote_aux (List.length s)). Qed.

(** *** JSON values *)

Lemma json_size_arr (l : list jsval) : json_size (JArr l) = S (elements_size l).
Proof.
  cbn [json_size]. f_equal.
Qed.

Lemma json_size_obj (o : list (str * jsval)) :
  json_size (JObj o) = S (members_size o).
Proof.
  cbn [json_size]. f_equal. induction o as [|[k x] o IH]; [reflexivity|].
  cbn [members_size fold_right snd]. f_equal. f_equal. exact IH.
Qed.

Lemma json_norm_obj (o : list (str * jsval)) :
  json_norm (JObj o) = JObj (norm_members o).
Proof.
  cbn [json_norm]. f_equal. induction o as [|[k x] o IH]; [reflexivity|].
  cbn [norm_members List.map fst snd]. now rewrite IH.
Qed.

Lemma json_wf_arr (l : list jsval) : json_wf (JArr l) <-> Forall json_wf l.
Proof.
  cbn [json_wf]. induction l as [|x l IH].
  - split; [constructor|exact (fun _ => I)].
  - rewrite IH. split.
    + intros [H1 H2]. now constructor.
    + intros H. inversion H. now split.
Qed.

Lemma json_wf_obj (o : list (str * jsval)) :
  json_wf (JObj o) <->
  ordered (List.map fst o) = true /\ NoDup (List.map fst o)
  /\ Forall (fun kv => json_wf (snd kv)) o.
Proof.
  cbn [json_wf].
  assert (H : (fix all (o : list (str * jsval)) : Prop :=
                 match o with
                 | [] => True
                 | (_, x) :: r => json_wf x /\ all r
                 end) o <-> Forall (fun kv => json_wf (snd kv)) o).
  { induction o as [|[k x] o IH].
    - split; [constructor|exact (fun _ => I)].
    - rewrite IH. split.
      + intros [H1 H2]. now constructor.
      + intros H. inversion H. now split. }
  rewrite H. tauto.
Qed.

(** *** White space *)

Lemma json_skip_blank (ws s : str) :
  forallb json_ws ws = true -> json_skip (ws ++ s) = json_skip s.
Proof.
  induction ws as [|c ws IH]; [reflexivity|]. cbn [forallb app json_skip].
  intros H. apply andb_true_iff in H as [-> H]. now apply IH.
Qed.

Lemma json_skip_head (c : char) (s : str) :
  json_ws c = false -> json_skip (c :: s) = c :: s.
Proof. intros H. cbn [json_skip]. now rewrite H. Qed.

Lemma json_value_blank (fuel : nat) (ws s : str) :
  forallb json_ws ws = true -> json_value fuel (ws ++ s) = json_value fuel s.
Proof.
  intros H. destruct fuel; [reflexivity|]. cbn [json_value].
  now rewrite json_skip_blank.
Qed.

Lemma json_elements_blank (fuel : nat) (ws s : str) :
  forallb json_ws ws = true -> json_elements fuel (ws ++ s) = json_elements fuel s.
Proof.
  intros H. destruct fuel; [reflexivity|]. cbn [json_elements].
  now rewrite json_value_blank.
Qed.

(** *** The texts of values *)

Lemma json_stringify_defined (gap indent : str) (v : jsval) :
  v <> JUndef -> json_stringify gap indent v = Some (array_item gap indent v).
Proof.
  intros H. unfold array_item.
  destruct v; try reflexivity; now contradiction H.
Qed.

Lemma json_wf_defined (v : jsval) : json_wf v -> v <> JUndef.
Proof. intros H ->. exact H. Qed.

Lemma json_wrap_form (gap indent o c p : str) (ps : list str) :
  json_wrap gap indent o c (p :: ps)
  = o ++ wrap_pre gap indent
      ++ join (lit "," ++ wrap_pre gap indent) (p :: ps)
      ++ wrap_post gap indent ++ c.
Proof.
  unfold json_wrap, wrap_pre, wrap_post. destruct gap as [|g gap].
  - cbn [app]. now rewrite app_nil_r.
  - now rewrite <- !app_assoc.
Qed.

Lemma wrap_pre_blank (gap indent : str) :
  forallb json_ws gap = true -> forallb json_ws indent = true ->
  forallb json_ws (wrap_pre gap indent) = true.
Proof.
  intros Hg Hi. unfold wrap_pre. destruct gap as [|g gap]; [reflexivity|].
  cbn [app forallb]. rewrite forallb_app, Hi, Hg. reflexivity.
Qed.

Lemma wrap_post_blank (gap indent : str) :
  forallb json_ws indent = true ->
  forallb json_ws (wrap_post gap indent) = true.
Proof.
  intros Hi. unfold wrap_post. destruct gap as [|g gap]; [reflexivity|].
  cbn [app forallb]. now rewrite Hi.
Qed.

Lemma object_items_defined (gap indent : str) (o : list (str * jsval)) :
  Forall (fun kv => json_wf (snd kv)) o ->
  object_items gap indent o = List.map (member_text gap indent) o.
Proof.
  intros H. induction H as [|[k x] o Hx Ho IH]; [reflexivity|].
  unfold object_items in *. cbn [flat_map List.map fst snd] in *.
  rewrite IH. cbn [snd] in Hx.
  rewrite (json_stringify_defined gap indent x (json_wf_defined x Hx)).
  reflexivity.
Qed.

Lemma json_ws_stop (c : char) (r : str) : json_ws c = true -> json_stop (c :: r) = true.
Proof.
  unfold json_ws. intros H.
  repeat (apply orb_true_iff in H as [H|H]); apply N.eqb_eq in H; subst c;
    reflexivity.
Qed.

Lemma json_stop_close (post : str) (c : char) (rest : str) :
  forallb json_ws post = true -> json_stop (c :: rest) = true ->
  json_stop (post ++ c :: rest) = true.
Proof.
  intros Hp Hc. destruct post as [|w post]; [exact Hc|].
  cbn [forallb] in Hp. apply andb_true_iff in Hp as [Hw _].
  now apply json_ws_stop.
Qed.

Lemma number_text_head (neg : bool) (m : positive) (e : Z) :
  bounded prec emax m e = true ->
  exists c t, number_to_string (S754_finite neg m e) = c :: t
              /\ (is_digit c = true \/ c = 45%N).
Proof.
  intros Hb.
  destruct (number_to_string_printed neg m e Hb) as [s [n [k [Hk [Hs [_ Ht]]]]]].
  assert (Hok := printed_ok neg s n k Hk Hs).
  assert (Hj := printed_json neg s n k Hk Hs).
  rewrite Ht. unfold numeral_text.
  unfold json_numeral in Hj.
  apply andb_true_iff in Hj as [Hj _]. apply andb_true_iff in Hj as [Hsg Hint].
  unfold numeral_ok in Hok. apply andb_true_iff in Hok as [Hok _].
  apply andb_true_iff in Hok as [Hok _]. apply andb_true_iff in Hok as [Hd _].
  destruct (num_sign (printed neg s n)) as [[|]|].
  - exists 45%N. eexists. split; [reflexivity|now right].
  - discriminate.
  - destruct (num_int (printed neg s n)) as [|c int]; [discriminate|].
    cbn [forallb] in Hd. apply andb_true_iff in Hd as [Hc _].
    exists c. eexists. split; [reflexivity|now left].
Qed.

Lemma value_text_head (gap indent : str) (v : jsval) :
  json_wf v ->
  exists c t, array_item gap indent v = c :: t /\ value_start c = true.
Proof.
  intros Hwf. destruct v as [| |b|n|s|l|o].
  - contradiction.
  - eexists _, _. split; reflexivity.
  - destruct b; eexists _, _; split; reflexivity.
  - unfold array_item. cbn [json_stringify].
    destruct n as [sg|sg| |sg m e].
    + eexists _, _. split; reflexivity.
    + eexists _, _. split; reflexivity.
    + eexists _, _. split; reflexivity.
    + cbn [isFinite]. destruct (number_text_head sg m e Hwf) as [c [t [E Hc]]].
      exists c, t. split; [exact E|].
      destruct Hc as [Hc| ->]; [|reflexivity].
      unfold value_start, json_ws.
      repeat (apply andb_true_iff; split); apply negb_true_iff;
        try (repeat (apply orb_false_iff; split)); digit_facts c Hc.
  - eexists _, _. split; reflexivity.
  - unfold array_item. rewrite json_stringify_array.
    destruct (json_wrap_bracket gap indent (lit "[") (lit "]")
                (List.map (array_item gap (indent ++ gap)) l)) as [x ->].
    eexists _, _. split; reflexivity.
  - unfold array_item. rewrite json_stringify_object.
    destruct (json_wrap_bracket gap indent (lit "{") (lit "}")
                (object_items gap (indent ++ gap) o)) as [x ->].
    eexists _, _. split; reflexivity.
Qed.

(** *** Reading the text of a value *)

Lemma elements_read (gap indent : str) (l : list jsval) :
  forallb json_ws gap = true -> forallb json_ws indent = true ->
  Forall reads l -> l <> [] ->
  forall fuel rest pre post,
    forallb json_ws pre = true -> forallb json_ws post = true ->
    (elements_size l <= fuel)%nat ->
    json_elements fuel
      (join (lit "," ++ pre) (List.map (array_item gap indent) l)
       ++ post ++ lit "]" ++ rest)
    = Some (List.map json_norm l, rest).
Proof.
  intros Hg Hi Hl. induction Hl as [|x l Hx Hl IH]; [contradiction|].
  intros _ fuel rest pre post Hpre Hpost Hf.
  cbn [elements_size fold_right] in Hf. fold (elements_size l) in Hf.
  destruct fuel as [|f]; [lia|]. cbn [json_elements].
  destruct l as [|y l].
  - cbn [List.map join].
    rewrite (Hx gap indent f (post ++ lit "]" ++ rest) Hg Hi) by
      (try lia; now apply json_stop_close).
    rewrite json_skip_blank by exact Hpost.
    reflexivity.
  - change (List.map (array_item gap indent) (x :: y :: l))
      with (array_item gap indent x :: array_item gap indent y
            :: List.map (array_item gap indent) l).
    rewrite join_cons, <- !app_assoc.
    change (lit "," ++ pre ++ ?z) with (44%N :: pre ++ z).
    rewrite (Hx gap indent f) by (try lia; assumption || reflexivity).
    rewrite json_skip_head by reflexivity.
    change (N.eqb 44 44) with true. cbv iota.
    rewrite json_elements_blank by exact Hpre.
    change (array_item gap indent y :: List.map (array_item gap indent) l)
      with (List.map (array_item gap indent) (y :: l)).
    rewrite IH; [reflexivity|discriminate|exact Hpre|exact Hpost|].
    cbn [elements_size fold_right] in Hf |- *. lia.
Qed.

Lemma member_text_head (gap indent : str) (kv : str * jsval) (z : str) :
  json_skip (member_text gap indent kv ++ z) = member_text gap indent kv ++ z.
Proof. reflexivity. Qed.

Lemma members_read (gap indent : str) (o : list (str * jsval)) :
  forallb json_ws gap = true -> forallb json_ws indent = true ->
  Forall (fun kv => reads (snd kv)) o -> o <> [] ->
  forall fuel rest pre post acc,
    forallb json_ws pre = true -> forallb json_ws post = true ->
    (members_size o <= fuel)%nat ->
    json_members fuel
      (join (lit "," ++ pre) (List.map (member_text gap indent) o)
       ++ post ++ lit "}" ++ rest) acc
    = Some (fold_left (fun a kv => prop_set a (fst kv) (json_norm (snd kv))) o acc,
            rest).
Proof.
  intros Hg Hi Ho. induction Ho as [|[k x] o Hx Ho IH]; [contradiction|].
  intros _ fuel rest pre post acc Hpre Hpost Hf. cbn [snd] in Hx.
  cbn [members_size fold_right snd] in Hf. fold (members_size o) in Hf.
  destruct fuel as [|f]; [lia|].
  assert (Hcolon : forall z,
             json_skip (match gap with [] => lit ":" | _ => lit ": " end
                        ++ array_item gap indent x ++ z)
             = 58%N :: match gap with [] => [] | _ => lit " " end
                       ++ array_item gap indent x ++ z).
  { intros z. now destruct gap. }
  assert (Hsp : forallb json_ws match gap with [] => [] | _ => lit " " end = true)
    by now destruct gap.
  assert (Hstep : forall tail,
             json_stop tail = true ->
             json_members (S f) (member_text gap indent (k, x) ++ tail) acc
             = match json_skip tail with
               | c2 :: r2 =>
                   if N.eqb c2 44
                   then json_members f (json_skip r2) (prop_set acc k (json_norm x))
                   else if N.eqb c2 125
                        then Some (prop_set acc k (json_norm x), r2)
                        else None
               | [] => None
               end).
  { intros tail Htail. unfold member_text, json_quote. cbn [fst snd].
    rewrite <- !app_assoc. change ([dquote] ++ ?z) with (34%N :: z).
    cbn [json_members]. change (N.eqb 34 34) with true. cbv iota.
    change ([dquote] ++ ?z) with (34%N :: z).
    rewrite json_string_body_quote, Hcolon.
    change (N.eqb 58 58) with true. cbv iota.
    rewrite json_value_blank by exact Hsp.
    rewrite (Hx gap indent f tail Hg Hi) by (try lia; exact Htail).
    reflexivity. }
  destruct o as [|[k' x'] o].
  - cbn [List.map join fold_left fst snd].
    rewrite Hstep by now apply json_stop_close.
    rewrite json_skip_blank by exact Hpost. reflexivity.
  - change (List.map (member_text gap indent) ((k, x) :: (k', x') :: o))
      with (member_text gap indent (k, x) :: member_text gap indent (k', x')
            :: List.map (member_text gap indent) o).
    rewrite join_cons, <- !app_assoc.
    change (lit "," ++ pre ++ ?z) with (44%N :: pre ++ z).
    rewrite Hstep by reflexivity.
    rewrite json_skip_head by reflexivity.
    change (N.eqb 44 44) with true. cbv iota.
    rewrite json_skip_blank by exact Hpre.
    change (member_text gap indent (k', x') :: List.map (member_text gap indent) o)
      with (List.map (member_text gap indent) ((k', x') :: o)).
    assert (Hsk : forall z,
               json_skip (join (lit "," ++ pre)
                            (List.map (member_text gap indent) ((k', x') :: o)) ++ z)
               = join (lit "," ++ pre)
                   (List.map (member_text gap indent) ((k', x') :: o)) ++ z).
    { intros z. cbn [List.map]. destruct (List.map (member_text gap indent) o);
        reflexivity. }
    rewrite Hsk.
    rewrite IH; [reflexivity|discriminate|exact Hpre|exact Hpost|].
    cbn [members_size fold_right snd] in Hf |- *. lia.
Qed.

Lemma fold_prop_set_build {A B : Type} (f : A -> B) (o2 : props A) :
  forall o1,
    ordered (List.map fst (o1 ++ o2)) = true ->
    NoDup (List.map fst (o1 ++ o2)) ->
    fold_left (fun a kv => prop_set a (fst kv) (f (snd kv))) o2
      (List.map (fun kv => (fst kv, f (snd kv))) o1)
    = List.map (fun kv => (fst kv, f (snd kv))) (o1 ++ o2).
Proof.
  induction o2 as [|[k x] o2 IH]; intros o1 Hord Hnd.
  - now rewrite app_nil_r.
  - cbn [fold_left fst snd].
    assert (Hkeys : List.map fst (List.map (fun kv => (fst kv, f (snd kv))) o1)
                    = List.map fst o1).
    { rewrite map_map. now apply map_ext. }
    rewrite prop_set_last.
    + replace (List.map (fun kv => (fst kv, f (snd kv))) o1 ++ [(k, f x)])
        with (List.map (fun kv => (fst kv, f (snd kv))) (o1 ++ [(k, x)]))
        by (now rewrite map_app).
      replace (o1 ++ (k, x) :: o2) with ((o1 ++ [(k, x)]) ++ o2)
        by (now rewrite <- app_assoc).
      apply IH; now rewrite <- app_assoc.
    + rewrite Hkeys. rewrite map_app in Hord. cbn [List.map fst] in Hord.
      change (k :: List.map fst o2) with ([k] ++ List.map fst o2) in Hord.
      rewrite app_assoc in Hord. now apply ordered_app_l in Hord.
    + rewrite Hkeys. rewrite map_app in Hnd. cbn [List.map fst] in Hnd.
      apply NoDup_remove_2 in Hnd. intros Hin. apply Hnd.
      apply in_or_app. now left.
Qed.

Lemma json_value_number (fuel : nat) (c : char) (t : str) :
  is_digit c = true \/ c = 45%N ->
  json_value (S fuel) (c :: t)
  = match json_number (c :: t) with
    | Some (n, rest) => Some (JNum n, rest)
    | None => None
    end.
Proof.
  intros Hc. cbn [json_value].
  assert (H : json_ws c = false /\ N.eqb c 123 = false /\ N.eqb c 91 = false
              /\ N.eqb c 34 = false /\ N.eqb 116 c = false
              /\ N.eqb 102 c = false /\ N.eqb 110 c = false).
  { destruct Hc as [Hc| ->]; [|repeat split].
    unfold json_ws.
    repeat split; try (repeat (apply orb_false_iff; split)); digit_facts c Hc. }
  destruct H as [H1 [H2 [H3 [H4 [H5 [H6 H7]]]]]].
  rewrite json_skip_head by exact H1. rewrite H2, H3, H4.
  change (startsWith (lit "true") (c :: t))
    with (N.eqb 116 c && startsWith (lit "rue") t).
  change (startsWith (lit "false") (c :: t))
    with (N.eqb 102 c && startsWith (lit "alse") t).
  change (startsWith (lit "null") (c :: t))
    with (N.eqb 110 c && startsWith (lit "ull") t).
  rewrite H5, H6, H7. reflexivity.
Qed.

Lemma value_read (v : jsval) : json_wf v -> reads v.
Proof.
  induction v as [| |b|n|s|l IHl|o IHo] using jsval_induction; intros Hwf.
  - contradiction.
  - intros gap indent fuel rest _ _ Hf _. destruct fuel as [|f]; [cbn in Hf; lia|].
    reflexivity.
  - intros gap indent fuel rest _ _ Hf _. destruct fuel as [|f]; [cbn in Hf; lia|].
    destruct b; reflexivity.
  - intros gap indent fuel rest _ _ Hf Hr. destruct fuel as [|f]; [cbn in Hf; lia|].
    unfold array_item. cbn [json_stringify json_norm].
    destruct n as [sg|sg| |sg m e]; cbn [isFinite norm_number]; try reflexivity.
    + change (number_to_string (S754_zero sg) ++ rest) with (48%N :: rest).
      rewrite json_value_number by (now left).
      change (48%N :: rest) with (lit "0" ++ rest).
      now rewrite json_number_zero.
    + cbn [json_wf valid_binary] in Hwf.
      destruct (number_text_head sg m e Hwf) as [c [t [E Hc]]].
      assert (E' : number_to_string (S754_finite sg m e) ++ rest = c :: t ++ rest)
        by now rewrite E.
      rewrite E', json_value_number by exact Hc. rewrite <- E'.
      now rewrite json_number_number_to_string.
  - intros gap indent fuel rest _ _ Hf _. destruct fuel as [|f]; [cbn in Hf; lia|].
    unfold array_item. cbn [json_stringify json_norm]. unfold json_quote.
    rewrite <- !app_assoc. change ([dquote] ++ ?z) with (34%N :: z).
    cbn [json_value]. rewrite json_skip_head by reflexivity.
    change (N.eqb 34 123) with false. change (N.eqb 34 91) with false.
    change (N.eqb 34 34) with true. cbv iota.
    change ([dquote] ++ ?z) with (34%N :: z).
    now rewrite json_string_body_quote.
  - apply json_wf_arr in Hwf.
    assert (Hreads : Forall reads l).
    { rewrite Forall_forall in *. auto. }
    intros gap indent fuel rest Hg Hi Hf Hr.
    rewrite json_size_arr in Hf. destruct fuel as [|f]; [lia|].
    unfold array_item. rewrite json_stringify_array. cbn [json_norm].
    destruct l as [|x l]; [reflexivity|].
    change (List.map (array_item gap (indent ++ gap)) (x :: l))
      with (array_item gap (indent ++ gap) x
            :: List.map (array_item gap (indent ++ gap)) l).
    rewrite json_wrap_form, <- !app_assoc.
    change (lit "[" ++ ?z) with (91%N :: z).
    cbn [json_value]. rewrite json_skip_head by reflexivity.
    change (N.eqb 91 123) with false. change (N.eqb 91 91) with true. cbv iota.
    assert (Hpre := wrap_pre_blank gap indent Hg Hi).
    assert (Hpost := wrap_post_blank gap indent Hi).
    rewrite json_skip_blank by exact Hpre.
    assert (Hwx : json_wf x) by now inversion Hwf.
    destruct (value_text_head gap (indent ++ gap) x Hwx) as [c [t [E Hc]]].
    assert (Hhead : exists z,
               join (lit "," ++ wrap_pre gap indent)
                 (array_item gap (indent ++ gap) x
                  :: List.map (array_item gap (indent ++ gap)) l)
               ++ wrap_post gap indent ++ 93%N :: rest = c :: z).
    { destruct (List.map (array_item gap (indent ++ gap)) l) as [|y ys].
      - cbn [join]. rewrite E. eexists. reflexivity.
      - rewrite join_cons, E. eexists. reflexivity. }
    destruct Hhead as [z Hz].
    unfold value_start in Hc. apply andb_true_iff in Hc as [Hc _].
    apply andb_true_iff in Hc as [Hc1 Hc2]. apply negb_true_iff in Hc1, Hc2.
    change (lit "]" ++ rest) with (93%N :: rest).
    rewrite Hz, json_skip_head, Hc2 by exact Hc1. rewrite <- Hz.
    rewrite json_elements_blank by exact Hpre.
    change (array_item gap (indent ++ gap) x
            :: List.map (array_item gap (indent ++ gap)) l)
      with (List.map (array_item gap (indent ++ gap)) (x :: l)).
    change (93%N :: rest) with (lit "]" ++ rest).
    rewrite (elements_read gap (indent ++ gap) (x :: l)); try assumption.
    + reflexivity.
    + now rewrite forallb_app, Hi, Hg.
    + discriminate.
    + lia.
  - apply json_wf_obj in Hwf. destruct Hwf as [Hord [Hnd Hvals]].
    assert (Hreads : Forall (fun kv => reads (snd kv)) o).
    { rewrite Forall_forall in *. auto. }
    intros gap indent fuel rest Hg Hi Hf Hr.
    rewrite json_size_obj in Hf. destruct fuel as [|f]; [lia|].
    unfold array_item. rewrite json_stringify_object, json_norm_obj.
    rewrite object_items_defined by exact Hvals.
    destruct o as [|kv o]; [reflexivity|].
    change (List.map (member_text gap (indent ++ gap)) (kv :: o))
      with (member_text gap (indent ++ gap) kv
            :: List.map (member_text gap (indent ++ gap)) o).
    rewrite json_wrap_form, <- !app_assoc.
    change (lit "{" ++ ?z) with (123%N :: z).
    cbn [json_value]. rewrite json_skip_head by reflexivity.
    change (N.eqb 123 123) with true. cbv iota.
    assert (Hpre := wrap_pre_blank gap indent Hg Hi).
    assert (Hpost := wrap_post_blank gap indent Hi).
    rewrite json_skip_blank by exact Hpre.
    assert (Hhead : exists z,
               join (lit "," ++ wrap_pre gap indent)
                 (member_text gap (indent ++ gap) kv
                  :: List.map (member_text gap (indent ++ gap)) o)
               ++ wrap_post gap indent ++ lit "}" ++ rest = @cons char 34%N z).
    { destruct (List.map (member_text gap (indent ++ gap)) o) as [|y ys].
      - cbn [join]. eexists. reflexivity.
      - rewrite join_cons. eexists. reflexivity. }
    destruct Hhead as [z Hz].
    rewrite Hz, json_skip_head by reflexivity.
    change (N.eqb 34 125) with false. cbv iota. rewrite <- Hz.
    change (member_text gap (indent ++ gap) kv
            :: List.map (member_text gap (indent ++ gap)) o)
      with (List.map (member_text gap (indent ++ gap)) (kv :: o)).
    rewrite (members_read gap (indent ++ gap) (kv :: o)); try assumption.
    + f_equal. apply (f_equal (fun x => (JObj x, rest))).
      apply (fold_prop_set_build json_norm (kv :: o) []); assumption.
    + now rewrite forallb_app, Hi, Hg.
    + discriminate.
    + lia.
Qed.

(** *** What [JSON.parse] returns *)

Lemma json_number_valid (s : str) (n : number) (rest : str) :
  json_number s = Some (n, rest) -> valid_binary prec emax n = true.
Proof.
  unfold json_number.
  destruct (match s with
            | c :: r => if N.eqb c 45 then (true, r) else (false, s)
            | [] => (false, s)
            end) as [neg s1].
  destruct (match s1 with
            | c :: r => if N.eqb c 48 then ([c], r) else span_digits s1
            | [] => ([], s1)
            end) as [int_d r1].
  destruct int_d as [|d0 int_d]; [discriminate|].
  destruct (match r1 with
            | c :: r =>
                if N.eqb c 46
                then match span_digits r with
                     | ([], _) => None
                     | (d, t) => Some (d, t)
                     end
                else Some ([], r1)
            | [] => Some ([], r1)
            end) as [[frac_d r2]|]; [|discriminate].
  destruct r2 as [|c r].
  - intros [= <- _]. apply number_of_decimal_valid.
  - destruct (N.eqb c 101 || N.eqb c 69)%bool.
    + destruct (match r with
                | g :: r' =>
                    if N.eqb g 43 then (1, r')
                    else if N.eqb g 45 then (-1, r') else (1, r)
                | [] => (1, r)
                end) as [sg r3].
      destruct (span_digits r3) as [[|d ds] t]; [discriminate|].
      intros [= <- _]. apply number_of_decimal_valid.
    + intros [= <- _]. apply number_of_decimal_valid.
Qed.

Lemma object_wf_set (o : list (str * jsval)) (k : str) (v : jsval) :
  object_wf o -> json_wf v -> object_wf (prop_set o k v).
Proof.
  intros [Ho [Hn Hv]] Hwf. split; [now apply prop_set_ordered|].
  split; [now apply prop_set_NoDup|].
  now apply prop_set_Forall.
Qed.

Lemma json_value_wf (fuel : nat) :
  (forall s v rest, json_value fuel s = Some (v, rest) -> json_wf v)
  /\ (forall s l rest, json_elements fuel s = Some (l, rest) -> Forall json_wf l)
  /\ (forall s acc o rest,
        json_members fuel s acc = Some (o, rest) -> object_wf acc -> object_wf o).
Proof.
  induction fuel as [|f [IHv [IHe IHm]]].
  { repeat split; intros; discriminate. }
  split; [|split].
  - intros s v rest. cbn [json_value].
    destruct (json_skip s) as [|c r]; [discriminate|].
    destruct (N.eqb c 123).
    { destruct (json_skip r) as [|c' r']; [discriminate|].
      destruct (N.eqb c' 125).
      - intros [= <- _]. apply json_wf_obj. repeat split; constructor.
      - destruct (json_members f (c' :: r') []) as [[o rest']|] eqn:E;
          [|discriminate].
        intros [= <- _]. apply json_wf_obj. apply (IHm _ _ _ _ E).
        repeat split; constructor. }
    destruct (N.eqb c 91).
    { destruct (json_skip r) as [|c' r']; [discriminate|].
      destruct (N.eqb c' 93).
      - intros [= <- _]. apply json_wf_arr. constructor.
      - destruct (json_elements f r) as [[l rest']|] eqn:E; [|discriminate].
        intros [= <- _]. apply json_wf_arr. apply (IHe _ _ _ E). }
    destruct (N.eqb c 34).
    { destruct (json_string_body r) as [[t rest']|]; [|discriminate].
      intros [= <- _]. exact I. }
    destruct (startsWith (lit "true") (c :: r)); [intros [= <- _]; exact I|].
    destruct (startsWith (lit "false") (c :: r)); [intros [= <- _]; exact I|].
    destruct (startsWith (lit "null") (c :: r)); [intros [= <- _]; exact I|].
    destruct (json_number (c :: r)) as [[n rest']|] eqn:E; [|discriminate].
    intros [= <- _]. cbn [json_wf]. now apply json_number_valid in E.
  - intros s l rest. cbn [json_elements].
    destruct (json_value f s) as [[v rest1]|] eqn:Ev; [|discriminate].
    apply IHv in Ev.
    destruct (json_skip rest1) as [|c r]; [discriminate|].
    destruct (N.eqb c 44).
    + destruct (json_elements f r) as [[l' rest']|] eqn:E; [|discriminate].
      intros [= <- _]. constructor; [exact Ev|]. apply (IHe _ _ _ E).
    + destruct (N.eqb c 93); [|discriminate].
      intros [= <- _]. now repeat constructor.
  - intros s acc o rest. cbn [json_members].
    destruct s as [|c r]; [discriminate|].
    destruct (N.eqb c 34); [|discriminate].
    destruct (json_string_body r) as [[k rest1]|]; [|discriminate].
    destruct (json_skip rest1) as [|c1 r1]; [discriminate|].
    destruct (N.eqb c1 58); [|discriminate].
    destruct (json_value f r1) as [[v rest']|] eqn:Ev; [|discriminate].
    apply IHv in Ev.
    destruct (json_skip rest') as [|c2 r2]; [discriminate|].
    destruct (N.eqb c2 44).
    + intros E Hacc. apply (IHm _ _ _ _ E). now apply object_wf_set.
    + destruct (N.eqb c2 125); [|discriminate].
      intros [= <- _] Hacc. now apply object_wf_set.
Qed.

Lemma JSON_parse_wf (s : str) (v : jsval) : JSON_parse s = Some v -> json_wf v.
Proof.
  unfold JSON_parse.
  destruct (json_value (S (List.length s)) s) as [[v' rest]|] eqn:E;
    [|discriminate].
  destruct (json_skip rest); [|discriminate].
  intros [= <-]. now apply (proj1 (json_value_wf _)) in E.
Qed.

(** *** The fuel that the text of a value gives *)

Lemma join_length (sep : str) (ts : list str) :
  sep <> [] -> ts <> [] ->
  (texts_size ts <= S (List.length (join sep ts)))%nat.
Proof.
  intros Hsep Hts. induction ts as [|t ts IH]; [contradiction|].
  destruct ts as [|t' ts].
  - cbn [texts_size fold_right join]. lia.
  - rewrite join_cons, !length_app.
    assert (H := IH ltac:(discriminate)).
    assert (1 <= List.length sep)%nat by (destruct sep; [contradiction|cbn; lia]).
    cbn [texts_size fold_right] in H |- *. lia.
Qed.

Lemma json_wrap_length (gap indent o c : str) (ts : list str) :
  ts <> [] -> o <> [] -> c <> [] ->
  (S (texts_size ts) <= List.length (json_wrap gap indent o c ts))%nat.
Proof.
  intros Hts Ho Hc. destruct ts as [|t ts]; [contradiction|].
  rewrite json_wrap_form, !length_app.
  assert (H := join_length (lit "," ++ wrap_pre gap indent) (t :: ts)
                 ltac:(discriminate) ltac:(discriminate)).
  assert (1 <= List.length o)%nat by (destruct o; [contradiction|cbn; lia]).
  assert (1 <= List.length c)%nat by (destruct c; [contradiction|cbn; lia]).
  lia.
Qed.

Lemma json_size_text (v : jsval) :
  json_wf v ->
  forall gap indent, (json_size v <= List.length (array_item gap indent v))%nat.
Proof.
  induction v as [| |b|n|s|l IHl|o IHo] using jsval_induction; intros Hwf gap indent.
  - contradiction.
  - cbn. lia.
  - destruct b; cbn; lia.
  - destruct (value_text_head gap indent (JNum n) Hwf) as [c [t [E _]]].
    rewrite E. cbn. lia.
  - cbn. lia.
  - apply json_wf_arr in Hwf. rewrite json_size_arr.
    unfold array_item. rewrite json_stringify_array.
    destruct l as [|x l]; [cbn; lia|].
    eapply Nat.le_trans; [|apply json_wrap_length; discriminate].
    apply le_n_S.
    assert (H : forall l', Forall json_wf l' ->
                  Forall (fun v => json_wf v -> forall gap indent,
                            (json_size v <= List.length (array_item gap indent v))%nat) l' ->
                  (elements_size l'
                   <= texts_size (List.map (array_item gap (indent ++ gap)) l'))%nat).
    { induction l' as [|y l' IH]; intros Hw Hi; [cbn; lia|].
      inversion Hw as [|? ? Hwy Hwl]; subst.
      inversion Hi as [|? ? Hiy Hil]; subst.
      cbn [elements_size texts_size fold_right List.map].
      fold (elements_size l').
      fold (texts_size (List.map (array_item gap (indent ++ gap)) l')).
      assert (H1 := Hiy Hwy gap (indent ++ gap)).
      assert (H2' := IH Hwl Hil). lia. }
    now apply H.
  - apply json_wf_obj in Hwf. destruct Hwf as [_ [_ Hvals]].
    rewrite json_size_obj.
    unfold array_item. rewrite json_stringify_object.
    rewrite object_items_defined by exact Hvals.
    destruct o as [|kv o]; [cbn; lia|].
    eapply Nat.le_trans; [|apply json_wrap_length; discriminate].
    apply le_n_S.
    assert (H : forall o', Forall (fun kv => json_wf (snd kv)) o' ->
                  Forall (fun kv => json_wf (snd kv) -> forall gap indent,
                            (json_size (snd kv)
                             <= List.length (array_item gap indent (snd kv)))%nat) o' ->
                  (members_size o'
                   <= texts_size (List.map (member_text gap (indent ++ gap)) o'))%nat).
    { induction o' as [|y o' IH]; intros Hw Hi; [cbn; lia|].
      inversion Hw as [|? ? Hwy Hwl]; subst.
      inversion Hi as [|? ? Hiy Hil]; subst.
      cbn [members_size texts_size fold_right List.map].
      fold (members_size o').
      fold (texts_size (List.map (member_text gap (indent ++ gap)) o')).
      assert (H1' := Hiy Hwy gap (indent ++ gap)).
      assert (H2' := IH Hwl Hil).
      unfold member_text at 1. rewrite !length_app. lia. }
    now apply H.
Qed.

(** *** The text of the value that is read back *)

Lemma json_stringify_norm (v : jsval) :
  forall gap indent,
    json_stringify gap indent (json_norm v) = json_stringify gap indent v.
Proof.
  induction v as [| |b|n|s|l IHl|o IHo] using jsval_induction; intros gap indent;
    try reflexivity.
  - destruct n; reflexivity.
  - cbn [json_norm]. rewrite !json_stringify_array. do 2 f_equal.
    rewrite map_map. apply map_ext_in. intros x Hx.
    rewrite Forall_forall in IHl. unfold array_item. now rewrite IHl.
  - rewrite json_norm_obj, !json_stringify_object. do 2 f_equal.
    unfold object_items, norm_members. rewrite flat_map_concat_map, map_map.
    rewrite flat_map_concat_map. f_equal. apply map_ext_in. intros kv Hkv.
    rewrite Forall_forall in IHo. cbn [fst snd]. now rewrite IHo.
Qed.

Lemma JSON_parse_text (gap : str) (v : jsval) :
  forallb json_ws gap = true -> json_wf v ->
  JSON_parse (array_item gap [] v) = Some (json_norm v).
Proof.
  intros Hg Hwf. unfold JSON_parse.
  assert (H := value_read v Hwf gap [] (S (List.length (array_item gap [] v))) []
                 Hg eq_refl).
  rewrite app_nil_r in H. rewrite H.
  - reflexivity.
  - assert (Hs := json_size_text v Hwf gap []). lia.
  - reflexivity.
Qed.

(** [GrammarCheck] leaves the texts it returns unchanged. *)
Lemma GrammarCheck_fixed (g : str) : parsed_grammar g -> GrammarCheck g = g.
Proof.
  intros [Hne [content Hg]]. assert (Hg0 := Hg). unfold GrammarCheck in Hg.
  destruct (negb (truthy_str content) || str_eqb (trim content) []);
    [contradiction|].
  destruct (JSON_parse content) as [parsed|] eqn:Ep; [|contradiction].
  assert (Hwf := JSON_parse_wf content parsed Ep).
  assert (Ht : JSON_stringify_2 parsed = array_item (lit "  ") [] parsed).
  { unfold JSON_stringify_2.
    now rewrite (json_stringify_defined _ _ _ (json_wf_defined _ Hwf)). }
  unfold GrammarCheck.
  assert (Htrim : trim g = g) by (rewrite Hg; apply trim_JSON_stringify_2).
  rewrite Htrim.
  replace (negb (truthy_str g) || str_eqb g []) with false
    by (destruct g; [contradiction|reflexivity]).
  rewrite Hg at 1. rewrite Ht, JSON_parse_text by (reflexivity || assumption).
  unfold JSON_stringify_2. rewrite json_stringify_norm.
  fold (JSON_stringify_2 parsed). now symmetry.
Qed.

Lemma JSON_parse_strings (l : list jsval) :
  Forall (fun x => exists s, x = JStr s) l ->
  JSON_parse (JSON_stringify (JArr l)) = Some (JArr l).
Proof.
  intros H.
  assert (Hn : json_norm (JArr l) = JArr l).
  { cbn [json_norm]. f_equal. induction H as [|x l [s ->] Hl IH]; [reflexivity|].
    cbn [List.map json_norm]. now rewrite IH. }
  assert (Hwf : json_wf (JArr l)).
  { apply json_wf_arr. eapply Forall_impl; [|exact H]. now intros x [s ->]. }
  unfold JSON_stringify.
  rewrite (json_stringify_defined _ _ _ (json_wf_defined _ Hwf)).
  rewrite JSON_parse_text by (reflexivity || assumption). now rewrite Hn.
Qed.

(** ** Validating a validated record *)

Lemma Value_Check_defined (s : TSchema) (v : jsval) :
  Value_Check s v = true -> is_undefined v = false.
Proof. destruct s, v; cbn; intros H; (discriminate H || reflexivity). Qed.

Lemma field_check_defined (use : Use) (k : str) (v : jsval) :
  field_check use k v = true -> is_undefined v = false.
Proof.
  unfold field_check. destruct (prop_lookup (schema_of use) k); [|discriminate].
  apply Value_Check_defined.
Qed.

Lemma key_outcome_false (use : Use) (input : obj) (k : str) :
  key_outcome (schema_of use) (defaults_of use) input false k =
  if field_check use k (js_get input k) then Some (js_get input k) else None.
Proof.
  unfold key_outcome. fold (field_check use k (js_get input k)).
  destruct (is_undefined (js_get input k)) eqn:E; [|reflexivity].
  destruct (field_check use k (js_get input k)) eqn:C; [|reflexivity].
  apply field_check_defined in C. congruence.
Qed.

Lemma PromtOptionsParse_lookup (use : Use) (raw : option obj) (all : bool) (k : str) :
  prop_lookup (PromtOptionsParse use raw all) k =
  if existsb (str_eqb k) (List.map fst (defaults_of use)) then
    key_outcome (schema_of use) (defaults_of use) (input_of raw) all k
  else if str_eqb k (lit "seed") then
    if defined (input_of raw) (lit "seed")
       && field_check use (lit "seed") (js_get (input_of raw) (lit "seed"))
    then Some (js_get (input_of raw) (lit "seed"))
    else None
  else None.
Proof.
  rewrite PromtOptionsParse_unfold. cbv zeta. unfold defined.
  set (input := input_of raw).
  assert (F := fold_keys_lookup (schema_of use) (defaults_of use) input all
                 (List.map fst (defaults_of use)) [] k).
  cbn [prop_lookup] in F.
  destruct (existsb (str_eqb k) (List.map fst (defaults_of use))) eqn:Ek.
  - assert (Hk : lit "seed" <> k).
    { apply existsb_str_eqb_In in Ek. apply (seed_not_default use) in Ek.
      congruence. }
    destruct (negb (is_undefined (js_get input (lit "seed")))
              && field_check use (lit "seed") (js_get input (lit "seed")));
      [rewrite prop_lookup_set_ne by exact Hk|];
      rewrite F; now destruct (key_outcome _ _ _ _ _).
  - destruct (str_eqb k (lit "seed")) eqn:Es.
    + apply str_eqb_eq in Es. subst k.
      destruct (negb (is_undefined (js_get input (lit "seed")))
                && field_check use (lit "seed") (js_get input (lit "seed")));
        [apply prop_lookup_set_eq|exact F].
    + apply str_eqb_neq in Es.
      destruct (negb (is_undefined (js_get input (lit "seed")))
                && field_check use (lit "seed") (js_get input (lit "seed")));
        [rewrite prop_lookup_set_ne by congruence|]; exact F.
Qed.

(** What a validated record holds for a field: the value of the input
    when it passes the check, nothing otherwise. *)
Lemma PromtOptionsParse_get (use : Use) (input : obj) (k : str) :
  In k (field_names use) ->
  js_get (PromtOptionsParse use (Some input) false) k =
  if field_check use k (js_get input k) then js_get input k else JUndef.
Proof.
  intros Hk. unfold js_get at 1. rewrite PromtOptionsParse_lookup.
  cbn [input_of]. unfold field_names in Hk. apply in_app_or in Hk as [Hk|Hk].
  - apply existsb_str_eqb_In in Hk. rewrite Hk, key_outcome_false.
    now destruct (field_check use k (js_get input k)).
  - destruct Hk as [<-|[]].
    replace (existsb (str_eqb (lit "seed")) (List.map fst (defaults_of use)))
      with false by now destruct use.
    rewrite str_eqb_refl. unfold defined.
    destruct (field_check use (lit "seed") (js_get input (lit "seed"))) eqn:C.
    + apply field_check_defined in C. now rewrite C.
    + now rewrite andb_false_r.
Qed.

Lemma fold_left_ext_In {A B : Type} (f g : A -> B -> A) (l : list B) :
  (forall a x, In x l -> f a x = g a x) ->
  forall a, fold_left f l a = fold_left g l a.
Proof.
  induction l as [|x l IH]; intros H a; [reflexivity|]. cbn [fold_left].
  rewrite (H a x) by now left. apply IH. intros a' y Hy. apply H. now right.
Qed.

Lemma field_check_undefined (use : Use) (k : str) : field_check use k JUndef = false.
Proof.
  unfold field_check. destruct (prop_lookup (schema_of use) k) as [s|];
    [now destruct s|reflexivity].
Qed.

(** The record depends on the input through the values that pass the
    checks of the fields only. *)
Lemma PromtOptionsParse_same (use : Use) (input input' : obj) :
  (forall k, In k (field_names use) ->
     (if field_check use k (js_get input k) then js_get input k else JUndef)
     = (if field_check use k (js_get input' k) then js_get input' k else JUndef)) ->
  PromtOptionsParse use (Some input) false = PromtOptionsParse use (Some input') false.
Proof.
  intros H.
  assert (Hc : forall k, In k (field_names use) ->
             field_check use k (js_get input k) = field_check use k (js_get input' k)
             /\ (field_check use k (js_get input k) = true ->
                 js_get input k = js_get input' k)).
  { intros k Hk. specialize (H k Hk).
    destruct (field_check use k (js_get input k)) eqn:C,
             (field_check use k (js_get input' k)) eqn:C'.
    - auto.
    - rewrite H in C. now rewrite field_check_undefined in C.
    - rewrite <- H in C'. now rewrite field_check_undefined in C'.
    - split; [reflexivity|discriminate]. }
  rewrite !PromtOptionsParse_unfold. cbv zeta. cbn [input_of].
  assert (Hfold :
    fold_left (PromtOptionsParse_key (schema_of use) (defaults_of use) input false)
      (List.map fst (defaults_of use)) []
    = fold_left (PromtOptionsParse_key (schema_of use) (defaults_of use) input' false)
        (List.map fst (defaults_of use)) []).
  { apply fold_left_ext_In. intros a k Hk.
    rewrite !PromtOptionsParse_key_outcome, !key_outcome_false.
    destruct (Hc k) as [E1 E2]; [unfold field_names; apply in_or_app; now left|].
    rewrite <- E1. destruct (field_check use k (js_get input k)); [|reflexivity].
    now rewrite E2. }
  rewrite Hfold.
  destruct (Hc (lit "seed")) as [E1 E2];
    [unfold field_names; apply in_or_app; right; now left|].
  rewrite <- E1.
  destruct (field_check use (lit "seed") (js_get input (lit "seed"))) eqn:C.
  - rewrite <- E2 by reflexivity. reflexivity.
  - now rewrite !andb_false_r.
Qed.

Lemma PromtOptionsParse_idem (use : Use) (input : obj) :
  PromtOptionsParse use (Some (PromtOptionsParse use (Some input) false)) false
  = PromtOptionsParse use (Some input) false.
Proof.
  apply PromtOptionsParse_same. intros k Hk.
  rewrite PromtOptionsParse_get by exact Hk.
  destruct (field_check use k (js_get input k)) eqn:C.
  - now rewrite C.
  - now rewrite field_check_undefined.
Qed.

(** The names of a validated record are distinct. *)
Lemma fold_keys_NoDup schema defaults input all ks :
  forall result, NoDup (List.map fst result) ->
    NoDup (List.map fst
             (fold_left (PromtOptionsParse_key schema defaults input all) ks result)).
Proof.
  induction ks as [|k ks IH]; intros result Hr; [exact Hr|]. cbn [fold_left].
  apply IH. rewrite PromtOptionsParse_key_outcome.
  destruct (key_outcome schema defaults input all k); [|exact Hr].
  now apply prop_set_NoDup.
Qed.

Lemma PromtOptionsParse_NoDup (use : Use) (raw : option obj) (all : bool) :
  NoDup (List.map fst (PromtOptionsParse use raw all)).
Proof.
  rewrite PromtOptionsParse_unfold. cbv zeta.
  assert (H := fold_keys_NoDup (schema_of use) (defaults_of use) (input_of raw) all
                 (List.map fst (defaults_of use)) [] (NoDup_nil _)).
  destruct (_ && _); [|exact H]. now apply prop_set_NoDup.
Qed.

(** ** The values of parsed options *)

Lemma parse_unsigned_valid (neg : bool) (s : str) :
  valid_binary prec emax (parse_unsigned neg s) = true.
Proof.
  unfold parse_unsigned. destruct (startsWith (lit "Infinity") s); [reflexivity|].
  destruct (span_digits s) as [int_d r1].
  destruct (match r1 with
            | c :: r => if N.eqb c 46 then span_digits r else ([], r1)
            | [] => ([], r1)
            end) as [frac_d r2].
  destruct (int_d ++ frac_d); [reflexivity|]. apply number_of_decimal_valid.
Qed.

Lemma parseFloat_valid (s : str) : valid_binary prec emax (parseFloat s) = true.
Proof.
  unfold parseFloat. destruct (trimStart s) as [|c r]; [reflexivity|].
  destruct (N.eqb c 43); [apply parse_unsigned_valid|].
  destruct (N.eqb c 45); apply parse_unsigned_valid.
Qed.

Lemma parseOptionValue_value (s : str) : option_value (parseOptionValue s).
Proof.
  unfold parseOptionValue. destruct (str_eqb s []); [exact I|].
  cbv zeta.
  destruct (if startsWith (lit "[") s
            then match JSON_parse s with
                 | Some parsed => if is_array parsed then Some parsed else None
                 | None => None
                 end
            else None) as [parsed|] eqn:E.
  - destruct (startsWith (lit "[") s); [|discriminate].
    destruct (JSON_parse s) as [p|]; [|discriminate].
    destruct (is_array p) eqn:Ea; [|discriminate].
    injection E as <-. now destruct p.
  - destruct (_ || _); [exact I|]. destruct (_ || _); [exact I|].
    destruct (negb _); [|exact I]. apply parseFloat_valid.
Qed.

Lemma line_binding_value (line k : str) (v : jsval) :
  line_binding line = Some (k, v) -> option_value v.
Proof.
  unfold line_binding. destruct (break_at 61%N (trim line)) as [[lhs rhs]|];
    [|discriminate].
  destruct lhs; [discriminate|].
  assert (H := parseOptionValue_value (trim rhs)).
  destruct (parseOptionValue (trim rhs)); try discriminate;
    intros [= _ <-]; exact H.
Qed.

Lemma parseOptionsToObject_values (content : str) :
  Forall (fun kv => option_value (snd kv)) (parseOptionsToObject content).
Proof.
  unfold parseOptionsToObject.
  assert (G : forall lines (o : obj),
             Forall (fun kv => option_value (snd kv)) o ->
             Forall (fun kv => option_value (snd kv))
               (fold_left parseOptionsToObject_line lines o)).
  { induction lines as [|line lines IH]; intros o Ho; [exact Ho|].
    cbn [fold_left]. apply IH. rewrite parseOptionsToObject_line_binding.
    destruct (line_binding line) as [[k v]|] eqn:E; [|exact Ho].
    apply js_set_Forall; [exact Ho|]. cbn [snd]. now apply line_binding_value in E. }
  apply G. constructor.
Qed.

Lemma PromtOptionsParse_from_input (use : Use) (input : obj) :
  Forall (fun kv => In kv input) (PromtOptionsParse use (Some input) false).
Proof.
  rewrite PromtOptionsParse_unfold. cbv zeta. cbn [input_of].
  assert (Hin : forall k, is_undefined (js_get input k) = false ->
                In (k, js_get input k) input).
  { intros k Hd. unfold js_get in *.
    destruct (prop_lookup input k) as [v|] eqn:E; [|discriminate].
    now apply prop_lookup_In. }
  assert (Hloop :
    Forall (fun kv => In kv input)
      (fold_left
         (PromtOptionsParse_key (schema_of use) (defaults_of use) input false)
         (List.map fst (defaults_of use)) [])).
  { apply fold_keys_Forall; [|constructor].
    intros k v _ Hout. rewrite key_outcome_false in Hout.
    destruct (field_check use k (js_get input k)) eqn:C; [|discriminate].
    injection Hout as <-. apply Hin. now apply field_check_defined in C. }
  destruct (negb (is_undefined (js_get input (lit "seed")))) eqn:Hd;
    [|exact Hloop].
  destruct (field_check use (lit "seed") (js_get input (lit "seed")));
    [|exact Hloop].
  cbn [andb]. apply prop_set_Forall; [exact Hloop|].
  apply Hin. now apply negb_true_iff in Hd.
Qed.

(** The properties of parsed options: a field, a value that passes its
    check, numbers in canonical form. *)
Lemma parsed_options_entries (use : Use) (o : TPromtOptions) :
  parsed_options use o ->
  NoDup (List.map fst o)
  /\ Forall (fun kv => In (fst kv) (field_names use)
                       /\ field_check use (fst kv) (snd kv) = true
                       /\ option_value (snd kv)) o.
Proof.
  intros [content ->]. split; [apply PromtOptionsParse_NoDup|].
  assert (H1 := PromtOptionsParse_entries use (Some (parseOptionsToObject content)) false).
  assert (H2 := PromtOptionsParse_from_input use (parseOptionsToObject content)).
  assert (H3 := parseOptionsToObject_values content).
  rewrite Forall_forall in *. intros kv Hkv.
  destruct (H1 kv Hkv) as [Ha Hb]. split; [exact Ha|]. split; [exact Hb|].
  apply (H3 kv). now apply H2.
Qed.

(** ** Reading a written value back *)

Lemma num_char_digits (d : str) :
  forallb is_digit d = true -> forallb num_char d = true.
Proof.
  intros H. rewrite forallb_forall in *. intros c Hc. unfold num_char.
  now rewrite (H c Hc).
Qed.

Lemma numeral_text_chars (n : numeral) :
  numeral_ok n = true ->
  match num_exp n with Some (true, _, _) => false | _ => true end = true ->
  forallb num_char (numeral_text n) = true.
Proof.
  destruct n as [sg int point ex]. unfold numeral_ok, numeral_text, num_frac.
  cbn [num_sign num_int num_point num_exp]. intros Hok Hlow.
  apply andb_true_iff in Hok as [Hok Hex].
  apply andb_true_iff in Hok as [Hok _].
  apply andb_true_iff in Hok as [Hint Hfrac].
  rewrite !forallb_app.
  assert (Hs : forall s, forallb num_char (sign_text s) = true)
    by (intros [[|]|]; reflexivity).
  rewrite Hs, (num_char_digits int Hint). cbn [andb].
  apply andb_true_iff. split.
  - destruct point as [f|]; [|reflexivity].
    change (lit "." ++ f) with (46%N :: f). cbn [forallb].
    now rewrite (num_char_digits f Hfrac).
  - destruct ex as [[[upper s] d]|]; [|reflexivity].
    destruct upper; [discriminate|].
    apply andb_true_iff in Hex as [Hd _].
    rewrite !forallb_app, Hs, (num_char_digits d Hd). reflexivity.
Qed.

Lemma printed_lower (neg : bool) (s n : Z) :
  match num_exp (printed neg s n) with Some (true, _, _) => false | _ => true end
  = true.
Proof.
  unfold printed. cbv zeta.
  destruct ((_ <=? n) && (n <=? 21)); [reflexivity|].
  destruct ((0 <? n) && (n <=? 21)); [reflexivity|].
  destruct ((-6 <? n) && (n <=? 0)); reflexivity.
Qed.

Lemma number_to_string_chars (neg : bool) (m : positive) (e : Z) :
  bounded prec emax m e = true ->
  forallb num_char (number_to_string (S754_finite neg m e)) = true.
Proof.
  intros Hb.
  destruct (number_to_string_printed neg m e Hb) as [s [n [k [Hk [Hs [_ Ht]]]]]].
  rewrite Ht. apply numeral_text_chars.
  - exact (printed_ok neg s n k Hk Hs).
  - apply printed_lower.
Qed.

Lemma toLowerCase_num (t : str) : forallb num_char t = true -> toLowerCase t = t.
Proof.
  unfold toLowerCase. induction t as [|c t IH]; [reflexivity|].
  cbn [forallb List.map]. intros H. apply andb_true_iff in H as [Hc Ht].
  rewrite IH by exact Ht. f_equal. unfold num_char in Hc. unfold lower_char.
  assert (Hle : (c <= 57)%N \/ c = 101%N).
  { repeat (apply orb_true_iff in Hc as [Hc|Hc]);
      try (apply N.eqb_eq in Hc; subst c; (now right) || (left; lia)).
    unfold is_digit in Hc. apply andb_true_iff in Hc as [_ Hc].
    apply N.leb_le in Hc. now left. }
  destruct Hle as [Hle| ->]; [|reflexivity].
  replace (65 <=? c)%N with false by (symmetry; apply N.leb_gt; lia).
  replace (192 <=? c)%N with false by (symmetry; apply N.leb_gt; lia).
  reflexivity.
Qed.

Lemma replace_first_num (t : str) :
  forallb num_char t = true -> replace_first 44%N 46%N t = t.
Proof.
  induction t as [|c t IH]; [reflexivity|]. cbn [forallb replace_first].
  intros H. apply andb_true_iff in H as [Hc Ht].
  assert (E : N.eqb c 44 = false).
  { destruct (N.eqb c 44) eqn:E; [|reflexivity].
    apply N.eqb_eq in E. subst c. discriminate. }
  rewrite E, IH by exact Ht. reflexivity.
Qed.

Lemma not_word (t w : str) :
  forallb num_char t = true -> forallb num_char w = false -> str_eqb t w = false.
Proof.
  intros Ht Hw. destruct (str_eqb t w) eqn:E; [|reflexivity].
  apply str_eqb_eq in E. subst w. congruence.
Qed.

Lemma parseOptionValue_number (neg : bool) (m : positive) (e : Z) :
  bounded prec emax m e = true -> S754_finite neg m e <> int 1 ->
  parseOptionValue (number_to_string (S754_finite neg m e))
  = JNum (S754_finite neg m e).
Proof.
  intros Hb Hone.
  assert (Hch := number_to_string_chars neg m e Hb).
  assert (Hpf := parseFloat_number_to_string neg m e Hb).
  destruct (number_text_head neg m e Hb) as [c [t [E Hc]]].
  set (txt := number_to_string (S754_finite neg m e)) in *.
  assert (Hq : N.eqb 34 c = false /\ N.eqb 39 c = false /\ N.eqb 91 c = false).
  { destruct Hc as [Hc| ->]; [|repeat split].
    repeat split; rewrite N.eqb_sym; digit_facts c Hc. }
  destruct Hq as [Hq1 [Hq2 Hq3]].
  unfold parseOptionValue.
  replace (str_eqb txt []) with false by (now rewrite E).
  cbv zeta.
  replace (startsWith [dquote] txt) with false
    by (rewrite E; cbn [startsWith]; unfold dquote; now rewrite Hq1).
  replace (startsWith [squote] txt) with false
    by (rewrite E; cbn [startsWith]; unfold squote; now rewrite Hq2).
  replace (startsWith (lit "[") txt) with false
    by (rewrite E; change (lit "[") with [91%N]; cbn [startsWith]; now rewrite Hq3).
  cbn [andb orb].
  rewrite toLowerCase_num, replace_first_num by exact Hch.
  rewrite !(not_word txt (lit "true")), !(not_word txt (lit "y")),
    !(not_word txt (lit "false")), !(not_word txt (lit "n"))
    by (exact Hch || reflexivity).
  assert (H1 : str_eqb txt (lit "1") = false).
  { destruct (str_eqb txt (lit "1")) eqn:E1; [|reflexivity].
    apply str_eqb_eq in E1. rewrite E1 in Hpf. exfalso. apply Hone.
    rewrite <- Hpf. vm_compute. reflexivity. }
  assert (H0 : str_eqb txt (lit "0") = false).
  { destruct (str_eqb txt (lit "0")) eqn:E0; [|reflexivity].
    apply str_eqb_eq in E0. rewrite E0 in Hpf. vm_compute in Hpf. discriminate. }
  rewrite H1, H0. cbn [orb]. rewrite Hpf. reflexivity.
Qed.

(** ** The lines of parsed options are read back *)

Lemma field_names_plain (use : Use) : forallb field_name (field_names use) = true.
Proof. destruct use; vm_compute; reflexivity. Qed.

Lemma break_at_app (c : char) (a b : str) :
  existsb (N.eqb c) a = false -> break_at c (a ++ c :: b) = Some (a, b).
Proof.
  induction a as [|x a IH]; cbn [existsb app break_at]; intros H.
  - now rewrite N.eqb_refl.
  - apply orb_false_iff in H as [Hx Ha]. rewrite N.eqb_sym, Hx.
    now rewrite IH.
Qed.

Lemma option_line_text (k : str) (v : jsval) :
  v <> JUndef -> option_line (k, v) = k ++ lit "=" ++ value_text v.
Proof. intros H. destruct v; try reflexivity. now contradiction H. Qed.

Lemma value_text_read (use : Use) (k : str) (v : jsval) :
  field_check use k v = true -> option_value v -> zero_or_one v = false ->
  trim (value_text v) = value_text v
  /\ parseOptionValue (value_text v) = v /\ v <> JUndef.
Proof.
  intros Hc Hv H01. assert (Hf := field_check_value use k v Hc).
  destruct v as [| |b|n|s|l|o]; cbn [field_value] in Hf; try contradiction.
  - split; [|split; [|discriminate]]; destruct b; reflexivity.
  - cbn [value_text ToString]. split; [|split; [|discriminate]].
    + apply trim_plain, plain_number_to_string.
    + assert (Hfin : isFinite n = true).
      { unfold field_check in Hc.
        destruct (prop_lookup (schema_of use) k) as [sc|]; [|discriminate].
        destruct sc as [o|o|o| |items o]; cbn [Value_Check] in Hc;
          try discriminate.
        - now apply andb_true_iff in Hc as [Hc _].
        - apply andb_true_iff in Hc as [Hc _]. now destruct n. }
      destruct n as [sg|sg| |sg m e]; try discriminate.
      cbn [option_value valid_binary] in Hv. cbn [zero_or_one] in H01.
      apply parseOptionValue_number; [exact Hv|].
      intros E. rewrite E in H01. now rewrite num_eqb_refl in H01.
  - cbn [value_text]. split; [|split; [|discriminate]].
    + unfold JSON_stringify. rewrite json_stringify_array.
      destruct (json_wrap_bracket [] [] (lit "[") (lit "]")
                  (List.map (array_item [] ([] ++ [])) l)) as [x ->].
      change (lit "[" ++ x ++ lit "]") with (91%N :: x ++ [93%N]).
      now apply trim_bracket.
    + assert (Hp := JSON_parse_strings l Hf).
      unfold parseOptionValue.
      assert (Hb : exists x, JSON_stringify (JArr l) = 91%N :: x).
      { unfold JSON_stringify. rewrite json_stringify_array.
        destruct (json_wrap_bracket [] [] (lit "[") (lit "]")
                    (List.map (array_item [] ([] ++ [])) l)) as [x ->].
        eexists. reflexivity. }
      destruct Hb as [x Hx].
      replace (str_eqb (JSON_stringify (JArr l)) []) with false
        by (now rewrite Hx).
      cbv zeta. rewrite Hp.
      replace (startsWith (lit "[") (JSON_stringify (JArr l))) with true
        by (now rewrite Hx).
      reflexivity.
Qed.

Lemma line_binding_option_line (use : Use) (kv : str * jsval) :
  In (fst kv) (field_names use) -> field_check use (fst kv) (snd kv) = true ->
  option_value (snd kv) -> zero_or_one (snd kv) = false ->
  line_binding (option_line kv) = Some kv.
Proof.
  destruct kv as [k v]. cbn [fst snd]. intros Hk Hc Hv H01.
  destruct (value_text_read use k v Hc Hv H01) as [Ht [Hp Hd]].
  assert (Hn := field_names_plain use). rewrite forallb_forall in Hn.
  specialize (Hn k Hk). unfold field_name in Hn.
  apply andb_true_iff in Hn as [Hn Hne]. apply andb_true_iff in Hn as [Hn _].
  apply andb_true_iff in Hn as [Hn _]. apply andb_true_iff in Hn as [Hpl Heq].
  apply negb_true_iff in Heq, Hne. apply str_eqb_nil in Hne.
  rewrite option_line_text by exact Hd.
  assert (Htrim : trim (k ++ lit "=" ++ value_text v) = k ++ lit "=" ++ value_text v).
  { destruct k as [|c1 k]; [contradiction|].
    assert (Hc1 : is_ws c1 = false).
    { unfold plain in Hpl. cbn [forallb] in Hpl.
      apply andb_true_iff in Hpl as [Hpl _]. now apply plain_char_ws. }
    assert (Hvt : value_text v <> []).
    { intros E. rewrite E in Hp. apply Hd. rewrite <- Hp. reflexivity. }
    rewrite app_assoc. change ((c1 :: k) ++ lit "=") with (c1 :: k ++ lit "=").
    now apply trim_prefixed. }
  unfold line_binding. rewrite Htrim.
  change (k ++ lit "=" ++ value_text v) with (k ++ 61%N :: value_text v).
  rewrite break_at_app by exact Heq.
  destruct k as [|c1 k]; [contradiction|].
  rewrite Ht, Hp, (trim_plain _ Hpl).
  destruct v; try reflexivity. now contradiction Hd.
Qed.

Lemma fold_js_set_build (o2 : obj) :
  forall o1,
    NoDup (List.map fst (o1 ++ o2)) ->
    Forall (fun kv => field_name (fst kv) = true) o2 ->
    fold_left (fun a kv => js_set a (fst kv) (snd kv)) o2 o1 = o1 ++ o2.
Proof.
  induction o2 as [|[k v] o2 IH]; intros o1 Hnd Hf.
  - now rewrite app_nil_r.
  - inversion Hf as [|? ? Hk Hf']; subst. cbn [fst] in Hk.
    unfold field_name in Hk.
    apply andb_true_iff in Hk as [Hk _]. apply andb_true_iff in Hk as [Hk Hpr].
    apply andb_true_iff in Hk as [_ Hix]. apply negb_true_iff in Hpr.
    cbn [fold_left fst snd]. unfold js_set. rewrite Hpr.
    rewrite prop_set_fresh.
    + replace (o1 ++ (k, v) :: o2) with ((o1 ++ [(k, v)]) ++ o2)
        by (now rewrite <- app_assoc).
      apply IH; [now rewrite <- app_assoc|exact Hf'].
    + apply prop_lookup_None. rewrite map_app in Hnd. cbn [List.map fst] in Hnd.
      apply NoDup_remove_2 in Hnd. intros Hin. apply Hnd.
      apply in_or_app. now left.
    + now destruct (array_index k).
Qed.

Lemma fold_lines_bindings (use : Use) (o : obj) :
  Forall (fun kv => line_binding (option_line kv) = Some kv) o ->
  forall acc,
    fold_left parseOptionsToObject_line (List.map option_line o) acc
    = fold_left (fun a kv => js_set a (fst kv) (snd kv)) o acc.
Proof.
  intros H. induction H as [|[k v] o Hkv Ho IH]; intros acc; [reflexivity|].
  cbn [List.map fold_left fst snd].
  rewrite parseOptionsToObject_line_binding, Hkv. apply IH.
Qed.

(** The lines that [serialize] writes for parsed options without 0 and 1
    are read back as these options. *)
Lemma options_read_back (use : Use) (o : TPromtOptions) :
  parsed_options use o -> o <> [] ->
  forallb (fun kv => negb (zero_or_one (snd kv))) o = true ->
  PromtOptionsParse use
    (Some (parseOptionsToObject (join [newline] (List.map option_line o)))) false
  = o.
Proof.
  intros Hp Hne H01.
  destruct (parsed_options_entries use o Hp) as [Hnd Hent].
  assert (Hlines : Forall (fun kv => line_binding (option_line kv) = Some kv) o).
  { rewrite Forall_forall in *. rewrite forallb_forall in H01.
    intros kv Hkv. destruct (Hent kv Hkv) as [Hk [Hc Hv]].
    apply (line_binding_option_line use); try assumption.
    apply negb_true_iff. now apply H01. }
  assert (Hone : Forall (fun kv => one_line (option_line kv) = true) o).
  { rewrite Forall_forall in *. intros kv Hkv.
    destruct (Hent kv Hkv) as [Hk [Hc _]].
    now destruct (option_line_ok use kv Hk Hc). }
  assert (Hraw : parseOptionsToObject (join [newline] (List.map option_line o)) = o).
  { unfold parseOptionsToObject.
    rewrite split_join_lines by (destruct o; [contradiction|discriminate]).
    assert (Hflat : flat_map (split newline) (List.map option_line o)
                    = List.map option_line o).
    { clear - Hone. induction Hone as [|kv o Hkv Ho IH]; [reflexivity|].
      cbn [List.map flat_map]. rewrite IH, split_one by exact Hkv. reflexivity. }
    rewrite Hflat, (fold_lines_bindings use o Hlines).
    apply (fold_js_set_build o []); [exact Hnd|].
    assert (Hn := field_names_plain use). rewrite forallb_forall in Hn.
    rewrite Forall_forall in *. intros kv Hkv.
    destruct (Hent kv Hkv) as [Hk _]. now apply Hn. }
  rewrite Hraw. destruct Hp as [content ->]. apply PromtOptionsParse_idem.
Qed.

(** ** The records that are read back *)

Lemma storable_reads_back (use : Use) (r : TPromt) :
  parsed_record use r -> storable r = true -> reads_back use r.
Proof.
  intros [_ [_ [_ [Hopt [_ Hgr]]]]] Hs. unfold storable in Hs.
  apply andb_true_iff in Hs as [Hs Hseg]. apply andb_true_iff in Hs as [Ho Hsys].
  unfold reads_back. split; [|split; [|split]].
  - destruct (options r) as [o|]; [|exact I]. cbn [opt_all] in *.
    apply andb_true_iff in Ho as [Hne H01].
    assert (Hne' : o <> []) by (intros ->; discriminate).
    split; [exact Hne'|]. now apply options_read_back.
  - intros E. rewrite E in Hsys. discriminate.
  - intros E. rewrite E in Hseg. discriminate.
  - destruct (grammar r) as [g|]; [|exact I]. cbn [opt_all] in *.
    now apply GrammarCheck_fixed.
Qed.

(** ** The round trip *)

(** C1, as amended.  For every input text and each of the two profiles: if
    in every record of the first parse (a) the options, when present, are
    not empty and none of their values is the number 0 or 1, (b) [system]
    is not the empty text and (c) [segment] is not the empty mapping, then
    parsing the serialized records gives the records of the first
    parse. *)
Theorem PromtLoad_roundtrip (raw : str) (use : Use) :
  forallb storable (PromtLoad raw use) = true ->
  PromtLoad (PromtStore (PromtLoad raw use)) use = PromtLoad raw use.
Proof.
  intros H. apply PromtLoad_PromtStore.
  assert (Hp := PromtLoad_parsed raw use).
  rewrite forallb_forall in H. rewrite Forall_forall in Hp |- *. intros r Hr.
  split; [auto|]. split; [apply storable_reads_back; auto|].
  apply (parsed_written_as_content use). auto.
Qed.

Lemma PromtLoad_roundtrip_witness :
  let raw :=
    text [ lit "$$begin"; lit "$$options"; lit "temperature=0.7";
           lit "maxTokens=2048"; lit "penalizeNewline=y"; lit "seed=1e21";
           lit "minP=1e-7";
           lit "stopSequences=[ " ++ quoted (lit "a=b") ++ lit ", "
             ++ quoted (lit "\n") ++ lit " ]";
           lit "$$system"; lit "You are a helpful assistant";
           lit "$$user"; lit "Hello, world!"; lit "  second line  ";
           lit "$$grammar";
           lit "{ " ++ quoted (lit "b") ++ lit ": [1.50, -0, 1e999], "
             ++ quoted (lit "1") ++ lit ": {} } ";
           lit "$$segment=note"; lit "kept"; lit "$$segment=2"; lit "";
           lit "$$end";
           lit "$$begin"; lit "$$user"; lit "again" ] in
  forallb storable (PromtLoad raw core) = true
  /\ PromtLoad (PromtStore (PromtLoad raw core)) core = PromtLoad raw core.
Proof.
  intros raw.
  assert (H : forallb storable (PromtLoad raw core) = true)
    by (vm_compute; reflexivity).
  split; [exact H|exact (PromtLoad_roundtrip raw core H)].
Defined.

(** C1, as stated, fails for both profiles, and each condition of the
    amended statement is needed: a temperature written [0.0] or [-0] is
    stored as the number 0 and a [topK] written [1.0] as the number 1,
    which are serialized as [0] and [1], read back as booleans and
    dropped; an [$$options] section without a valid line gives empty
    options, whose marker alone is skipped when read back; a [$$system]
    section with a blank line gives an empty [system], which is not
    serialized; a segment named [__proto__] gives an empty [segment],
    which writes nothing. *)
Lemma PromtLoad_roundtrip_counterexample :
  let block (body : list str) :=
    text ([lit "$$begin"] ++ body ++ [lit "$$user"; lit "hi"; lit "$$end"]) in
  let with_zero := block [lit "$$options"; lit "temperature=0.0"] in
  let with_negative_zero := block [lit "$$options"; lit "temperature=-0"] in
  let with_one := block [lit "$$options"; lit "topK=1.0"] in
  let with_empty_options := block [lit "$$options"; lit "temperature=high"] in
  let with_blank_system := block [lit "$$system"; lit ""] in
  let with_proto_segment :=
    text [ lit "$$begin"; lit "$$user"; lit "hi"; lit "$$segment=__proto__";
           lit "x"; lit "$$end" ] in
  let fails (raw : str) :=
    PromtLoad (PromtStore (PromtLoad raw core)) core <> PromtLoad raw core
    /\ PromtLoad (PromtStore (PromtLoad raw json)) json <> PromtLoad raw json in
  fails with_zero /\ fails with_negative_zero /\ fails with_one
  /\ fails with_empty_options /\ fails with_blank_system
  /\ fails with_proto_segment.
Proof.
  cbv zeta. repeat split; intros H; vm_compute in H; discriminate H.
Qed.

(** ** Further properties of the exported functions *)

(** ** More on [GrammarCheck] *)

Lemma GrammarCheck_text (raw : str) :
  GrammarCheck raw =
  if blank raw then []
  else match JSON_parse raw with
       | Some v => JSON_stringify_2 v
       | None => []
       end.
Proof.
  unfold GrammarCheck.
  assert (H : negb (truthy_str raw) || str_eqb (trim raw) [] = blank raw).
  { destruct (blank raw) eqn:Eb.
    - apply trim_blank in Eb. rewrite Eb. apply orb_true_r.
    - destruct raw as [|c r]; [discriminate|]. cbn [truthy_str negb orb].
      apply str_eqb_nil. intros E. apply trim_blank in E. congruence. }
  now rewrite H.
Qed.

Lemma JSON_stringify_2_text (v : jsval) :
  json_wf v -> JSON_stringify_2 v = array_item (lit "  ") [] v
               /\ JSON_stringify_2 v <> [].
Proof.
  intros Hwf.
  assert (E : JSON_stringify_2 v = array_item (lit "  ") [] v).
  { unfold JSON_stringify_2.
    now rewrite (json_stringify_defined _ _ _ (json_wf_defined _ Hwf)). }
  split; [exact E|]. rewrite E.
  destruct (value_text_head (lit "  ") [] v Hwf) as [c [t [Ht _]]].
  rewrite Ht. discriminate.
Qed.

(** X1.  [GrammarCheck] is idempotent: checking the text it returns gives
    that text again. *)
Theorem GrammarCheck_idempotent (raw : str) :
  GrammarCheck (GrammarCheck raw) = GrammarCheck raw.
Proof.
  destruct (GrammarCheck raw) as [|c g] eqn:E; [reflexivity|].
  rewrite <- E. apply GrammarCheck_fixed. split.
  - rewrite E. discriminate.
  - now exists raw.
Qed.

(** X2.  [GrammarCheck] returns the empty text exactly for a blank text
    and for a text that [JSON.parse] refuses. *)
Theorem GrammarCheck_empty (raw : str) :
  GrammarCheck raw = [] <-> blank raw = true \/ JSON_parse raw = None.
Proof.
  rewrite GrammarCheck_text. destruct (blank raw); [tauto|].
  destruct (JSON_parse raw) as [v|] eqn:E.
  - destruct (JSON_stringify_2_text v (JSON_parse_wf raw v E)) as [_ Hne].
    split; [contradiction|]. intros [H|H]; discriminate.
  - tauto.
Qed.

(** X3.  The text that [GrammarCheck] returns for a JSON text denotes the
    same value: [JSON.parse] reads it as the value of the input, with the
    numbers that are not finite replaced by [null] and the negative zero
    by 0, as [JSON.stringify] writes them. *)
Theorem GrammarCheck_same_value (raw : str) (v : jsval) :
  blank raw = false -> JSON_parse raw = Some v ->
  GrammarCheck raw = JSON_stringify_2 v
  /\ JSON_parse (GrammarCheck raw) = Some (json_norm v)
  /\ JSON_stringify_2 (json_norm v) = JSON_stringify_2 v.
Proof.
  intros Hb Hp. rewrite GrammarCheck_text, Hb, Hp.
  assert (Hwf := JSON_parse_wf raw v Hp).
  destruct (JSON_stringify_2_text v Hwf) as [E _].
  split; [reflexivity|]. split.
  - rewrite E. now apply JSON_parse_text.
  - unfold JSON_stringify_2. now rewrite json_stringify_norm.
Qed.

Lemma GrammarCheck_same_value_witness :
  let raw := lit " { " ++ quoted (lit "b") ++ lit ": [1e999, -0, 2.50], "
             ++ quoted (lit "7") ++ lit ":null } " in
  let v := JObj [ (lit "7", JNull);
                  (lit "b", JArr [ JNum (S754_infinity false);
                                   JNum (S754_zero true);
                                   JNum (dec 25 (-1)) ]) ] in
  blank raw = false /\ JSON_parse raw = Some v
  /\ GrammarCheck raw = JSON_stringify_2 v
  /\ JSON_parse (GrammarCheck raw) = Some (json_norm v)
  /\ JSON_stringify_2 (json_norm v) = JSON_stringify_2 v.
Proof.
  intros raw v.
  assert (H1 : blank raw = false) by (vm_compute; reflexivity).
  assert (H2 : JSON_parse raw = Some v) by (vm_compute; reflexivity).
  split; [exact H1|]. split; [exact H2|].
  exact (GrammarCheck_same_value raw v H1 H2).
Defined.

(** ** More on [PromtOptionsParse] *)

Lemma key_outcome_check (use : Use) (input : obj) (all : bool) (k : str) :
  key_outcome (schema_of use) (defaults_of use) input all k =
  if field_check use k (js_get input k) then Some (js_get input k)
  else if all then Some (js_get (defaults_of use) k) else None.
Proof.
  unfold key_outcome. fold (field_check use k (js_get input k)).
  destruct (is_undefined (js_get input k)) eqn:E; [|reflexivity].
  destruct (field_check use k (js_get input k)) eqn:C; [|reflexivity].
  apply field_check_defined in C. congruence.
Qed.

(** X4.  Validating a validated record changes nothing: the record that
    [PromtOptionsParse] returns, validated again with the flag [b], is the
    record of the first input validated with the flag [a || b]; with one
    and the same flag [PromtOptionsParse] is idempotent. *)
Theorem PromtOptionsParse_twice (use : Use) (raw : option obj) (a b : bool) :
  PromtOptionsParse use (Some (PromtOptionsParse use raw a)) b
  = PromtOptionsParse use raw (a || b)
  /\ PromtOptionsParse use (Some (PromtOptionsParse use raw a)) a
     = PromtOptionsParse use raw a.
Proof.
  assert (G : forall b',
             PromtOptionsParse use (Some (PromtOptionsParse use raw a)) b'
             = PromtOptionsParse use raw (a || b')).
  { intros b'. set (o := PromtOptionsParse use raw a).
    set (input := input_of raw).
    assert (Hget : forall k, In k (List.map fst (defaults_of use)) ->
               js_get o k =
               if field_check use k (js_get input k) then js_get input k
               else if a then js_get (defaults_of use) k else JUndef).
    { intros k Hk. unfold js_get at 1. unfold o.
      rewrite PromtOptionsParse_lookup. fold input.
      apply existsb_str_eqb_In in Hk. rewrite Hk, key_outcome_check.
      destruct (field_check use k (js_get input k)); [reflexivity|].
      now destruct a. }
    assert (Hseed : js_get o (lit "seed") =
                    if field_check use (lit "seed") (js_get input (lit "seed"))
                    then js_get input (lit "seed") else JUndef).
    { unfold js_get at 1. unfold o. rewrite PromtOptionsParse_lookup. fold input.
      replace (existsb (str_eqb (lit "seed")) (List.map fst (defaults_of use)))
        with false by now destruct use.
      rewrite str_eqb_refl. unfold defined.
      destruct (field_check use (lit "seed") (js_get input (lit "seed"))) eqn:C.
      - apply field_check_defined in C. now rewrite C.
      - now rewrite andb_false_r. }
    rewrite (PromtOptionsParse_unfold use (Some o) b').
    rewrite (PromtOptionsParse_unfold use raw (a || b')).
    cbv zeta. cbn [input_of]. fold input.
    assert (Hfold :
      fold_left (PromtOptionsParse_key (schema_of use) (defaults_of use) o b')
        (List.map fst (defaults_of use)) []
      = fold_left
          (PromtOptionsParse_key (schema_of use) (defaults_of use) input (a || b'))
          (List.map fst (defaults_of use)) []).
    { apply fold_left_ext_In. intros acc k Hk.
      rewrite !PromtOptionsParse_key_outcome, !key_outcome_check, (Hget k Hk).
      destruct (field_check use k (js_get input k)) eqn:C.
      - now rewrite C.
      - destruct a.
        + now rewrite (default_valid use k Hk).
        + now rewrite field_check_undefined. }
    rewrite Hfold, Hseed.
    destruct (field_check use (lit "seed") (js_get input (lit "seed"))) eqn:C.
    - now rewrite C.
    - rewrite andb_false_r. reflexivity. }
  split; [apply G|]. rewrite G. now rewrite orb_diag.
Qed.

Lemma fold_keys_entries schema defaults input all (ks : list str) :
  NoDup ks -> (forall k, In k ks -> array_index k = None) ->
  forall result,
    (forall k, In k ks -> prop_lookup result k = None) ->
    fold_left (PromtOptionsParse_key schema defaults input all) ks result =
    result
    ++ flat_map
         (fun k => match key_outcome schema defaults input all k with
                   | Some v => [(k, v)]
                   | None => []
                   end) ks.
Proof.
  induction 1 as [|k ks Hk Hks IH]; intros Hix result Hr; cbn [fold_left flat_map].
  - now rewrite app_nil_r.
  - rewrite PromtOptionsParse_key_outcome.
    assert (Hix' : forall k', In k' ks -> array_index k' = None)
      by (intros k' Hk'; apply Hix; now right).
    destruct (key_outcome schema defaults input all k) as [v|].
    + rewrite prop_set_fresh by (apply Hr || apply Hix; now left).
      rewrite IH; [|exact Hix'|].
      * now rewrite <- app_assoc.
      * intros k' Hk'. rewrite prop_lookup_app, Hr by now right.
        cbn [prop_lookup]. destruct (str_eqb k k') eqn:E; [|reflexivity].
        apply str_eqb_eq in E. subst k'. contradiction.
    + rewrite IH; [reflexivity|exact Hix'|]. intros k' Hk'. apply Hr. now right.
Qed.

Lemma defaults_NoDup (use : Use) : NoDup (List.map fst (defaults_of use)).
Proof.
  assert (H := PromtOptionsParse_NoDup use None true).
  replace (List.map fst (PromtOptionsParse use None true))
    with (List.map fst (defaults_of use)) in H by (destruct use; reflexivity).
  exact H.
Qed.

Lemma field_names_index (use : Use) (k : str) :
  In k (field_names use) -> array_index k = None.
Proof.
  intros Hk. assert (H := field_names_plain use). rewrite forallb_forall in H.
  specialize (H k Hk). unfold field_name in H.
  apply andb_true_iff in H as [H _]. apply andb_true_iff in H as [H _].
  apply andb_true_iff in H as [_ H]. now destruct (array_index k).
Qed.

(** X5.  The record that [PromtOptionsParse] returns lists the fields in
    the order of the table of defaults, and [seed] last.  With
    [useAllOptions] every field of the table is there, and [seed] when
    the input has a valid one; without it the fields are those whose
    input value passes the check. *)
Theorem PromtOptionsParse_keys (use : Use) (raw : option obj) :
  let valid k := field_check use k (js_get (input_of raw) k) in
  List.map fst (PromtOptionsParse use raw true)
  = List.map fst (defaults_of use) ++ filter valid [lit "seed"]
  /\ List.map fst (PromtOptionsParse use raw false)
     = filter valid (field_names use).
Proof.
  intros valid.
  assert (G : forall all,
             List.map fst (PromtOptionsParse use raw all)
             = filter (fun k => valid k || all) (List.map fst (defaults_of use))
               ++ filter valid [lit "seed"]).
  { intros all. rewrite PromtOptionsParse_unfold. cbv zeta.
    rewrite fold_keys_entries;
      [|apply defaults_NoDup
       |intros k Hk; apply (field_names_index use); unfold field_names;
        apply in_or_app; now left
       |reflexivity].
    cbn [app].
    set (entries := flat_map _ _).
    assert (He : List.map fst entries
                 = filter (fun k => valid k || all) (List.map fst (defaults_of use))).
    { unfold entries. clear.
      induction (List.map fst (defaults_of use)) as [|k ks IH]; [reflexivity|].
      cbn [flat_map filter]. rewrite map_app, IH, key_outcome_check.
      unfold valid.
      destruct (field_check use k (js_get (input_of raw) k)); [reflexivity|].
      now destruct all. }
    cbn [filter]. unfold valid at 2.
    destruct (field_check use (lit "seed") (js_get (input_of raw) (lit "seed")))
      eqn:C.
    - assert (Hd := field_check_defined use _ _ C). rewrite Hd. cbn [negb andb].
      rewrite prop_set_fresh.
      + now rewrite map_app, He.
      + apply prop_lookup_None. rewrite He. intros Hin.
        apply filter_In in Hin as [Hin _].
        now apply (seed_not_default use) in Hin.
      + reflexivity.
    - rewrite andb_false_r, app_nil_r. exact He. }
  split.
  - rewrite G. f_equal. clear.
    induction (List.map fst (defaults_of use)) as [|k ks IH]; [reflexivity|].
    cbn [filter]. now rewrite orb_true_r, IH.
  - rewrite G. unfold field_names. rewrite filter_app. f_equal.
    apply filter_ext. intros k. apply orb_false_r.
Qed.

(** ** The records that [PromtLoad] returns *)

(** X6.  Every record that [PromtLoad] returns is well formed: its [user]
    text is not empty; [user], [system] and the texts of the segments are
    trimmed; the options hold fields of the profile only, each once and
    with a value that passes the check of the field; the grammar is not
    empty and is a text that [GrammarCheck] leaves unchanged; the names
    of the segments are distinct, trimmed and not empty. *)
Theorem PromtLoad_records (raw : str) (use : Use) :
  Forall
    (fun r =>
       user r <> [] /\ trim (user r) = user r
       /\ opt_all (fun s => trim s = s) (system r)
       /\ opt_all
            (fun o =>
               NoDup (List.map fst o)
               /\ Forall (fun kv => In (fst kv) (field_names use)
                                    /\ field_check use (fst kv) (snd kv) = true) o)
            (options r)
       /\ opt_all (fun g => g <> [] /\ GrammarCheck g = g) (grammar r)
       /\ opt_all
            (fun sg =>
               NoDup (List.map fst sg)
               /\ Forall (fun kv => fst kv <> [] /\ trim (fst kv) = fst kv
                                    /\ trim (snd kv) = snd kv) sg)
            (segment r))
    (PromtLoad raw use).
Proof.
  eapply Forall_impl; [|apply PromtLoad_parsed].
  intros r [Hu [Hsys [Husr [Hopt [Hseg Hgr]]]]].
  split; [exact Hu|]. split; [apply Husr|]. split; [|split; [|split]].
  - destruct (system r); [apply Hsys|exact I].
  - destruct (options r) as [o|]; [|exact I]. cbn [opt_all] in *.
    destruct (parsed_options_entries use o Hopt) as [Hnd Hent].
    split; [exact Hnd|]. eapply Forall_impl; [|exact Hent].
    intros kv [H1 [H2 _]]. now split.
  - destruct (grammar r) as [g|]; [|exact I]. cbn [opt_all] in *.
    split; [apply Hgr|now apply GrammarCheck_fixed].
  - destruct (segment r) as [sg|]; [|exact I]. cbn [opt_all] in *.
    destruct Hseg as [_ [Hnd Hf]]. split; [exact Hnd|].
    eapply Forall_impl; [|exact Hf].
    intros kv [_ [[Hne [Ht _]] [Hs _]]]. auto.
Qed.

(** ** Option lines *)

(** X7.  The line that [serializeOptionValue] writes for a property of a
    parsed options record is read back as this property, unless its value
    is the number 0 or 1: the line binds the name of the field to the
    value, and [parseOptionsToObject] reads the line as the record with
    this one property. *)
Theorem serializeOptionValue_read_back (use : Use) (content : str)
  (kv : str * jsval) :
  In kv (PromtOptionsParse use (Some (parseOptionsToObject content)) false) ->
  zero_or_one (snd kv) = false ->
  line_binding (serializeOptionValue (fst kv) (snd kv)) = Some kv
  /\ parseOptionsToObject (serializeOptionValue (fst kv) (snd kv)) = [kv].
Proof.
  intros Hin H01.
  assert (Hp : parsed_options use
                 (PromtOptionsParse use (Some (parseOptionsToObject content)) false))
    by now exists content.
  destruct (parsed_options_entries use _ Hp) as [_ Hent].
  rewrite Forall_forall in Hent. destruct (Hent kv Hin) as [Hk [Hc Hv]].
  rewrite serializeOptionValue_line.
  assert (Hb := line_binding_option_line use kv Hk Hc Hv H01).
  split; [exact Hb|].
  destruct (option_line_ok use kv Hk Hc) as [Hone _].
  unfold parseOptionsToObject. rewrite (split_one _ Hone). cbn [fold_left].
  rewrite parseOptionsToObject_line_binding, Hb.
  destruct kv as [k v]. cbn [fst] in Hk.
  assert (Hn := field_names_plain use). rewrite forallb_forall in Hn.
  specialize (Hn k Hk). unfold field_name in Hn.
  apply andb_true_iff in Hn as [Hn _]. apply andb_true_iff in Hn as [Hn Hpr].
  apply andb_true_iff in Hn as [_ Hix]. apply negb_true_iff in Hpr.
  unfold js_set. rewrite Hpr. reflexivity.
Qed.

Lemma serializeOptionValue_read_back_witness :
  let content := text [lit "seed = 1e21"; lit "minP=,5"; lit "stopSequences=[]"] in
  let kv := (lit "seed", JNum (dec 1 21)) in
  In kv (PromtOptionsParse json (Some (parseOptionsToObject content)) false)
  /\ zero_or_one (snd kv) = false
  /\ line_binding (serializeOptionValue (fst kv) (snd kv)) = Some kv
  /\ parseOptionsToObject (serializeOptionValue (fst kv) (snd kv)) = [kv].
Proof.
  intros content kv.
  assert (H1 : In kv (PromtOptionsParse json (Some (parseOptionsToObject content))
                        false))
    by (vm_compute; tauto).
  assert (H2 : zero_or_one (snd kv) = false) by (vm_compute; reflexivity).
  split; [exact H1|]. split; [exact H2|].
  exact (serializeOptionValue_read_back json content kv H1 H2).
Defined.

(** ** Text outside the blocks *)

Lemma parse_line_outside use (out : list TPromt) (line : str) :
  trim line <> lit "$$begin" -> parse_line use (outside out) line = outside out.
Proof.
  intros H. unfold parse_line. cbv zeta.
  apply str_eqb_neq in H. rewrite H.
  destruct (str_eqb (trim line) (lit "$$end")); reflexivity.
Qed.

Lemma run_outside use (out : list TPromt) (lines : list str) :
  Forall (fun l => trim l <> lit "$$begin") lines ->
  run use (outside out) lines = outside out.
Proof.
  intros H. induction H as [|l lines Hl Hlines IH]; [reflexivity|].
  unfold run in *. cbn [fold_left]. now rewrite parse_line_outside.
Qed.

(** X8.  Text outside the blocks is ignored: the lines before the first
    [$$begin], and the lines between the [$$end] of a block and the next
    [$$begin] (or the end of the input), change nothing of what
    [PromtLoad] returns. *)
Theorem PromtLoad_outside_blocks (use : Use) (pre body mid post : str) :
  Forall (fun l => trim l <> lit "$$begin") (split newline pre) ->
  Forall (fun l => trim l <> lit "$$begin") (split newline mid) ->
  PromtLoad (pre ++ [newline] ++ post) use = PromtLoad post use
  /\ PromtLoad (body ++ [newline] ++ lit "$$end" ++ [newline] ++ mid
                ++ [newline] ++ post) use
     = PromtLoad (body ++ [newline] ++ lit "$$end" ++ [newline] ++ post) use
  /\ PromtLoad (body ++ [newline] ++ lit "$$end" ++ [newline] ++ mid) use
     = PromtLoad (body ++ [newline] ++ lit "$$end") use.
Proof.
  intros Hpre Hmid. rewrite !PromtLoad_run. cbn [app]. rewrite !split_app.
  change (split newline (lit "$$end")) with [lit "$$end"].
  rewrite !run_app. change parse_init with (outside []).
  rewrite (run_outside use [] _ Hpre).
  set (st := run use (outside []) (split newline body)).
  change (run use st [lit "$$end"]) with (parse_line use st (lit "$$end")).
  rewrite parse_line_end. fold (outside (close_block use st)).
  rewrite (run_outside use _ _ Hmid). repeat split; reflexivity.
Qed.

Lemma PromtLoad_outside_blocks_witness :
  let pre := text [lit "# prompts"; lit "$$user"; lit "not in a block"; lit "$$end"] in
  let body := text [lit "$$begin"; lit "$$user"; lit "one"] in
  let mid := text [lit ""; lit "$$system"; lit "between the blocks"] in
  let post := text [lit "$$begin"; lit "$$user"; lit "two"; lit "$$end"] in
  Forall (fun l => trim l <> lit "$$begin") (split newline pre)
  /\ Forall (fun l => trim l <> lit "$$begin") (split newline mid)
  /\ PromtLoad (pre ++ [newline] ++ post) core = PromtLoad post core
  /\ PromtLoad (body ++ [newline] ++ lit "$$end" ++ [newline] ++ mid
                ++ [newline] ++ post) core
     = PromtLoad (body ++ [newline] ++ lit "$$end" ++ [newline] ++ post) core
  /\ PromtLoad (body ++ [newline] ++ lit "$$end" ++ [newline] ++ mid) core
     = PromtLoad (body ++ [newline] ++ lit "$$end") core.
Proof.
  intros pre body mid post.
  assert (H1 : Forall (fun l => trim l <> lit "$$begin") (split newline pre)).
  { vm_compute. repeat constructor; discriminate. }
  assert (H2 : Forall (fun l => trim l <> lit "$$begin") (split newline mid)).
  { vm_compute. repeat constructor; discriminate. }
  split; [exact H1|]. split; [exact H2|].
  exact (PromtLoad_outside_blocks core pre body mid post H1 H2).
Defined.
